(** * Hide 'n' Seek server: the room state machine and its schedulers

    A shallow embedding of the [Player] and [Room] classes and of the socket
    handlers of the refactored [server.js], followed by the properties of the
    room state machine.

    Conventions of the embedding.
    - JS numbers that the server only ever uses as integers are [Z]; the one
      true division ([timeRemainingMs / totalPlaysLeft]) is the division of
      IEEE 754 doubles, and its result is kept as the rational it denotes.
    - [this.players] is a JS object keyed by socket id and iterated in
      insertion order: an association list whose key is [Player.id].  Socket
      ids are not array-index-like strings, so property order is insertion
      order.
    - [Array.prototype.sort] is stable: an insertion sort on [number].
    - The two [Set]s of assigned sounds are [gset string].
    - A timer handle is [true] (or [Some delay]) while the timer is armed.
    - Everything a method emits through [io] or [socket] is returned as a
      list of [Emit]s, oldest first.  [console.log] output is not modelled.
    - [Date.now()] and [Math.random()] are inputs of the methods that call
      them. *)

From stdpp Require Import base decidable option list strings gmap sorting.
From Stdlib Require Import ZArith QArith Qminmax Lia.
From Stdlib Require Floats.SpecFloat.

#[local] Close Scope Q_scope.
#[local] Open Scope string_scope.
#[local] Open Scope Z_scope.
#[local] Set Warnings "-clear-no-such-hyp".

(** ** Constants & configuration *)

Definition MIN_PLAYERS_TO_START : Z := 2.
Definition DEFAULT_SEEK_TIME_LIMIT_S : Z := 120.
Definition MIN_SEEK_TIME_LIMIT_S : Z := 15.
Definition MAX_SEEK_TIME_LIMIT_S : Z := 600.
Definition DEFAULT_SOUND_PLAYS_PER_PLAYER : Z := 6.
Definition MIN_SOUND_PLAYS : Z := 1.
Definition MAX_SOUND_PLAYS : Z := 20.
Definition PRE_SEEK_COUNTDOWN_S : Z := 10.
Definition MIN_SOUND_DELAY_MS : Z := 1000.
Definition CHECK_INTERVAL_WHEN_NO_SOUNDS_MS : Z := 1500.

Module GAME_STATE.
Inductive t := WAITING | HIDING | SEEKING | GAME_OVER.
#[global] Instance eq_dec : EqDecision t.
Proof. solve_decision. Defined.

(** The string each state stands for. *)
Definition to_string (s : t) : string :=
  match s with
  | WAITING => "Waiting"
  | HIDING => "Hiding"
  | SEEKING => "Seeking"
  | GAME_OVER => "GameOver"
  end.
End GAME_STATE.

Module PLAYER_ROLE.
Inductive t := HIDER | SEEKER.
#[global] Instance eq_dec : EqDecision t.
Proof. solve_decision. Defined.
End PLAYER_ROLE.

Module WINNER_TYPE.
Inductive t := HIDER | SEEKERS.
#[global] Instance eq_dec : EqDecision t.
Proof. solve_decision. Defined.
End WINNER_TYPE.

Definition BASE_ANIMAL_SOUNDS : list string :=
  [ "/sounds/cat.mp3"; "/sounds/chicken.mp3"; "/sounds/cow.mp3"; "/sounds/dog.mp3";
    "/sounds/donkey.mp3"; "/sounds/horse.mp3"; "/sounds/sheep.mp3"; "/sounds/bird.mp3" ].

Definition BASE_UNFOUND_SOUNDS : list string :=
  [ "/sounds/unfound1.mp3"; "/sounds/unfound2.mp3"; "/sounds/unfound3.mp3"; "/sounds/unfound4.mp3";
    "/sounds/unfound5.mp3"; "/sounds/unfound6.mp3"; "/sounds/unfound7.mp3"; "/sounds/unfound8.mp3" ].

Definition NUM_UNIQUE_SOUND_PAIRS : Z :=
  Z.min (Z.of_nat (length BASE_ANIMAL_SOUNDS)) (Z.of_nat (length BASE_UNFOUND_SOUNDS)).

(** ** JS helpers *)

(** [arr[i]] for an integer [i]: [undefined] when out of range. *)
Definition js_index {A} (l : list A) (i : Z) : option A :=
  if decide (0 ≤ i) then l !! Z.to_nat i else None.

(** A JS number is an IEEE 754 double: precision 53, exponents below 1024.
    An integer becomes the nearest double (itself, below [2 ^ 53]). *)
Definition toDouble (n : Z) : SpecFloat.spec_float :=
  SpecFloat.binary_normalize 53 1024 n 0 false.

(** The rational that a finite double denotes, in lowest terms.  The other
    doubles ([Infinity], [NaN]) read as 0; a quotient of integers [a / b]
    with [b] not 0 and [a] below [2 ^ 1024] is finite. *)
Definition ofDouble (x : SpecFloat.spec_float) : Q :=
  match x with
  | SpecFloat.S754_finite s m e =>
      let n := if s then Z.neg m else Z.pos m in
      Qred (if decide (0 ≤ e) then inject_Z (n * 2 ^ e) else Qmake n (Z.to_pos (2 ^ (- e))))
  | _ => 0%Q
  end.

(** [a / b] for two integers: the quotient rounded to the nearest double,
    ties to even. *)
Definition jsDivide (a b : Z) : Q :=
  ofDouble (SpecFloat.SFdiv 53 1024 (toDouble a) (toDouble b)).

(** What a method call does: it returns or throws; in both cases the
    mutations made so far stay. *)
Inductive Outcome (A : Type) :=
| Return (a : A)
| Throw (message : string).
Arguments Return {A} a.
Arguments Throw {A} message.

(** A field of the [settings] payload, classified by what [parseInt(_, 10)]
    makes of it.  A missing payload ([settings?.x]) reads as [undefined]. *)
Inductive JsField :=
| undefined
| notNumeric            (* defined, and parseInt gives NaN *)
| numeric (n : Z).      (* defined, and parseInt gives n *)

#[global] Instance JsField_eq_dec : EqDecision JsField.
Proof. solve_decision. Defined.

Definition parseInt (v : JsField) : option Z :=
  match v with numeric n => Some n | _ => None end.

Record Settings := mkSettings {
  settings_seekTimeLimit : JsField;
  settings_soundPlaysPerPlayer : JsField }.

(** ** Player class *)

Module Player.
Record t := mk {
  id : string;
  number : Z;
  role : PLAYER_ROLE.t;
  isReady : bool;
  isFound : bool;
  soundsPlayed : Z;
  uniqueAnimalSoundURL : option string;
  uniqueUnfoundSoundURL : option string }.

Definition new (id : string) (number : Z) (role : PLAYER_ROLE.t) : t :=
  mk id number role false false 0 None None.

Definition set_role (x : PLAYER_ROLE.t) (p : t) : t :=
  mk (id p) (number p) x (isReady p) (isFound p) (soundsPlayed p)
     (uniqueAnimalSoundURL p) (uniqueUnfoundSoundURL p).
Definition set_isReady (x : bool) (p : t) : t :=
  mk (id p) (number p) (role p) x (isFound p) (soundsPlayed p)
     (uniqueAnimalSoundURL p) (uniqueUnfoundSoundURL p).
Definition set_isFound (x : bool) (p : t) : t :=
  mk (id p) (number p) (role p) (isReady p) x (soundsPlayed p)
     (uniqueAnimalSoundURL p) (uniqueUnfoundSoundURL p).
Definition set_soundsPlayed (x : Z) (p : t) : t :=
  mk (id p) (number p) (role p) (isReady p) (isFound p) x
     (uniqueAnimalSoundURL p) (uniqueUnfoundSoundURL p).
Definition set_sounds (a u : option string) (p : t) : t :=
  mk (id p) (number p) (role p) (isReady p) (isFound p) (soundsPlayed p) a u.

Definition resetForNewGame (p : t) : t :=
  set_soundsPlayed 0 (set_isFound false (set_isReady false p)).

Definition resetForSeeking (p : t) : t :=
  set_soundsPlayed 0 (set_isReady false p).

(** [getClientState]: [soundsPlayed] is left out on purpose. *)
Record ClientState := mkClient {
  c_id : string;
  c_number : Z;
  c_role : PLAYER_ROLE.t;
  c_isReady : bool;
  c_isFound : bool;
  c_uniqueAnimalSoundURL : option string;
  c_uniqueUnfoundSoundURL : option string }.

Definition getClientState (p : t) : ClientState :=
  mkClient (id p) (number p) (role p) (isReady p) (isFound p)
           (uniqueAnimalSoundURL p) (uniqueUnfoundSoundURL p).
End Player.

(** ** What the server sends *)

Record ClientState := mkClientState {
  c_roomCode : string;
  c_players : list Player.ClientState;
  c_gameState : GAME_STATE.t;
  c_seekTimeLimit : Z;
  c_soundPlaysPerPlayer : Z;
  c_seekStartTime : option Z;
  c_winner : option WINNER_TYPE.t;
  c_activeUnfoundPlayerId : option string }.

Inductive Emit :=
| updateState (state : ClientState)                     (* to the whole room *)
| preSeekCountdown (value : Z)                          (* to the whole room *)
| playVictoryMelody                                     (* to the whole room *)
| playSound (to : string) (soundURL : string)           (* to one socket *)
| becomeActiveUnfound (to : string) (soundURL : string) (* to one socket *)
| errorMsg (to : string) (message : string).            (* to one socket *)

(** ** Room class *)

Module Room.
(** The fields of the constructor, without [io].  [soundRotationTimeout]
    remembers the delay the pending timeout was armed with. *)
Record t := mk {
  roomCode : string;
  players : list Player.t;
  gameState : GAME_STATE.t;
  seekTimeLimit : Z;
  soundPlaysPerPlayer : Z;
  seekTimerInterval : bool;
  seekStartTime : option Z;
  winner : option WINNER_TYPE.t;
  preSeekCountdownInterval : bool;
  preSeekCountdownValue : Z;
  soundRotationTimeout : option Q;
  nextPlayerIndexToPlay : Z;
  assignedAnimalSounds : gset string;
  assignedUnfoundSounds : gset string;
  unfoundPlayerQueue : list string;
  activeUnfoundPlayerId : option string }.

Definition set_players (x : list Player.t) (r : t) : t :=
  mk (roomCode r) x (gameState r) (seekTimeLimit r) (soundPlaysPerPlayer r)
     (seekTimerInterval r) (seekStartTime r) (winner r) (preSeekCountdownInterval r)
     (preSeekCountdownValue r) (soundRotationTimeout r) (nextPlayerIndexToPlay r)
     (assignedAnimalSounds r) (assignedUnfoundSounds r) (unfoundPlayerQueue r)
     (activeUnfoundPlayerId r).
Definition set_gameState (x : GAME_STATE.t) (r : t) : t :=
  mk (roomCode r) (players r) x (seekTimeLimit r) (soundPlaysPerPlayer r)
     (seekTimerInterval r) (seekStartTime r) (winner r) (preSeekCountdownInterval r)
     (preSeekCountdownValue r) (soundRotationTimeout r) (nextPlayerIndexToPlay r)
     (assignedAnimalSounds r) (assignedUnfoundSounds r) (unfoundPlayerQueue r)
     (activeUnfoundPlayerId r).
Definition set_seekTimeLimit (x : Z) (r : t) : t :=
  mk (roomCode r) (players r) (gameState r) x (soundPlaysPerPlayer r) (seekTimerInterval
     r) (seekStartTime r) (winner r) (preSeekCountdownInterval r) (preSeekCountdownValue
     r) (soundRotationTimeout r) (nextPlayerIndexToPlay r) (assignedAnimalSounds r)
     (assignedUnfoundSounds r) (unfoundPlayerQueue r) (activeUnfoundPlayerId r).
Definition set_soundPlaysPerPlayer (x : Z) (r : t) : t :=
  mk (roomCode r) (players r) (gameState r) (seekTimeLimit r) x (seekTimerInterval r)
     (seekStartTime r) (winner r) (preSeekCountdownInterval r) (preSeekCountdownValue r)
     (soundRotationTimeout r) (nextPlayerIndexToPlay r) (assignedAnimalSounds r)
     (assignedUnfoundSounds r) (unfoundPlayerQueue r) (activeUnfoundPlayerId r).
Definition set_seekTimerInterval (x : bool) (r : t) : t :=
  mk (roomCode r) (players r) (gameState r) (seekTimeLimit r) (soundPlaysPerPlayer r) x
     (seekStartTime r) (winner r) (preSeekCountdownInterval r) (preSeekCountdownValue r)
     (soundRotationTimeout r) (nextPlayerIndexToPlay r) (assignedAnimalSounds r)
     (assignedUnfoundSounds r) (unfoundPlayerQueue r) (activeUnfoundPlayerId r).
Definition set_seekStartTime (x : option Z) (r : t) : t :=
  mk (roomCode r) (players r) (gameState r) (seekTimeLimit r) (soundPlaysPerPlayer r)
     (seekTimerInterval r) x (winner r) (preSeekCountdownInterval r)
     (preSeekCountdownValue r) (soundRotationTimeout r) (nextPlayerIndexToPlay r)
     (assignedAnimalSounds r) (assignedUnfoundSounds r) (unfoundPlayerQueue r)
     (activeUnfoundPlayerId r).
Definition set_winner (x : option WINNER_TYPE.t) (r : t) : t :=
  mk (roomCode r) (players r) (gameState r) (seekTimeLimit r) (soundPlaysPerPlayer r)
     (seekTimerInterval r) (seekStartTime r) x (preSeekCountdownInterval r)
     (preSeekCountdownValue r) (soundRotationTimeout r) (nextPlayerIndexToPlay r)
     (assignedAnimalSounds r) (assignedUnfoundSounds r) (unfoundPlayerQueue r)
     (activeUnfoundPlayerId r).
Definition set_preSeekCountdownInterval (x : bool) (r : t) : t :=
  mk (roomCode r) (players r) (gameState r) (seekTimeLimit r) (soundPlaysPerPlayer r)
     (seekTimerInterval r) (seekStartTime r) (winner r) x (preSeekCountdownValue r)
     (soundRotationTimeout r) (nextPlayerIndexToPlay r) (assignedAnimalSounds r)
     (assignedUnfoundSounds r) (unfoundPlayerQueue r) (activeUnfoundPlayerId r).
Definition set_preSeekCountdownValue (x : Z) (r : t) : t :=
  mk (roomCode r) (players r) (gameState r) (seekTimeLimit r) (soundPlaysPerPlayer r)
     (seekTimerInterval r) (seekStartTime r) (winner r) (preSeekCountdownInterval r) x
     (soundRotationTimeout r) (nextPlayerIndexToPlay r) (assignedAnimalSounds r)
     (assignedUnfoundSounds r) (unfoundPlayerQueue r) (activeUnfoundPlayerId r).
Definition set_soundRotationTimeout (x : option Q) (r : t) : t :=
  mk (roomCode r) (players r) (gameState r) (seekTimeLimit r) (soundPlaysPerPlayer r)
     (seekTimerInterval r) (seekStartTime r) (winner r) (preSeekCountdownInterval r)
     (preSeekCountdownValue r) x (nextPlayerIndexToPlay r) (assignedAnimalSounds r)
     (assignedUnfoundSounds r) (unfoundPlayerQueue r) (activeUnfoundPlayerId r).
Definition set_nextPlayerIndexToPlay (x : Z) (r : t) : t :=
  mk (roomCode r) (players r) (gameState r) (seekTimeLimit r) (soundPlaysPerPlayer r)
     (seekTimerInterval r) (seekStartTime r) (winner r) (preSeekCountdownInterval r)
     (preSeekCountdownValue r) (soundRotationTimeout r) x (assignedAnimalSounds r)
     (assignedUnfoundSounds r) (unfoundPlayerQueue r) (activeUnfoundPlayerId r).
Definition set_assignedAnimalSounds (x : gset string) (r : t) : t :=
  mk (roomCode r) (players r) (gameState r) (seekTimeLimit r) (soundPlaysPerPlayer r)
     (seekTimerInterval r) (seekStartTime r) (winner r) (preSeekCountdownInterval r)
     (preSeekCountdownValue r) (soundRotationTimeout r) (nextPlayerIndexToPlay r) x
     (assignedUnfoundSounds r) (unfoundPlayerQueue r) (activeUnfoundPlayerId r).
Definition set_assignedUnfoundSounds (x : gset string) (r : t) : t :=
  mk (roomCode r) (players r) (gameState r) (seekTimeLimit r) (soundPlaysPerPlayer r)
     (seekTimerInterval r) (seekStartTime r) (winner r) (preSeekCountdownInterval r)
     (preSeekCountdownValue r) (soundRotationTimeout r) (nextPlayerIndexToPlay r)
     (assignedAnimalSounds r) x (unfoundPlayerQueue r) (activeUnfoundPlayerId r).
Definition set_unfoundPlayerQueue (x : list string) (r : t) : t :=
  mk (roomCode r) (players r) (gameState r) (seekTimeLimit r) (soundPlaysPerPlayer r)
     (seekTimerInterval r) (seekStartTime r) (winner r) (preSeekCountdownInterval r)
     (preSeekCountdownValue r) (soundRotationTimeout r) (nextPlayerIndexToPlay r)
     (assignedAnimalSounds r) (assignedUnfoundSounds r) x (activeUnfoundPlayerId r).
Definition set_activeUnfoundPlayerId (x : option string) (r : t) : t :=
  mk (roomCode r) (players r) (gameState r) (seekTimeLimit r) (soundPlaysPerPlayer r)
     (seekTimerInterval r) (seekStartTime r) (winner r) (preSeekCountdownInterval r)
     (preSeekCountdownValue r) (soundRotationTimeout r) (nextPlayerIndexToPlay r)
     (assignedAnimalSounds r) (assignedUnfoundSounds r) (unfoundPlayerQueue r) x.


Definition new (roomCode : string) : t :=
  mk roomCode [] GAME_STATE.WAITING DEFAULT_SEEK_TIME_LIMIT_S
     DEFAULT_SOUND_PLAYS_PER_PLAYER false None None false PRE_SEEK_COUNTDOWN_S
     None 0 ∅ ∅ [] None.

(** *** The [players] object *)

(** [players[socketId]] *)
Fixpoint lookupPlayer (socketId : string) (ps : list Player.t) : option Player.t :=
  match ps with
  | [] => None
  | p :: ps' => if decide (Player.id p = socketId) then Some p else lookupPlayer socketId ps'
  end.

(** [delete players[socketId]] *)
Definition deletePlayer (socketId : string) (ps : list Player.t) : list Player.t :=
  filter (λ p, Player.id p ≠ socketId) ps.

(** A write through a reference to the player object stored under
    [socketId]. *)
Definition updatePlayer (socketId : string) (f : Player.t → Player.t)
    (ps : list Player.t) : list Player.t :=
  (λ p, if decide (Player.id p = socketId) then f p else p) <$> ps.

(** [.sort((a, b) => a.number - b.number)], stable. *)
Fixpoint insertByNumber (p : Player.t) (l : list Player.t) : list Player.t :=
  match l with
  | [] => [p]
  | q :: l' =>
      if decide (Player.number p ≤ Player.number q) then p :: l
      else q :: insertByNumber p l'
  end.

Definition sortByNumber (l : list Player.t) : list Player.t :=
  foldr insertByNumber [] l.

(** [i = queue.indexOf(x); if (i > -1) queue.splice(i, 1)] *)
Fixpoint spliceFirst (x : string) (queue : list string) : list string :=
  match queue with
  | [] => []
  | y :: queue' => if decide (y = x) then queue' else y :: spliceFirst x queue'
  end.

Definition isEmpty (r : t) : bool :=
  match players r with [] => true | _ => false end.

Definition getPlayer (socketId : string) (r : t) : option Player.t :=
  lookupPlayer socketId (players r).

Definition getPlayerCount (r : t) : Z := Z.of_nat (length (players r)).

(** *** Utility & state management *)

Definition clearGameIntervals (r : t) : t :=
  let r := set_preSeekCountdownInterval false r in
  let r := set_seekTimerInterval false r in
  let r := set_soundRotationTimeout None r in
  set_nextPlayerIndexToPlay 0 r.

Definition getClientState (r : t) : ClientState :=
  mkClientState (roomCode r) (Player.getClientState <$> players r) (gameState r)
    (seekTimeLimit r) (soundPlaysPerPlayer r) (seekStartTime r) (winner r)
    (activeUnfoundPlayerId r).

Definition broadcastUpdateState (r : t) : list Emit :=
  [updateState (getClientState r)].

(** *** Player management *)

Definition _promoteNewHider (r : t) : t :=
  let remainingPlayers := sortByNumber (players r) in
  match remainingPlayers with
  | p0 :: _ =>
      set_players (updatePlayer (Player.id p0) (Player.set_role PLAYER_ROLE.HIDER) (players r)) r
  | [] => r
  end.

(** One of the two halves of [_assignUniqueSounds]: the sound picked from
    [pool] given the sounds in use; [draw] stands for
    [Math.floor(Math.random() * available.length)] before reduction to the
    range. *)
Definition pickSound (pool : list string) (assigned : gset string)
    (draw : nat) (number : Z) : option string :=
  let available := filter (λ s, s ∉ assigned) pool in
  if decide (0 < length available)%nat
  then available !! (draw mod length available)%nat
  else js_index pool (Z.rem (number - 1) NUM_UNIQUE_SOUND_PAIRS).

(** [Set.add] of what [pickSound] returned ([None] cannot occur with the
    pools above, see [pickSound_is_Some]). *)
Definition addSound (s : option string) (assigned : gset string) : gset string :=
  match s with Some u => assigned ∪ {[u]} | None => assigned end.

(** Returns the player with its sounds set, and the room with its
    assigned sets extended.  The caller stores the player. *)
Definition _assignUniqueSounds (draws : nat * nat) (player : Player.t) (r : t)
    : Player.t * t :=
  if decide (NUM_UNIQUE_SOUND_PAIRS > 0) then
    let animalSoundURL :=
      pickSound BASE_ANIMAL_SOUNDS (assignedAnimalSounds r) (fst draws) (Player.number player) in
    let r := set_assignedAnimalSounds (addSound animalSoundURL (assignedAnimalSounds r)) r in
    let unfoundSoundURL :=
      pickSound BASE_UNFOUND_SOUNDS (assignedUnfoundSounds r) (snd draws) (Player.number player) in
    let r := set_assignedUnfoundSounds (addSound unfoundSoundURL (assignedUnfoundSounds r)) r in
    (Player.set_sounds animalSoundURL unfoundSoundURL player, r)
  else (Player.set_sounds None None player, r).

Definition addPlayer (socketId : string) (draws : nat * nat) (r : t)
    : Outcome Player.t * t * list Emit :=
  if decide (gameState r ≠ GAME_STATE.WAITING)
  then (Throw "Cannot join room: Game has already started.", r, [])
  else if bool_decide (is_Some (getPlayer socketId r))
  then (Throw "Cannot join room: You are already in this room.", r, [])
  else
    let playerNumber := Z.of_nat (length (players r)) + 1 in
    let role := if decide (playerNumber = 1) then PLAYER_ROLE.HIDER else PLAYER_ROLE.SEEKER in
    let newPlayer := Player.new socketId playerNumber role in
    let '(newPlayer, r) := _assignUniqueSounds draws newPlayer r in
    (* the key is new (guard above), so the property is added last *)
    let r := set_players (players r ++ [newPlayer])%list r in
    (Return newPlayer, r, broadcastUpdateState r).

(** *** Game state & logic *)

(** A [throw] in the second half keeps the first half's write. *)
Definition updateSettings (settings : Settings) (r : t) : Outcome () * t * list Emit :=
  let inTimeRange (n : Z) := bool_decide (MIN_SEEK_TIME_LIMIT_S ≤ n ∧ n ≤ MAX_SEEK_TIME_LIMIT_S) in
  let inPlaysRange (n : Z) := bool_decide (MIN_SOUND_PLAYS ≤ n ∧ n ≤ MAX_SOUND_PLAYS) in
  let updated := false in
  let newTimeLimit := parseInt (settings_seekTimeLimit settings) in
  let step1 : option (t * bool) :=
    match newTimeLimit with
    | Some n =>
        if inTimeRange n then
          if decide (seekTimeLimit r ≠ n) then Some (set_seekTimeLimit n r, true)
          else Some (r, updated)
        else None
    | None =>
        if decide (settings_seekTimeLimit settings ≠ undefined) then None
        else Some (r, updated)
    end in
  match step1 with
  | None => (Throw "Invalid time limit. Must be between 15 and 600 seconds.", r, [])
  | Some (r, updated) =>
      let newSoundPlays := parseInt (settings_soundPlaysPerPlayer settings) in
      let step2 : option (t * bool) :=
        match newSoundPlays with
        | Some n =>
            if inPlaysRange n then
              if decide (soundPlaysPerPlayer r ≠ n)
              then Some (set_soundPlaysPerPlayer n r, true)
              else Some (r, updated)
            else None
        | None =>
            if decide (settings_soundPlaysPerPlayer settings ≠ undefined) then None
            else Some (r, updated)
        end in
      match step2 with
      | None => (Throw "Invalid sounds per phone. Must be between 1 and 20.", r, [])
      | Some (r, updated) =>
          (Return (), r, if updated then broadcastUpdateState r else [])
      end
  end.

Definition startHidingPhase (r : t) : Outcome () * t * list Emit :=
  if decide (gameState r ≠ GAME_STATE.WAITING)
  then (Throw "Game is not in Waiting state.", r, [])
  else if decide (getPlayerCount r < MIN_PLAYERS_TO_START)
  then (Throw "Need at least 2 players to start.", r, [])
  else
    let r := set_gameState GAME_STATE.HIDING r in
    let r := set_players (Player.resetForNewGame <$> players r) r in
    let r := clearGameIntervals r in
    let r := set_winner None r in
    let r := set_seekStartTime None r in
    (Return (), r, broadcastUpdateState r).

Definition _checkAllRemainingReady (r : t) : bool :=
  if isEmpty r then false else forallb Player.isReady (players r).

Definition startPreSeekCountdown (r : t) : t * list Emit :=
  if preSeekCountdownInterval r then (r, [])
  else
    let r := set_preSeekCountdownValue PRE_SEEK_COUNTDOWN_S r in
    let out := [preSeekCountdown (preSeekCountdownValue r)] in
    (set_preSeekCountdownInterval true r, out).

Definition confirmPlayerHidden (socketId : string) (r : t) : Outcome () * t * list Emit :=
  match getPlayer socketId r with
  | None => (Throw "Player not found in room.", r, [])
  | Some player =>
      if decide (gameState r ≠ GAME_STATE.HIDING)
      then (Throw "Not in Hiding phase.", r, [])
      else if Player.isReady player then (Return (), r, [])
      else
        let r := set_players (updatePlayer socketId (Player.set_isReady true) (players r)) r in
        if _checkAllRemainingReady r then
          let out := broadcastUpdateState r in
          let '(r, out') := startPreSeekCountdown r in
          (Return (), r, (out ++ out')%list)
        else (Return (), r, broadcastUpdateState r)
  end.

(** [activateNextUnfoundPlayer], by recursion on the queue it shifts.
    The room passed in has the queue [queue]; the game state is
    [GAME_OVER] throughout (the guard of the JS function holds at every
    recursive call once it held at the first). *)
Fixpoint activateNextFrom (queue : list string) (r : t) : t * list Emit :=
  let r := set_activeUnfoundPlayerId None r in
  match queue with
  | [] => (r, broadcastUpdateState r)
  | nextPlayerId :: rest =>
      let r := set_unfoundPlayerQueue rest r in
      let r := set_activeUnfoundPlayerId (Some nextPlayerId) r in
      match getPlayer nextPlayerId r with
      | Some player =>
          match Player.uniqueUnfoundSoundURL player with
          | Some soundURL =>
              (r, becomeActiveUnfound nextPlayerId soundURL :: broadcastUpdateState r)
          | None => activateNextFrom rest r
          end
      | None => activateNextFrom rest r
      end
  end.

Definition activateNextUnfoundPlayer (r : t) : t * list Emit :=
  if decide (gameState r ≠ GAME_STATE.GAME_OVER) then (r, [])
  else activateNextFrom (unfoundPlayerQueue r) r.

Definition startGameOverReveal (r : t) : t * list Emit :=
  if decide (winner r ≠ Some WINNER_TYPE.HIDER) then (r, [])
  else
    let queue :=
      Player.id <$> sortByNumber (filter (λ p, Player.isFound p = false) (players r)) in
    let r := set_unfoundPlayerQueue queue r in
    activateNextUnfoundPlayer r.

Definition endGame (winner : WINNER_TYPE.t) (r : t) : t * list Emit :=
  if decide (gameState r = GAME_STATE.GAME_OVER) then (r, [])
  else
    let r := clearGameIntervals r in
    let r := set_gameState GAME_STATE.GAME_OVER r in
    let r := set_winner (Some winner) r in
    match winner with
    | WINNER_TYPE.HIDER => startGameOverReveal r
    | WINNER_TYPE.SEEKERS => (r, playVictoryMelody :: broadcastUpdateState r)
    end.

Definition checkSeekerWin (r : t) : bool * t * list Emit :=
  if decide (gameState r ≠ GAME_STATE.SEEKING) then (false, r, [])
  else
    let allFound := forallb Player.isFound (players r) in
    if allFound then
      let '(r, out) := endGame WINNER_TYPE.SEEKERS r in (true, r, out)
    else (false, r, []).

Definition markPlayerFound (socketId : string) (r : t) : Outcome () * t * list Emit :=
  match getPlayer socketId r with
  | None => (Throw "Player not found.", r, [])
  | Some player =>
      if Player.isFound player then (Return (), r, [])
      else if bool_decide (gameState r ≠ GAME_STATE.SEEKING
                ∧ ¬ (gameState r = GAME_STATE.GAME_OVER ∧ winner r = Some WINNER_TYPE.HIDER))
      then (Throw ("Cannot mark found in current game state: "
                   +:+ GAME_STATE.to_string (gameState r)), r, [])
      else
        let r := set_players (updatePlayer socketId (Player.set_isFound true) (players r)) r in
        if decide (gameState r = GAME_STATE.SEEKING) then
          let '(won, r, out) := checkSeekerWin r in
          if won then (Return (), r, out)
          else (Return (), r, (out ++ broadcastUpdateState r)%list)
        else if decide (gameState r = GAME_STATE.GAME_OVER) then
          if decide (Some socketId = activeUnfoundPlayerId r) then
            let '(r, out) := activateNextUnfoundPlayer r in (Return (), r, out)
          else
            (* indexOf + splice(queueIndex, 1): the first occurrence goes *)
            let r := set_unfoundPlayerQueue (spliceFirst socketId (unfoundPlayerQueue r)) r in
            (Return (), r, broadcastUpdateState r)
        else (Return (), r, [])
  end.

Definition startSeekTimer (r : t) : t :=
  if seekTimerInterval r then r else set_seekTimerInterval true r.

(** [now] is the value of [Date.now()]. *)
Definition startSeekingPhase (now : Z) (r : t) : t * list Emit :=
  if decide (gameState r = GAME_STATE.SEEKING) then (r, [])
  else
    let r := set_gameState GAME_STATE.SEEKING r in
    let r := set_seekStartTime (Some now) r in
    let r := set_nextPlayerIndexToPlay 0 r in
    let r := set_players (Player.resetForSeeking <$> players r) r in
    let r := startSeekTimer r in
    let r := set_soundRotationTimeout (Some (inject_Z MIN_SOUND_DELAY_MS)) r in
    (r, broadcastUpdateState r).

(** The callback of [preSeekCountdownInterval], run for a room that is
    still the one registered under its code. *)
Definition preSeekCountdownTick (now : Z) (r : t) : t * list Emit :=
  let r := set_preSeekCountdownValue (preSeekCountdownValue r - 1) r in
  let out := [preSeekCountdown (preSeekCountdownValue r)] in
  if decide (preSeekCountdownValue r ≤ 0) then
    let r := set_preSeekCountdownInterval false r in
    let '(r, out') := startSeekingPhase now r in
    (r, (out ++ out')%list)
  else (r, out).

(** [Date.now() - this.seekStartTime]; [null] counts as 0. *)
Definition elapsedMs (now : Z) (r : t) : Z := now - default 0 (seekStartTime r).

(** The callback of [seekTimerInterval], run for a room that is still the
    one registered under its code.  [elapsedSeconds >= seekTimeLimit] with
    [elapsedSeconds = elapsedMs / 1000] is compared in milliseconds. *)
Definition seekTimerTick (now : Z) (r : t) : t * list Emit :=
  if decide (gameState r = GAME_STATE.SEEKING) then
    if decide (seekTimeLimit r * 1000 ≤ elapsedMs now r)
    then endGame WINNER_TYPE.HIDER r
    else (r, [])
  else (set_seekTimerInterval false r, []).

Definition eligiblePlayers (r : t) : list Player.t :=
  let sortedPlayers := sortByNumber (players r) in
  filter (λ p, Player.isFound p = false ∧ Player.soundsPlayed p < soundPlaysPerPlayer r)
         sortedPlayers.

Definition totalPlaysLeft (r : t) : Z :=
  foldl (λ sum p, sum + (soundPlaysPerPlayer r - Player.soundsPlayed p)) 0 (eligiblePlayers r).

Definition timeRemainingMs (now : Z) (r : t) : Z :=
  Z.max 0 (seekTimeLimit r * 1000 - elapsedMs now r).

Definition scheduleNextSound (now : Z) (r : t) : t * list Emit :=
  if decide (gameState r ≠ GAME_STATE.SEEKING) then (set_soundRotationTimeout None r, [])
  else
    let timeRemainingMs := timeRemainingMs now r in
    if decide (timeRemainingMs ≤ 0) then (set_soundRotationTimeout None r, [])
    else
      let eligiblePlayers := eligiblePlayers r in
      let dynamicDelayMs := inject_Z CHECK_INTERVAL_WHEN_NO_SOUNDS_MS in
      if decide (0 < length eligiblePlayers)%nat then
        let totalPlaysLeft := totalPlaysLeft r in
        if decide (totalPlaysLeft > 0) then
          let dynamicDelayMs :=
            Qmax (inject_Z MIN_SOUND_DELAY_MS) (jsDivide timeRemainingMs totalPlaysLeft) in
          let nextEligiblePlayerIndex :=
            Z.rem (nextPlayerIndexToPlay r) (Z.of_nat (length eligiblePlayers)) in
          let playerToPlay := js_index eligiblePlayers nextEligiblePlayerIndex in
          let r := set_nextPlayerIndexToPlay (nextEligiblePlayerIndex + 1) r in
          match playerToPlay ≫= (λ p, pair p <$> Player.uniqueAnimalSoundURL p) with
          | Some (playerToPlay, soundURL) =>
              let out := [playSound (Player.id playerToPlay) soundURL] in
              let r :=
                set_players
                  (updatePlayer (Player.id playerToPlay)
                     (λ p, Player.set_soundsPlayed (Player.soundsPlayed p + 1) p) (players r)) r in
              (set_soundRotationTimeout (Some dynamicDelayMs) r, out)
          | None => (set_soundRotationTimeout (Some dynamicDelayMs) r, [])
          end
        else (set_soundRotationTimeout (Some dynamicDelayMs) r, [])
      else (set_soundRotationTimeout (Some dynamicDelayMs) r, []).

(** [Set.delete] of a player's sound, when the player has one. *)
Definition deleteSound (s : option string) (assigned : gset string) : gset string :=
  match s with Some u => assigned ∖ {[u]} | None => assigned end.

(** The boolean tells the caller to delete the room. *)
Definition removePlayer (socketId : string) (r : t) : bool * t * list Emit :=
  match getPlayer socketId r with
  | None => (false, r, [])
  | Some disconnectedPlayer =>
      let wasHider := bool_decide (Player.role disconnectedPlayer = PLAYER_ROLE.HIDER) in
      let wasActiveUnfound := bool_decide (Some socketId = activeUnfoundPlayerId r) in
      let wasInSeeking := bool_decide (gameState r = GAME_STATE.SEEKING) in
      let wasInHiding := bool_decide (gameState r = GAME_STATE.HIDING) in
      let wasInGameOverReveal :=
        bool_decide (gameState r = GAME_STATE.GAME_OVER ∧ winner r = Some WINNER_TYPE.HIDER) in
      let r :=
        set_assignedAnimalSounds
          (deleteSound (Player.uniqueAnimalSoundURL disconnectedPlayer) (assignedAnimalSounds r)) r in
      let r :=
        set_assignedUnfoundSounds
          (deleteSound (Player.uniqueUnfoundSoundURL disconnectedPlayer) (assignedUnfoundSounds r)) r in
      let r := set_players (deletePlayer socketId (players r)) r in
      if isEmpty r then (true, clearGameIntervals r, [])
      else if decide (gameState r = GAME_STATE.WAITING) then
        let r := if wasHider then _promoteNewHider r else r in
        (false, r, broadcastUpdateState r)
      else if wasInHiding then
        if _checkAllRemainingReady r && negb (preSeekCountdownInterval r) then
          let '(r, out) := startPreSeekCountdown r in (false, r, out)
        else (false, r, broadcastUpdateState r)
      else if wasInSeeking then
        if wasHider then
          let '(r, out) := endGame WINNER_TYPE.SEEKERS r in (false, r, out)
        else
          let '(won, r, out) := checkSeekerWin r in
          if won then (false, r, out)
          else (false, r, (out ++ broadcastUpdateState r)%list)
      else if wasInGameOverReveal then
        let r := set_unfoundPlayerQueue (spliceFirst socketId (unfoundPlayerQueue r)) r in
        if wasActiveUnfound then
          let '(r, out) := activateNextUnfoundPlayer r in (false, r, out)
        else (false, r, broadcastUpdateState r)
      else (false, r, broadcastUpdateState r)
  end.

(** The [forEach] of [resetForNewGame]: every player, in [Object.values]
    order, is reset and given sounds; [draws] gives the random draws of
    each player's assignment. *)
Fixpoint reassignAll (draws : string → nat * nat) (ps : list Player.t) (r : t)
    : list Player.t * t :=
  match ps with
  | [] => ([], r)
  | p :: ps' =>
      let p := Player.resetForNewGame p in
      let '(p, r) := _assignUniqueSounds (draws (Player.id p)) p r in
      let '(ps', r) := reassignAll draws ps' r in
      (p :: ps', r)
  end.

Definition resetForNewGame (draws : string → nat * nat) (r : t) : t * list Emit :=
  let r := set_gameState GAME_STATE.WAITING r in
  let r := set_winner None r in
  let r := clearGameIntervals r in
  let r := set_seekStartTime None r in
  let r := set_activeUnfoundPlayerId None r in
  let r := set_unfoundPlayerQueue [] r in
  let r := set_assignedAnimalSounds ∅ r in
  let r := set_assignedUnfoundSounds ∅ r in
  let '(ps, r) := reassignAll draws (players r) r in
  let r := set_players ps r in
  (r, broadcastUpdateState r).

Definition requestPlayAgain (socketId : string) (draws : string → nat * nat) (r : t)
    : Outcome () * t * list Emit :=
  if decide (gameState r ≠ GAME_STATE.GAME_OVER)
  then (Throw "Game is not over yet.", r, [])
  else
    match getPlayer socketId r with
    | None => (Throw "Player not found.", r, [])
    | Some player =>
        let '(r, out) := resetForNewGame draws r in (Return (), r, out)
    end.
End Room.

(** ** Socket handlers

    The handlers as one room sees them: [r] is the room registered under its
    code in [activeRooms].  A socket that is not in [r] belongs to no room of
    this view. *)

Module Server.
Definition findRoomBySocketId (socketId : string) (r : Room.t) : option Room.t :=
  match Room.getPlayer socketId r with Some _ => Some r | None => None end.

(** [catch (error) { socket.emit('errorMsg', error.message) }] *)
Definition reportTo {A} (socketId : string) (res : Outcome A * Room.t * list Emit)
    : Room.t * list Emit :=
  match res with
  | (Return _, r, out) => (r, out)
  | (Throw message, r, out) => (r, (out ++ [errorMsg socketId message])%list)
  end.

(** [catch (error) { console.warn(...) }]: nothing is sent. *)
Definition logOnly {A} (res : Outcome A * Room.t * list Emit) : Room.t * list Emit :=
  match res with
  | (_, r, out) => (r, out)
  end.

(** The first player of a room: [new Room(roomCode, io)] then
    [addPlayer(socket)]. *)
Definition createRoom (roomCode socketId : string) (draws : nat * nat) : Room.t :=
  (Room.addPlayer socketId draws (Room.new roomCode)).1.2.

Definition on_joinRoom (socketId : string) (draws : nat * nat) (r : Room.t)
    : Room.t * list Emit :=
  reportTo socketId (Room.addPlayer socketId draws r).

(** [None]: the room became empty and was deleted from [activeRooms]. *)
Definition handleDisconnect (socketId : string) (r : Room.t) : option Room.t * list Emit :=
  match findRoomBySocketId socketId r with
  | Some room =>
      let '(shouldDeleteRoom, room, out) := Room.removePlayer socketId room in
      if shouldDeleteRoom then (None, out) else (Some room, out)
  | None => (Some r, [])
  end.

Definition on_updateSettings (socketId : string) (settings : Settings) (r : Room.t)
    : Room.t * list Emit :=
  reportTo socketId
    match findRoomBySocketId socketId r with
    | None => (Throw "Not currently in a room.", r, [])
    | Some room =>
        match Room.getPlayer socketId room with
        | None => (Throw "Player not found in room.", room, [])
        | Some player =>
            if decide (Player.role player ≠ PLAYER_ROLE.HIDER)
            then (Throw "Only the Hider can change settings.", room, [])
            else if decide (Room.gameState room ≠ GAME_STATE.WAITING)
            then (Throw "Settings can only be changed while waiting.", room, [])
            else Room.updateSettings settings room
        end
    end.

Definition on_startHiding (socketId : string) (r : Room.t) : Room.t * list Emit :=
  reportTo socketId
    match findRoomBySocketId socketId r with
    | None => (Throw "Not currently in a room.", r, [])
    | Some room =>
        match Room.getPlayer socketId room with
        | Some player =>
            if decide (Player.role player ≠ PLAYER_ROLE.HIDER)
            then (Throw "Only the Hider can start the game.", room, [])
            else Room.startHidingPhase room
        | None => (Throw "Only the Hider can start the game.", room, [])
        end
    end.

Definition on_confirmHidden (socketId : string) (r : Room.t) : Room.t * list Emit :=
  logOnly
    match findRoomBySocketId socketId r with
    | None => (Throw "Not currently in a room.", r, [])
    | Some room => Room.confirmPlayerHidden socketId room
    end.

Definition on_markSelfFound (socketId : string) (r : Room.t) : Room.t * list Emit :=
  logOnly
    match findRoomBySocketId socketId r with
    | None => (Throw "Not currently in a room.", r, [])
    | Some room => Room.markPlayerFound socketId room
    end.

Definition on_requestPlayAgain (socketId : string) (draws : string → nat * nat)
    (r : Room.t) : Room.t * list Emit :=
  reportTo socketId
    match findRoomBySocketId socketId r with
    | None => (Throw "Not currently in a room.", r, [])
    | Some room => Room.requestPlayAgain socketId draws room
    end.

(** What can happen to a registered room: a socket event, or one of its
    three timers firing.  Timer events carry the clock reading. *)
Inductive Event :=
| joinRoom (socketId : string) (draws : nat * nat)
| leaveRoom (socketId : string)            (* also 'disconnect' *)
| updateSettings (socketId : string) (settings : Settings)
| startHiding (socketId : string)
| confirmHidden (socketId : string)
| markSelfFound (socketId : string)
| requestPlayAgain (socketId : string) (draws : string → nat * nat)
| preSeekCountdownFires (now : Z)
| seekTimerFires (now : Z)
| soundRotationFires (now : Z).

(** A timer fires only while it is armed. *)
Definition armed (e : Event) (r : Room.t) : bool :=
  match e with
  | preSeekCountdownFires _ => Room.preSeekCountdownInterval r
  | seekTimerFires _ => Room.seekTimerInterval r
  | soundRotationFires _ => bool_decide (is_Some (Room.soundRotationTimeout r))
  | _ => true
  end.

Definition some_room (res : Room.t * list Emit) : option Room.t * list Emit :=
  (Some res.1, res.2).

Definition handle (e : Event) (r : Room.t) : option Room.t * list Emit :=
  match e with
  | joinRoom socketId draws => some_room (on_joinRoom socketId draws r)
  | leaveRoom socketId => handleDisconnect socketId r
  | updateSettings socketId settings => some_room (on_updateSettings socketId settings r)
  | startHiding socketId => some_room (on_startHiding socketId r)
  | confirmHidden socketId => some_room (on_confirmHidden socketId r)
  | markSelfFound socketId => some_room (on_markSelfFound socketId r)
  | requestPlayAgain socketId draws => some_room (on_requestPlayAgain socketId draws r)
  | preSeekCountdownFires now => some_room (Room.preSeekCountdownTick now r)
  | seekTimerFires now => some_room (Room.seekTimerTick now r)
  | soundRotationFires now => some_room (Room.scheduleNextSound now r)
  end.

(** One event takes the registered room [r] to the registered room [r']. *)
Definition step (r : Room.t) (e : Event) (r' : Room.t) : Prop :=
  armed e r = true ∧ (handle e r).1 = Some r'.

Inductive reachable : Room.t → Prop :=
| reachable_created roomCode socketId draws :
    reachable (createRoom roomCode socketId draws)
| reachable_step r e r' :
    reachable r → step r e r' → reachable r'.

(** Running a list of events; [None] when a timer event is not armed or
    the room was deleted on the way. *)
Fixpoint run (es : list Event) (r : Room.t) : option Room.t :=
  match es with
  | [] => Some r
  | e :: es' =>
      if armed e r then
        match (handle e r).1 with
        | Some r' => run es' r'
        | None => None
        end
      else None
  end.
End Server.

(** ** Sample rooms used below *)

Module Samples.
Import Server.

(** Socket "s1" creates room ABCDE; every random draw is 0. *)
Definition start : Room.t := createRoom "ABCDE" "s1" (0%nat, 0%nat).

(** The room after the events [es], from [start]. *)
Definition after (es : list Event) : Room.t := default start (run es start).

Definition join2 : list Event := [joinRoom "s2" (0%nat, 0%nat)].
Definition join3 : list Event := join2 ++ [joinRoom "s3" (0%nat, 0%nat)].

(** Everybody confirms and the countdown runs out at clock 5000. *)
Definition countdown : list Event :=
  replicate 9 (preSeekCountdownFires 0) ++ [preSeekCountdownFires 5000].
Definition toHiding2 : list Event := join2 ++ [startHiding "s1"].
Definition toSeeking2 : list Event :=
  toHiding2 ++ [confirmHidden "s1"; confirmHidden "s2"] ++ countdown.
Definition toHiding3 : list Event := join3 ++ [startHiding "s1"].
Definition toSeeking3 : list Event :=
  toHiding3 ++ [confirmHidden "s1"; confirmHidden "s2"; confirmHidden "s3"] ++ countdown.

Definition waiting2 : Room.t := after join2.
Definition waiting3 : Room.t := after join3.
Definition hiding2 : Room.t := after toHiding2.
Definition seeking2 : Room.t := after toSeeking2.
Definition seeking3 : Room.t := after toSeeking3.

(** Two sound checks later: each player got one cue. *)
Definition seeking2_after_two_cues : Room.t :=
  after (toSeeking2 ++ [soundRotationFires 6000; soundRotationFires 7000]).

(** Time runs out with nobody found: the Hider wins, the reveal starts. *)
Definition toReveal3 : list Event := toSeeking3 ++ [seekTimerFires 125000].
Definition reveal3 : Room.t := after toReveal3.

(** "s2" leaves the three-player room and "s4" joins: "s3" and "s4" both
    have number 3. *)
Definition waiting_with_equal_numbers : Room.t :=
  after (join3 ++ [leaveRoom "s2"; joinRoom "s4" (0%nat, 0%nat)]).

End Samples.

(** ** Vocabulary of the properties *)

Arguments Room.deletePlayer : simpl never.
Arguments Room.updatePlayer : simpl never.
Arguments Room.sortByNumber : simpl never.
Arguments Room.spliceFirst : simpl never.
Arguments Room.getClientState : simpl never.
Arguments Room.broadcastUpdateState : simpl never.
Arguments Room.eligiblePlayers : simpl never.

(** [r'] is [r] except for the reveal queue and the active reveal player. *)
Definition revealFrame (r r' : Room.t) : Prop :=
  r' = Room.set_unfoundPlayerQueue (Room.unfoundPlayerQueue r')
         (Room.set_activeUnfoundPlayerId (Room.activeUnfoundPlayerId r') r).

(** The players of a room whose role is Hider. *)
Definition hiders (r : Room.t) : list Player.t :=
  filter (λ p, Player.role p = PLAYER_ROLE.HIDER) (Room.players r).

(** The reveal sequence runs: the game is over and the Hider won. *)
Definition inReveal (r : Room.t) : Prop :=
  Room.gameState r = GAME_STATE.GAME_OVER ∧ Room.winner r = Some WINNER_TYPE.HIDER.

(** What holds of every registered room, part one: roster, settings,
    timers and sound counters. *)
Record CoreInv (r : Room.t) : Prop := {
  inv_ids : NoDup (Player.id <$> Room.players r);
  inv_nonempty : Room.players r ≠ [];
  inv_numbers : ∀ p, p ∈ Room.players r → 1 ≤ Player.number p;
  inv_hider : (length (hiders r) ≤ 1)%nat;
  inv_plays : MIN_SOUND_PLAYS ≤ Room.soundPlaysPerPlayer r ≤ MAX_SOUND_PLAYS;
  inv_limit : MIN_SEEK_TIME_LIMIT_S ≤ Room.seekTimeLimit r ≤ MAX_SEEK_TIME_LIMIT_S;
  inv_countdown :
    Room.preSeekCountdownInterval r = true → Room.gameState r = GAME_STATE.HIDING;
  inv_seekTimer :
    Room.seekTimerInterval r = true → Room.gameState r = GAME_STATE.SEEKING;
  inv_soundTimer :
    is_Some (Room.soundRotationTimeout r) → Room.gameState r = GAME_STATE.SEEKING;
  inv_sounds :
    Room.gameState r = GAME_STATE.SEEKING →
    ∀ p, p ∈ Room.players r → Player.soundsPlayed p ≤ Room.soundPlaysPerPlayer r;
  inv_index : 0 ≤ Room.nextPlayerIndexToPlay r }.

(** Part two: the reveal queue and the active reveal player. *)
Record RevealInv (r : Room.t) : Prop := {
  inv_reveal_off :
    ¬ inReveal r → Room.unfoundPlayerQueue r = [] ∧ Room.activeUnfoundPlayerId r = None;
  inv_queue :
    ∀ p, p ∈ Room.players r → Player.id p ∈ Room.unfoundPlayerQueue r →
         Player.isFound p = false;
  inv_queue_nodup : NoDup (Room.unfoundPlayerQueue r);
  inv_queue_present :
    ∀ sid, sid ∈ Room.unfoundPlayerQueue r → ∃ p, p ∈ Room.players r ∧ Player.id p = sid;
  inv_active :
    ∀ sid, Room.activeUnfoundPlayerId r = Some sid →
      (sid ∉ Room.unfoundPlayerQueue r) ∧
      (∃ p, p ∈ Room.players r ∧ Player.id p = sid ∧ Player.isFound p = false) }.

Definition RoomInv (r : Room.t) : Prop := CoreInv r ∧ RevealInv r.

Ltac core_destruct H := destruct H as [Hids Hne Hnum Hh Hpl Hlim Hcd Hst Hsnd Hsp Hidx].
Ltac reveal_destruct H := destruct H as [Hoff Hq Hqnd Hqp Hact].

(** What [resetForNewGame] does to one player. *)
Definition reassigned (p p' : Player.t) : Prop :=
  p' = Player.set_sounds (Player.uniqueAnimalSoundURL p') (Player.uniqueUnfoundSoundURL p')
         (Player.resetForNewGame p) ∧
  (1 ≤ Player.number p →
   ∃ a u, Player.uniqueAnimalSoundURL p' = Some a ∧ a ∈ BASE_ANIMAL_SOUNDS ∧
          Player.uniqueUnfoundSoundURL p' = Some u ∧ u ∈ BASE_UNFOUND_SOUNDS).

(** Who is in the room, under which number and role, in join order. *)
Definition roster (r : Room.t) : list (string * Z * PLAYER_ROLE.t) :=
  (λ p, (Player.id p, Player.number p, Player.role p)) <$> Room.players r.

Arguments roster : simpl never.

(** The sum of a list of integers. *)
Definition sumZ (l : list Z) : Z := foldr Z.add 0 l.

(** In join-number order. *)
Definition byNumber (p q : Player.t) : Prop := Player.number p ≤ Player.number q.

(** The reveal queue holds no found player, and the active reveal player
    is a present player that is not found. *)
Definition revealConsistent (r : Room.t) : Prop :=
  (∀ p, p ∈ Room.players r → Player.isFound p = true →
        Player.id p ∉ Room.unfoundPlayerQueue r) ∧
  (∀ sid, Room.activeUnfoundPlayerId r = Some sid →
          ∃ p, p ∈ Room.players r ∧ Player.id p = sid ∧ Player.isFound p = false).

(** What "play again" makes of one player. *)
Definition playerReset (p p' : Player.t) : Prop :=
  Player.id p' = Player.id p ∧ Player.number p' = Player.number p ∧
  Player.role p' = Player.role p ∧
  Player.isReady p' = false ∧ Player.isFound p' = false ∧ Player.soundsPlayed p' = 0 ∧
  ∃ a u, Player.uniqueAnimalSoundURL p' = Some a ∧ a ∈ BASE_ANIMAL_SOUNDS ∧
         Player.uniqueUnfoundSoundURL p' = Some u ∧ u ∈ BASE_UNFOUND_SOUNDS.

(** ** Room codes and the registry of rooms

    [activeRooms] is a plain object keyed by room code.  Its own keys are
    five capital letters, never array-index-like, so [for ... in] reads them
    in insertion order: an association list.  A room sits in the registry by
    reference: what a method does to the room found under a key is seen under
    that key, which [store] writes out.  The rooms of [socket.io] that
    [socket.join] and [socket.leave] maintain are not modelled. *)

Definition ROOM_CODE_LENGTH : nat := 5.
Definition ROOM_CODE_CHARS : string := "ABCDEFGHIJKLMNOPQRSTUVWXYZ".

(** [s.charAt(i)]: the empty string when [i] is out of range. *)
Definition charAt (s : string) (i : nat) : string :=
  match String.get i s with
  | Some c => String c EmptyString
  | None => ""
  end.

(** The members of [Object.prototype]: [activeRooms[k]] reads one of them
    when [k] names it and is no key of [activeRooms] itself. *)
Definition OBJECT_PROTOTYPE_KEYS : list string :=
  [ "constructor"; "__defineGetter__"; "__defineSetter__"; "hasOwnProperty";
    "__lookupGetter__"; "__lookupSetter__"; "isPrototypeOf"; "propertyIsEnumerable";
    "toString"; "valueOf"; "__proto__"; "toLocaleString" ].

Module Registry.
Definition t := list (string * Room.t).

(** [activeRooms[roomCode]], own keys only. *)
Fixpoint lookup (roomCode : string) (activeRooms : t) : option Room.t :=
  match activeRooms with
  | [] => None
  | (key, room) :: rest =>
      if decide (key = roomCode) then Some room else lookup roomCode rest
  end.

(** [activeRooms[roomCode] = room]: a new key goes last. *)
Fixpoint store (roomCode : string) (room : Room.t) (activeRooms : t) : t :=
  match activeRooms with
  | [] => [(roomCode, room)]
  | (key, old) :: rest =>
      if decide (key = roomCode) then (key, room) :: rest
      else (key, old) :: store roomCode room rest
  end.

(** [delete activeRooms[roomCode]] *)
Definition remove (roomCode : string) (activeRooms : t) : t :=
  filter (λ entry, entry.1 ≠ roomCode) activeRooms.

(** The inner [for] loop of [generateUniqueRoomCode]: one candidate code.
    [draw i] stands for [Math.floor(Math.random() * ROOM_CODE_CHARS.length)]
    at position [i], before reduction to the range. *)
Definition candidateCode (draw : nat → nat) : string :=
  foldl (λ code i, code +:+ charAt ROOM_CODE_CHARS (draw i mod String.length ROOM_CODE_CHARS))
        "" (seq 0 ROOM_CODE_LENGTH).

Definition maxAttempts : Z := 100.

(** The [do ... while] loop, from the value [attempts] of the counter;
    [attempts++ > maxAttempts] compares the old value.  [draws a] gives the
    random draws of the pass in which the counter was [a].  The loop ends
    after at most [maxAttempts + 2] passes, which is the [fuel] given below;
    a pass that would start without fuel would throw at its first line. *)
Fixpoint generateLoop (fuel : nat) (attempts : Z) (draws : Z → nat → nat)
    (activeRooms : t) : Outcome string :=
  match fuel with
  | O => Throw "Failed to generate a unique room code after multiple attempts."
  | S fuel =>
      if decide (attempts > maxAttempts)
      then Throw "Failed to generate a unique room code after multiple attempts."
      else
        let code := candidateCode (draws attempts) in
        if bool_decide (is_Some (lookup code activeRooms))
        then generateLoop fuel (attempts + 1) draws activeRooms
        else Return code
  end.

Definition generateUniqueRoomCode (draws : Z → nat → nat) (activeRooms : t)
    : Outcome string :=
  generateLoop (Z.to_nat (maxAttempts + 2)) 0 draws activeRooms.

(** The first room, in registration order, that has the socket among its
    players, with the key it is registered under. *)
Fixpoint findRoomBySocketId (socketId : string) (activeRooms : t)
    : option (string * Room.t) :=
  match activeRooms with
  | [] => None
  | (roomCode, room) :: rest =>
      if bool_decide (is_Some (Room.getPlayer socketId room)) then Some (roomCode, room)
      else findRoomBySocketId socketId rest
  end.

(** The room a handler worked on goes back under its key, with what the
    handler emitted. *)
Definition commit (roomCode : string) (res : Room.t * list Emit) (activeRooms : t)
    : t * list Emit :=
  (store roomCode res.1 activeRooms, res.2).

(** [generateUniqueRoomCode] may throw, [addPlayer] on the new room does
    not; either error would go to the requester. *)
Definition on_createRoom (socketId : string) (codeDraws : Z → nat → nat)
    (soundDraws : nat * nat) (activeRooms : t) : t * list Emit :=
  match generateUniqueRoomCode codeDraws activeRooms with
  | Throw message => (activeRooms, [errorMsg socketId message])
  | Return roomCode =>
      let newRoom := Room.new roomCode in
      let activeRooms := store roomCode newRoom activeRooms in
      commit roomCode (Server.reportTo socketId (Room.addPlayer socketId soundDraws newRoom))
        activeRooms
  end.

(** A code that only names a member of [Object.prototype] passes the
    [!room] test; the call of [addPlayer] on that member then throws a
    [TypeError], whose message (as V8 words it) goes to the requester. *)
Definition on_joinRoom (socketId roomCode : string) (draws : nat * nat) (activeRooms : t)
    : t * list Emit :=
  match lookup roomCode activeRooms with
  | Some room =>
      commit roomCode (Server.reportTo socketId (Room.addPlayer socketId draws room)) activeRooms
  | None =>
      if decide (roomCode ∈ OBJECT_PROTOTYPE_KEYS)
      then (activeRooms, [errorMsg socketId "room.addPlayer is not a function"])
      else (activeRooms, [errorMsg socketId "Room not found."])
  end.

Definition handleDisconnect (socketId : string) (activeRooms : t) : t * list Emit :=
  match findRoomBySocketId socketId activeRooms with
  | Some (key, room) =>
      let '(shouldDeleteRoom, room, out) := Room.removePlayer socketId room in
      let activeRooms := store key room activeRooms in
      if shouldDeleteRoom then (remove (Room.roomCode room) activeRooms, out)
      else (activeRooms, out)
  | None => (activeRooms, [])
  end.

Definition on_leaveRoom (socketId : string) (activeRooms : t) : t * list Emit :=
  match findRoomBySocketId socketId activeRooms with
  | Some _ => handleDisconnect socketId activeRooms
  | None => (activeRooms, [])
  end.

Definition on_disconnect (socketId : string) (activeRooms : t) : t * list Emit :=
  handleDisconnect socketId activeRooms.

Definition on_updateSettings (socketId : string) (settings : Settings) (activeRooms : t)
    : t * list Emit :=
  match findRoomBySocketId socketId activeRooms with
  | None => (activeRooms, [errorMsg socketId "Not currently in a room."])
  | Some (key, room) =>
      commit key
        (Server.reportTo socketId
           match Room.getPlayer socketId room with
           | None => (Throw "Player not found in room.", room, [])
           | Some player =>
               if decide (Player.role player ≠ PLAYER_ROLE.HIDER)
               then (Throw "Only the Hider can change settings.", room, [])
               else if decide (Room.gameState room ≠ GAME_STATE.WAITING)
               then (Throw "Settings can only be changed while waiting.", room, [])
               else Room.updateSettings settings room
           end)
        activeRooms
  end.

Definition on_startHiding (socketId : string) (activeRooms : t) : t * list Emit :=
  match findRoomBySocketId socketId activeRooms with
  | None => (activeRooms, [errorMsg socketId "Not currently in a room."])
  | Some (key, room) =>
      commit key
        (Server.reportTo socketId
           match Room.getPlayer socketId room with
           | Some player =>
               if decide (Player.role player ≠ PLAYER_ROLE.HIDER)
               then (Throw "Only the Hider can start the game.", room, [])
               else Room.startHidingPhase room
           | None => (Throw "Only the Hider can start the game.", room, [])
           end)
        activeRooms
  end.

Definition on_confirmHidden (socketId : string) (activeRooms : t) : t * list Emit :=
  match findRoomBySocketId socketId activeRooms with
  | None => (activeRooms, [])
  | Some (key, room) =>
      commit key (Server.logOnly (Room.confirmPlayerHidden socketId room)) activeRooms
  end.

Definition on_markSelfFound (socketId : string) (activeRooms : t) : t * list Emit :=
  match findRoomBySocketId socketId activeRooms with
  | None => (activeRooms, [])
  | Some (key, room) =>
      commit key (Server.logOnly (Room.markPlayerFound socketId room)) activeRooms
  end.

Definition on_requestPlayAgain (socketId : string) (draws : string → nat * nat)
    (activeRooms : t) : t * list Emit :=
  match findRoomBySocketId socketId activeRooms with
  | None => (activeRooms, [errorMsg socketId "Not currently in a room."])
  | Some (key, room) =>
      commit key (Server.reportTo socketId (Room.requestPlayAgain socketId draws room))
        activeRooms
  end.

(** What can happen to the server: a socket event, or a timer of the room
    registered under [roomCode] firing. *)
Inductive Event :=
| createRoom (socketId : string) (codeDraws : Z → nat → nat) (soundDraws : nat * nat)
| joinRoom (socketId roomCode : string) (draws : nat * nat)
| leaveRoom (socketId : string)
| disconnect (socketId : string)
| updateSettings (socketId : string) (settings : Settings)
| startHiding (socketId : string)
| confirmHidden (socketId : string)
| markSelfFound (socketId : string)
| requestPlayAgain (socketId : string) (draws : string → nat * nat)
| preSeekCountdownFires (roomCode : string) (now : Z)
| seekTimerFires (roomCode : string) (now : Z)
| soundRotationFires (roomCode : string) (now : Z).

(** The timer event of a room, as the room sees it. *)
Definition timerOf (e : Event) : option (string * Server.Event) :=
  match e with
  | preSeekCountdownFires roomCode now => Some (roomCode, Server.preSeekCountdownFires now)
  | seekTimerFires roomCode now => Some (roomCode, Server.seekTimerFires now)
  | soundRotationFires roomCode now => Some (roomCode, Server.soundRotationFires now)
  | _ => None
  end.

(** A timer fires only for a registered room, and while it is armed: a room
    leaves the registry with its timers cleared. *)
Definition armed (e : Event) (activeRooms : t) : bool :=
  match timerOf e with
  | Some (roomCode, tick) =>
      match lookup roomCode activeRooms with
      | Some room => Server.armed tick room
      | None => false
      end
  | None => true
  end.

(** A timer callback, for the room registered under [roomCode]. *)
Definition onTimer (roomCode : string) (callback : Room.t → Room.t * list Emit)
    (activeRooms : t) : t * list Emit :=
  match lookup roomCode activeRooms with
  | Some room => commit roomCode (callback room) activeRooms
  | None => (activeRooms, [])
  end.

Definition handle (e : Event) (activeRooms : t) : t * list Emit :=
  match e with
  | createRoom socketId codeDraws soundDraws =>
      on_createRoom socketId codeDraws soundDraws activeRooms
  | joinRoom socketId roomCode draws => on_joinRoom socketId roomCode draws activeRooms
  | leaveRoom socketId => on_leaveRoom socketId activeRooms
  | disconnect socketId => on_disconnect socketId activeRooms
  | updateSettings socketId settings => on_updateSettings socketId settings activeRooms
  | startHiding socketId => on_startHiding socketId activeRooms
  | confirmHidden socketId => on_confirmHidden socketId activeRooms
  | markSelfFound socketId => on_markSelfFound socketId activeRooms
  | requestPlayAgain socketId draws => on_requestPlayAgain socketId draws activeRooms
  | preSeekCountdownFires roomCode now =>
      onTimer roomCode (Room.preSeekCountdownTick now) activeRooms
  | seekTimerFires roomCode now => onTimer roomCode (Room.seekTimerTick now) activeRooms
  | soundRotationFires roomCode now => onTimer roomCode (Room.scheduleNextSound now) activeRooms
  end.

Definition step (activeRooms : t) (e : Event) (activeRooms' : t) : Prop :=
  armed e activeRooms = true ∧ (handle e activeRooms).1 = activeRooms'.

(** The server starts with no room. *)
Inductive reachable : t → Prop :=
| reachable_start : reachable []
| reachable_step activeRooms e activeRooms' :
    reachable activeRooms → step activeRooms e activeRooms' → reachable activeRooms'.

Fixpoint run (es : list Event) (activeRooms : t) : option t :=
  match es with
  | [] => Some activeRooms
  | e :: es' =>
      if armed e activeRooms then run es' (handle e activeRooms).1 else None
  end.
End Registry.

Module RegistrySamples.
(** The candidate of the pass with counter [a] repeats letter number [a]:
    AAAAA, then BBBBB, and so on. *)
Definition codeDraws : Z → nat → nat := λ attempts _, Z.to_nat attempts.

(** The registry after the events [es], from the empty registry. *)
Definition after (es : list Registry.Event) : Registry.t :=
  default [] (Registry.run es []).

(** Socket "s1" creates room AAAAA, socket "s2" creates room BBBBB, and
    socket "s3" joins it. *)
Definition twoRooms : Registry.t :=
  after [Registry.createRoom "s1" codeDraws (0%nat, 0%nat);
         Registry.createRoom "s2" codeDraws (0%nat, 0%nat);
         Registry.joinRoom "s3" "BBBBB" (0%nat, 0%nat)].

(** Socket "s1" creates room AAAAA and then, without leaving it, room
    BBBBB. *)
Definition sameSocketTwice : Registry.t :=
  after [Registry.createRoom "s1" codeDraws (0%nat, 0%nat);
         Registry.createRoom "s1" codeDraws (0%nat, 0%nat)].
End RegistrySamples.

(** ** Vocabulary of the further properties *)

(** Both sounds of a player are set, to sounds of the pools. *)
Definition hasSounds (p : Player.t) : Prop :=
  ∃ a u, Player.uniqueAnimalSoundURL p = Some a ∧ a ∈ BASE_ANIMAL_SOUNDS ∧
         Player.uniqueUnfoundSoundURL p = Some u ∧ u ∈ BASE_UNFOUND_SOUNDS.

(** What holds of every registered room, part three: how the flags, the
    counters, the winner and the timers go with the phase. *)
Record PhaseInv (r : Room.t) : Prop := {
  ph_winner : Room.winner r = None ↔ Room.gameState r ≠ GAME_STATE.GAME_OVER;
  ph_seeking :
    Room.gameState r = GAME_STATE.SEEKING →
    Room.seekTimerInterval r = true ∧ is_Some (Room.seekStartTime r);
  ph_idle :
    Room.gameState r ≠ GAME_STATE.SEEKING → Room.nextPlayerIndexToPlay r = 0;
  ph_noStart :
    Room.gameState r = GAME_STATE.WAITING ∨ Room.gameState r = GAME_STATE.HIDING →
    Room.seekStartTime r = None;
  ph_fresh :
    Room.gameState r = GAME_STATE.WAITING ∨ Room.gameState r = GAME_STATE.HIDING →
    Forall (λ p, Player.isFound p = false ∧ Player.soundsPlayed p = 0) (Room.players r);
  ph_ready :
    Room.gameState r ≠ GAME_STATE.HIDING →
    Forall (λ p, Player.isReady p = false) (Room.players r);
  ph_unfound :
    Room.gameState r = GAME_STATE.SEEKING →
    Exists (λ p, Player.isFound p = false) (Room.players r);
  ph_countdown :
    Room.preSeekCountdownInterval r = true →
    1 ≤ Room.preSeekCountdownValue r ≤ PRE_SEEK_COUNTDOWN_S;
  ph_allReady :
    Room.gameState r = GAME_STATE.HIDING →
    (Room.preSeekCountdownInterval r = true ↔
     Forall (λ p, Player.isReady p = true) (Room.players r));
  ph_delay :
    ∀ d, Room.soundRotationTimeout r = Some d → (inject_Z MIN_SOUND_DELAY_MS <= d)%Q;
  ph_played :
    Forall (λ p, 0 ≤ Player.soundsPlayed p ≤ Room.soundPlaysPerPlayer r) (Room.players r);
  ph_sounds : Forall hasSounds (Room.players r) }.

Ltac phase_destruct H :=
  destruct H as [Hwin Hseek Hidle Hnostart Hfresh Hready Hunf Hcdv Hall Hdelay Hplayed Hsnds].

Ltac phase_auto :=
  try done; try (intros [?|?]; congruence); try (intros ?; congruence).

(** The fields of a room that [PhaseInv] looks at. *)
Definition phaseView (r : Room.t) :=
  (Room.players r, Room.gameState r, Room.winner r, Room.seekTimerInterval r,
   Room.seekStartTime r, Room.preSeekCountdownInterval r, Room.preSeekCountdownValue r,
   Room.soundRotationTimeout r, Room.nextPlayerIndexToPlay r, Room.soundPlaysPerPlayer r).

(** The phases in the order a game goes through them. *)
Definition nextPhase (s : GAME_STATE.t) : GAME_STATE.t :=
  match s with
  | GAME_STATE.WAITING => GAME_STATE.HIDING
  | GAME_STATE.HIDING => GAME_STATE.SEEKING
  | GAME_STATE.SEEKING => GAME_STATE.GAME_OVER
  | GAME_STATE.GAME_OVER => GAME_STATE.WAITING
  end.

(** The events that can take a room out of the phase [s]. *)
Definition advances (e : Server.Event) (s : GAME_STATE.t) : bool :=
  match s, e with
  | GAME_STATE.WAITING, Server.startHiding _ => true
  | GAME_STATE.HIDING, Server.preSeekCountdownFires _ => true
  | GAME_STATE.SEEKING, (Server.seekTimerFires _ | Server.markSelfFound _ | Server.leaveRoom _) =>
      true
  | GAME_STATE.GAME_OVER, Server.requestPlayAgain _ _ => true
  | _, _ => false
  end.

(** The room states and the errors in a list of emissions. *)
Definition snapshots (out : list Emit) : list ClientState :=
  omap (λ e, match e with updateState state => Some state | _ => None end) out.

Definition errorsOf (out : list Emit) : list (string * string) :=
  omap (λ e, match e with errorMsg to message => Some (to, message) | _ => None end) out.

(** What the emissions [out] of a method that took the room from [r] to
    [r'] have to do with the two rooms. *)
Record Emits (r r' : Room.t) (out : list Emit) : Prop := {
  em_current : snapshots out = [] ∨ snapshots out = [Room.getClientState r'];
  em_noError : errorsOf out = [];
  em_melody :
    playVictoryMelody ∈ out ↔
    Room.gameState r ≠ GAME_STATE.GAME_OVER ∧ Room.gameState r' = GAME_STATE.GAME_OVER ∧
    Room.winner r' = Some WINNER_TYPE.SEEKERS;
  em_activation :
    ∀ x url, becomeActiveUnfound x url ∈ out →
      Room.activeUnfoundPlayerId r' = Some x ∧
      ∃ p, Room.getPlayer x r' = Some p ∧ Player.uniqueUnfoundSoundURL p = Some url;
  em_activated :
    ∀ x, Room.activeUnfoundPlayerId r' = Some x → Room.activeUnfoundPlayerId r ≠ Some x →
      ∃ url, becomeActiveUnfound x url ∈ out }.

(** The socket an event comes from. *)
Definition requester (e : Server.Event) : option string :=
  match e with
  | Server.joinRoom socketId _ | Server.leaveRoom socketId
  | Server.updateSettings socketId _ | Server.startHiding socketId
  | Server.confirmHidden socketId | Server.markSelfFound socketId
  | Server.requestPlayAgain socketId _ => Some socketId
  | _ => None
  end.

(** The handlers whose [catch] sends the error to the socket. *)
Definition reports (e : Server.Event) : bool :=
  match e with
  | Server.joinRoom _ _ | Server.updateSettings _ _ | Server.startHiding _
  | Server.requestPlayAgain _ _ => true
  | _ => false
  end.

(** The reveal line: the active reveal player, then the queue. *)
Definition revealLine (r : Room.t) : list string :=
  (option_list (Room.activeUnfoundPlayerId r) ++ Room.unfoundPlayerQueue r)%list.

(** In the room [r], the player [x] has a join number no larger than the
    player [y]. *)
Definition numberOrder (r : Room.t) (x y : string) : Prop :=
  ∀ p q, p ∈ Room.players r → q ∈ Room.players r →
         Player.id p = x → Player.id q = y → Player.number p ≤ Player.number q.

(** While the reveal runs, nobody who is not found is left out of the
    line, and the line is in join-number order. *)
Definition revealComplete (r : Room.t) : Prop :=
  inReveal r →
  (∀ p, p ∈ Room.players r → Player.isFound p = false → Player.id p ∈ revealLine r) ∧
  StronglySorted (numberOrder r) (revealLine r).

(** No two players of the room share an animal sound or an unfound sound,
    and the two sets hold exactly the sounds in use. *)
Definition distinctSounds (r : Room.t) : Prop :=
  NoDup (omap Player.uniqueAnimalSoundURL (Room.players r)) ∧
  NoDup (omap Player.uniqueUnfoundSoundURL (Room.players r)) ∧
  Room.assignedAnimalSounds r =
    list_to_set (omap Player.uniqueAnimalSoundURL (Room.players r)) ∧
  Room.assignedUnfoundSounds r =
    list_to_set (omap Player.uniqueUnfoundSoundURL (Room.players r)).

(** The sounds of the players, in join order, and the two sets. *)
Definition soundView (r : Room.t) :=
  ((λ p, (Player.uniqueAnimalSoundURL p, Player.uniqueUnfoundSoundURL p)) <$> Room.players r,
   Room.assignedAnimalSounds r, Room.assignedUnfoundSounds r).

(** A room code as [generateUniqueRoomCode] makes them: [ROOM_CODE_LENGTH]
    characters of [ROOM_CODE_CHARS]. *)
Definition validCode (code : string) : Prop :=
  String.length code = ROOM_CODE_LENGTH ∧
  Forall (λ c, c ∈ String.list_ascii_of_string ROOM_CODE_CHARS)
         (String.list_ascii_of_string code).

(** What holds of the registry: one entry per code, each room under its own
    well-formed code, and each room a state of the one-room view. *)
Definition RegistryInv (activeRooms : Registry.t) : Prop :=
  NoDup activeRooms.*1 ∧
  Forall (λ entry, Room.roomCode entry.2 = entry.1 ∧ validCode entry.1 ∧
                   Server.reachable entry.2) activeRooms.

(** The event of the one-room view that a server event is for its room. *)
Definition roomEvent (e : Registry.Event) : option Server.Event :=
  match e with
  | Registry.createRoom _ _ _ => None
  | Registry.joinRoom socketId _ draws => Some (Server.joinRoom socketId draws)
  | Registry.leaveRoom socketId | Registry.disconnect socketId =>
      Some (Server.leaveRoom socketId)
  | Registry.updateSettings socketId settings => Some (Server.updateSettings socketId settings)
  | Registry.startHiding socketId => Some (Server.startHiding socketId)
  | Registry.confirmHidden socketId => Some (Server.confirmHidden socketId)
  | Registry.markSelfFound socketId => Some (Server.markSelfFound socketId)
  | Registry.requestPlayAgain socketId draws => Some (Server.requestPlayAgain socketId draws)
  | Registry.preSeekCountdownFires _ now => Some (Server.preSeekCountdownFires now)
  | Registry.seekTimerFires _ now => Some (Server.seekTimerFires now)
  | Registry.soundRotationFires _ now => Some (Server.soundRotationFires now)
  end.

(** The key of the room an event works on, if it finds one. *)
Definition target (e : Registry.Event) (activeRooms : Registry.t) : option string :=
  match e with
  | Registry.createRoom _ _ _ => None
  | Registry.joinRoom _ roomCode _
  | Registry.preSeekCountdownFires roomCode _ | Registry.seekTimerFires roomCode _
  | Registry.soundRotationFires roomCode _ =>
      if bool_decide (is_Some (Registry.lookup roomCode activeRooms)) then Some roomCode
      else None
  | Registry.leaveRoom socketId | Registry.disconnect socketId
  | Registry.updateSettings socketId _ | Registry.startHiding socketId
  | Registry.confirmHidden socketId | Registry.markSelfFound socketId
  | Registry.requestPlayAgain socketId _ =>
      fst <$> Registry.findRoomBySocketId socketId activeRooms
  end.

(** Running a list of events for as long as the room has at most [n]
    players: [None] as well when a room on the way has more. *)
Fixpoint runWithin (n : Z) (es : list Server.Event) (r : Room.t) : option Room.t :=
  if decide (Room.getPlayerCount r ≤ n) then
    match es with
    | [] => Some r
    | e :: es' =>
        if Server.armed e r then
          match (Server.handle e r).1 with
          | Some r' => runWithin n es' r'
          | None => None
          end
        else None
    end
  else None.

(** ** Basic facts about the [players] object *)

Import Server.

Section PlayersFacts.
Implicit Types (ps : list Player.t) (p q : Player.t) (sid : string).

Lemma lookupPlayer_Some sid ps p :
  Room.lookupPlayer sid ps = Some p → p ∈ ps ∧ Player.id p = sid.
Proof.
  induction ps as [|q ps IH]; cbn; [done|].
  case_decide as Hq; intros H.
  - injection H as <-. split; [left | done].
  - destruct (IH H). split; [by right | done].
Qed.

Lemma lookupPlayer_None sid ps :
  Room.lookupPlayer sid ps = None ↔ ∀ p, p ∈ ps → Player.id p ≠ sid.
Proof.
  induction ps as [|q ps IH]; cbn.
  - split; [|done]. intros _ p Hp. by apply not_elem_of_nil in Hp.
  - case_decide as Hq.
    + split; [done|]. intros H. exfalso. apply (H q); [left | done].
    + rewrite IH. split.
      * intros H p [->|Hp]%elem_of_cons; auto.
      * intros H p Hp. apply H. by right.
Qed.

Lemma lookupPlayer_elem ps p :
  NoDup (Player.id <$> ps) → p ∈ ps → Room.lookupPlayer (Player.id p) ps = Some p.
Proof.
  induction ps as [|q ps IH]; cbn; intros Hnd Hp.
  - by apply not_elem_of_nil in Hp.
  - apply NoDup_cons in Hnd as [Hq Hnd].
    apply elem_of_cons in Hp as [->|Hp].
    + by rewrite decide_True.
    + rewrite decide_False; [by apply IH|].
      intros Heq. apply Hq. rewrite Heq. by apply list_elem_of_fmap_2.
Qed.
End PlayersFacts.

(** ** Ending the game and the reveal sequence leave the rest alone *)

Lemma revealFrame_set q a r : revealFrame r (Room.set_unfoundPlayerQueue q (Room.set_activeUnfoundPlayerId a r)).
Proof. by destruct r. Qed.

Lemma revealFrame_trans r1 r2 r3 : revealFrame r1 r2 → revealFrame r2 r3 → revealFrame r1 r3.
Proof. unfold revealFrame. intros H1 H2. rewrite H2 at 1. rewrite H1 at 1. by destruct r1. Qed.

Lemma activateNextFrom_frame queue r : revealFrame r (Room.activateNextFrom queue r).1.
Proof.
  revert r. induction queue as [|x rest IH]; intros r; cbn.
  - by destruct r.
  - set (r1 := Room.set_activeUnfoundPlayerId (Some x) _).
    assert (revealFrame r r1) as Hr1 by (by destruct r).
    destruct (Room.lookupPlayer _ _) as [p|]; [destruct (Player.uniqueUnfoundSoundURL p)|]; cbn;
      eauto using revealFrame_trans.
Qed.

Lemma activateNextUnfoundPlayer_frame r : revealFrame r (Room.activateNextUnfoundPlayer r).1.
Proof.
  unfold Room.activateNextUnfoundPlayer. case_decide; [by destruct r|].
  apply activateNextFrom_frame.
Qed.

Lemma startGameOverReveal_frame r : revealFrame r (Room.startGameOverReveal r).1.
Proof.
  unfold Room.startGameOverReveal. case_decide; [by destruct r|].
  eapply revealFrame_trans; [|apply activateNextUnfoundPlayer_frame].
  by destruct r.
Qed.

Lemma revealFrame_fields r r' :
  revealFrame r r' →
  Room.players r' = Room.players r ∧ Room.gameState r' = Room.gameState r ∧
  Room.winner r' = Room.winner r ∧
  Room.seekTimeLimit r' = Room.seekTimeLimit r ∧
  Room.soundPlaysPerPlayer r' = Room.soundPlaysPerPlayer r ∧
  Room.seekTimerInterval r' = Room.seekTimerInterval r ∧
  Room.preSeekCountdownInterval r' = Room.preSeekCountdownInterval r ∧
  Room.soundRotationTimeout r' = Room.soundRotationTimeout r ∧
  Room.nextPlayerIndexToPlay r' = Room.nextPlayerIndexToPlay r.
Proof. intros ->. by destruct r. Qed.

Lemma endGame_ends w r :
  Room.gameState r ≠ GAME_STATE.GAME_OVER →
  Room.gameState (Room.endGame w r).1 = GAME_STATE.GAME_OVER ∧
  Room.winner (Room.endGame w r).1 = Some w ∧
  Room.players (Room.endGame w r).1 = Room.players r.
Proof.
  intros Hgs. unfold Room.endGame. rewrite decide_False by done.
  destruct w; cbn; [|done].
  match goal with |- context [Room.startGameOverReveal ?x] =>
    destruct (revealFrame_fields x _ (startGameOverReveal_frame x)) as (-> & -> & -> & _) end.
  done.
Qed.

Lemma endGame_over w r :
  Room.gameState r = GAME_STATE.GAME_OVER → Room.endGame w r = (r, []).
Proof. intros H. unfold Room.endGame. by rewrite decide_True. Qed.


Lemma isEmpty_false r : Room.players r ≠ [] → Room.isEmpty r = false.
Proof. unfold Room.isEmpty. by destruct (Room.players r). Qed.


(** ** Preservation of the roster, settings and timer invariants *)


Section ListFacts.
Implicit Types (ps : list Player.t) (p q : Player.t) (sid : string).

Lemma elem_of_updatePlayer sid f ps q :
  q ∈ Room.updatePlayer sid f ps ↔
  ∃ p, p ∈ ps ∧ q = if decide (Player.id p = sid) then f p else p.
Proof.
  unfold Room.updatePlayer. rewrite list_elem_of_fmap. split; intros (p & ? & ?); eauto.
Qed.

Lemma updatePlayer_ids sid f ps :
  (∀ p, Player.id (f p) = Player.id p) →
  Player.id <$> Room.updatePlayer sid f ps = Player.id <$> ps.
Proof.
  intros Hf. unfold Room.updatePlayer. rewrite <- list_fmap_compose.
  apply list_fmap_ext. intros _ p _. cbn. by case_decide.
Qed.

Lemma updatePlayer_nil sid f ps : Room.updatePlayer sid f ps = [] ↔ ps = [].
Proof. unfold Room.updatePlayer. by destruct ps. Qed.

Lemma elem_of_deletePlayer sid ps q :
  q ∈ Room.deletePlayer sid ps ↔ q ∈ ps ∧ Player.id q ≠ sid.
Proof. unfold Room.deletePlayer. rewrite list_elem_of_filter. tauto. Qed.

Lemma deletePlayer_ids_NoDup sid ps :
  NoDup (Player.id <$> ps) → NoDup (Player.id <$> Room.deletePlayer sid ps).
Proof.
  intros H. eapply sublist_NoDup; [exact H|]. apply fmap_sublist. unfold Room.deletePlayer. apply sublist_filter.
Qed.

Lemma insertByNumber_perm p ps : Room.insertByNumber p ps ≡ₚ p :: ps.
Proof.
  induction ps as [|q ps IH]; cbn; [done|].
  case_decide; [done|]. rewrite IH. apply perm_swap.
Qed.

Lemma sortByNumber_perm ps : Room.sortByNumber ps ≡ₚ ps.
Proof.
  unfold Room.sortByNumber.
  induction ps as [|p ps IH]; cbn; [done|].
  by rewrite insertByNumber_perm, IH.
Qed.

Lemma elem_of_sortByNumber ps p : p ∈ Room.sortByNumber ps ↔ p ∈ ps.
Proof. by rewrite sortByNumber_perm. Qed.

(** Counting through a map that keeps what is counted. *)
Lemma filter_fmap_length (P : Player.t → Prop) `{!∀ p, Decision (P p)} f ps :
  (∀ p, P (f p) ↔ P p) →
  length (filter P (f <$> ps)) = length (filter P ps).
Proof.
  intros Hf. induction ps as [|p ps IH]; [done|].
  rewrite fmap_cons, !filter_cons. destruct (decide (P (f p))) as [H1|H1], (decide (P p)) as [H2|H2];
    cbn; rewrite ?IH; try done; exfalso; first [by apply H2, Hf | by apply H1, Hf].
Qed.
End ListFacts.


Lemma RevealInv_off r :
  Room.unfoundPlayerQueue r = [] → Room.activeUnfoundPlayerId r = None → RevealInv r.
Proof.
  intros Hq Ha. constructor; rewrite ?Hq, ?Ha; try done.
  - intros p _ H. by apply not_elem_of_nil in H.
  - constructor.
  - intros sid H. by apply not_elem_of_nil in H.
Qed.

Lemma hiders_length_Forall2 ps ps' :
  Forall2 (λ p p', Player.role p' = Player.role p) ps ps' →
  length (filter (λ p, Player.role p = PLAYER_ROLE.HIDER) ps') =
  length (filter (λ p, Player.role p = PLAYER_ROLE.HIDER) ps).
Proof.
  induction 1 as [|p p' ps ps' Hr _ IH]; [done|].
  rewrite !filter_cons, Hr. case_decide; cbn; by rewrite IH.
Qed.

(** A room whose players are the old ones in the old order, each possibly
    rewritten, but with the id and role it had. *)
Lemma CoreInv_rel r r' :
  CoreInv r →
  Forall2 (λ p p', Player.id p' = Player.id p ∧ Player.role p' = Player.role p ∧
                   Player.number p' = Player.number p ∧
                   (Room.gameState r' = GAME_STATE.SEEKING →
                    Player.soundsPlayed p' ≤ Room.soundPlaysPerPlayer r))
          (Room.players r) (Room.players r') →
  Room.soundPlaysPerPlayer r' = Room.soundPlaysPerPlayer r →
  Room.seekTimeLimit r' = Room.seekTimeLimit r →
  (Room.preSeekCountdownInterval r' = true → Room.gameState r' = GAME_STATE.HIDING) →
  (Room.seekTimerInterval r' = true → Room.gameState r' = GAME_STATE.SEEKING) →
  (is_Some (Room.soundRotationTimeout r') → Room.gameState r' = GAME_STATE.SEEKING) →
  0 ≤ Room.nextPlayerIndexToPlay r' →
  CoreInv r'.
Proof.
  intros Hinv Hps Hspp Hlimit Hc Ht Hs Hindex. core_destruct Hinv.
  constructor; rewrite ?Hspp, ?Hlimit; try done.
  - replace (Player.id <$> Room.players r') with (Player.id <$> Room.players r); [done|].
    apply list_eq_Forall2, Forall2_fmap. eapply Forall2_impl; [exact Hps|]. by intros ?? [-> _].
  - intros Hnil. rewrite Hnil in Hps. by apply Forall2_nil_inv_r in Hps.
  - intros p' [i Hi]%list_elem_of_lookup.
    destruct (Forall2_lookup_r _ _ _ _ _ Hps Hi) as (p & Hp%list_elem_of_lookup_2 & _ & _ & -> & _).
    by apply Hnum.
  - unfold hiders. rewrite (hiders_length_Forall2 (Room.players r)); [done|].
    eapply Forall2_impl; [exact Hps|]. by intros ?? (_ & ? & _).
  - intros Hgs p' [i Hi]%list_elem_of_lookup.
    destruct (Forall2_lookup_r _ _ _ _ _ Hps Hi) as (p & _ & Hp). by apply Hp.
Qed.

Lemma CoreInv_map (g : Player.t → Player.t) r r' :
  CoreInv r →
  Room.players r' = g <$> Room.players r →
  (∀ p, Player.id (g p) = Player.id p) →
  (∀ p, Player.role (g p) = Player.role p) →
  (∀ p, Player.number (g p) = Player.number p) →
  Room.soundPlaysPerPlayer r' = Room.soundPlaysPerPlayer r →
  Room.seekTimeLimit r' = Room.seekTimeLimit r →
  (Room.preSeekCountdownInterval r' = true → Room.gameState r' = GAME_STATE.HIDING) →
  (Room.seekTimerInterval r' = true → Room.gameState r' = GAME_STATE.SEEKING) →
  (is_Some (Room.soundRotationTimeout r') → Room.gameState r' = GAME_STATE.SEEKING) →
  0 ≤ Room.nextPlayerIndexToPlay r' →
  (Room.gameState r' = GAME_STATE.SEEKING →
   ∀ p, p ∈ Room.players r → Player.soundsPlayed (g p) ≤ Room.soundPlaysPerPlayer r) →
  CoreInv r'.
Proof.
  intros Hinv Hps Hid Hrole Hnumber Hspp Hlimit Hc Ht Hs Hindex Hsounds.
  apply (CoreInv_rel r r'); try done.
  rewrite Hps. apply Forall2_fmap_r, Forall_Forall2_diag, Forall_forall.
  intros p Hp. repeat split; eauto.
Qed.

Lemma CoreInv_same r r' :
  CoreInv r →
  Room.players r' = Room.players r →
  Room.soundPlaysPerPlayer r' = Room.soundPlaysPerPlayer r →
  Room.seekTimeLimit r' = Room.seekTimeLimit r →
  (Room.preSeekCountdownInterval r' = true → Room.gameState r' = GAME_STATE.HIDING) →
  (Room.seekTimerInterval r' = true → Room.gameState r' = GAME_STATE.SEEKING) →
  (is_Some (Room.soundRotationTimeout r') → Room.gameState r' = GAME_STATE.SEEKING) →
  0 ≤ Room.nextPlayerIndexToPlay r' →
  (Room.gameState r' = GAME_STATE.SEEKING → Room.gameState r = GAME_STATE.SEEKING) →
  CoreInv r'.
Proof.
  intros Hinv Hps ? ? ? ? ? ? Hgs.
  apply (CoreInv_map id r r'); try done.
  - by rewrite list_fmap_id.
  - intros Hseek p Hp. by apply (inv_sounds r Hinv); [apply Hgs|].
Qed.

Lemma CoreInv_revealFrame r r' : revealFrame r r' → CoreInv r → CoreInv r'.
Proof.
  intros Hf Hinv. destruct (revealFrame_fields _ _ Hf) as (?&Hgs&?&?&?&Ht1&Ht2&Ht3&Hi).
  apply (CoreInv_same r r'); rewrite ?Ht1, ?Ht2, ?Ht3, ?Hgs, ?Hi; try done; apply Hinv.
Qed.

Lemma endGame_core w r : CoreInv r → CoreInv (Room.endGame w r).1.
Proof.
  intros Hinv. unfold Room.endGame. case_decide; [done|].
  assert (CoreInv (Room.set_winner (Some w) (Room.set_gameState GAME_STATE.GAME_OVER
            (Room.clearGameIntervals r)))) as H1.
  { apply (CoreInv_same r); cbn; done. }
  destruct w; [|done].
  eapply CoreInv_revealFrame; [apply startGameOverReveal_frame|done].
Qed.

Lemma updateSettings_core settings r :
  CoreInv r → Room.gameState r = GAME_STATE.WAITING →
  CoreInv (Room.updateSettings settings r).1.2.
Proof.
  intros Hinv Hgs. core_destruct Hinv.
  unfold Room.updateSettings in *.
  repeat (case_match; simplify_eq/=; try case_bool_decide; try case_decide);
    constructor; cbn; try done; try congruence.
Qed.

Lemma ids_inj ps p q :
  NoDup (Player.id <$> ps) → p ∈ ps → q ∈ ps → Player.id p = Player.id q → p = q.
Proof.
  intros Hnd Hp Hq Heq.
  pose proof (lookupPlayer_elem _ _ Hnd Hp) as H1.
  pose proof (lookupPlayer_elem _ _ Hnd Hq) as H2.
  rewrite Heq in H1. congruence.
Qed.

Lemma elem_of_eligiblePlayers r p :
  p ∈ Room.eligiblePlayers r ↔
  p ∈ Room.players r ∧ Player.isFound p = false ∧
  Player.soundsPlayed p < Room.soundPlaysPerPlayer r.
Proof.
  unfold Room.eligiblePlayers. rewrite list_elem_of_filter, elem_of_sortByNumber. tauto.
Qed.

Lemma js_index_elem {A} (l : list A) i x : js_index l i = Some x → x ∈ l.
Proof.
  unfold js_index. case_decide; [|done]. apply list_elem_of_lookup_2.
Qed.

Lemma startPreSeekCountdown_core r :
  CoreInv r → Room.gameState r = GAME_STATE.HIDING →
  CoreInv (Room.startPreSeekCountdown r).1.
Proof.
  intros Hinv Hgs. unfold Room.startPreSeekCountdown.
  destruct (Room.preSeekCountdownInterval r); [done|]. cbn.
  apply (CoreInv_same r); cbn; try done; apply Hinv.
Qed.

Lemma startSeekTimer_eq r : Room.startSeekTimer r = Room.set_seekTimerInterval true r.
Proof. unfold Room.startSeekTimer. by destruct r as [? ? ? ? ? [] ? ? ? ? ? ? ? ? ? ?]. Qed.

Lemma startSeekingPhase_core now r :
  CoreInv r → Room.preSeekCountdownInterval r = false →
  CoreInv (Room.startSeekingPhase now r).1.
Proof.
  intros Hinv Hcd. unfold Room.startSeekingPhase. case_decide; [done|].
  rewrite startSeekTimer_eq. cbn.
  eapply (CoreInv_map Player.resetForSeeking r); cbn; try done; try apply Hinv.
  - congruence.
  - intros _ p _. pose proof (inv_plays r Hinv). unfold MIN_SOUND_PLAYS in *. lia.
Qed.

Lemma preSeekCountdownTick_core now r : CoreInv r → CoreInv (Room.preSeekCountdownTick now r).1.
Proof.
  intros Hinv. unfold Room.preSeekCountdownTick. cbn. case_decide.
  - match goal with |- context [Room.startSeekingPhase now ?x] =>
      pose proof (startSeekingPhase_core now x) as Hs;
      destruct (Room.startSeekingPhase now x) as [r' out'] end.
    cbn in *. apply Hs; [|done].
    apply (CoreInv_same r); cbn; try done; apply Hinv.
  - cbn. apply (CoreInv_same r); cbn; try done; apply Hinv.
Qed.

Lemma seekTimerTick_core now r : CoreInv r → CoreInv (Room.seekTimerTick now r).1.
Proof.
  intros Hinv. unfold Room.seekTimerTick. repeat case_decide; cbn; try done.
  - by apply endGame_core.
  - apply (CoreInv_same r); cbn; try done; apply Hinv.
Qed.

Lemma checkSeekerWin_core r : CoreInv r → CoreInv (Room.checkSeekerWin r).1.2.
Proof.
  intros Hinv. unfold Room.checkSeekerWin. case_decide; [done|].
  destruct (forallb _ _); [|done].
  pose proof (endGame_core WINNER_TYPE.SEEKERS r Hinv).
  by destruct (Room.endGame _ _).
Qed.

Lemma startHidingPhase_core r : CoreInv r → CoreInv (Room.startHidingPhase r).1.2.
Proof.
  intros Hinv. unfold Room.startHidingPhase. repeat case_decide; try done. cbn.
  eapply (CoreInv_map Player.resetForNewGame r); cbn; try done; apply Hinv.
Qed.

Lemma confirmPlayerHidden_core sid r : CoreInv r → CoreInv (Room.confirmPlayerHidden sid r).1.2.
Proof.
  intros Hinv. unfold Room.confirmPlayerHidden.
  destruct (Room.getPlayer sid r) as [p|]; [|done].
  case_decide as Hgs; [done|].
  destruct (Player.isReady p); [done|].
  set (r1 := Room.set_players _ r).
  assert (CoreInv r1) as H1.
  { eapply CoreInv_map; [exact Hinv|unfold r1; cbn; unfold Room.updatePlayer; reflexivity|..];
      cbn; try done; try apply Hinv.
    - intros q. by case_decide.
    - intros q. by case_decide.
    - intros q. by case_decide.
    - congruence. }
  destruct (Room._checkAllRemainingReady r1); [|done].
  pose proof (startPreSeekCountdown_core r1 H1 Hgs).
  by destruct (Room.startPreSeekCountdown r1).
Qed.

Lemma activateNextUnfoundPlayer_core r : CoreInv r → CoreInv (Room.activateNextUnfoundPlayer r).1.
Proof. apply CoreInv_revealFrame, activateNextUnfoundPlayer_frame. Qed.

Lemma markPlayerFound_core sid r : CoreInv r → CoreInv (Room.markPlayerFound sid r).1.2.
Proof.
  intros Hinv. unfold Room.markPlayerFound.
  destruct (Room.getPlayer sid r) as [p|]; [|done].
  destruct (Player.isFound p); [done|].
  case_bool_decide; [done|].
  set (r1 := Room.set_players _ r).
  assert (CoreInv r1) as H1.
  { eapply CoreInv_map; [exact Hinv|unfold r1; cbn; unfold Room.updatePlayer; reflexivity|..];
      cbn; try done; try apply Hinv.
    - intros q. by case_decide.
    - intros q. by case_decide.
    - intros q. by case_decide.
    - intros Hgs q Hq. case_decide; cbn; by apply (inv_sounds r Hinv). }
  repeat case_decide.
  - pose proof (checkSeekerWin_core r1 H1).
    destruct (Room.checkSeekerWin r1) as [[[] ?] ?]; done.
  - pose proof (activateNextUnfoundPlayer_core r1 H1).
    by destruct (Room.activateNextUnfoundPlayer r1).
  - cbn. apply (CoreInv_same r1); cbn; try done; apply H1.
  - done.
Qed.

Lemma scheduleNextSound_core now r : CoreInv r → CoreInv (Room.scheduleNextSound now r).1.
Proof.
  intros Hinv. unfold Room.scheduleNextSound.
  case_decide as Hgs; [apply (CoreInv_same r); cbn; try done; try apply Hinv; by intros []|].
  case_decide; [apply (CoreInv_same r); cbn; try done; try apply Hinv; by intros []|].
  case_decide as Hlen; [|apply (CoreInv_same r); cbn; try done; apply Hinv].
  case_decide; [|apply (CoreInv_same r); cbn; try done; apply Hinv].
  assert (0 ≤ Z.rem (Room.nextPlayerIndexToPlay r)
                (Z.of_nat (length (Room.eligiblePlayers r))) + 1) as Hrem.
  { pose proof (inv_index r Hinv).
    pose proof (Z.rem_nonneg (Room.nextPlayerIndexToPlay r)
                  (Z.of_nat (length (Room.eligiblePlayers r)))). lia. }
  destruct (js_index _ _) as [pt'|] eqn:Hidx; cbn;
    [destruct (Player.uniqueAnimalSoundURL pt') as [url|] eqn:Hurl; cbn|];
    try (apply (CoreInv_same r); cbn; try done; apply Hinv).
  apply js_index_elem, elem_of_eligiblePlayers in Hidx as (Hpt & _ & Hlt).
  eapply CoreInv_map; [exact Hinv|cbn; unfold Room.updatePlayer; reflexivity|..];
    cbn; try done; try apply Hinv.
  - intros q. by case_decide.
  - intros q. by case_decide.
  - intros q. by case_decide.
  - intros _ q Hq. case_decide as Hid; [|by apply (inv_sounds r Hinv)].
    cbn. rewrite (ids_inj _ q pt' (inv_ids r Hinv) Hq Hpt Hid). lia.
Qed.

(** ** Sound assignment, roster changes and the remaining methods *)

Lemma NUM_UNIQUE_SOUND_PAIRS_eq : NUM_UNIQUE_SOUND_PAIRS = 8.
Proof. reflexivity. Qed.

Section Sounds.
Implicit Types (pool : list string) (assigned : gset string).

Lemma pickSound_in_pool pool assigned draw number s :
  Room.pickSound pool assigned draw number = Some s → s ∈ pool.
Proof.
  unfold Room.pickSound. case_decide.
  - intros Hs%list_elem_of_lookup_2. by apply list_elem_of_filter in Hs as [_ ?].
  - apply js_index_elem.
Qed.

Lemma pickSound_fresh pool assigned draw number s :
  (∃ x, x ∈ pool ∧ x ∉ assigned) →
  Room.pickSound pool assigned draw number = Some s → s ∉ assigned.
Proof.
  intros (x & Hx & Hfree). unfold Room.pickSound. case_decide as Hlen.
  - intros Hs%list_elem_of_lookup_2. by apply list_elem_of_filter in Hs as [? _].
  - exfalso. apply Hlen.
    assert (x ∈ filter (λ s, s ∉ assigned) pool) as Hin by by apply list_elem_of_filter.
    destruct (filter _ pool); [by apply not_elem_of_nil in Hin | cbn; lia].
Qed.

Lemma pickSound_is_Some pool assigned draw number :
  NUM_UNIQUE_SOUND_PAIRS ≤ Z.of_nat (length pool) → 1 ≤ number →
  is_Some (Room.pickSound pool assigned draw number).
Proof.
  intros Hpool Hnum. unfold Room.pickSound. case_decide as Hlen.
  - apply lookup_lt_is_Some. by apply Nat.mod_upper_bound, Nat.neq_0_lt_0.
  - unfold js_index. rewrite NUM_UNIQUE_SOUND_PAIRS_eq in *.
    pose proof (Z.rem_bound_pos (number - 1) 8 ltac:(lia) ltac:(lia)).
    rewrite decide_True by lia. apply lookup_lt_is_Some. lia.
Qed.

Lemma _assignUniqueSounds_eq draws p r :
  let a := Room.pickSound BASE_ANIMAL_SOUNDS (Room.assignedAnimalSounds r) draws.1
             (Player.number p) in
  let u := Room.pickSound BASE_UNFOUND_SOUNDS (Room.assignedUnfoundSounds r) draws.2
             (Player.number p) in
  Room._assignUniqueSounds draws p r =
  (Player.set_sounds a u p,
   Room.set_assignedUnfoundSounds (Room.addSound u (Room.assignedUnfoundSounds r))
     (Room.set_assignedAnimalSounds (Room.addSound a (Room.assignedAnimalSounds r)) r)).
Proof. reflexivity. Qed.
End Sounds.

Lemma addSound_union s (X Y : gset string) :
  Room.addSound s X ∪ Y = X ∪ (list_to_set (option_list s) ∪ Y).
Proof. destruct s; cbn; set_solver. Qed.

Lemma list_to_set_omap_cons {A} (f : A → option string) x l :
  list_to_set (omap f (x :: l)) =@{gset string}
  list_to_set (option_list (f x)) ∪ list_to_set (omap f l).
Proof. cbn. destruct (f x); cbn; set_solver. Qed.

Lemma reassignAll_spec draws ps r :
  Forall2 reassigned ps (Room.reassignAll draws ps r).1 ∧
  (Room.reassignAll draws ps r).2 =
    Room.set_assignedUnfoundSounds
      (Room.assignedUnfoundSounds r ∪
         list_to_set (omap Player.uniqueUnfoundSoundURL (Room.reassignAll draws ps r).1))
      (Room.set_assignedAnimalSounds
         (Room.assignedAnimalSounds r ∪
            list_to_set (omap Player.uniqueAnimalSoundURL (Room.reassignAll draws ps r).1)) r).
Proof.
  revert r. induction ps as [|p ps IH]; intros r.
  - change (Room.reassignAll draws [] r) with (@nil Player.t, r). cbn [fst snd].
    split; [constructor|].
    assert (∀ (X : gset string) (f : Player.t → option string),
              X ∪ list_to_set (omap f []) = X) as Hempty by set_solver.
    rewrite !Hempty. by destruct r.
  - cbn [Room.reassignAll]. rewrite _assignUniqueSounds_eq. cbv zeta.
    match goal with |- context [Room.reassignAll draws ps ?x] =>
      destruct (IH x) as [IH1 IH2]; destruct (Room.reassignAll draws ps x) as [ps' r'] end.
    cbn in IH1, IH2. cbn [fst snd]. split.
    + constructor; [|done]. split; [done|]. intros Hnum. cbn.
      destruct (pickSound_is_Some BASE_ANIMAL_SOUNDS (Room.assignedAnimalSounds r)
                  (draws (Player.id p)).1 (Player.number p)) as [a Ha]; [by vm_compute|done|].
      destruct (pickSound_is_Some BASE_UNFOUND_SOUNDS (Room.assignedUnfoundSounds r)
                  (draws (Player.id p)).2 (Player.number p)) as [u Hu]; [by vm_compute|done|].
      exists a, u. rewrite Ha, Hu.
      repeat split; try done; eapply pickSound_in_pool; eassumption.
    + rewrite IH2, !list_to_set_omap_cons, !addSound_union. by destruct r.
Qed.

Lemma reassigned_fields p p' :
  reassigned p p' →
  Player.id p' = Player.id p ∧ Player.number p' = Player.number p ∧
  Player.role p' = Player.role p ∧ Player.isReady p' = false ∧
  Player.isFound p' = false ∧ Player.soundsPlayed p' = 0.
Proof. intros [H _]. by rewrite H. Qed.

Lemma resetForNewGame_eq draws r :
  let r0 :=
    Room.set_assignedUnfoundSounds ∅ (Room.set_assignedAnimalSounds ∅
      (Room.set_unfoundPlayerQueue [] (Room.set_activeUnfoundPlayerId None
        (Room.set_seekStartTime None (Room.clearGameIntervals
          (Room.set_winner None (Room.set_gameState GAME_STATE.WAITING r))))))) in
  let res := Room.reassignAll draws (Room.players r) r0 in
  Room.resetForNewGame draws r =
  (Room.set_players res.1 res.2, Room.broadcastUpdateState (Room.set_players res.1 res.2)).
Proof.
  cbv zeta. unfold Room.resetForNewGame. cbv zeta.
  change (Room.players (Room.set_assignedUnfoundSounds _ _)) with (Room.players r).
  by destruct (Room.reassignAll _ _ _).
Qed.

Lemma resetForNewGame_core draws r : CoreInv r → CoreInv (Room.resetForNewGame draws r).1.
Proof.
  intros Hinv. rewrite resetForNewGame_eq. cbv zeta. cbn [fst].
  match goal with |- context [Room.reassignAll draws ?ps ?x] =>
    destruct (reassignAll_spec draws ps x) as [H1 H2];
    destruct (Room.reassignAll draws ps x) as [ps' r'] end.
  cbn [fst snd] in *. subst r'.
  apply (CoreInv_rel r); cbn; try done; try apply Hinv.
  eapply Forall2_impl; [exact H1|]. intros p p' Hre.
  destruct (reassigned_fields _ _ Hre) as (? & ? & ? & _). done.
Qed.

Lemma requestPlayAgain_core sid draws r :
  CoreInv r → CoreInv (Room.requestPlayAgain sid draws r).1.2.
Proof.
  intros Hinv. unfold Room.requestPlayAgain. case_decide; [done|].
  destruct (Room.getPlayer sid r); [|done].
  pose proof (resetForNewGame_core draws r Hinv).
  by destruct (Room.resetForNewGame draws r).
Qed.

Lemma addPlayer_core sid draws r : CoreInv r → CoreInv (Room.addPlayer sid draws r).1.2.
Proof.
  intros Hinv. unfold Room.addPlayer.
  case_decide as Hgs; [done|]. case_bool_decide as Hin; [done|].
  rewrite _assignUniqueSounds_eq. cbv zeta. cbn [fst snd].
  apply eq_None_not_Some in Hin. unfold Room.getPlayer in Hin.
  rewrite lookupPlayer_None in Hin.
  core_destruct Hinv.
  assert (Z.of_nat (length (Room.players r)) + 1 ≠ 1) as Hn.
  { destruct (Room.players r); [done|cbn; lia]. }
  constructor; cbn; try done.
  - rewrite fmap_app. apply NoDup_app. split; [done|]. split; [|apply NoDup_singleton].
    intros x (p & -> & Hp)%list_elem_of_fmap [= Heq]%list_elem_of_singleton.
    by apply (Hin p).
  - by destruct (Room.players r).
  - intros p [Hp| ->%list_elem_of_singleton]%elem_of_app; [by apply Hnum|]. cbn. lia.
  - unfold hiders. cbn. rewrite filter_app, length_app.
    rewrite (decide_False (P := _ = 1)) by done. cbn. unfold hiders in Hh.
    rewrite decide_False by done. cbn. lia.
  - congruence.
Qed.

Section Roster.
Implicit Types (ps : list Player.t) (p q : Player.t) (sid : string).
#[local] Abbreviation isHider := (λ p : Player.t, Player.role p = PLAYER_ROLE.HIDER).

Lemma filter_filter_length (P Q : Player.t → Prop)
    `{!∀ p, Decision (P p)} `{!∀ p, Decision (Q p)} ps :
  (length (filter P (filter Q ps)) ≤ length (filter P ps))%nat.
Proof.
  induction ps as [|p ps IH]; [done|].
  rewrite (filter_cons Q), (filter_cons P).
  destruct (decide (Q p)), (decide (P p)); rewrite ?filter_cons;
    repeat case_decide; cbn; try done; lia.
Qed.

Lemma hiders_unique ps p q :
  (length (filter isHider ps) ≤ 1)%nat →
  p ∈ ps → Player.role p = PLAYER_ROLE.HIDER →
  q ∈ ps → Player.role q = PLAYER_ROLE.HIDER → p = q.
Proof.
  intros Hlen Hp Hrp Hq Hrq.
  assert (p ∈ filter isHider ps) as Hp' by by apply list_elem_of_filter.
  assert (q ∈ filter isHider ps) as Hq' by by apply list_elem_of_filter.
  destruct (filter isHider ps) as [|x [|y l]]; cbn in Hlen; [|..|lia].
  - by apply not_elem_of_nil in Hp'.
  - apply list_elem_of_singleton in Hp', Hq'. congruence.
Qed.

Lemma deletePlayer_no_hider ps p :
  (length (filter isHider ps) ≤ 1)%nat →
  p ∈ ps → Player.role p = PLAYER_ROLE.HIDER →
  filter isHider (Room.deletePlayer (Player.id p) ps) = [].
Proof.
  intros Hlen Hp Hrole.
  destruct (filter _ (Room.deletePlayer _ _)) as [|q l] eqn:Hf; [done|].
  assert (q ∈ filter isHider (Room.deletePlayer (Player.id p) ps)) as Hq
    by (rewrite Hf; left).
  apply list_elem_of_filter in Hq as [Hrq [Hq Hid]%elem_of_deletePlayer].
  by rewrite (hiders_unique ps p q) in Hid.
Qed.

Lemma updatePlayer_absent sid f ps :
  (∀ p, p ∈ ps → Player.id p ≠ sid) → Room.updatePlayer sid f ps = ps.
Proof.
  intros Hno. unfold Room.updatePlayer.
  induction ps as [|p ps IH]; [done|]. cbn.
  rewrite decide_False by (apply Hno; left).
  f_equal. apply IH. intros q Hq. apply Hno. by right.
Qed.

(** Promoting [p0] in a roster without Hider leaves exactly [p0] as Hider. *)
Lemma promote_hiders ps p0 :
  NoDup (Player.id <$> ps) → filter isHider ps = [] → p0 ∈ ps →
  filter isHider (Room.updatePlayer (Player.id p0) (Player.set_role PLAYER_ROLE.HIDER) ps)
  = [Player.set_role PLAYER_ROLE.HIDER p0].
Proof.
  induction ps as [|p ps IH]; intros Hnd Hno Hp0.
  - by apply not_elem_of_nil in Hp0.
  - rewrite fmap_cons in Hnd. apply NoDup_cons in Hnd as [Hp Hnd].
    rewrite filter_cons in Hno. case_decide as Hrole; [done|].
    unfold Room.updatePlayer. rewrite fmap_cons, filter_cons.
    fold (Room.updatePlayer (Player.id p0) (Player.set_role PLAYER_ROLE.HIDER) ps).
    destruct (decide (Player.id p = Player.id p0)) as [Heq|Hne].
    + assert (p0 = p) as ->.
      { apply elem_of_cons in Hp0 as [|Hin]; [done|]. exfalso. apply Hp.
        rewrite Heq. by apply list_elem_of_fmap_2. }
      rewrite decide_True by done. rewrite updatePlayer_absent, Hno; [done|].
      intros q Hq Hid. apply Hp. rewrite <- Hid. by apply list_elem_of_fmap_2.
    + rewrite decide_False by done. apply IH; [done..|].
      apply elem_of_cons in Hp0 as [->|]; done.
Qed.

(** The smallest number comes first after sorting. *)
Lemma insertByNumber_head p ps x rest :
  Room.insertByNumber p ps = x :: rest →
  (x = p ∧ ∀ q, head ps = Some q → Player.number p ≤ Player.number q) ∨
  (head ps = Some x ∧ Player.number x < Player.number p).
Proof.
  destruct ps as [|q ps]; cbn.
  - intros [= <- <-]. left. by split.
  - case_decide; intros [= <- <-].
    + left. split; [done|]. by intros ? [= <-].
    + right. split; [done|lia].
Qed.

Lemma sortByNumber_head_min ps x rest :
  Room.sortByNumber ps = x :: rest → ∀ q, q ∈ ps → Player.number x ≤ Player.number q.
Proof.
  unfold Room.sortByNumber. revert x rest.
  induction ps as [|p ps IH]; intros x rest Hs q Hq.
  - by apply not_elem_of_nil in Hq.
  - cbn in Hs. destruct (foldr Room.insertByNumber [] ps) as [|y l] eqn:Hsorted.
    + assert (ps = []) as ->.
      { apply Permutation_nil_r. rewrite <- (sortByNumber_perm ps).
        unfold Room.sortByNumber. by rewrite Hsorted. }
      cbn in Hs. injection Hs as <- <-. apply list_elem_of_singleton in Hq as ->. lia.
    + specialize (IH y l eq_refl).
      apply insertByNumber_head in Hs as [[-> Hle]|[[= <-] Hlt]].
      * specialize (Hle y eq_refl).
        apply elem_of_cons in Hq as [->|Hq]; [lia|]. specialize (IH q Hq). lia.
      * apply elem_of_cons in Hq as [->|Hq]; [lia|]. by apply IH.
Qed.
End Roster.

(** The room right after [delete this.players[socketId]]. *)
Lemma deleted_core sid r A U :
  CoreInv r → Room.deletePlayer sid (Room.players r) ≠ [] →
  CoreInv (Room.set_players (Room.deletePlayer sid (Room.players r))
             (Room.set_assignedUnfoundSounds U (Room.set_assignedAnimalSounds A r))).
Proof.
  intros Hinv Hrest. core_destruct Hinv. constructor; cbn; try done.
  - by apply deletePlayer_ids_NoDup.
  - intros p [Hp _]%elem_of_deletePlayer. by apply Hnum.
  - unfold hiders, Room.deletePlayer in *. cbn.
    etrans; [apply filter_filter_length|done].
  - intros Hgs p [Hp _]%elem_of_deletePlayer. by apply Hsp.
Qed.

Lemma _promoteNewHider_core r :
  CoreInv r → hiders r = [] → CoreInv (Room._promoteNewHider r).
Proof.
  intros Hinv Hno. unfold Room._promoteNewHider.
  destruct (Room.sortByNumber (Room.players r)) as [|p0 rest] eqn:Hsort; [done|].
  assert (p0 ∈ Room.players r) as Hp0.
  { apply elem_of_sortByNumber. rewrite Hsort. left. }
  core_destruct Hinv. constructor; cbn; try done.
  - by rewrite updatePlayer_ids.
  - by rewrite updatePlayer_nil.
  - intros q (p & Hp & ->)%elem_of_updatePlayer. case_decide; cbn; by apply Hnum.
  - unfold hiders. cbn. by rewrite promote_hiders.
  - intros Hgs q (p & Hp & ->)%elem_of_updatePlayer. case_decide; cbn; by apply Hsp.
Qed.

Lemma removePlayer_core sid r r' out :
  CoreInv r → Room.removePlayer sid r = (false, r', out) → CoreInv r'.
Proof.
  intros Hinv. unfold Room.removePlayer.
  destruct (Room.getPlayer sid r) as [p|] eqn:Hget; [|by intros [= <- _]].
  apply lookupPlayer_Some in Hget as [Hp Hid]. cbv zeta.
  set (r0 := Room.set_players _ _).
  destruct (Room.isEmpty r0) eqn:Hempty; [done|].
  assert (CoreInv r0) as H0.
  { apply (deleted_core sid r); [done|]. unfold Room.isEmpty in Hempty. cbn in Hempty.
    by destruct (Room.deletePlayer sid (Room.players r)). }
  case_decide as Hw.
  { intros [= <- _]. case_bool_decide as Hrole; [|done].
    apply _promoteNewHider_core; [done|]. unfold hiders, r0. cbn. rewrite <- Hid.
    apply deletePlayer_no_hider; [apply Hinv|done..]. }
  case_bool_decide as Hh.
  { destruct (_ && _).
    - pose proof (startPreSeekCountdown_core r0 H0 Hh).
      destruct (Room.startPreSeekCountdown r0). by intros [= <- _].
    - by intros [= <- _]. }
  case_bool_decide as Hs.
  { case_bool_decide.
    - pose proof (endGame_core WINNER_TYPE.SEEKERS r0 H0).
      destruct (Room.endGame _ r0). by intros [= <- _].
    - pose proof (checkSeekerWin_core r0 H0).
      destruct (Room.checkSeekerWin r0) as [[[] ?] ?]; by intros [= <- _]. }
  set (r1 := Room.set_unfoundPlayerQueue _ r0).
  assert (CoreInv r1) as H1 by (apply (CoreInv_same r0); cbn; try done; apply H0).
  case_bool_decide; [|by intros [= <- _]].
  case_bool_decide; [|by intros [= <- _]].
  pose proof (activateNextUnfoundPlayer_core r1 H1).
  destruct (Room.activateNextUnfoundPlayer r1). by intros [= <- _].
Qed.

(** ** Preservation of the reveal-queue invariants *)


Lemma RevealInv_keep r r' :
  RevealInv r → ¬ inReveal r →
  Room.unfoundPlayerQueue r' = Room.unfoundPlayerQueue r →
  Room.activeUnfoundPlayerId r' = Room.activeUnfoundPlayerId r →
  RevealInv r'.
Proof.
  intros Hinv Hno Hq Ha. destruct (inv_reveal_off r Hinv Hno) as [Hq0 Ha0].
  apply RevealInv_off; congruence.
Qed.

Section SpliceFirst.
Implicit Types (queue : list string) (x y : string).

Lemma spliceFirst_sublist x queue : Room.spliceFirst x queue `sublist_of` queue.
Proof.
  unfold Room.spliceFirst. induction queue as [|y queue IH]; [done|].
  case_decide; [by apply sublist_cons | by apply sublist_skip].
Qed.

Lemma spliceFirst_elem x y queue : y ∈ Room.spliceFirst x queue → y ∈ queue.
Proof. intros H. eapply elem_of_sublist; [exact H | apply spliceFirst_sublist]. Qed.

Lemma spliceFirst_NoDup x queue : NoDup queue → NoDup (Room.spliceFirst x queue).
Proof. intros H. eapply sublist_NoDup; [exact H | apply spliceFirst_sublist]. Qed.

Lemma spliceFirst_gone x queue : NoDup queue → x ∉ Room.spliceFirst x queue.
Proof.
  unfold Room.spliceFirst. induction queue as [|y queue IH]; intros Hnd.
  - apply not_elem_of_nil.
  - apply NoDup_cons in Hnd as [Hy Hnd]. case_decide as Heq; [by subst|].
    intros [->|Hin]%elem_of_cons; [done|]. by apply IH.
Qed.
End SpliceFirst.

Lemma activateNextFrom_reveal queue r :
  inReveal r → Room.unfoundPlayerQueue r = queue → NoDup queue →
  (∀ p, p ∈ Room.players r → Player.id p ∈ queue → Player.isFound p = false) →
  (∀ sid, sid ∈ queue → ∃ p, p ∈ Room.players r ∧ Player.id p = sid) →
  RevealInv (Room.activateNextFrom queue r).1.
Proof.
  revert r. induction queue as [|x rest IH]; intros r Hrev Hqueue Hnd Hq Hpresent.
  - cbn. constructor; cbn; rewrite ?Hqueue; try done.
  - cbn [Room.activateNextFrom]. cbv zeta.
    set (r1 := Room.set_activeUnfoundPlayerId (Some x) _).
    apply NoDup_cons in Hnd as [Hx Hnd].
    assert (RevealInv (Room.activateNextFrom rest r1).1) as Hrec.
    { apply IH; try done.
      - intros p Hp Hin. apply Hq; [done|by right].
      - intros sid Hin. apply Hpresent. by right. }
    destruct (Room.getPlayer x r1) as [p|] eqn:Hget; [|done].
    destruct (Player.uniqueUnfoundSoundURL p); [|done].
    apply lookupPlayer_Some in Hget as [Hp Hid]. cbn [fst].
    constructor; cbn; try done.
    + intros q Hq' Hin. apply Hq; [done|by right].
    + intros sid Hin. apply Hpresent. by right.
    + intros sid [= <-]. split; [done|]. exists p. repeat split; try done.
      apply Hq; [done|]. rewrite Hid. left.
Qed.

Lemma startGameOverReveal_reveal r :
  NoDup (Player.id <$> Room.players r) → inReveal r →
  RevealInv (Room.startGameOverReveal r).1.
Proof.
  intros Hids [Hgs Hw]. unfold Room.startGameOverReveal.
  rewrite decide_False by (by intros []). cbv zeta.
  unfold Room.activateNextUnfoundPlayer. cbn. rewrite decide_False by (by intros []).
  set (queue := Player.id <$> _).
  apply activateNextFrom_reveal; cbn; try done.
  - unfold queue. rewrite sortByNumber_perm.
    eapply sublist_NoDup; [exact Hids|]. apply fmap_sublist, sublist_filter.
  - intros p Hp (q & Hid & Hq)%list_elem_of_fmap.
    apply elem_of_sortByNumber, list_elem_of_filter in Hq as [Hfound Hq].
    by rewrite (ids_inj _ p q Hids Hp Hq Hid).
  - intros sid (q & -> & Hq)%list_elem_of_fmap.
    apply elem_of_sortByNumber, list_elem_of_filter in Hq as [_ Hq]. by exists q.
Qed.

Lemma endGame_reveal w r :
  CoreInv r → RevealInv r → RevealInv (Room.endGame w r).1.
Proof.
  intros Hcore Hrev. unfold Room.endGame. case_decide as Hgs; [done|]. cbv zeta.
  destruct w.
  - apply startGameOverReveal_reveal; [apply Hcore|done].
  - cbn. apply (RevealInv_keep r); try done. by intros [].
Qed.

Lemma checkSeekerWin_reveal r :
  CoreInv r → RevealInv r → RevealInv (Room.checkSeekerWin r).1.2.
Proof.
  intros Hcore Hrev. unfold Room.checkSeekerWin. case_decide; [done|].
  destruct (forallb _ _); [|done].
  pose proof (endGame_reveal WINNER_TYPE.SEEKERS r Hcore Hrev).
  by destruct (Room.endGame _ _).
Qed.

Lemma startSeekingPhase_reveal now r :
  RevealInv r → ¬ inReveal r → RevealInv (Room.startSeekingPhase now r).1.
Proof.
  intros Hrev Hno. unfold Room.startSeekingPhase. case_decide; [done|].
  rewrite startSeekTimer_eq. by apply (RevealInv_keep r).
Qed.

Lemma preSeekCountdownTick_reveal now r :
  RevealInv r → ¬ inReveal r → RevealInv (Room.preSeekCountdownTick now r).1.
Proof.
  intros Hrev Hno. unfold Room.preSeekCountdownTick. cbv zeta. case_decide.
  - match goal with |- context [Room.startSeekingPhase now ?x] =>
      pose proof (startSeekingPhase_reveal now x) as Hs;
      destruct (Room.startSeekingPhase now x) as [r' out'] end.
    cbn in *. apply Hs; [|done]. by apply (RevealInv_keep r).
  - by apply (RevealInv_keep r).
Qed.

Lemma seekTimerTick_reveal now r :
  CoreInv r → RevealInv r → RevealInv (Room.seekTimerTick now r).1.
Proof.
  intros Hcore Hrev. unfold Room.seekTimerTick. repeat case_decide; cbn; try done.
  - by apply endGame_reveal.
  - constructor; cbn; apply Hrev.
Qed.

Lemma scheduleNextSound_reveal now r :
  RevealInv r → ¬ inReveal r → RevealInv (Room.scheduleNextSound now r).1.
Proof.
  intros Hrev Hno. unfold Room.scheduleNextSound.
  repeat case_decide; try by apply (RevealInv_keep r).
  destruct (js_index _ _) as [pt|]; cbn; [destruct (Player.uniqueAnimalSoundURL pt); cbn|];
    by apply (RevealInv_keep r).
Qed.

Lemma updateSettings_reveal settings r :
  RevealInv r → ¬ inReveal r → RevealInv (Room.updateSettings settings r).1.2.
Proof.
  intros Hrev Hno. unfold Room.updateSettings.
  destruct (parseInt (settings_seekTimeLimit settings)),
           (parseInt (settings_soundPlaysPerPlayer settings));
    repeat first [case_bool_decide | case_decide]; cbn;
    by apply (RevealInv_keep r).
Qed.

Lemma addPlayer_reveal sid draws r :
  RevealInv r → RevealInv (Room.addPlayer sid draws r).1.2.
Proof.
  intros Hrev. unfold Room.addPlayer.
  case_decide as Hgs; [done|]. case_bool_decide; [done|].
  rewrite _assignUniqueSounds_eq. cbv zeta. cbn [fst snd].
  apply (RevealInv_keep r); try done. intros []. congruence.
Qed.

Lemma startHidingPhase_reveal r : RevealInv r → RevealInv (Room.startHidingPhase r).1.2.
Proof.
  intros Hrev. unfold Room.startHidingPhase. repeat case_decide; try done.
  apply (RevealInv_keep r); try done. intros []. congruence.
Qed.

Lemma confirmPlayerHidden_reveal sid r :
  RevealInv r → RevealInv (Room.confirmPlayerHidden sid r).1.2.
Proof.
  intros Hrev. unfold Room.confirmPlayerHidden.
  destruct (Room.getPlayer sid r) as [p|]; [|done].
  case_decide as Hgs; [done|]. destruct (Player.isReady p); [done|].
  assert (¬ inReveal r) by (intros []; congruence).
  destruct (Room._checkAllRemainingReady _); [|by apply (RevealInv_keep r)].
  unfold Room.startPreSeekCountdown. cbn.
  destruct (Room.preSeekCountdownInterval r); by apply (RevealInv_keep r).
Qed.

Lemma resetForNewGame_reveal draws r : RevealInv (Room.resetForNewGame draws r).1.
Proof.
  rewrite resetForNewGame_eq. cbv zeta. cbn [fst].
  match goal with |- context [Room.reassignAll draws ?ps ?x] =>
    destruct (reassignAll_spec draws ps x) as [H1 H2];
    destruct (Room.reassignAll draws ps x) as [ps' r'] end.
  cbn [fst snd] in *. subst r'. by apply RevealInv_off.
Qed.

Lemma requestPlayAgain_reveal sid draws r :
  RevealInv r → RevealInv (Room.requestPlayAgain sid draws r).1.2.
Proof.
  intros Hrev. unfold Room.requestPlayAgain. case_decide; [done|].
  destruct (Room.getPlayer sid r); [|done].
  pose proof (resetForNewGame_reveal draws r).
  by destruct (Room.resetForNewGame draws r).
Qed.

Lemma markPlayerFound_reveal sid r :
  CoreInv r → RevealInv r → RevealInv (Room.markPlayerFound sid r).1.2.
Proof.
  intros Hcore Hrev. unfold Room.markPlayerFound.
  destruct (Room.getPlayer sid r) as [p0|] eqn:Hget; [|done].
  destruct (Player.isFound p0) eqn:Hfound; [done|].
  case_bool_decide as Hstate; [done|].
  set (r1 := Room.set_players _ r).
  assert (CoreInv r1) as Hcore1.
  { eapply CoreInv_map; [exact Hcore|unfold r1; cbn; unfold Room.updatePlayer; reflexivity|..];
      cbn; try done; try apply Hcore; try (intros q; by case_decide).
    intros Hgs q Hq. case_decide; cbn; by apply (inv_sounds r Hcore). }
  case_decide as Hseek.
  - assert (RevealInv r1) as Hrev1.
    { apply (RevealInv_keep r); try done. intros []. cbn in Hseek. congruence. }
    pose proof (checkSeekerWin_reveal r1 Hcore1 Hrev1) as Hres.
    destruct (Room.checkSeekerWin r1) as [[[] r2] out2]; cbn in *; done.
  - cbn in Hseek.
    assert (inReveal r) as Hin.
    { unfold inReveal. apply dec_stable. intros Hno. apply Hstate. by split. }
    reveal_destruct Hrev.
    assert (∀ q, q ∈ Room.players r1 → Player.id q ≠ sid →
                 q ∈ Room.players r) as Hother.
    { intros q (p & Hp & ->)%elem_of_updatePlayer Hid. by case_decide. }
    rewrite decide_True by apply Hin.
    case_decide as Hact0.
    + unfold Room.activateNextUnfoundPlayer. rewrite decide_False by (intros H; by apply H, Hin).
      match goal with |- RevealInv (let '(_, _) := ?x in _).1.2 =>
        assert (RevealInv x.1) as Hres; [|by destruct x] end.
      assert (∀ x, x ∈ Room.unfoundPlayerQueue r →
                   ∃ p, p ∈ Room.players r1 ∧ Player.id p = x) as Hqp1.
      { intros x (p & Hp & <-)%Hqp.
        exists (if decide (Player.id p = sid) then Player.set_isFound true p else p).
        split; [apply elem_of_updatePlayer; by exists p | by case_decide]. }
      apply activateNextFrom_reveal; try done.
      intros q Hq' Hinq. destruct (decide (Player.id q = sid)) as [Heq|Hne].
      * exfalso. rewrite Heq in Hinq. by apply (Hact _ (eq_sym Hact0)).
      * apply Hq; [by apply Hother|done].
    + cbn. constructor; cbn; try done.
      * intros q Hq' Hinq. destruct (decide (Player.id q = sid)) as [Heq|Hne].
        -- exfalso. rewrite Heq in Hinq.
           by apply (spliceFirst_gone sid (Room.unfoundPlayerQueue r)).
        -- apply Hq; [by apply Hother|]. by apply spliceFirst_elem in Hinq.
      * by apply spliceFirst_NoDup.
      * intros x (p & Hp & <-)%spliceFirst_elem%Hqp.
        exists (if decide (Player.id p = sid) then Player.set_isFound true p else p).
        split; [apply elem_of_updatePlayer; by exists p | by case_decide].
      * intros a Ha. destruct (Hact a Ha) as (Hnot & p & Hp & Hid & Hf). split.
        -- intros Hin'%spliceFirst_elem. done.
        -- exists p. repeat split; try done.
           apply elem_of_updatePlayer. exists p. split; [done|].
           rewrite decide_False; [done|]. cbn in Hact0. congruence.
Qed.

Lemma removePlayer_reveal sid r r' out :
  CoreInv r → RevealInv r → Room.removePlayer sid r = (false, r', out) → RevealInv r'.
Proof.
  intros Hcore Hrev. unfold Room.removePlayer.
  destruct (Room.getPlayer sid r) as [p|] eqn:Hget; [|by intros [= <- _]].
  apply lookupPlayer_Some in Hget as [Hp Hid]. cbv zeta.
  set (r0 := Room.set_players _ _).
  destruct (Room.isEmpty r0) eqn:Hempty; [done|].
  assert (CoreInv r0) as H0.
  { apply (deleted_core sid r); [done|]. unfold Room.isEmpty in Hempty. cbn in Hempty.
    by destruct (Room.deletePlayer sid (Room.players r)). }
  assert (¬ inReveal r → RevealInv r0) as Hkeep0.
  { intros Hno. by apply (RevealInv_keep r). }
  case_decide as Hw.
  { intros [= <- _]. cbn in Hw.
    assert (¬ inReveal r) as Hno by (intros []; congruence).
    apply (RevealInv_keep r); try done;
      case_bool_decide; try done; unfold Room._promoteNewHider;
      by destruct (Room.sortByNumber _). }
  case_bool_decide as Hh.
  { assert (¬ inReveal r) as Hno by (intros []; congruence).
    unfold Room.startPreSeekCountdown.
    destruct (_ && _); [destruct (Room.preSeekCountdownInterval r0)|];
      intros [= <- _]; by apply (RevealInv_keep r). }
  case_bool_decide as Hs.
  { assert (¬ inReveal r) as Hno by (intros []; congruence).
    case_bool_decide.
    - pose proof (endGame_reveal WINNER_TYPE.SEEKERS r0 H0 (Hkeep0 Hno)).
      destruct (Room.endGame _ r0). by intros [= <- _].
    - pose proof (checkSeekerWin_reveal r0 H0 (Hkeep0 Hno)).
      destruct (Room.checkSeekerWin r0) as [[[] ?] ?]; by intros [= <- _]. }
  case_bool_decide as Hin; [|intros [= <- _]; by apply Hkeep0].
  reveal_destruct Hrev.
  set (r1 := Room.set_unfoundPlayerQueue _ r0).
  assert (∀ x, x ∈ Room.spliceFirst sid (Room.unfoundPlayerQueue r) →
               ∃ q, q ∈ Room.deletePlayer sid (Room.players r) ∧ Player.id q = x)
    as Hpresent0.
  { intros x Hx. destruct (Hqp x (spliceFirst_elem _ _ _ Hx)) as (q & Hq' & <-).
    exists q. split; [|done]. apply elem_of_deletePlayer. split; [done|].
    intros Heq. rewrite Heq in Hx. by apply (spliceFirst_gone sid (Room.unfoundPlayerQueue r)). }
  case_bool_decide as Hact0.
  - unfold Room.activateNextUnfoundPlayer.
    rewrite decide_False by (intros H; by apply H, Hin).
    match goal with |- (let '(_, _) := ?x in _) = _ → _ =>
      assert (RevealInv x.1) as Hres; [|destruct x; by intros [= <- _]] end.
    apply activateNextFrom_reveal; try done.
    + by apply spliceFirst_NoDup.
    + intros q [Hq' _]%elem_of_deletePlayer Hinq%spliceFirst_elem. by apply Hq.
  - intros [= <- _]. constructor; cbn; try done.
    + intros q [Hq' _]%elem_of_deletePlayer Hinq%spliceFirst_elem. by apply Hq.
    + by apply spliceFirst_NoDup.
    + intros a Ha. destruct (Hact a Ha) as (Hnot & q & Hq' & Hida & Hf). split.
      * by intros Hin'%spliceFirst_elem.
      * exists q. repeat split; try done. apply elem_of_deletePlayer. split; [done|].
        congruence.
Qed.

(** ** Every registered room satisfies the invariants *)

Lemma reportTo_room {A} sid (res : Outcome A * Room.t * list Emit) :
  (reportTo sid res).1 = res.1.2.
Proof. by destruct res as [[[] ?] ?]. Qed.

Lemma logOnly_room {A} (res : Outcome A * Room.t * list Emit) :
  (logOnly res).1 = res.1.2.
Proof. by destruct res as [[[] ?] ?]. Qed.

Lemma createRoom_eq roomCode sid draws :
  let a := Room.pickSound BASE_ANIMAL_SOUNDS ∅ draws.1 1 in
  let u := Room.pickSound BASE_UNFOUND_SOUNDS ∅ draws.2 1 in
  createRoom roomCode sid draws =
  Room.set_players [Player.set_sounds a u (Player.new sid 1 PLAYER_ROLE.HIDER)]
    (Room.set_assignedUnfoundSounds (Room.addSound u ∅)
       (Room.set_assignedAnimalSounds (Room.addSound a ∅) (Room.new roomCode))).
Proof. reflexivity. Qed.

Lemma createRoom_inv roomCode sid draws : RoomInv (createRoom roomCode sid draws).
Proof.
  rewrite createRoom_eq. cbv zeta. split.
  - constructor; cbn; try done.
    + apply NoDup_singleton.
    + intros p ->%list_elem_of_singleton. done.
  - by apply RevealInv_off.
Qed.

Lemma step_inv r e r' : RoomInv r → step r e r' → RoomInv r'.
Proof.
  intros [Hcore Hrev] [Harmed Hstep].
  destruct e; cbn in Harmed, Hstep.
  - injection Hstep as <-. unfold on_joinRoom. rewrite reportTo_room.
    split; [by apply addPlayer_core | by apply addPlayer_reveal].
  - unfold handleDisconnect, findRoomBySocketId in Hstep.
    destruct (Room.getPlayer socketId r); [|injection Hstep as <-; by split].
    destruct (Room.removePlayer socketId r) as [[[] r1] out] eqn:Hrm; [done|].
    injection Hstep as <-.
    split; [by eapply removePlayer_core | by eapply removePlayer_reveal].
  - injection Hstep as <-. unfold on_updateSettings, findRoomBySocketId.
    rewrite reportTo_room.
    destruct (Room.getPlayer socketId r) as [p|] eqn:Hget; [|by split].
    rewrite Hget. repeat case_decide; try by split.
    split; [by apply updateSettings_core|]. apply updateSettings_reveal; [done|].
    intros []. congruence.
  - injection Hstep as <-. unfold on_startHiding, findRoomBySocketId.
    rewrite reportTo_room.
    destruct (Room.getPlayer socketId r) as [p|] eqn:Hget; [|by split].
    rewrite Hget. case_decide; [by split|].
    split; [by apply startHidingPhase_core | by apply startHidingPhase_reveal].
  - injection Hstep as <-. unfold on_confirmHidden, findRoomBySocketId.
    rewrite logOnly_room.
    destruct (Room.getPlayer socketId r); [|by split].
    split; [by apply confirmPlayerHidden_core | by apply confirmPlayerHidden_reveal].
  - injection Hstep as <-. unfold on_markSelfFound, findRoomBySocketId.
    rewrite logOnly_room.
    destruct (Room.getPlayer socketId r); [|by split].
    split; [by apply markPlayerFound_core | by apply markPlayerFound_reveal].
  - injection Hstep as <-. unfold on_requestPlayAgain, findRoomBySocketId.
    rewrite reportTo_room.
    destruct (Room.getPlayer socketId r); [|by split].
    split; [by apply requestPlayAgain_core | by apply requestPlayAgain_reveal].
  - injection Hstep as <-.
    split; [by apply preSeekCountdownTick_core|]. apply preSeekCountdownTick_reveal; [done|].
    intros []. pose proof (inv_countdown r Hcore Harmed). congruence.
  - injection Hstep as <-.
    split; [by apply seekTimerTick_core | by apply seekTimerTick_reveal].
  - injection Hstep as <-.
    split; [by apply scheduleNextSound_core|]. apply scheduleNextSound_reveal; [done|].
    intros []. apply bool_decide_eq_true in Harmed.
    pose proof (inv_soundTimer r Hcore Harmed). congruence.
Qed.

Theorem reachable_inv r : reachable r → RoomInv r.
Proof.
  induction 1 as [code sid draws | r e r' _ IH Hstep].
  - apply createRoom_inv.
  - by eapply step_inv.
Qed.

Lemma run_reachable es r r' : reachable r → run es r = Some r' → reachable r'.
Proof.
  revert r. induction es as [|e es IH]; intros r Hr; cbn.
  - by intros [= <-].
  - destruct (armed e r) eqn:Harmed; [|done].
    destruct (handle e r).1 as [r1|] eqn:Hstep; [|done].
    apply IH. by eapply reachable_step.
Qed.

(** ** The roster: who is in the room, with which number and role *)

Lemma roster_map (g : Player.t → Player.t) r r' :
  Room.players r' = g <$> Room.players r →
  (∀ p, Player.id (g p) = Player.id p ∧ Player.number (g p) = Player.number p ∧
        Player.role (g p) = Player.role p) →
  roster r' = roster r.
Proof.
  intros Hps Hg. unfold roster. rewrite Hps, <- list_fmap_compose.
  apply list_fmap_ext. intros _ p _. cbn. by destruct (Hg p) as (-> & -> & ->).
Qed.

Lemma roster_update sid f r r' :
  Room.players r' = Room.updatePlayer sid f (Room.players r) →
  (∀ p, Player.id (f p) = Player.id p ∧ Player.number (f p) = Player.number p ∧
        Player.role (f p) = Player.role p) →
  roster r' = roster r.
Proof.
  intros Hps Hf. unfold Room.updatePlayer in Hps.
  eapply roster_map; [exact Hps|]. intros p. cbn. case_decide; [apply Hf|done].
Qed.

Lemma roster_same r r' : Room.players r' = Room.players r → roster r' = roster r.
Proof. unfold roster. by intros ->. Qed.

Lemma roster_revealFrame r r' : revealFrame r r' → roster r' = roster r.
Proof. intros H. apply roster_same. by destruct (revealFrame_fields _ _ H) as [-> _]. Qed.

Lemma hiders_roster r :
  length (hiders r) = length (filter (λ x, x.2 = PLAYER_ROLE.HIDER) (roster r)).
Proof.
  unfold hiders, roster. induction (Room.players r) as [|p ps IH]; [done|].
  rewrite fmap_cons, !filter_cons. cbn. case_decide; cbn; by rewrite IH.
Qed.

Lemma endGame_roster w r : roster (Room.endGame w r).1 = roster r.
Proof. apply roster_same. unfold Room.endGame. case_decide; [done|].
  destruct w; cbn; [|done].
  match goal with |- context [Room.startGameOverReveal ?x] =>
    by destruct (revealFrame_fields x _ (startGameOverReveal_frame x)) as (-> & _) end.
Qed.

Lemma checkSeekerWin_roster r : roster (Room.checkSeekerWin r).1.2 = roster r.
Proof.
  unfold Room.checkSeekerWin. case_decide; [done|]. destruct (forallb _ _); [|done].
  pose proof (endGame_roster WINNER_TYPE.SEEKERS r). by destruct (Room.endGame _ _).
Qed.

Lemma startPreSeekCountdown_roster r : roster (Room.startPreSeekCountdown r).1 = roster r.
Proof. unfold Room.startPreSeekCountdown. by destruct (Room.preSeekCountdownInterval r). Qed.

Lemma startSeekingPhase_roster now r : roster (Room.startSeekingPhase now r).1 = roster r.
Proof.
  unfold Room.startSeekingPhase. case_decide; [done|]. rewrite startSeekTimer_eq.
  by apply (roster_map Player.resetForSeeking).
Qed.

Lemma preSeekCountdownTick_roster now r : roster (Room.preSeekCountdownTick now r).1 = roster r.
Proof.
  unfold Room.preSeekCountdownTick. cbv zeta. case_decide; [|done].
  match goal with |- context [Room.startSeekingPhase now ?x] =>
    pose proof (startSeekingPhase_roster now x) as Hs;
    destruct (Room.startSeekingPhase now x) as [r' out'] end.
  done.
Qed.

Lemma seekTimerTick_roster now r : roster (Room.seekTimerTick now r).1 = roster r.
Proof.
  unfold Room.seekTimerTick. repeat case_decide; try done. apply endGame_roster.
Qed.

Lemma scheduleNextSound_roster now r : roster (Room.scheduleNextSound now r).1 = roster r.
Proof.
  unfold Room.scheduleNextSound. repeat case_decide; try done.
  destruct (js_index _ _) as [pt|]; cbn; [destruct (Player.uniqueAnimalSoundURL pt); cbn|];
    try done.
  by eapply roster_update.
Qed.

Lemma updateSettings_roster settings r : roster (Room.updateSettings settings r).1.2 = roster r.
Proof.
  unfold Room.updateSettings.
  destruct (parseInt (settings_seekTimeLimit settings)),
           (parseInt (settings_soundPlaysPerPlayer settings));
    repeat first [case_bool_decide | case_decide]; done.
Qed.

Lemma startHidingPhase_roster r : roster (Room.startHidingPhase r).1.2 = roster r.
Proof.
  unfold Room.startHidingPhase. repeat case_decide; try done.
  by apply (roster_map Player.resetForNewGame).
Qed.

Lemma confirmPlayerHidden_roster sid r : roster (Room.confirmPlayerHidden sid r).1.2 = roster r.
Proof.
  unfold Room.confirmPlayerHidden.
  destruct (Room.getPlayer sid r) as [p|]; [|done].
  case_decide; [done|]. destruct (Player.isReady p); [done|].
  set (r1 := Room.set_players _ r).
  assert (roster r1 = roster r) as <- by by eapply roster_update.
  destruct (Room._checkAllRemainingReady r1); [|done].
  pose proof (startPreSeekCountdown_roster r1). by destruct (Room.startPreSeekCountdown r1).
Qed.

Lemma markPlayerFound_roster sid r : roster (Room.markPlayerFound sid r).1.2 = roster r.
Proof.
  unfold Room.markPlayerFound.
  destruct (Room.getPlayer sid r) as [p|]; [|done].
  destruct (Player.isFound p); [done|]. case_bool_decide; [done|].
  set (r1 := Room.set_players _ r).
  assert (roster r1 = roster r) as <- by by eapply roster_update.
  repeat case_decide; try done.
  - pose proof (checkSeekerWin_roster r1).
    destruct (Room.checkSeekerWin r1) as [[[] ?] ?]; done.
  - pose proof (roster_revealFrame _ _ (activateNextUnfoundPlayer_frame r1)).
    by destruct (Room.activateNextUnfoundPlayer r1).
Qed.

Lemma resetForNewGame_roster draws r : roster (Room.resetForNewGame draws r).1 = roster r.
Proof.
  rewrite resetForNewGame_eq. cbv zeta. cbn [fst].
  match goal with |- context [Room.reassignAll draws ?ps ?x] =>
    destruct (reassignAll_spec draws ps x) as [H1 _];
    destruct (Room.reassignAll draws ps x) as [ps' r'] end.
  cbn [fst snd] in *. unfold roster. cbn.
  apply list_eq_Forall2, Forall2_fmap. eapply Forall2_flip, Forall2_impl; [exact H1|].
  intros p p' Hre. by destruct (reassigned_fields _ _ Hre) as (-> & -> & -> & _).
Qed.

Lemma requestPlayAgain_roster sid draws r :
  roster (Room.requestPlayAgain sid draws r).1.2 = roster r.
Proof.
  unfold Room.requestPlayAgain. case_decide; [done|].
  destruct (Room.getPlayer sid r); [|done].
  pose proof (resetForNewGame_roster draws r). by destruct (Room.resetForNewGame draws r).
Qed.

Lemma removePlayer_roster sid r r' out p :
  Room.getPlayer sid r = Some p →
  Room.removePlayer sid r = (false, r', out) →
  let r0 := Room.set_players (Room.deletePlayer sid (Room.players r)) r in
  Room.players r0 ≠ [] ∧
  roster r' =
  roster (if decide (Room.gameState r = GAME_STATE.WAITING ∧
                     Player.role p = PLAYER_ROLE.HIDER)
          then Room._promoteNewHider r0 else r0).
Proof.
  intros Hget. unfold Room.removePlayer. rewrite Hget. cbv zeta.
  set (r1 := Room.set_players _ _). intros Hrm.
  set (r0 := Room.set_players _ r).
  assert (roster r1 = roster r0) as Hr1 by done.
  destruct (Room.isEmpty r1) eqn:Hempty; [done|].
  split. { unfold Room.isEmpty in Hempty. cbn in *. by destruct (Room.deletePlayer _ _). }
  revert Hrm. case_decide as Hw.
  { intros [= <- _]. cbn in Hw. case_bool_decide.
    - rewrite decide_True by done. unfold Room._promoteNewHider. cbn.
      by destruct (Room.sortByNumber _).
    - rewrite decide_False by (by intros []). done. }
  cbn in Hw. rewrite decide_False by (by intros []). rewrite <- Hr1.
  case_bool_decide.
  { destruct (_ && _); [|by intros [= <- _]].
    pose proof (startPreSeekCountdown_roster r1).
    destruct (Room.startPreSeekCountdown r1). by intros [= <- _]. }
  case_bool_decide.
  { case_bool_decide.
    - pose proof (endGame_roster WINNER_TYPE.SEEKERS r1).
      destruct (Room.endGame _ r1). by intros [= <- _].
    - pose proof (checkSeekerWin_roster r1).
      destruct (Room.checkSeekerWin r1) as [[[] ?] ?]; by intros [= <- _]. }
  case_bool_decide; [|by intros [= <- _]].
  case_bool_decide; [|by intros [= <- _]].
  match goal with |- context [Room.activateNextUnfoundPlayer ?x] =>
    pose proof (roster_revealFrame _ _ (activateNextUnfoundPlayer_frame x));
    destruct (Room.activateNextUnfoundPlayer x) end.
  by intros [= <- _].
Qed.

Lemma filter_filter_absorb (P Q : Player.t → Prop)
    `{!∀ p, Decision (P p)} `{!∀ p, Decision (Q p)} (ps : list Player.t) :
  (∀ p, p ∈ ps → P p → Q p) → filter P (filter Q ps) = filter P ps.
Proof.
  induction ps as [|p ps IH]; intros HPQ; [done|].
  rewrite (filter_cons Q), (filter_cons P).
  assert (filter P (filter Q ps) = filter P ps) as IH'.
  { apply IH. intros q Hq. apply HPQ. by right. }
  destruct (decide (Q p)) as [HQ|HQ], (decide (P p)) as [HP|HP];
    rewrite ?filter_cons, ?decide_True, ?decide_False by done; rewrite ?IH'; try done.
  exfalso. apply HQ, HPQ; [left|done].
Qed.

Lemma deletePlayer_keeps_hiders (ps : list Player.t) p :
  NoDup (Player.id <$> ps) → p ∈ ps → Player.role p ≠ PLAYER_ROLE.HIDER →
  filter (λ q, Player.role q = PLAYER_ROLE.HIDER) (Room.deletePlayer (Player.id p) ps) =
  filter (λ q, Player.role q = PLAYER_ROLE.HIDER) ps.
Proof.
  intros Hnd Hp Hrole. unfold Room.deletePlayer.
  apply filter_filter_absorb. intros q Hq Hrq Hid.
  apply Hrole. by rewrite <- (ids_inj ps q p Hnd Hq Hp Hid).
Qed.

Lemma addPlayer_hiders sid draws r :
  Room.players r ≠ [] →
  length (hiders (Room.addPlayer sid draws r).1.2) = length (hiders r).
Proof.
  intros Hne. unfold Room.addPlayer.
  case_decide as Hgs; [done|]. case_bool_decide as Hin; [done|].
  rewrite _assignUniqueSounds_eq. cbv zeta. cbn [fst snd].
  assert (Z.of_nat (length (Room.players r)) + 1 ≠ 1) as Hn.
  { destruct (Room.players r); [done|cbn; lia]. }
  unfold hiders. cbn. rewrite filter_app, length_app.
  rewrite (decide_False (P := _ = 1)) by done. cbn.
  rewrite decide_False by done. cbn. lia.
Qed.

Lemma step_keeps_one_hider r e r' :
  RoomInv r → step r e r' → length (hiders r) = 1%nat →
  length (hiders r') = 1%nat ∨
  ∃ sid hider, e = leaveRoom sid ∧ Room.getPlayer sid r = Some hider ∧
               Player.role hider = PLAYER_ROLE.HIDER ∧
               Room.gameState r ≠ GAME_STATE.WAITING.
Proof.
  intros [Hcore Hrev] [Harmed Hstep] Hone.
  destruct e; cbn in Harmed, Hstep;
    try (injection Hstep as <-; left; rewrite hiders_roster in *).
  - rewrite <- hiders_roster. unfold on_joinRoom. rewrite reportTo_room.
    rewrite addPlayer_hiders; [by rewrite hiders_roster | apply Hcore].
  - unfold handleDisconnect, findRoomBySocketId in Hstep.
    destruct (Room.getPlayer socketId r) as [p|] eqn:Hget; [|injection Hstep as <-; by left].
    destruct (Room.removePlayer socketId r) as [[[] r1] out] eqn:Hrm; [done|].
    injection Hstep as <-.
    destruct (removePlayer_roster _ _ _ _ _ Hget Hrm) as [Hne Hroster].
    pose proof Hget as [Hp Hid]%lookupPlayer_Some.
    destruct (decide (Player.role p = PLAYER_ROLE.HIDER)) as [Hrole|Hrole].
    + destruct (decide (Room.gameState r = GAME_STATE.WAITING)) as [Hw|Hw];
        [|right; by exists socketId, p].
      left. rewrite hiders_roster, Hroster, decide_True, <- hiders_roster by done.
      unfold Room._promoteNewHider.
      destruct (Room.sortByNumber _) as [|p0 rest] eqn:Hsort.
      { exfalso. apply Hne. apply Permutation_nil_r. by rewrite <- sortByNumber_perm, Hsort. }
      unfold hiders. cbn in *. rewrite promote_hiders; [done|..].
      * apply deletePlayer_ids_NoDup, Hcore.
      * rewrite <- Hid. apply deletePlayer_no_hider; [apply Hcore|done..].
      * apply elem_of_sortByNumber. rewrite Hsort. left.
    + left. rewrite hiders_roster, Hroster, decide_False, <- hiders_roster by (by intros []).
      unfold hiders. cbn. rewrite <- Hid, deletePlayer_keeps_hiders; [done|apply Hcore|done..].
  - unfold on_updateSettings, findRoomBySocketId. rewrite reportTo_room.
    destruct (Room.getPlayer socketId r) as [p|] eqn:Hget; [|done].
    rewrite Hget. repeat case_decide; try done. by rewrite updateSettings_roster.
  - unfold on_startHiding, findRoomBySocketId. rewrite reportTo_room.
    destruct (Room.getPlayer socketId r) as [p|] eqn:Hget; [|done].
    rewrite Hget. case_decide; [done|]. by rewrite startHidingPhase_roster.
  - unfold on_confirmHidden, findRoomBySocketId. rewrite logOnly_room.
    destruct (Room.getPlayer socketId r); [|done]. by rewrite confirmPlayerHidden_roster.
  - unfold on_markSelfFound, findRoomBySocketId. rewrite logOnly_room.
    destruct (Room.getPlayer socketId r); [|done]. by rewrite markPlayerFound_roster.
  - unfold on_requestPlayAgain, findRoomBySocketId. rewrite reportTo_room.
    destruct (Room.getPlayer socketId r); [|done]. by rewrite requestPlayAgain_roster.
  - by rewrite preSeekCountdownTick_roster.
  - by rewrite seekTimerTick_roster.
  - by rewrite scheduleNextSound_roster.
Qed.

(** ** C1: one Hider per room, and promotion *)

Lemma after_reachable es : is_Some (run es Samples.start) → reachable (Samples.after es).
Proof.
  intros [r Hr]. unfold Samples.after. rewrite Hr. cbn.
  eapply run_reachable; [|exact Hr]. constructor.
Defined.

(** The stable sort puts first the earliest of the players with the
    smallest number. *)
Lemma sortByNumber_head_first ps x rest :
  Room.sortByNumber ps = x :: rest →
  ∃ before after,
    ps = (before ++ x :: after)%list ∧
    (∀ q, q ∈ before → Player.number x < Player.number q) ∧
    (∀ q, q ∈ after → Player.number x ≤ Player.number q).
Proof.
  revert x rest. induction ps as [|p ps IH]; intros x rest Hs; [done|].
  pose proof (sortByNumber_head_min _ _ _ Hs) as Hmin.
  change (Room.sortByNumber (p :: ps)) with (Room.insertByNumber p (Room.sortByNumber ps)) in Hs.
  apply insertByNumber_head in Hs as [[-> _]|[Hhead Hlt]].
  - exists [], ps. split; [done|]. split.
    + by intros q Hq%not_elem_of_nil.
    + intros q Hq. apply Hmin. by right.
  - destruct (Room.sortByNumber ps) as [|y l] eqn:Hsorted; [done|]. injection Hhead as ->.
    destruct (IH x l eq_refl) as (before & after & -> & Hbefore & Hafter).
    exists (p :: before), after. split; [done|]. split; [|done].
    intros q [->|Hq]%elem_of_cons; [done|by apply Hbefore].
Qed.

Lemma promotion_while_waiting r sid hider :
  CoreInv r →
  Room.gameState r = GAME_STATE.WAITING →
  Room.getPlayer sid r = Some hider →
  Player.role hider = PLAYER_ROLE.HIDER →
  Room.deletePlayer sid (Room.players r) ≠ [] →
  ∃ r' out p0,
    handleDisconnect sid r = (Some r', out) ∧
    p0 ∈ Room.deletePlayer sid (Room.players r) ∧
    (∀ q, q ∈ Room.deletePlayer sid (Room.players r) → Player.number p0 ≤ Player.number q) ∧
    (∃ before after,
       Room.deletePlayer sid (Room.players r) = (before ++ p0 :: after)%list ∧
       (∀ q, q ∈ before → Player.number p0 < Player.number q) ∧
       (∀ q, q ∈ after → Player.number p0 ≤ Player.number q)) ∧
    Room.players r' =
      Room.updatePlayer (Player.id p0) (Player.set_role PLAYER_ROLE.HIDER)
        (Room.deletePlayer sid (Room.players r)) ∧
    hiders r' = [Player.set_role PLAYER_ROLE.HIDER p0].
Proof.
  intros Hcore Hgs Hget Hrole Hrest.
  pose proof Hget as [Hp Hid]%lookupPlayer_Some.
  destruct (Room.sortByNumber (Room.deletePlayer sid (Room.players r)))
    as [|p0 rest] eqn:Hsort.
  { exfalso. apply Hrest, Permutation_nil_r. by rewrite <- sortByNumber_perm, Hsort. }
  assert (p0 ∈ Room.deletePlayer sid (Room.players r)) as Hp0.
  { apply elem_of_sortByNumber. rewrite Hsort. left. }
  assert (∃ r' out, Room.removePlayer sid r = (false, r', out) ∧
            Room.players r' =
              Room.updatePlayer (Player.id p0) (Player.set_role PLAYER_ROLE.HIDER)
                (Room.deletePlayer sid (Room.players r))) as (r' & out & Hrm & Hps).
  { unfold Room.removePlayer. rewrite Hget.
    cbv zeta. rewrite isEmpty_false by done.
    rewrite Hrole, Hgs. cbn. rewrite Hgs. cbn.
    unfold Room._promoteNewHider. cbn. rewrite Hsort.
    by eexists _, _. }
  exists r', out, p0. split.
  { unfold handleDisconnect, findRoomBySocketId. by rewrite Hget, Hrm. }
  unfold hiders. rewrite Hps.
  split; [done|]. split.
  { by apply (sortByNumber_head_min _ _ _ Hsort). }
  split; [by apply (sortByNumber_head_first _ _ _ Hsort)|].
  split; [done|]. unfold hiders. cbn. apply promote_hiders; [|by rewrite <- Hid; apply deletePlayer_no_hider; [apply Hcore|..]|done].
  apply deletePlayer_ids_NoDup, Hcore.
Qed.

(** C1 (amended).  A registered room never has two Hiders.  A room has
    exactly one Hider when it is created, and every event keeps it that way
    except the departure of the Hider outside the Waiting phase.  When the
    Hider leaves during Waiting while other players remain, the remaining
    player with the smallest [number] (the earliest joined among equals:
    every remaining player who joined before has a larger number) becomes
    the Hider, and is then the only one. *)
Theorem hider_uniqueness_and_promotion r :
  reachable r →
  (∀ roomCode socketId draws,
     length (hiders (createRoom roomCode socketId draws)) = 1%nat) ∧
  (length (hiders r) ≤ 1)%nat ∧
  (∀ e r', step r e r' → length (hiders r) = 1%nat →
     length (hiders r') = 1%nat ∨
     ∃ sid hider, e = leaveRoom sid ∧ Room.getPlayer sid r = Some hider ∧
                  Player.role hider = PLAYER_ROLE.HIDER ∧
                  Room.gameState r ≠ GAME_STATE.WAITING) ∧
  (∀ sid hider,
     Room.gameState r = GAME_STATE.WAITING →
     Room.getPlayer sid r = Some hider →
     Player.role hider = PLAYER_ROLE.HIDER →
     Room.deletePlayer sid (Room.players r) ≠ [] →
     ∃ r' out p0,
       handleDisconnect sid r = (Some r', out) ∧
       p0 ∈ Room.deletePlayer sid (Room.players r) ∧
       (∀ q, q ∈ Room.deletePlayer sid (Room.players r) →
             Player.number p0 ≤ Player.number q) ∧
       (∃ before after,
          Room.deletePlayer sid (Room.players r) = (before ++ p0 :: after)%list ∧
          (∀ q, q ∈ before → Player.number p0 < Player.number q) ∧
          (∀ q, q ∈ after → Player.number p0 ≤ Player.number q)) ∧
       Room.players r' =
         Room.updatePlayer (Player.id p0) (Player.set_role PLAYER_ROLE.HIDER)
           (Room.deletePlayer sid (Room.players r)) ∧
       hiders r' = [Player.set_role PLAYER_ROLE.HIDER p0]).
Proof.
  intros Hr. pose proof (reachable_inv r Hr) as Hinv.
  split; [intros; by rewrite createRoom_eq|]. split; [apply Hinv|]. split.
  - intros e r'. by apply step_keeps_one_hider.
  - intros sid hider. apply promotion_while_waiting, Hinv.
Qed.

Lemma hider_uniqueness_and_promotion_witness :
  reachable Samples.waiting_with_equal_numbers ∧
  (λ p, (Player.id p, Player.number p)) <$> Room.players Samples.waiting_with_equal_numbers =
    [("s1", 1); ("s3", 3); ("s4", 3)] ∧
  (length (hiders Samples.waiting_with_equal_numbers) ≤ 1)%nat ∧
  ∃ r' out p0,
    handleDisconnect "s1" Samples.waiting_with_equal_numbers = (Some r', out) ∧
    Player.id p0 = "s3" ∧
    hiders r' = [Player.set_role PLAYER_ROLE.HIDER p0].
Proof.
  assert (reachable Samples.waiting_with_equal_numbers) as Hr.
  { apply after_reachable. vm_compute. eauto. }
  split; [exact Hr|]. split; [by vm_compute|].
  destruct (hider_uniqueness_and_promotion Samples.waiting_with_equal_numbers Hr)
    as (_ & Hle & _ & Hpromote).
  split; [exact Hle|].
  destruct (Hpromote "s1" (default (Player.new "" 0 PLAYER_ROLE.SEEKER)
                             (Room.getPlayer "s1" Samples.waiting_with_equal_numbers)))
    as (r' & out & p0 & Hd & _ & _ & _ & _ & Hh); [by vm_compute..|].
  assert ((λ res, Player.id <$> hiders res) <$>
            (handleDisconnect "s1" Samples.waiting_with_equal_numbers).1 = Some ["s3"])
    as Hids by by vm_compute.
  rewrite Hd in Hids. cbn in Hids. rewrite Hh in Hids. injection Hids as Hid.
  exists r', out, p0. exact (conj Hd (conj Hid Hh)).
Defined.

(** C1 as stated fails: in a reachable two-player room in the Hiding phase
    the Hider "s1" leaves; the room stays registered with the single player
    "s2", who keeps the role Seeker, so the non-empty room has no Hider and
    nobody was promoted. *)
Lemma hider_leaves_while_hiding_counterexample :
  reachable Samples.hiding2 ∧
  Room.getPlayer "s1" Samples.hiding2 ≫= (λ p, Some (Player.role p)) = Some PLAYER_ROLE.HIDER ∧
  ∃ r', (handleDisconnect "s1" Samples.hiding2).1 = Some r' ∧
        reachable r' ∧
        Player.id <$> Room.players r' = ["s2"] ∧
        hiders r' = [].
Proof.
  assert (reachable Samples.hiding2) as Hr.
  { apply after_reachable. vm_compute. eauto. }
  split; [exact Hr|]. split; [by vm_compute|].
  eexists. split; [by vm_compute|]. split; [|by vm_compute].
  apply (reachable_step Samples.hiding2 (leaveRoom "s1")); [exact Hr|].
  split; [done|]. by vm_compute.
Qed.

(** ** C3: the two ways a Seeking phase ends *)

Lemma forallb_elem {A} (f : A → bool) (l : list A) :
  forallb f l = true ↔ ∀ x, x ∈ l → f x = true.
Proof.
  rewrite forallb_forall. split; intros H x Hx; apply H; by apply list_elem_of_In.
Qed.

Lemma markPlayerFound_all_found sid r p :
  Room.gameState r = GAME_STATE.SEEKING →
  Room.getPlayer sid r = Some p → Player.isFound p = false →
  (∀ q, q ∈ Room.players r → Player.id q ≠ sid → Player.isFound q = true) →
  ∃ r' out,
    Room.markPlayerFound sid r = (Return (), r', out) ∧
    Room.gameState r' = GAME_STATE.GAME_OVER ∧
    Room.winner r' = Some WINNER_TYPE.SEEKERS ∧
    playVictoryMelody ∈ out.
Proof.
  intros Hgs Hget Hfound Hothers.
  unfold Room.markPlayerFound. rewrite Hget, Hfound.
  rewrite bool_decide_eq_false_2 by (intros [? _]; done).
  cbv zeta. cbn [Room.gameState Room.set_players]. rewrite decide_True by done.
  unfold Room.checkSeekerWin. cbn [Room.gameState Room.set_players Room.players].
  rewrite decide_False by (intros H; by apply H).
  assert (forallb Player.isFound
            (Room.updatePlayer sid (Player.set_isFound true) (Room.players r)) = true) as ->.
  { apply forallb_elem. intros q (q0 & Hq0 & ->)%elem_of_updatePlayer.
    case_decide; cbn; [done|]. by apply Hothers. }
  unfold Room.endGame. cbn [Room.gameState Room.set_players].
  rewrite decide_False by congruence. cbn.
  eexists _, _. repeat split; try done. left.
Qed.

Lemma markPlayerFound_over sid r :
  Room.gameState r = GAME_STATE.GAME_OVER →
  Room.gameState (Room.markPlayerFound sid r).1.2 = GAME_STATE.GAME_OVER ∧
  Room.winner (Room.markPlayerFound sid r).1.2 = Room.winner r.
Proof.
  intros Hgs. unfold Room.markPlayerFound.
  destruct (Room.getPlayer sid r) as [p|]; [|done].
  destruct (Player.isFound p); [done|]. case_bool_decide; [done|].
  cbv zeta. cbn [Room.gameState Room.set_players].
  rewrite decide_False by congruence. rewrite decide_True by done.
  case_decide; [|done].
  match goal with |- context [Room.activateNextUnfoundPlayer ?x] =>
    destruct (revealFrame_fields x _ (activateNextUnfoundPlayer_frame x)) as (_ & H1 & H2 & _);
    destruct (Room.activateNextUnfoundPlayer x) end.
  cbn in *. by rewrite H1, H2.
Qed.

Lemma seekTimerTick_expired now r :
  Room.gameState r = GAME_STATE.SEEKING →
  Room.seekTimeLimit r * 1000 ≤ Room.elapsedMs now r →
  Room.gameState (Room.seekTimerTick now r).1 = GAME_STATE.GAME_OVER ∧
  Room.winner (Room.seekTimerTick now r).1 = Some WINNER_TYPE.HIDER.
Proof.
  intros Hgs Hexp. unfold Room.seekTimerTick. rewrite !decide_True by done.
  destruct (endGame_ends WINNER_TYPE.HIDER r) as (? & ? & _); [congruence|done].
Qed.

(** C3.  In a registered room in the Seeking phase, a tick of the deadline
    timer that sees the elapsed time at or past [seekTimeLimit] ends the game
    with winner Hider; marking found the last player that was not found ends
    it at once with winner Seekers (and plays the victory melody).  Once the
    game is over both ending paths do nothing: the deadline tick,
    [checkSeekerWin] and [endGame] return the room as it is, and a found-mark
    changes neither [gameState] nor [winner]; so whichever fired first has
    won. *)
Theorem seeking_ends_first_wins r now :
  reachable r →
  (Room.gameState r = GAME_STATE.SEEKING →
   Room.seekTimeLimit r * 1000 ≤ Room.elapsedMs now r →
   Room.gameState (Room.seekTimerTick now r).1 = GAME_STATE.GAME_OVER ∧
   Room.winner (Room.seekTimerTick now r).1 = Some WINNER_TYPE.HIDER) ∧
  (Room.gameState r = GAME_STATE.SEEKING →
   ∀ sid p,
     Room.getPlayer sid r = Some p → Player.isFound p = false →
     (∀ q, q ∈ Room.players r → Player.id q ≠ sid → Player.isFound q = true) →
     ∃ r' out,
       Room.markPlayerFound sid r = (Return (), r', out) ∧
       Room.gameState r' = GAME_STATE.GAME_OVER ∧
       Room.winner r' = Some WINNER_TYPE.SEEKERS ∧
       playVictoryMelody ∈ out) ∧
  (Room.gameState r = GAME_STATE.GAME_OVER →
   Room.seekTimerTick now r = (r, []) ∧
   Room.checkSeekerWin r = (false, r, []) ∧
   (∀ w, Room.endGame w r = (r, [])) ∧
   (∀ sid, Room.gameState (Room.markPlayerFound sid r).1.2 = GAME_STATE.GAME_OVER ∧
           Room.winner (Room.markPlayerFound sid r).1.2 = Room.winner r)).
Proof.
  intros Hr. destruct (reachable_inv r Hr) as [Hcore _].
  split; [apply seekTimerTick_expired|]. split.
  - intros Hgs sid p. by apply markPlayerFound_all_found.
  - intros Hgs. repeat split.
    + unfold Room.seekTimerTick. rewrite decide_False by congruence.
      destruct (Room.seekTimerInterval r) eqn:Ht.
      * pose proof (inv_seekTimer r Hcore Ht). congruence.
      * f_equal. destruct r. cbn in *. by subst.
    + unfold Room.checkSeekerWin. rewrite decide_True; [done|congruence].
    + intros w. by apply endGame_over.
    + by apply markPlayerFound_over.
    + by apply markPlayerFound_over.
Qed.

Lemma seeking_ends_first_wins_witness :
  Room.gameState (Room.seekTimerTick 125000 Samples.seeking2).1 = GAME_STATE.GAME_OVER ∧
  Room.winner (Room.seekTimerTick 125000 Samples.seeking2).1 = Some WINNER_TYPE.HIDER.
Proof.
  destruct (seeking_ends_first_wins Samples.seeking2 125000) as (H & _ & _).
  { apply after_reachable. vm_compute. eauto. }
  apply H; by vm_compute.
Defined.

(** ** C4 and C5: one tick of the sound rotation *)

Lemma foldl_add_shift {A} (f : A → Z) (l : list A) (acc : Z) :
  foldl (λ sum p, sum + f p) acc l = acc + sumZ (f <$> l).
Proof.
  revert acc. induction l as [|x l IH]; intros acc; cbn; [lia|].
  rewrite IH. unfold sumZ. lia.
Qed.

Lemma totalPlaysLeft_sum r :
  Room.totalPlaysLeft r =
  sumZ ((λ p, Room.soundPlaysPerPlayer r - Player.soundsPlayed p) <$> Room.eligiblePlayers r).
Proof. unfold Room.totalPlaysLeft. rewrite foldl_add_shift. lia. Qed.

Lemma totalPlaysLeft_pos r : Room.eligiblePlayers r ≠ [] → 0 < Room.totalPlaysLeft r.
Proof.
  intros Hne. rewrite totalPlaysLeft_sum.
  assert (Forall (λ p, Player.soundsPlayed p < Room.soundPlaysPerPlayer r)
            (Room.eligiblePlayers r)) as Hall.
  { apply Forall_forall. intros p Hp. by apply elem_of_eligiblePlayers in Hp as (_ & _ & ?). }
  destruct (Room.eligiblePlayers r) as [|p l]; [done|]. clear Hne.
  apply Forall_cons in Hall as [Hp Hl]. cbn.
  assert (0 ≤ sumZ ((λ p, Room.soundPlaysPerPlayer r - Player.soundsPlayed p) <$> l)).
  { induction Hl as [|q l Hq _ IH]; cbn; [done|]. unfold sumZ in IH. lia. }
  unfold sumZ in *.
  lia.
Qed.

(** C4 (amended).  On a sound-rotation tick during Seeking:
    [totalPlaysLeft] is the sum of [soundPlaysPerPlayer - soundsPlayed] over
    the eligible players.  If no time remains ([timeRemainingMs <= 0]) the
    pending check is cleared, nothing is rearmed, nothing else changes and
    no cue is sent.  While time remains: if no player is eligible the check
    is rearmed after the fixed [CHECK_INTERVAL_WHEN_NO_SOUNDS_MS], nothing
    else changes and no cue is sent; otherwise the next delay is
    [max(MIN_SOUND_DELAY_MS, timeRemainingMs / totalPlaysLeft)], the
    quotient being the one of doubles. *)
Theorem sound_tick_delay r now :
  Room.gameState r = GAME_STATE.SEEKING →
  Room.totalPlaysLeft r =
    sumZ ((λ p, Room.soundPlaysPerPlayer r - Player.soundsPlayed p) <$> Room.eligiblePlayers r) ∧
  (Room.timeRemainingMs now r ≤ 0 →
   Room.scheduleNextSound now r = (Room.set_soundRotationTimeout None r, [])) ∧
  (0 < Room.timeRemainingMs now r → Room.eligiblePlayers r = [] →
   Room.scheduleNextSound now r =
     (Room.set_soundRotationTimeout (Some (inject_Z CHECK_INTERVAL_WHEN_NO_SOUNDS_MS)) r, [])) ∧
  (0 < Room.timeRemainingMs now r → Room.eligiblePlayers r ≠ [] →
   Room.soundRotationTimeout (Room.scheduleNextSound now r).1 =
     Some (Qmax (inject_Z MIN_SOUND_DELAY_MS)
                (jsDivide (Room.timeRemainingMs now r) (Room.totalPlaysLeft r)))).
Proof.
  intros Hgs. split; [apply totalPlaysLeft_sum|].
  unfold Room.scheduleNextSound.
  rewrite decide_False by (intros H; by apply H). cbv zeta.
  split; [intros Htime; by rewrite decide_True|].
  split; intros Htime; rewrite (decide_False (P := Room.timeRemainingMs now r ≤ 0)) by lia.
  - intros ->. by rewrite decide_False by (cbn; lia).
  - intros Hne. pose proof (totalPlaysLeft_pos r Hne).
    rewrite decide_True by (destruct (Room.eligiblePlayers r); [done | cbn; lia]).
    rewrite decide_True by lia.
    destruct (js_index _ _) as [pt|]; cbn; [destruct (Player.uniqueAnimalSoundURL pt)|]; done.
Qed.

(** At clock 6000 there are 119000 ms and 12 plays left: the next delay is
    the double 9916.666666666666, which is 5451745154389333 / 2^39.  At
    clock 125000 no time remains. *)
Lemma sound_tick_delay_witness :
  Room.timeRemainingMs 6000 Samples.seeking2 = 119000 ∧
  Room.totalPlaysLeft Samples.seeking2 = 12 ∧
  Room.soundRotationTimeout (Room.scheduleNextSound 6000 Samples.seeking2).1 =
    Some (5451745154389333 # 549755813888)%Q ∧
  Room.timeRemainingMs 125000 Samples.seeking2 = 0 ∧
  Room.scheduleNextSound 125000 Samples.seeking2 =
    (Room.set_soundRotationTimeout None Samples.seeking2, []).
Proof.
  assert (Room.gameState Samples.seeking2 = GAME_STATE.SEEKING) as Hgs by by vm_compute.
  destruct (sound_tick_delay Samples.seeking2 6000 Hgs) as (_ & _ & _ & Hdelay).
  destruct (sound_tick_delay Samples.seeking2 125000 Hgs) as (_ & Hup & _).
  split; [by vm_compute|]. split; [by vm_compute|]. split.
  - rewrite Hdelay; by vm_compute.
  - split; [by vm_compute|]. apply Hup. by vm_compute.
Defined.

(** C4 as stated fails: a reachable room in Seeking, with both players
    eligible and the deadline timer still armed, gets a sound tick when the
    time is up; the tick arms no further check (and sends no cue), where the
    statement asks for a next tick after [max(MIN_SOUND_DELAY_MS, 0 / 12)]. *)
Lemma sound_tick_after_deadline_counterexample :
  reachable Samples.seeking2 ∧
  Room.gameState Samples.seeking2 = GAME_STATE.SEEKING ∧
  Room.seekTimerInterval Samples.seeking2 = true ∧
  Player.id <$> Room.eligiblePlayers Samples.seeking2 = ["s1"; "s2"] ∧
  Room.timeRemainingMs 125000 Samples.seeking2 = 0 ∧
  Room.soundRotationTimeout (Room.scheduleNextSound 125000 Samples.seeking2).1 = None ∧
  (Room.scheduleNextSound 125000 Samples.seeking2).2 = [].
Proof.
  split; [apply after_reachable; vm_compute; eauto|]. by vm_compute.
Qed.

Lemma insertByNumber_sorted p l :
  StronglySorted byNumber l → StronglySorted byNumber (Room.insertByNumber p l).
Proof.
  induction 1 as [|q l Hl IH Hq]; cbn.
  - repeat constructor.
  - case_decide as Hle.
    + constructor; [by constructor|]. constructor; [done|].
      eapply Forall_impl; [exact Hq|]. unfold byNumber. intros; lia.
    + constructor; [done|].
      apply Forall_forall. intros x Hx.
      rewrite insertByNumber_perm in Hx. apply elem_of_cons in Hx as [->|Hx].
      * unfold byNumber. lia.
      * by eapply Forall_forall in Hq.
Qed.

Lemma sortByNumber_sorted l : StronglySorted byNumber (Room.sortByNumber l).
Proof.
  unfold Room.sortByNumber. induction l as [|p l IH]; cbn; [constructor|].
  by apply insertByNumber_sorted.
Qed.






(** ** C6 and C7: the sound allotment, and repeated confirmations *)

(** C6.  In every registered room in the Seeking phase, no player's
    [soundsPlayed] exceeds the room's [soundPlaysPerPlayer], whatever events
    and timer ticks led there. *)
Theorem soundsPlayed_never_exceeds_allotment r :
  reachable r →
  Room.gameState r = GAME_STATE.SEEKING →
  ∀ p, p ∈ Room.players r → Player.soundsPlayed p ≤ Room.soundPlaysPerPlayer r.
Proof. intros Hr. apply (inv_sounds r), reachable_inv, Hr. Qed.

Lemma soundsPlayed_never_exceeds_allotment_witness :
  ∃ p, Room.players Samples.seeking2_after_two_cues !! 0%nat = Some p ∧
       Player.soundsPlayed p = 1 ∧
       Player.soundsPlayed p ≤ Room.soundPlaysPerPlayer Samples.seeking2_after_two_cues.
Proof.
  eexists. split; [by vm_compute|]. split; [by vm_compute|].
  apply (soundsPlayed_never_exceeds_allotment Samples.seeking2_after_two_cues).
  - apply after_reachable. vm_compute. eauto.
  - by vm_compute.
  - eapply (list_elem_of_lookup_2 _ 0%nat). by vm_compute.
Defined.

Lemma lookupPlayer_update sid f ps :
  (∀ p, Player.id (f p) = Player.id p) →
  Room.lookupPlayer sid (Room.updatePlayer sid f ps) = f <$> Room.lookupPlayer sid ps.
Proof.
  intros Hf. unfold Room.updatePlayer. induction ps as [|p ps IH]; [done|]. cbn.
  destruct (decide (Player.id p = sid)) as [Heq|Hne].
  - by rewrite decide_True by (by rewrite Hf).
  - by rewrite decide_False.
Qed.

Lemma confirmPlayerHidden_twice sid r r1 out1 :
  Room.confirmPlayerHidden sid r = (Return (), r1, out1) →
  Room.confirmPlayerHidden sid r1 = (Return (), r1, []).
Proof.
  unfold Room.confirmPlayerHidden at 1.
  destruct (Room.getPlayer sid r) as [p|] eqn:Hget; [|done].
  case_decide as Hgs; [done|].
  destruct (Player.isReady p) eqn:Hready.
  { intros [= <- _]. unfold Room.confirmPlayerHidden.
    by rewrite Hget, decide_False, Hready by (intros H; by apply H). }
  set (r0 := Room.set_players _ r).
  assert (Room.getPlayer sid r0 = Some (Player.set_isReady true p)) as Hget0.
  { unfold Room.getPlayer in *. cbn. by rewrite lookupPlayer_update, Hget. }
  assert (∀ r', Room.getPlayer sid r' = Some (Player.set_isReady true p) →
                Room.gameState r' = GAME_STATE.HIDING →
                Room.confirmPlayerHidden sid r' = (Return (), r', [])) as Hagain.
  { intros r' Hg' Hs'. unfold Room.confirmPlayerHidden.
    by rewrite Hg', decide_False by (intros H; by apply H). }
  destruct (Room._checkAllRemainingReady r0); [|intros [= <- _]; by apply Hagain].
  unfold Room.startPreSeekCountdown.
  destruct (Room.preSeekCountdownInterval r0); intros [= <- _]; by apply Hagain.
Qed.

Lemma markPlayerFound_twice sid r r1 out1 :
  Room.markPlayerFound sid r = (Return (), r1, out1) →
  Room.markPlayerFound sid r1 = (Return (), r1, []).
Proof.
  unfold Room.markPlayerFound at 1.
  destruct (Room.getPlayer sid r) as [p|] eqn:Hget; [|done].
  destruct (Player.isFound p) eqn:Hfound.
  { intros [= <- _]. unfold Room.markPlayerFound. by rewrite Hget, Hfound. }
  case_bool_decide; [done|].
  set (r0 := Room.set_players _ r).
  assert (∀ r', Room.players r' = Room.players r0 →
                Room.markPlayerFound sid r' = (Return (), r', [])) as Hagain.
  { intros r' Hps. unfold Room.markPlayerFound, Room.getPlayer. rewrite Hps.
    unfold r0. cbn. unfold Room.getPlayer in Hget.
    by rewrite lookupPlayer_update, Hget. }
  case_decide as Hseek.
  - unfold Room.checkSeekerWin. rewrite decide_False by (intros Hn; by apply Hn).
    destruct (forallb _ _); [|intros [= <- _]; by apply Hagain].
    destruct (endGame_ends WINNER_TYPE.SEEKERS r0) as (_ & _ & Hps); [congruence|].
    destruct (Room.endGame _ r0). intros [= <- _]. by apply Hagain.
  - case_decide; [|intros [= <- _]; by apply Hagain].
    case_decide; [|intros [= <- _]; by apply Hagain].
    destruct (revealFrame_fields r0 _ (activateNextUnfoundPlayer_frame r0)) as (Hps & _).
    destruct (Room.activateNextUnfoundPlayer r0). intros [= <- _]. by apply Hagain.
Qed.

(** C7.  After a confirm-hidden that returned normally, a second
    confirm-hidden for the same player returns normally, leaves the room
    exactly as it is and emits nothing; the same holds for mark-found (in
    Seeking, or in GameOver after a Hider win). *)
Theorem confirm_and_found_idempotent sid r r1 out1 :
  (Room.confirmPlayerHidden sid r = (Return (), r1, out1) →
   Room.confirmPlayerHidden sid r1 = (Return (), r1, []) ∧
   on_confirmHidden sid r1 = (r1, [])) ∧
  (Room.markPlayerFound sid r = (Return (), r1, out1) →
   Room.markPlayerFound sid r1 = (Return (), r1, []) ∧
   on_markSelfFound sid r1 = (r1, [])).
Proof.
  split; intros H1.
  - pose proof (confirmPlayerHidden_twice _ _ _ _ H1) as H2. split; [done|].
    unfold on_confirmHidden, findRoomBySocketId.
    destruct (Room.getPlayer sid r1) eqn:Hget; [by rewrite H2|].
    unfold Room.confirmPlayerHidden in H2. by rewrite Hget in H2.
  - pose proof (markPlayerFound_twice _ _ _ _ H1) as H2. split; [done|].
    unfold on_markSelfFound, findRoomBySocketId.
    destruct (Room.getPlayer sid r1) eqn:Hget; [by rewrite H2|].
    unfold Room.markPlayerFound in H2. by rewrite Hget in H2.
Qed.

Lemma confirm_and_found_idempotent_witness :
  Room.confirmPlayerHidden "s1" (Room.confirmPlayerHidden "s1" Samples.hiding2).1.2 =
    (Return (), (Room.confirmPlayerHidden "s1" Samples.hiding2).1.2, []) ∧
  Room.markPlayerFound "s2" (Room.markPlayerFound "s2" Samples.seeking2).1.2 =
    (Return (), (Room.markPlayerFound "s2" Samples.seeking2).1.2, []).
Proof.
  split.
  - eapply (proj1 (confirm_and_found_idempotent "s1" Samples.hiding2 _ _)).
    by vm_compute.
  - eapply (proj2 (confirm_and_found_idempotent "s2" Samples.seeking2 _ _)).
    by vm_compute.
Defined.

(** ** C8: the reveal queue *)

Lemma RevealInv_consistent r : RevealInv r → revealConsistent r.
Proof.
  intros Hrev. reveal_destruct Hrev. split.
  - intros p Hp Hfound Hin. rewrite (Hq p Hp Hin) in Hfound. done.
  - intros sid Ha. by destruct (Hact sid Ha).
Qed.

Lemma roster_ids r r' :
  roster r' = roster r → Player.id <$> Room.players r' = Player.id <$> Room.players r.
Proof.
  unfold roster. intros H.
  apply (f_equal (fmap (λ x : string * Z * PLAYER_ROLE.t, x.1.1))) in H.
  by rewrite <- !list_fmap_compose in H.
Qed.

Lemma removePlayer_gone sid r r' out :
  is_Some (Room.getPlayer sid r) →
  Room.removePlayer sid r = (false, r', out) →
  ∀ p, p ∈ Room.players r' → Player.id p ≠ sid.
Proof.
  intros [p0 Hget] Hrm p Hp.
  destruct (removePlayer_roster _ _ _ _ _ Hget Hrm) as [_ Hroster].
  apply roster_ids in Hroster.
  assert (Player.id p ∈ Player.id <$> Room.players r') as Hin by by apply list_elem_of_fmap_2.
  rewrite Hroster in Hin.
  assert (Player.id p ∈ Player.id <$> Room.deletePlayer sid (Room.players r)) as Hin'.
  { case_decide; [|done]. unfold Room._promoteNewHider in Hin.
    destruct (Room.sortByNumber _); [done|]. cbn in Hin. by rewrite updatePlayer_ids in Hin. }
  apply list_elem_of_fmap in Hin' as (q & -> & [_ ?]%elem_of_deletePlayer). done.
Qed.

Lemma markPlayerFound_marks sid r :
  is_Some (Room.getPlayer sid r) →
  Room.gameState r = GAME_STATE.SEEKING ∨ inReveal r →
  ∃ r1 out1 p,
    Room.markPlayerFound sid r = (Return (), r1, out1) ∧
    Room.getPlayer sid r1 = Some p ∧ Player.isFound p = true.
Proof.
  intros [p Hget] Hstate. unfold Room.markPlayerFound. rewrite Hget.
  destruct (Player.isFound p) eqn:Hfound; [by eexists _, _, p|].
  rewrite bool_decide_eq_false_2 by (intros [? ?]; by destruct Hstate).
  set (r0 := Room.set_players _ r).
  assert (∀ r', Room.players r' = Room.players r0 →
                Room.getPlayer sid r' = Some (Player.set_isFound true p)) as Hagain.
  { intros r' Hps. unfold Room.getPlayer. rewrite Hps.
    unfold r0. cbn. unfold Room.getPlayer in Hget.
    by rewrite lookupPlayer_update, Hget. }
  case_decide as Hseek.
  - unfold Room.checkSeekerWin. rewrite decide_False by (intros Hn; by apply Hn).
    destruct (forallb _ _); [|eexists _, _, _; split; [done|]; split; [by apply Hagain|done]].
    destruct (endGame_ends WINNER_TYPE.SEEKERS r0) as (_ & _ & Hps); [congruence|].
    destruct (Room.endGame _ r0). eexists _, _, _. split; [done|]. split; [by apply Hagain|done].
  - case_decide; [|eexists _, _, _; split; [done|]; split; [by apply Hagain|done]].
    case_decide; [|eexists _, _, _; split; [done|]; split; [by apply Hagain|done]].
    destruct (revealFrame_fields r0 _ (activateNextUnfoundPlayer_frame r0)) as (Hps & _).
    destruct (Room.activateNextUnfoundPlayer r0).
    eexists _, _, _. split; [done|]. split; [by apply Hagain|done].
Qed.

Lemma found_not_in_reveal r sid p :
  RoomInv r → Room.getPlayer sid r = Some p → Player.isFound p = true →
  (sid ∉ Room.unfoundPlayerQueue r) ∧ Room.activeUnfoundPlayerId r ≠ Some sid.
Proof.
  intros [Hcore Hrev] [Hp Hid]%lookupPlayer_Some Hfound. reveal_destruct Hrev. split.
  - intros Hin. rewrite <- Hid in Hin. rewrite (Hq p Hp Hin) in Hfound. done.
  - intros Ha. destruct (Hact sid Ha) as (_ & q & Hq' & Hidq & Hfq).
    rewrite (ids_inj _ p q (inv_ids r Hcore) Hp Hq') in Hfound by congruence. congruence.
Qed.

Lemma absent_not_in_reveal r sid :
  RoomInv r → (∀ p, p ∈ Room.players r → Player.id p ≠ sid) →
  (sid ∉ Room.unfoundPlayerQueue r) ∧ Room.activeUnfoundPlayerId r ≠ Some sid.
Proof.
  intros [Hcore Hrev] Habsent. reveal_destruct Hrev. split.
  - intros (p & Hp & Hid)%Hqp. by apply (Habsent p).
  - intros Ha. destruct (Hact sid Ha) as (_ & q & Hq' & Hidq & _). by apply (Habsent q).
Qed.

(** C8.  In every registered room the reveal queue holds the id of no found
    player, and the active reveal player, if any, is a present player that is
    not found.  This still holds after a mark-found, after which the marked
    player is neither queued nor active, and after a disconnect, after which
    the departed player is gone from the roster, from the queue and from the
    active slot. *)
Theorem reveal_queue_consistent r :
  reachable r →
  revealConsistent r ∧
  (∀ sid r', step r (markSelfFound sid) r' →
     revealConsistent r' ∧
     (∀ p, Room.getPlayer sid r' = Some p → Player.isFound p = true →
           (sid ∉ Room.unfoundPlayerQueue r') ∧ Room.activeUnfoundPlayerId r' ≠ Some sid) ∧
     (is_Some (Room.getPlayer sid r) → inReveal r →
      ∃ p, Room.getPlayer sid r' = Some p ∧ Player.isFound p = true)) ∧
  (∀ sid r', step r (leaveRoom sid) r' →
     revealConsistent r' ∧
     (is_Some (Room.getPlayer sid r) →
      (∀ p, p ∈ Room.players r' → Player.id p ≠ sid) ∧
      (sid ∉ Room.unfoundPlayerQueue r') ∧ Room.activeUnfoundPlayerId r' ≠ Some sid)).
Proof.
  intros Hr. pose proof (reachable_inv r Hr) as Hinv.
  split; [apply RevealInv_consistent, Hinv|]. split.
  - intros sid r' Hstep. pose proof (step_inv _ _ _ Hinv Hstep) as Hinv'.
    split; [apply RevealInv_consistent, Hinv'|]. split.
    + intros p. by apply found_not_in_reveal.
    + intros Hmember Hreveal. destruct Hstep as [_ Hstep]. cbn in Hstep.
      injection Hstep as <-.
      destruct (markPlayerFound_marks sid r Hmember (or_intror Hreveal))
        as (r1 & out1 & p & Hm & Hget & Hfound).
      exists p. unfold on_markSelfFound, findRoomBySocketId.
      destruct Hmember as [p0 ->]. by rewrite Hm.
  - intros sid r' Hstep. pose proof (step_inv _ _ _ Hinv Hstep) as Hinv'.
    split; [apply RevealInv_consistent, Hinv'|].
    intros Hmember. destruct Hstep as [_ Hstep]. cbn in Hstep.
    unfold handleDisconnect, findRoomBySocketId in Hstep.
    destruct Hmember as [p0 Hget]. rewrite Hget in Hstep.
    destruct (Room.removePlayer sid r) as [[[] r1] out] eqn:Hrm; [done|].
    injection Hstep as <-.
    assert (∀ p, p ∈ Room.players r1 → Player.id p ≠ sid) as Hgone.
    { eapply removePlayer_gone; [|exact Hrm]. by exists p0. }
    split; [done|]. by apply absent_not_in_reveal.
Qed.

Lemma reveal_queue_consistent_witness :
  Room.activeUnfoundPlayerId Samples.reveal3 = Some "s1" ∧
  Room.unfoundPlayerQueue Samples.reveal3 = ["s2"; "s3"] ∧
  revealConsistent Samples.reveal3.
Proof.
  split; [by vm_compute|]. split; [by vm_compute|].
  apply (reveal_queue_consistent Samples.reveal3).
  apply after_reachable. vm_compute. eauto.
Defined.

Lemma Forall2_Forall_impl {A B} (P : A → Prop) (R R' : A → B → Prop) l k :
  Forall P l → Forall2 R l k → (∀ x y, P x → R x y → R' x y) → Forall2 R' l k.
Proof.
  intros HP HR Himpl. induction HR as [|x y l k Hxy _ IH]; [constructor|].
  apply Forall_cons in HP as [Hx HP]. constructor; auto.
Qed.


(** ** C2: a rejected settings update *)

(** A rejection by the handler's own checks (not in a room, not the Hider,
    not Waiting) sends one error to the requester and changes nothing. *)
Lemma on_updateSettings_guard sid settings r :
  (∀ p, Room.getPlayer sid r = Some p →
        Player.role p ≠ PLAYER_ROLE.HIDER ∨ Room.gameState r ≠ GAME_STATE.WAITING) →
  ∃ message, on_updateSettings sid settings r = (r, [errorMsg sid message]).
Proof.
  intros Hguard. unfold on_updateSettings, findRoomBySocketId.
  destruct (Room.getPlayer sid r) as [p|] eqn:Hget; [|by eexists].
  rewrite Hget. destruct (Hguard p eq_refl) as [Hrole|Hgs].
  - rewrite decide_True by done. by eexists.
  - case_decide; [by eexists|]. rewrite decide_True by done. by eexists.
Qed.

(** What a throwing [updateSettings] leaves behind: nothing is broadcast,
    [soundPlaysPerPlayer] is untouched, and [seekTimeLimit] is either
    untouched or already overwritten with the valid value of the payload. *)
Lemma updateSettings_throw settings r message r' out :
  Room.updateSettings settings r = (Throw message, r', out) →
  out = [] ∧
  Room.soundPlaysPerPlayer r' = Room.soundPlaysPerPlayer r ∧
  (r' = r ∨
   ∃ n, settings_seekTimeLimit settings = numeric n ∧
        MIN_SEEK_TIME_LIMIT_S ≤ n ≤ MAX_SEEK_TIME_LIMIT_S ∧
        r' = Room.set_seekTimeLimit n r).
Proof.
  unfold Room.updateSettings.
  destruct (settings_seekTimeLimit settings) as [| |n] eqn:Ht;
    destruct (settings_soundPlaysPerPlayer settings) as [| |m] eqn:Hs; cbn;
    repeat first [case_bool_decide | case_decide]; cbn; intros [= <- <- <-];
    repeat split; eauto.
  all: right; exists n; eauto.
Qed.

(** When the time limit itself is refused, the settings are unchanged. *)
Lemma updateSettings_bad_time_limit settings r :
  (∀ n, settings_seekTimeLimit settings = numeric n →
        ¬ (MIN_SEEK_TIME_LIMIT_S ≤ n ≤ MAX_SEEK_TIME_LIMIT_S)) →
  settings_seekTimeLimit settings ≠ undefined →
  Room.updateSettings settings r =
    (Throw "Invalid time limit. Must be between 15 and 600 seconds.", r, []).
Proof.
  intros Hbad Hdef. unfold Room.updateSettings.
  destruct (settings_seekTimeLimit settings) as [| |n] eqn:Ht; cbn; [done..|].
  rewrite bool_decide_eq_false_2; [done|]. by apply Hbad.
Qed.

(** C2, at the failing input.  The Hider of a Waiting room whose time limit
    is 120 sends [{seekTimeLimit: 100, soundPlaysPerPlayer: 999}]:
    [updateSettings] throws on the second field after it has stored the
    first, so the request is answered with an error and the time limit is
    100 afterwards (and no state was broadcast). *)
Theorem updateSettings_keeps_first_write_on_throw :
  Room.seekTimeLimit Samples.waiting2 = 120 ∧
  Room.updateSettings (mkSettings (numeric 100) (numeric 999)) Samples.waiting2 =
    (Throw "Invalid sounds per phone. Must be between 1 and 20.",
     Room.set_seekTimeLimit 100 Samples.waiting2, []) ∧
  on_updateSettings "s1" (mkSettings (numeric 100) (numeric 999)) Samples.waiting2 =
    (Room.set_seekTimeLimit 100 Samples.waiting2,
     [errorMsg "s1" "Invalid sounds per phone. Must be between 1 and 20."]) ∧
  Room.seekTimeLimit
    (on_updateSettings "s1" (mkSettings (numeric 100) (numeric 999)) Samples.waiting2).1 = 100.
Proof. by vm_compute. Qed.

(** ** C10: the Hider leaves during Seeking *)

(** C10.  When the Hider is removed while the room is in the Seeking phase
    and other players remain, the room stays registered, the game is over at
    once with winner Seekers (the victory melody is played), and the
    remaining players are exactly the others, unchanged: nobody is
    promoted. *)
Theorem hider_removed_while_seeking sid r hider :
  Room.gameState r = GAME_STATE.SEEKING →
  Room.getPlayer sid r = Some hider →
  Player.role hider = PLAYER_ROLE.HIDER →
  Room.deletePlayer sid (Room.players r) ≠ [] →
  ∃ r' out,
    Room.removePlayer sid r = (false, r', out) ∧
    handleDisconnect sid r = (Some r', out) ∧
    Room.gameState r' = GAME_STATE.GAME_OVER ∧
    Room.winner r' = Some WINNER_TYPE.SEEKERS ∧
    Room.players r' = Room.deletePlayer sid (Room.players r) ∧
    playVictoryMelody ∈ out.
Proof.
  intros Hgs Hget Hrole Hrest.
  assert (∃ r' out, Room.removePlayer sid r = (false, r', out) ∧
    Room.gameState r' = GAME_STATE.GAME_OVER ∧
    Room.winner r' = Some WINNER_TYPE.SEEKERS ∧
    Room.players r' = Room.deletePlayer sid (Room.players r) ∧
    playVictoryMelody ∈ out) as (r' & out & Hrm & ?).
  { unfold Room.removePlayer. rewrite Hget.
    cbv zeta. rewrite isEmpty_false by done.
    rewrite Hrole, Hgs. cbn.
    unfold Room.endGame. cbn. rewrite Hgs. cbn.
    eexists _, _. repeat split; try done. left. }
  exists r', out. split; [done|]. split; [|done].
  unfold handleDisconnect, findRoomBySocketId. by rewrite Hget, Hrm.
Qed.

Lemma hider_removed_while_seeking_witness :
  ∃ r' out,
    handleDisconnect "s1" Samples.seeking3 = (Some r', out) ∧
    Room.gameState r' = GAME_STATE.GAME_OVER ∧
    Room.winner r' = Some WINNER_TYPE.SEEKERS ∧
    Room.players r' = Room.deletePlayer "s1" (Room.players Samples.seeking3).
Proof.
  destruct (hider_removed_while_seeking "s1" Samples.seeking3
              (default (Player.new "" 0 PLAYER_ROLE.SEEKER)
                 (Room.getPlayer "s1" Samples.seeking3)))
    as (r' & out & _ & Hd & Hgs & Hw & Hps & _); [by vm_compute..|].
  exists r', out. exact (conj Hd (conj Hgs (conj Hw Hps))).
Defined.

(** ** Fresh sounds after a reset *)

Section Fresh.
Implicit Types (pool : list string) (assigned : gset string) (ps : list Player.t).

Lemma BASE_ANIMAL_SOUNDS_NoDup : NoDup BASE_ANIMAL_SOUNDS.
Proof. apply (bool_decide_unpack _). by vm_compute. Qed.

Lemma BASE_UNFOUND_SOUNDS_NoDup : NoDup BASE_UNFOUND_SOUNDS.
Proof. apply (bool_decide_unpack _). by vm_compute. Qed.

(** A pool larger than the set in use has a sound to spare. *)
Lemma pool_has_free pool assigned :
  NoDup pool → (size assigned < length pool)%nat → ∃ x, x ∈ pool ∧ x ∉ assigned.
Proof.
  intros Hnd Hsize.
  destruct (decide (Forall (λ x, x ∈ assigned) pool)) as [Hall|Hex].
  - exfalso.
    assert (list_to_set pool ⊆ assigned) as Hsub.
    { intros x Hx%elem_of_list_to_set. by eapply Forall_forall in Hall. }
    apply subseteq_size in Hsub. rewrite size_list_to_set in Hsub by done. lia.
  - apply not_Forall_Exists, Exists_exists in Hex as (x & Hx & Hfree); [|apply _].
    by exists x.
Qed.

Lemma pickSound_free pool assigned draw number :
  (∃ x, x ∈ pool ∧ x ∉ assigned) →
  ∃ s, Room.pickSound pool assigned draw number = Some s ∧ s ∈ pool ∧ s ∉ assigned.
Proof.
  intros Hfree.
  assert (is_Some (Room.pickSound pool assigned draw number)) as [s Hs].
  { destruct Hfree as (x & Hx & Hnot). unfold Room.pickSound.
    assert (x ∈ filter (λ s, s ∉ assigned) pool) as Hin by by apply list_elem_of_filter.
    rewrite decide_True by (destruct (filter _ pool); [by apply not_elem_of_nil in Hin|cbn; lia]).
    apply lookup_lt_is_Some, Nat.mod_upper_bound.
    destruct (filter _ pool); [by apply not_elem_of_nil in Hin|done]. }
  exists s. eauto using pickSound_in_pool, pickSound_fresh.
Qed.

Lemma size_addSound_fresh x assigned :
  x ∉ assigned → size (Room.addSound (Some x) assigned) = S (size assigned).
Proof.
  intros Hx. cbn. rewrite size_union by set_solver. rewrite size_singleton. lia.
Qed.

(** As long as the pools are not used up, [reassignAll] hands out sounds
    that are new to the room and different from each other. *)
Lemma reassignAll_fresh draws ps r :
  (size (Room.assignedAnimalSounds r) + length ps ≤ length BASE_ANIMAL_SOUNDS)%nat →
  (size (Room.assignedUnfoundSounds r) + length ps ≤ length BASE_UNFOUND_SOUNDS)%nat →
  let ps' := (Room.reassignAll draws ps r).1 in
  NoDup (omap Player.uniqueAnimalSoundURL ps') ∧
  NoDup (omap Player.uniqueUnfoundSoundURL ps') ∧
  (∀ x, x ∈ omap Player.uniqueAnimalSoundURL ps' → x ∉ Room.assignedAnimalSounds r) ∧
  (∀ x, x ∈ omap Player.uniqueUnfoundSoundURL ps' → x ∉ Room.assignedUnfoundSounds r).
Proof.
  revert r. induction ps as [|p ps IH]; intros r HA HU.
  - cbn. repeat split; try constructor; intros x Hx; by apply not_elem_of_nil in Hx.
  - cbn [Room.reassignAll]. rewrite _assignUniqueSounds_eq. cbv zeta.
    cbn [length] in HA, HU.
    destruct (pickSound_free BASE_ANIMAL_SOUNDS (Room.assignedAnimalSounds r)
                (draws (Player.id (Player.resetForNewGame p))).1
                (Player.number (Player.resetForNewGame p)))
      as (a & Ha & _ & Hafree).
    { apply pool_has_free; [apply BASE_ANIMAL_SOUNDS_NoDup|lia]. }
    destruct (pickSound_free BASE_UNFOUND_SOUNDS (Room.assignedUnfoundSounds r)
                (draws (Player.id (Player.resetForNewGame p))).2
                (Player.number (Player.resetForNewGame p)))
      as (u & Hu & _ & Hufree).
    { apply pool_has_free; [apply BASE_UNFOUND_SOUNDS_NoDup|lia]. }
    rewrite Ha, Hu.
    match goal with |- context [Room.reassignAll draws ps ?x] =>
      destruct (IH x) as (IH1 & IH2 & IH3 & IH4);
      [cbn [Room.assignedAnimalSounds Room.assignedUnfoundSounds
            Room.set_assignedAnimalSounds Room.set_assignedUnfoundSounds];
       rewrite size_addSound_fresh by done; lia
      |cbn [Room.assignedAnimalSounds Room.assignedUnfoundSounds
            Room.set_assignedAnimalSounds Room.set_assignedUnfoundSounds];
       rewrite size_addSound_fresh by done; lia|];
      destruct (Room.reassignAll draws ps x) as [ps' r'] end.
    cbn in IH1, IH2, IH3, IH4 |- *.
    repeat split.
    + constructor; [|done]. intros Hin. apply (IH3 a Hin). set_solver.
    + constructor; [|done]. intros Hin. apply (IH4 u Hin). set_solver.
    + intros x [->|Hx]%elem_of_cons; [done|]. specialize (IH3 x Hx). set_solver.
    + intros x [->|Hx]%elem_of_cons; [done|]. specialize (IH4 x Hx). set_solver.
Qed.
End Fresh.

(** ** C9: play again *)

(** C9.  In a registered room, [requestPlayAgain] throws unless the game is
    over and the requester is a member, and then leaves the room as it is.
    Otherwise the room goes back to Waiting with no winner, no seek start
    time, all three timers disarmed and the reveal state empty; every player
    keeps id, number and role, has its ready and found flags and its sound
    counter cleared, and gets an animal and an unfound sound from the pools;
    the two assigned sets are exactly the sounds handed out in this reset,
    which are pairwise different as long as the room has no more players
    than there are sound pairs; the new state is broadcast. *)
Theorem play_again_resets r sid draws :
  reachable r →
  (Room.gameState r ≠ GAME_STATE.GAME_OVER →
   Room.requestPlayAgain sid draws r = (Throw "Game is not over yet.", r, [])) ∧
  (Room.gameState r = GAME_STATE.GAME_OVER → Room.getPlayer sid r = None →
   Room.requestPlayAgain sid draws r = (Throw "Player not found.", r, [])) ∧
  (Room.gameState r = GAME_STATE.GAME_OVER → is_Some (Room.getPlayer sid r) →
   ∃ r',
     Room.requestPlayAgain sid draws r = (Return (), r', [updateState (Room.getClientState r')]) ∧
     Room.gameState r' = GAME_STATE.WAITING ∧
     Room.winner r' = None ∧
     Room.seekStartTime r' = None ∧
     Room.preSeekCountdownInterval r' = false ∧
     Room.seekTimerInterval r' = false ∧
     Room.soundRotationTimeout r' = None ∧
     Room.unfoundPlayerQueue r' = [] ∧
     Room.activeUnfoundPlayerId r' = None ∧
     Forall2 playerReset (Room.players r) (Room.players r') ∧
     Room.assignedAnimalSounds r' =
       list_to_set (omap Player.uniqueAnimalSoundURL (Room.players r')) ∧
     Room.assignedUnfoundSounds r' =
       list_to_set (omap Player.uniqueUnfoundSoundURL (Room.players r')) ∧
     (Z.of_nat (length (Room.players r)) ≤ NUM_UNIQUE_SOUND_PAIRS →
      NoDup (omap Player.uniqueAnimalSoundURL (Room.players r')) ∧
      NoDup (omap Player.uniqueUnfoundSoundURL (Room.players r')))).
Proof.
  intros Hr. destruct (reachable_inv r Hr) as [Hcore _].
  unfold Room.requestPlayAgain. split; [|split].
  - intros Hgs. by rewrite decide_True.
  - intros Hgs Hget. rewrite decide_False by (intros H; by apply H). by rewrite Hget.
  - intros Hgs [p0 Hget]. rewrite decide_False by (intros H; by apply H). rewrite Hget.
    rewrite resetForNewGame_eq. cbv zeta.
    match goal with |- context [Room.reassignAll draws ?ps ?x] =>
      destruct (reassignAll_spec draws ps x) as [H1 H2];
      pose proof (reassignAll_fresh draws ps x) as Hfresh;
      destruct (Room.reassignAll draws ps x) as [ps' r1] end.
    cbn [fst snd] in *. subst r1.
    assert (Z.of_nat (length (Room.players r)) ≤ NUM_UNIQUE_SOUND_PAIRS →
            NoDup (omap Player.uniqueAnimalSoundURL ps') ∧
            NoDup (omap Player.uniqueUnfoundSoundURL ps')) as Hdistinct.
    { intros Hfew. rewrite NUM_UNIQUE_SOUND_PAIRS_eq in Hfew.
      destruct Hfresh as (? & ? & _); cbn; rewrite ?size_empty; cbn; [lia..|done]. }
    eexists. split; [reflexivity|]. cbn. repeat split; try done; try (by apply Hdistinct).
    + eapply Forall2_Forall_impl; [|exact H1|].
      * apply Forall_forall, (inv_numbers r Hcore).
      * intros p p' Hnum Hre.
        destruct (reassigned_fields _ _ Hre) as (? & ? & ? & ? & ? & ?).
        destruct Hre as [_ Hsounds]. repeat split; try done. by apply Hsounds.
    + set_solver.
    + set_solver.
Qed.

Lemma play_again_resets_witness :
  ∃ r',
    Room.requestPlayAgain "s2" (λ _, (0%nat, 0%nat)) Samples.reveal3 =
      (Return (), r', [updateState (Room.getClientState r')]) ∧
    Room.gameState r' = GAME_STATE.WAITING ∧
    Forall2 playerReset (Room.players Samples.reveal3) (Room.players r').
Proof.
  destruct (play_again_resets Samples.reveal3 "s2" (λ _, (0%nat, 0%nat))) as (_ & _ & H).
  { apply after_reachable. vm_compute. eauto. }
  destruct H as (r' & Hreq & Hgs & _ & _ & _ & _ & _ & _ & _ & Hps & _).
  - by vm_compute.
  - vm_compute. eauto.
  - exists r'. exact (conj Hreq (conj Hgs Hps)).
Defined.

Lemma PhaseInv_view r r' : phaseView r' = phaseView r → PhaseInv r → PhaseInv r'.
Proof.
  unfold phaseView. intros [= Hps Hgs Hw Ht Hst Hc Hv Hs Hi Hp] Hinv.
  phase_destruct Hinv.
  constructor; rewrite ?Hps, ?Hgs, ?Hw, ?Ht, ?Hst, ?Hc, ?Hv, ?Hs, ?Hi, ?Hp; done.
Qed.

Lemma revealFrame_view r r' : revealFrame r r' → phaseView r' = phaseView r.
Proof. intros ->. by destruct r. Qed.

Lemma PhaseInv_revealFrame r r' : revealFrame r r' → PhaseInv r → PhaseInv r'.
Proof. intros H. apply PhaseInv_view. by apply revealFrame_view. Qed.

Section ForallPlayers.
Implicit Types (ps : list Player.t) (P : Player.t → Prop).

Lemma Forall_updatePlayer P sid f ps :
  Forall P ps → (∀ p, P p → P (f p)) → Forall P (Room.updatePlayer sid f ps).
Proof.
  intros Hps Hf. unfold Room.updatePlayer. apply Forall_fmap.
  eapply Forall_impl; [exact Hps|]. intros p Hp. cbn. case_decide; auto.
Qed.

Lemma Forall_deletePlayer P sid ps : Forall P ps → Forall P (Room.deletePlayer sid ps).
Proof.
  intros Hps. apply Forall_forall. intros p [Hp _]%elem_of_deletePlayer.
  by eapply Forall_forall in Hps.
Qed.

Lemma Exists_updatePlayer P sid f ps :
  Exists P ps → (∀ p, P p → P (f p)) → Exists P (Room.updatePlayer sid f ps).
Proof.
  intros Hps Hf. unfold Room.updatePlayer. apply Exists_fmap.
  eapply Exists_impl; [exact Hps|]. intros p Hp. cbn. case_decide; auto.
Qed.

Lemma forallb_false_Exists (f : Player.t → bool) ps :
  forallb f ps = false → Exists (λ p, f p = false) ps.
Proof.
  induction ps as [|p ps IH]; cbn; [done|].
  destruct (f p) eqn:Hp; cbn; [right; auto | by left].
Qed.

Lemma forallb_Forall (f : Player.t → bool) ps :
  forallb f ps = true ↔ Forall (λ p, f p = true) ps.
Proof. rewrite forallb_elem, Forall_forall. done. Qed.
End ForallPlayers.

Lemma endGame_phase w r :
  Room.gameState r ≠ GAME_STATE.GAME_OVER →
  Forall (λ p, Player.isReady p = false) (Room.players r) →
  Forall (λ p, 0 ≤ Player.soundsPlayed p ≤ Room.soundPlaysPerPlayer r) (Room.players r) →
  Forall hasSounds (Room.players r) →
  PhaseInv (Room.endGame w r).1.
Proof.
  intros Hgs Hrd Hpl Hso. unfold Room.endGame. rewrite decide_False by done. cbv zeta.
  set (r1 := Room.set_winner _ _).
  assert (PhaseInv r1) as H1.
  { constructor; cbn; try done; try (by intros []). }
  destruct w; [|done].
  eapply PhaseInv_revealFrame; [apply startGameOverReveal_frame|done].
Qed.

Lemma seekTimerTick_phase now r :
  Room.seekTimerInterval r = true → CoreInv r → PhaseInv r →
  PhaseInv (Room.seekTimerTick now r).1.
Proof.
  intros Harmed Hcore Hinv. pose proof (inv_seekTimer r Hcore Harmed) as Hgs.
  unfold Room.seekTimerTick. rewrite decide_True by done.
  case_decide; [|done].
  apply endGame_phase; [congruence|apply Hinv; congruence|apply Hinv..].
Qed.

Lemma checkSeekerWin_phase r :
  Room.gameState r = GAME_STATE.SEEKING →
  Forall (λ p, Player.isReady p = false) (Room.players r) →
  Forall (λ p, 0 ≤ Player.soundsPlayed p ≤ Room.soundPlaysPerPlayer r) (Room.players r) →
  Forall hasSounds (Room.players r) →
  (Room.checkSeekerWin r = (false, r, []) ∧ Exists (λ p, Player.isFound p = false) (Room.players r)) ∨
  (∃ out, Room.checkSeekerWin r = (true, (Room.endGame WINNER_TYPE.SEEKERS r).1, out) ∧
          PhaseInv (Room.endGame WINNER_TYPE.SEEKERS r).1).
Proof.
  intros Hgs Hrd Hpl Hso. unfold Room.checkSeekerWin.
  rewrite decide_False by (intros H; by apply H).
  destruct (forallb _ _) eqn:Hall.
  - right. pose proof (endGame_phase WINNER_TYPE.SEEKERS r) as He.
    destruct (Room.endGame _ r) as [r' out]. exists out. split; [done|].
    apply He; [congruence|done..].
  - left. split; [done|]. by apply forallb_false_Exists.
Qed.

Lemma scheduleNextSound_phase now r :
  is_Some (Room.soundRotationTimeout r) → CoreInv r → PhaseInv r →
  PhaseInv (Room.scheduleNextSound now r).1.
Proof.
  intros Harmed Hcore Hinv. pose proof (inv_soundTimer r Hcore Harmed) as Hgs.
  phase_destruct Hinv.
  assert (∀ d, (inject_Z MIN_SOUND_DELAY_MS <= d)%Q →
               PhaseInv (Room.set_soundRotationTimeout (Some d) r)) as Hkeep.
  { intros d Hd. constructor; cbn; try done. by intros ? [= <-]. }
  assert (inject_Z MIN_SOUND_DELAY_MS <= inject_Z CHECK_INTERVAL_WHEN_NO_SOUNDS_MS)%Q as H1500
    by (by vm_compute).
  unfold Room.scheduleNextSound. rewrite decide_False by (intros H; by apply H).
  case_decide; [constructor; cbn; done|]. cbv zeta.
  case_decide as Hlen; [|by apply Hkeep].
  case_decide; [|by apply Hkeep].
  destruct (js_index _ _) as [pt|] eqn:Hidx; cbn;
    [destruct (Player.uniqueAnimalSoundURL pt) as [url|] eqn:Hurl; cbn|].
  - apply js_index_elem, elem_of_eligiblePlayers in Hidx as (Hpt & _ & Hlt).
    constructor; cbn; phase_auto.
    + intros Hh. apply Forall_updatePlayer; [by apply Hready|done].
    + intros _. apply Exists_updatePlayer; [by apply Hunf|done].
    + intros ? [= <-]. apply Q.le_max_l.
    + apply Forall_forall. intros q (p & Hp & ->)%elem_of_updatePlayer.
      pose proof (proj1 (Forall_forall _ _) Hplayed p Hp) as Hpp. cbn in Hpp.
      case_decide as Hid; [|done]. cbn.
      rewrite (ids_inj _ p pt (inv_ids r Hcore) Hp Hpt Hid). 
      rewrite (ids_inj _ p pt (inv_ids r Hcore) Hp Hpt Hid) in Hpp. lia.
    + by apply Forall_updatePlayer.
  - constructor; cbn; try done.
    intros ? [= <-]. apply Q.le_max_l.
  - constructor; cbn; try done.
    intros ? [= <-]. apply Q.le_max_l.
Qed.

Lemma preSeekCountdownTick_phase now r :
  Room.preSeekCountdownInterval r = true → CoreInv r → PhaseInv r →
  PhaseInv (Room.preSeekCountdownTick now r).1.
Proof.
  intros Harmed Hcore Hinv. pose proof (inv_countdown r Hcore Harmed) as Hgs.
  pose proof (inv_nonempty r Hcore) as Hne.
  pose proof (inv_plays r Hcore) as Hplays. unfold MIN_SOUND_PLAYS in Hplays.
  phase_destruct Hinv. specialize (Hcdv Harmed).
  specialize (Hfresh (or_intror Hgs)).
  unfold Room.preSeekCountdownTick. cbv zeta.
  cbn [Room.preSeekCountdownValue Room.set_preSeekCountdownValue].
  case_decide as Hzero.
  - unfold Room.startSeekingPhase. cbn [Room.gameState Room.set_preSeekCountdownInterval
      Room.set_preSeekCountdownValue].
    rewrite decide_False by congruence. rewrite startSeekTimer_eq. cbn.
    constructor; cbn; phase_auto.
    + split; [done|]. intros _. apply Hwin. congruence.
    + intros _. apply Forall_fmap, Forall_true. done.
    + intros _. apply Exists_fmap. destruct (Room.players r) as [|p ps]; [done|].
      apply Forall_cons in Hfresh as [[Hp _] _]. by left.
    + by intros ? [= <-].
    + apply Forall_fmap, Forall_true. intros p. cbn. lia.
    + apply Forall_fmap. eapply Forall_impl; [exact Hsnds|]. done.
  - cbn. constructor; cbn; phase_auto.
    + intros _. lia.
Qed.

Lemma startHidingPhase_phase r :
  CoreInv r → PhaseInv r → PhaseInv (Room.startHidingPhase r).1.2.
Proof.
  intros Hcore Hinv. unfold Room.startHidingPhase.
  case_decide as Hgs; [done|]. case_decide as Hcount; [done|].
  pose proof (inv_plays r Hcore) as Hplays. unfold MIN_SOUND_PLAYS in Hplays.
  phase_destruct Hinv. cbn.
  constructor; cbn; phase_auto.
  - intros _. apply Forall_fmap, Forall_true. done.
  - intros _. split; [done|]. intros Hall'.
    unfold Room.getPlayerCount, MIN_PLAYERS_TO_START in Hcount.
    destruct (Room.players r) as [|p ps]; [cbn in Hcount; lia|].
    rewrite fmap_cons in Hall'. by apply Forall_cons in Hall' as [? _].
  - apply Forall_fmap, Forall_true. intros p. cbn. lia.
  - apply Forall_fmap. eapply Forall_impl; [exact Hsnds|]. done.
Qed.

Lemma confirmPlayerHidden_phase sid r :
  CoreInv r → PhaseInv r → PhaseInv (Room.confirmPlayerHidden sid r).1.2.
Proof.
  intros Hcore Hinv. unfold Room.confirmPlayerHidden.
  destruct (Room.getPlayer sid r) as [p0|] eqn:Hget; [|done].
  case_decide as Hgs; [done|].
  destruct (Player.isReady p0) eqn:Hr0; [done|].
  apply lookupPlayer_Some in Hget as [Hp0 Hid0].
  phase_destruct Hinv.
  assert (Room.preSeekCountdownInterval r = false) as Hoff.
  { destruct (Room.preSeekCountdownInterval r) eqn:Hc; [|done].
    pose proof (proj1 (Hall Hgs) eq_refl) as Hrd.
    rewrite Forall_forall in Hrd. specialize (Hrd p0 Hp0). cbn in Hrd. congruence. }
  cbv zeta. unfold Room._checkAllRemainingReady.
  rewrite isEmpty_false by (cbn; rewrite updatePlayer_nil; apply Hcore).
  cbn [Room.players Room.set_players].
  destruct (forallb _ _) eqn:Hnow.
  - unfold Room.startPreSeekCountdown. cbn [Room.preSeekCountdownInterval Room.set_players].
    rewrite Hoff. cbn.
    apply forallb_Forall in Hnow.
    constructor; cbn; phase_auto.
    + intros _. apply Forall_updatePlayer; [by apply Hfresh; right|done].
    + by apply Forall_updatePlayer.
    + by apply Forall_updatePlayer.
  - cbn. constructor; cbn; phase_auto.
    + intros _. apply Forall_updatePlayer; [by apply Hfresh; right|done].
    + intros _. rewrite Hoff. split; [done|]. intros Hnow'%forallb_Forall. congruence.
    + by apply Forall_updatePlayer.
    + by apply Forall_updatePlayer.
Qed.

Lemma PhaseInv_found sid r :
  PhaseInv r →
  Room.gameState r = GAME_STATE.SEEKING ∨ Room.gameState r = GAME_STATE.GAME_OVER →
  (Room.gameState r = GAME_STATE.SEEKING →
   Exists (λ p, Player.isFound p = false)
     (Room.updatePlayer sid (Player.set_isFound true) (Room.players r))) →
  PhaseInv (Room.set_players
              (Room.updatePlayer sid (Player.set_isFound true) (Room.players r)) r).
Proof.
  intros Hinv Hgs Hex. phase_destruct Hinv.
  constructor; cbn; phase_auto; try (destruct Hgs; phase_auto; fail).
  - intros Hh. apply Forall_updatePlayer; [by apply Hready|done].
  - by apply Forall_updatePlayer.
  - by apply Forall_updatePlayer.
Qed.

Lemma markPlayerFound_phase sid r :
  CoreInv r → PhaseInv r → PhaseInv (Room.markPlayerFound sid r).1.2.
Proof.
  intros Hcore Hinv. unfold Room.markPlayerFound.
  destruct (Room.getPlayer sid r) as [p0|] eqn:Hget; [|done].
  destruct (Player.isFound p0) eqn:Hfound; [done|].
  case_bool_decide as Hstate; [done|].
  set (r1 := Room.set_players _ r).
  assert (Room.gameState r = GAME_STATE.SEEKING ∨ Room.gameState r = GAME_STATE.GAME_OVER)
    as Hgs.
  { destruct (decide (Room.gameState r = GAME_STATE.SEEKING)) as [|Hns]; [by left|].
    right. apply dec_stable. intros Hno. apply Hstate. split; [done|]. by intros []. }
  assert (Forall (λ p, Player.isReady p = false) (Room.players r1)) as Hrd1.
  { apply Forall_updatePlayer; [|done]. apply Hinv. destruct Hgs; congruence. }
  assert (Forall (λ p, 0 ≤ Player.soundsPlayed p ≤ Room.soundPlaysPerPlayer r1)
            (Room.players r1)) as Hpl1.
  { apply Forall_updatePlayer; [apply Hinv|done]. }
  assert (Forall hasSounds (Room.players r1)) as Hso1.
  { apply Forall_updatePlayer; [apply Hinv|done]. }
  case_decide as Hseek.
  - destruct (checkSeekerWin_phase r1 Hseek Hrd1 Hpl1 Hso1) as [[-> Hex]|(out & -> & Hend)];
      [|done].
    cbn. by apply PhaseInv_found.
  - cbn in Hseek. destruct Hgs as [|Hover]; [done|].
    assert (PhaseInv r1) as H1 by (apply PhaseInv_found; [done|by right|done]).
    rewrite decide_True by done.
    case_decide.
    + pose proof (PhaseInv_revealFrame _ _ (activateNextUnfoundPlayer_frame r1) H1).
      by destruct (Room.activateNextUnfoundPlayer r1).
    + cbn. eapply PhaseInv_view; [|exact H1]. done.
Qed.

Lemma updateSettings_phase settings r :
  CoreInv r → PhaseInv r → Room.gameState r = GAME_STATE.WAITING →
  PhaseInv (Room.updateSettings settings r).1.2.
Proof.
  intros Hcore Hinv Hgs. phase_destruct Hinv.
  pose proof (inv_plays r Hcore) as Hplays. unfold MIN_SOUND_PLAYS in Hplays.
  assert (∀ n, 1 ≤ n →
            Forall (λ p, 0 ≤ Player.soundsPlayed p ≤ n) (Room.players r)) as Hzero.
  { intros n Hn. eapply Forall_impl; [apply Hfresh; by left|]. intros p [_ ->]. lia. }
  unfold Room.updateSettings, MIN_SOUND_PLAYS.
  destruct (parseInt (settings_seekTimeLimit settings)),
           (parseInt (settings_soundPlaysPerPlayer settings));
    repeat first [case_bool_decide | case_decide]; cbn;
    constructor; cbn; phase_auto; apply Hzero; lia.
Qed.

Lemma Forall2_Forall_r' {A B} (P : A → Prop) (R : A → B → Prop) (Q : B → Prop) l k :
  Forall P l → Forall2 R l k → (∀ x y, P x → R x y → Q y) → Forall Q k.
Proof.
  intros HP HR Himpl. induction HR as [|x y l k Hxy _ IH]; [constructor|].
  apply Forall_cons in HP as [Hx HP]. constructor; eauto.
Qed.

Lemma addPlayer_phase sid draws r :
  CoreInv r → PhaseInv r → PhaseInv (Room.addPlayer sid draws r).1.2.
Proof.
  intros Hcore Hinv. unfold Room.addPlayer.
  case_decide as Hgs; [done|]. case_bool_decide as Hin; [done|].
  rewrite _assignUniqueSounds_eq. cbv zeta. cbn [fst snd].
  pose proof (inv_plays r Hcore) as Hplays. unfold MIN_SOUND_PLAYS in Hplays.
  phase_destruct Hinv.
  set (n := Z.of_nat (length (Room.players r)) + 1).
  assert (1 ≤ n) as Hn by (unfold n; lia).
  constructor; cbn; phase_auto.
  - intros _. apply Forall_app. split; [by apply Hfresh; left|]. by repeat constructor.
  - intros _. apply Forall_app. split; [apply Hready; congruence|]. by repeat constructor.
  - apply Forall_app. split; [done|]. repeat constructor; cbn; lia.
  - apply Forall_app. split; [done|]. repeat constructor.
    destruct (pickSound_is_Some BASE_ANIMAL_SOUNDS (Room.assignedAnimalSounds r) draws.1 n)
      as [a Ha]; [by vm_compute|done|].
    destruct (pickSound_is_Some BASE_UNFOUND_SOUNDS (Room.assignedUnfoundSounds r) draws.2 n)
      as [u Hu]; [by vm_compute|done|].
    exists a, u. cbn. fold n. rewrite Ha, Hu.
    repeat split; try done; eapply pickSound_in_pool; eassumption.
Qed.

Lemma reassigned_hasSounds p p' : 1 ≤ Player.number p → reassigned p p' → hasSounds p'.
Proof. intros Hn [_ H]. by apply H. Qed.

Lemma resetForNewGame_phase draws r :
  CoreInv r → PhaseInv (Room.resetForNewGame draws r).1.
Proof.
  intros Hcore. rewrite resetForNewGame_eq. cbv zeta. cbn [fst].
  pose proof (inv_plays r Hcore) as Hplays. unfold MIN_SOUND_PLAYS in Hplays.
  assert (Forall (λ p, 1 ≤ Player.number p) (Room.players r)) as Hnum
    by apply Forall_forall, (inv_numbers r Hcore).
  match goal with |- context [Room.reassignAll draws ?ps ?x] =>
    destruct (reassignAll_spec draws ps x) as [H1 H2];
    destruct (Room.reassignAll draws ps x) as [ps' r'] end.
  cbn [fst snd] in *. subst r'.
  constructor; cbn; phase_auto.
  - intros _. eapply Forall2_Forall_r'; [exact Hnum|exact H1|].
    intros p p' _ Hre. by destruct (reassigned_fields _ _ Hre) as (_ & _ & _ & _ & ? & ?).
  - intros _. eapply Forall2_Forall_r'; [exact Hnum|exact H1|].
    intros p p' _ Hre. by destruct (reassigned_fields _ _ Hre) as (_ & _ & _ & ? & _).
  - eapply Forall2_Forall_r'; [exact Hnum|exact H1|].
    intros p p' _ Hre. destruct (reassigned_fields _ _ Hre) as (_ & _ & _ & _ & _ & ->). lia.
  - eapply Forall2_Forall_r'; [exact Hnum|exact H1|].
    intros p p'. apply reassigned_hasSounds.
Qed.

Lemma requestPlayAgain_phase sid draws r :
  CoreInv r → PhaseInv r → PhaseInv (Room.requestPlayAgain sid draws r).1.2.
Proof.
  intros Hcore Hinv. unfold Room.requestPlayAgain. case_decide; [done|].
  destruct (Room.getPlayer sid r); [|done].
  pose proof (resetForNewGame_phase draws r Hcore).
  by destruct (Room.resetForNewGame draws r).
Qed.

(** The room right after [delete this.players[socketId]]. *)
Lemma PhaseInv_deleted sid r A U :
  PhaseInv r →
  (Room.gameState r = GAME_STATE.SEEKING →
   Exists (λ p, Player.isFound p = false) (Room.deletePlayer sid (Room.players r))) →
  (Room.gameState r = GAME_STATE.HIDING →
   (Room.preSeekCountdownInterval r = true ↔
    Forall (λ p, Player.isReady p = true) (Room.deletePlayer sid (Room.players r)))) →
  PhaseInv (Room.set_players (Room.deletePlayer sid (Room.players r))
              (Room.set_assignedUnfoundSounds U (Room.set_assignedAnimalSounds A r))).
Proof.
  intros Hinv Hex Hrd. phase_destruct Hinv.
  constructor; cbn; phase_auto.
  - intros Hs. by apply Forall_deletePlayer, Hfresh.
  - intros Hs. by apply Forall_deletePlayer, Hready.
  - by apply Forall_deletePlayer.
  - by apply Forall_deletePlayer.
Qed.

Lemma removePlayer_phase sid r r' out :
  CoreInv r → PhaseInv r → Room.removePlayer sid r = (false, r', out) → PhaseInv r'.
Proof.
  intros Hcore Hinv. unfold Room.removePlayer.
  destruct (Room.getPlayer sid r) as [p|] eqn:Hget; [|by intros [= <- _]].
  apply lookupPlayer_Some in Hget as [Hp Hid]. cbv zeta.
  set (r0 := Room.set_players _ _).
  destruct (Room.isEmpty r0) eqn:Hempty; [done|].
  assert (Room.players r0 ≠ []) as Hne0.
  { unfold Room.isEmpty in Hempty. by destruct (Room.players r0). }
  assert (Forall (λ p, 0 ≤ Player.soundsPlayed p ≤ Room.soundPlaysPerPlayer r0)
            (Room.players r0)) as Hpl0 by (apply Forall_deletePlayer, Hinv).
  assert (Forall hasSounds (Room.players r0)) as Hso0 by (apply Forall_deletePlayer, Hinv).
  case_decide as Hw.
  { intros [= <- _]. cbn in Hw.
    assert (PhaseInv r0) as H0 by (apply (PhaseInv_deleted sid r); [done|congruence..]).
    case_bool_decide; [|done].
    unfold Room._promoteNewHider. destruct (Room.sortByNumber _) as [|p0 rest]; [done|].
    phase_destruct H0. cbn in *. constructor; cbn; phase_auto.
    - intros _. apply Forall_updatePlayer; [by apply Hfresh; left|done].
    - intros _. apply Forall_updatePlayer; [apply Hready; congruence|done].
    - by apply Forall_updatePlayer.
    - by apply Forall_updatePlayer. }
  case_bool_decide as Hh.
  { unfold Room._checkAllRemainingReady. rewrite Hempty.
    destruct (forallb Player.isReady (Room.players r0)) eqn:Hall0; cbn [andb].
    - apply forallb_Forall in Hall0.
      destruct (Room.preSeekCountdownInterval r0) eqn:Hc0; cbn [negb].
      + intros [= <- _]. apply (PhaseInv_deleted sid r); [done|congruence|done].
      + unfold Room.startPreSeekCountdown. rewrite Hc0. intros [= <- _].
        phase_destruct Hinv. constructor; cbn; phase_auto.
        * intros _. by apply Forall_deletePlayer, Hfresh; right.
    - intros [= <- _]. apply (PhaseInv_deleted sid r); [done|congruence|].
      intros _. split.
      + intros Hc. pose proof (proj1 (ph_allReady r Hinv Hh) Hc) as Hrd.
        apply (Forall_deletePlayer _ sid) in Hrd. apply forallb_Forall in Hrd.
        cbn in Hall0. congruence.
      + intros Hrd%forallb_Forall. cbn in Hall0. congruence. }
  case_bool_decide as Hs.
  { assert (Forall (λ p, Player.isReady p = false) (Room.players r0)) as Hrd0.
    { apply Forall_deletePlayer, Hinv. congruence. }
    case_bool_decide.
    - pose proof (endGame_phase WINNER_TYPE.SEEKERS r0) as He.
      destruct (Room.endGame _ r0). intros [= <- _]. apply He; try done. cbn. congruence.
    - destruct (checkSeekerWin_phase r0 Hs Hrd0 Hpl0 Hso0) as [[-> Hex]|(out' & -> & Hend)].
      + intros [= <- _]. apply (PhaseInv_deleted sid r); [done|done|congruence].
      + by intros [= <- _]. }
  assert (PhaseInv r0) as H0 by (apply (PhaseInv_deleted sid r); [done|congruence..]).
  case_bool_decide; [|by intros [= <- _]].
  set (r1 := Room.set_unfoundPlayerQueue _ r0).
  assert (PhaseInv r1) as H1 by (eapply PhaseInv_view; [|exact H0]; done).
  case_bool_decide; [|by intros [= <- _]].
  pose proof (PhaseInv_revealFrame _ _ (activateNextUnfoundPlayer_frame r1) H1).
  destruct (Room.activateNextUnfoundPlayer r1). by intros [= <- _].
Qed.

Lemma createRoom_phase roomCode sid draws : PhaseInv (createRoom roomCode sid draws).
Proof.
  rewrite createRoom_eq. cbv zeta.
  constructor; cbn; phase_auto.
  - intros _. by repeat constructor.
  - intros _. by repeat constructor.
  - by repeat constructor.
  - repeat constructor.
    destruct (pickSound_is_Some BASE_ANIMAL_SOUNDS ∅ draws.1 1) as [a Ha]; [by vm_compute|done|].
    destruct (pickSound_is_Some BASE_UNFOUND_SOUNDS ∅ draws.2 1) as [u Hu]; [by vm_compute|done|].
    exists a, u. cbn. rewrite Ha, Hu.
    repeat split; try done; eapply pickSound_in_pool; eassumption.
Qed.

Lemma step_phase r e r' : RoomInv r → PhaseInv r → step r e r' → PhaseInv r'.
Proof.
  intros [Hcore Hrev] Hinv [Harmed Hstep].
  destruct e; cbn in Harmed, Hstep.
  - injection Hstep as <-. unfold on_joinRoom. rewrite reportTo_room.
    by apply addPlayer_phase.
  - unfold handleDisconnect, findRoomBySocketId in Hstep.
    destruct (Room.getPlayer socketId r); [|by injection Hstep as <-].
    destruct (Room.removePlayer socketId r) as [[[] r1] out] eqn:Hrm; [done|].
    injection Hstep as <-. by eapply removePlayer_phase.
  - injection Hstep as <-. unfold on_updateSettings, findRoomBySocketId.
    rewrite reportTo_room.
    destruct (Room.getPlayer socketId r) as [p|] eqn:Hget; [|done].
    rewrite Hget. repeat case_decide; try done. by apply updateSettings_phase.
  - injection Hstep as <-. unfold on_startHiding, findRoomBySocketId.
    rewrite reportTo_room.
    destruct (Room.getPlayer socketId r) as [p|] eqn:Hget; [|done].
    rewrite Hget. case_decide; [done|]. by apply startHidingPhase_phase.
  - injection Hstep as <-. unfold on_confirmHidden, findRoomBySocketId.
    rewrite logOnly_room.
    destruct (Room.getPlayer socketId r); [|done]. by apply confirmPlayerHidden_phase.
  - injection Hstep as <-. unfold on_markSelfFound, findRoomBySocketId.
    rewrite logOnly_room.
    destruct (Room.getPlayer socketId r); [|done]. by apply markPlayerFound_phase.
  - injection Hstep as <-. unfold on_requestPlayAgain, findRoomBySocketId.
    rewrite reportTo_room.
    destruct (Room.getPlayer socketId r); [|done]. by apply requestPlayAgain_phase.
  - injection Hstep as <-. by apply preSeekCountdownTick_phase.
  - injection Hstep as <-. by apply seekTimerTick_phase.
  - injection Hstep as <-. apply bool_decide_eq_true in Harmed.
    by apply scheduleNextSound_phase.
Qed.

Theorem reachable_phase r : reachable r → PhaseInv r.
Proof.
  induction 1 as [code sid draws | r e r' Hr IH Hstep].
  - apply createRoom_phase.
  - eapply step_phase; [by apply reachable_inv|exact IH|exact Hstep].
Qed.

(** ** The phase of a room moves along one cycle *)

Lemma endGame_state w r : Room.gameState (Room.endGame w r).1 = GAME_STATE.GAME_OVER.
Proof.
  destruct (decide (Room.gameState r = GAME_STATE.GAME_OVER)) as [Hgs|Hgs].
  - by rewrite endGame_over.
  - by destruct (endGame_ends w r Hgs) as (-> & _).
Qed.

Lemma checkSeekerWin_state r :
  Room.gameState (Room.checkSeekerWin r).1.2 = Room.gameState r ∨
  (Room.gameState r = GAME_STATE.SEEKING ∧
   Room.gameState (Room.checkSeekerWin r).1.2 = GAME_STATE.GAME_OVER).
Proof.
  unfold Room.checkSeekerWin. case_decide as Hgs; [by left|].
  destruct (forallb _ _); [|by left].
  pose proof (endGame_state WINNER_TYPE.SEEKERS r).
  destruct (Room.endGame _ r). right. done.
Qed.

Lemma activateNextUnfoundPlayer_state r :
  Room.gameState (Room.activateNextUnfoundPlayer r).1 = Room.gameState r.
Proof.
  by destruct (revealFrame_fields _ _ (activateNextUnfoundPlayer_frame r)) as (_ & -> & _).
Qed.

Lemma removePlayer_state sid r :
  Room.gameState (Room.removePlayer sid r).1.2 = Room.gameState r ∨
  (Room.gameState r = GAME_STATE.SEEKING ∧
   Room.gameState (Room.removePlayer sid r).1.2 = GAME_STATE.GAME_OVER).
Proof.
  unfold Room.removePlayer.
  destruct (Room.getPlayer sid r) as [p|]; [|by left]. cbv zeta.
  set (r0 := Room.set_players _ _).
  destruct (Room.isEmpty r0); [by left|].
  case_decide as Hw. { left. cbn. case_bool_decide; [|done].
    unfold Room._promoteNewHider. by destruct (Room.sortByNumber _). }
  case_bool_decide as Hh.
  { left. unfold Room.startPreSeekCountdown.
    destruct (_ && _); [|done]. by destruct (Room.preSeekCountdownInterval r0). }
  case_bool_decide as Hs.
  { case_bool_decide.
    - pose proof (endGame_state WINNER_TYPE.SEEKERS r0).
      destruct (Room.endGame _ r0). by right.
    - destruct (checkSeekerWin_state r0) as [H1|[_ H1]];
        destruct (Room.checkSeekerWin r0) as [[[] ?] ?]; cbn in *; auto. }
  case_bool_decide; [|by left].
  case_bool_decide; [|by left].
  match goal with |- context [Room.activateNextUnfoundPlayer ?x] =>
    pose proof (activateNextUnfoundPlayer_state x);
    destruct (Room.activateNextUnfoundPlayer x) end.
  by left.
Qed.

Lemma markPlayerFound_state sid r :
  Room.gameState (Room.markPlayerFound sid r).1.2 = Room.gameState r ∨
  (Room.gameState r = GAME_STATE.SEEKING ∧
   Room.gameState (Room.markPlayerFound sid r).1.2 = GAME_STATE.GAME_OVER).
Proof.
  unfold Room.markPlayerFound.
  destruct (Room.getPlayer sid r) as [p|]; [|by left].
  destruct (Player.isFound p); [by left|]. case_bool_decide; [by left|].
  set (r1 := Room.set_players _ r).
  repeat case_decide; try by left.
  - destruct (checkSeekerWin_state r1) as [H1|[_ H1]];
      destruct (Room.checkSeekerWin r1) as [[[] ?] ?]; cbn in *; auto.
  - pose proof (activateNextUnfoundPlayer_state r1).
    destruct (Room.activateNextUnfoundPlayer r1). by left.
Qed.

Lemma resetForNewGame_state draws r :
  Room.gameState (Room.resetForNewGame draws r).1 = GAME_STATE.WAITING.
Proof.
  rewrite resetForNewGame_eq. cbv zeta. cbn [fst].
  match goal with |- context [Room.reassignAll draws ?ps ?x] =>
    destruct (reassignAll_spec draws ps x) as [_ H2];
    destruct (Room.reassignAll draws ps x) as [ps' r'] end.
  cbn [fst snd] in *. by subst r'.
Qed.

Lemma updateSettings_state settings r :
  Room.gameState (Room.updateSettings settings r).1.2 = Room.gameState r.
Proof.
  unfold Room.updateSettings.
  destruct (parseInt (settings_seekTimeLimit settings)),
           (parseInt (settings_soundPlaysPerPlayer settings));
    repeat first [case_bool_decide | case_decide]; done.
Qed.

Lemma step_phase_cycle r e r' :
  CoreInv r → step r e r' →
  Room.gameState r' = Room.gameState r ∨
  (Room.gameState r' = nextPhase (Room.gameState r) ∧ advances e (Room.gameState r) = true).
Proof.
  intros Hcore [Harmed Hstep].
  destruct e; cbn in Harmed, Hstep.
  - injection Hstep as <-. left. unfold on_joinRoom. rewrite reportTo_room.
    unfold Room.addPlayer. case_decide; [done|]. case_bool_decide; [done|].
    by rewrite _assignUniqueSounds_eq.
  - unfold handleDisconnect, findRoomBySocketId in Hstep.
    destruct (Room.getPlayer socketId r); [|injection Hstep as <-; by left].
    pose proof (removePlayer_state socketId r) as Hs.
    destruct (Room.removePlayer socketId r) as [[[] r1] out] eqn:Hrm; [done|].
    injection Hstep as <-. cbn in Hs. destruct Hs as [|[Hs ->]]; [by left|].
    right. by rewrite Hs.
  - injection Hstep as <-. left. unfold on_updateSettings, findRoomBySocketId.
    rewrite reportTo_room.
    destruct (Room.getPlayer socketId r) as [p|] eqn:Hget; [|done].
    rewrite Hget. repeat case_decide; try done. apply updateSettings_state.
  - injection Hstep as <-. unfold on_startHiding, findRoomBySocketId.
    rewrite reportTo_room.
    destruct (Room.getPlayer socketId r) as [p|] eqn:Hget; [|by left].
    rewrite Hget. case_decide; [by left|].
    unfold Room.startHidingPhase. case_decide as Hw; [by left|]. case_decide; [by left|].
    right. by rewrite Hw.
  - injection Hstep as <-. left. unfold on_confirmHidden, findRoomBySocketId.
    rewrite logOnly_room.
    destruct (Room.getPlayer socketId r) as [p|] eqn:Hget; [|done].
    unfold Room.confirmPlayerHidden. rewrite Hget.
    case_decide; [done|]. destruct (Player.isReady p); [done|]. cbv zeta.
    unfold Room.startPreSeekCountdown. cbn.
    destruct (Room._checkAllRemainingReady _); [|done].
    by destruct (Room.preSeekCountdownInterval r).
  - injection Hstep as <-. unfold on_markSelfFound, findRoomBySocketId.
    rewrite logOnly_room.
    destruct (Room.getPlayer socketId r); [|by left].
    destruct (markPlayerFound_state socketId r) as [|[Hs ->]]; [by left|].
    right. by rewrite Hs.
  - injection Hstep as <-. unfold on_requestPlayAgain, findRoomBySocketId.
    rewrite reportTo_room.
    destruct (Room.getPlayer socketId r) as [p|] eqn:Hget; [|by left].
    unfold Room.requestPlayAgain. case_decide as Hgo; [by left|]. rewrite Hget.
    pose proof (resetForNewGame_state draws r) as Hs.
    destruct (Room.resetForNewGame draws r). right. cbn in *. by rewrite Hs, Hgo.
  - injection Hstep as <-. pose proof (inv_countdown r Hcore Harmed) as Hh.
    unfold Room.preSeekCountdownTick. cbv zeta.
    case_decide; [|by left]. right.
    unfold Room.startSeekingPhase. cbn [Room.gameState Room.set_preSeekCountdownInterval
      Room.set_preSeekCountdownValue].
    rewrite decide_False by congruence. rewrite startSeekTimer_eq. cbn. by rewrite Hh.
  - injection Hstep as <-. pose proof (inv_seekTimer r Hcore Harmed) as Hs.
    unfold Room.seekTimerTick. rewrite decide_True by done.
    case_decide; [|by left]. right. by rewrite endGame_state, Hs.
  - injection Hstep as <-. left.
    unfold Room.scheduleNextSound. repeat case_decide; try done.
    destruct (js_index _ _) as [pt|]; cbn; [destruct (Player.uniqueAnimalSoundURL pt)|]; done.
Qed.

(** ** What is sent, and to whom *)

Ltac in_out :=
  unfold Room.broadcastUpdateState; rewrite ?elem_of_app, ?elem_of_cons, ?elem_of_nil.

Lemma Emits_pre r r1 r' out :
  Room.gameState r1 = Room.gameState r →
  Room.activeUnfoundPlayerId r1 = Room.activeUnfoundPlayerId r →
  Emits r1 r' out → Emits r r' out.
Proof. intros Hgs Ha [H1 H2 H3 H4 H5]. constructor; rewrite <- ?Hgs, <- ?Ha; done. Qed.

(** A method that neither ends the game nor moves the reveal on sends, at
    most, the state it leaves, countdown values and sound cues. *)
Lemma Emits_quiet r r' out :
  Room.gameState r' = Room.gameState r →
  (∀ x, Room.activeUnfoundPlayerId r' = Some x → Room.activeUnfoundPlayerId r = Some x) →
  snapshots out = [] ∨ snapshots out = [Room.getClientState r'] →
  Forall (λ e, match e with
               | updateState _ | preSeekCountdown _ | playSound _ _ => True
               | _ => False
               end) out →
  Emits r r' out.
Proof.
  intros Hgs Ha Hsnap Hout. rewrite Forall_forall in Hout.
  constructor; try done.
  - clear Hsnap. induction out as [|e out IH]; [done|].
    pose proof (Hout e ltac:(left)) as He.
    assert (errorsOf out = []) as IH' by (apply IH; intros x Hx; apply Hout; by right).
    by destruct e.
  - split.
    + intros Hin. by apply Hout in Hin.
    + intros (Hno & Hgo & _). congruence.
  - intros x url Hin. by apply Hout in Hin.
  - intros x Hx Hnx. by apply Ha in Hx.
Qed.

Ltac emits_quiet :=
  apply Emits_quiet; cbn; unfold Room.broadcastUpdateState;
  [ done | done | first [by left | by right] | by repeat constructor ].

Lemma activateNextFrom_out queue r :
  (Room.activeUnfoundPlayerId (Room.activateNextFrom queue r).1 = None ∧
   (Room.activateNextFrom queue r).2 =
     [updateState (Room.getClientState (Room.activateNextFrom queue r).1)]) ∨
  (∃ x p url,
     Room.activeUnfoundPlayerId (Room.activateNextFrom queue r).1 = Some x ∧
     x ∈ queue ∧
     Room.getPlayer x r = Some p ∧ Player.uniqueUnfoundSoundURL p = Some url ∧
     (Room.activateNextFrom queue r).2 =
       [becomeActiveUnfound x url;
        updateState (Room.getClientState (Room.activateNextFrom queue r).1)]).
Proof.
  revert r. induction queue as [|x rest IH]; intros r.
  - left. done.
  - cbn [Room.activateNextFrom]. cbv zeta.
    set (r1 := Room.set_activeUnfoundPlayerId (Some x) _).
    assert (∀ y, Room.getPlayer y r1 = Room.getPlayer y r) as Hsame by done.
    assert ((Room.activeUnfoundPlayerId (Room.activateNextFrom rest r1).1 = None ∧
             (Room.activateNextFrom rest r1).2 =
               [updateState (Room.getClientState (Room.activateNextFrom rest r1).1)]) ∨
            (∃ x0 p url,
               Room.activeUnfoundPlayerId (Room.activateNextFrom rest r1).1 = Some x0 ∧
               x0 ∈ x :: rest ∧
               Room.getPlayer x0 r = Some p ∧ Player.uniqueUnfoundSoundURL p = Some url ∧
               (Room.activateNextFrom rest r1).2 =
                 [becomeActiveUnfound x0 url;
                  updateState (Room.getClientState (Room.activateNextFrom rest r1).1)]))
      as Hrec.
    { destruct (IH r1) as [?|(x0 & p & url & ? & ? & ? & ? & ?)]; [by left|].
      right. exists x0, p, url. rewrite <- Hsame. repeat split; try done. by right. }
    rewrite Hsame.
    destruct (Room.getPlayer x r) as [p|] eqn:Hget; [|done].
    destruct (Player.uniqueUnfoundSoundURL p) as [url|] eqn:Hurl; [|done].
    right. exists x, p, url. repeat split; try done. left.
Qed.

Lemma activateNextFrom_emits queue r : Emits r (Room.activateNextFrom queue r).1 (Room.activateNextFrom queue r).2.
Proof.
  destruct (revealFrame_fields _ _ (activateNextFrom_frame queue r)) as (Hps & Hgs & _).
  assert (∀ y, Room.getPlayer y (Room.activateNextFrom queue r).1 = Room.getPlayer y r) as Hsame.
  { intros y. unfold Room.getPlayer. by rewrite Hps. }
  destruct (activateNextFrom_out queue r) as [[Ha ->]|(x & p & url & Ha & _ & Hget & Hurl & ->)].
  - constructor; cbn; auto.
    + in_out. split; [by intros [|[]]|]. intros (? & ? & _). congruence.
    + intros x url. in_out. by intros [|[]].
    + intros x. by rewrite Ha.
  - constructor; cbn; auto.
    + in_out. split; [by intros [|[|[]]]|]. intros (? & ? & _). congruence.
    + intros y url'. in_out. intros [[= -> ->]|[|[]]]; [|done].
      split; [done|]. exists p. by rewrite Hsame.
    + intros y. rewrite Ha. intros [= <-] _. exists url. left.
Qed.

Lemma activateNextUnfoundPlayer_emits r :
  Emits r (Room.activateNextUnfoundPlayer r).1 (Room.activateNextUnfoundPlayer r).2.
Proof.
  unfold Room.activateNextUnfoundPlayer. case_decide.
  - emits_quiet.
  - apply activateNextFrom_emits.
Qed.

Lemma endGame_emits w r : Emits r (Room.endGame w r).1 (Room.endGame w r).2.
Proof.
  unfold Room.endGame. case_decide as Hgs.
  { emits_quiet. }
  cbv zeta. set (r1 := Room.set_winner _ _).
  destruct w.
  - unfold Room.startGameOverReveal. rewrite decide_False by (intros H; by apply H).
    cbv zeta. set (r2 := Room.set_unfoundPlayerQueue _ r1).
    pose proof (activateNextUnfoundPlayer_emits r2) as [H1 H2 H3 H4 H5].
    destruct (revealFrame_fields _ _ (activateNextUnfoundPlayer_frame r2)) as (_ & Hgs' & Hw' & _).
    constructor; try done.
    rewrite H3, Hw'. cbn. split; [by intros (? & _)|by intros (_ & _ & ?)].
  - constructor; cbn; auto.
    + in_out. split; [by intros _|by left].
    + intros x url. in_out. by intros [|[|[]]].
    + intros x Hx Hnx. done.
Qed.

Lemma checkSeekerWin_emits r :
  Emits r (Room.checkSeekerWin r).1.2 (Room.checkSeekerWin r).2.
Proof.
  unfold Room.checkSeekerWin. case_decide; [emits_quiet|].
  destruct (forallb _ _); [|emits_quiet].
  pose proof (endGame_emits WINNER_TYPE.SEEKERS r). by destruct (Room.endGame _ r).
Qed.

Lemma seekTimerTick_emits now r :
  Emits r (Room.seekTimerTick now r).1 (Room.seekTimerTick now r).2.
Proof.
  unfold Room.seekTimerTick. repeat case_decide; try (emits_quiet).
  apply endGame_emits.
Qed.

Lemma scheduleNextSound_emits now r :
  Emits r (Room.scheduleNextSound now r).1 (Room.scheduleNextSound now r).2.
Proof.
  unfold Room.scheduleNextSound. repeat case_decide; try (emits_quiet).
  destruct (js_index _ _) as [pt|]; cbn; [destruct (Player.uniqueAnimalSoundURL pt); cbn|];
    emits_quiet.
Qed.

Lemma startSeekingPhase_emits now r :
  Emits r (Room.startSeekingPhase now r).1 (Room.startSeekingPhase now r).2.
Proof.
  unfold Room.startSeekingPhase. case_decide; [emits_quiet|].
  rewrite startSeekTimer_eq. cbn.
  constructor; cbn; auto.
  - in_out. split; [by intros [|[]]|]. by intros (_ & ? & _).
  - intros x url. in_out. by intros [|[]].
  - intros x Hx Hnx. done.
Qed.

Lemma Emits_countdown r r' v out : Emits r r' out → Emits r r' (preSeekCountdown v :: out).
Proof.
  intros [H1 H2 H3 H4 H5]. constructor; cbn; try done.
  - rewrite <- H3. in_out. split; [by intros [|]|by right].
  - intros x url. in_out. intros [|]; [done|]. by apply H4.
  - intros x Hx Hnx. destruct (H5 x Hx Hnx) as [url Hin]. exists url. by right.
Qed.

Lemma preSeekCountdownTick_emits now r :
  Emits r (Room.preSeekCountdownTick now r).1 (Room.preSeekCountdownTick now r).2.
Proof.
  unfold Room.preSeekCountdownTick. cbv zeta. case_decide.
  - match goal with |- context [Room.startSeekingPhase now ?x] =>
      pose proof (startSeekingPhase_emits now x) as Hs;
      destruct (Room.startSeekingPhase now x) as [r' out'] end.
    cbn [fst snd app] in *. apply Emits_countdown. eapply Emits_pre; [| |exact Hs]; done.
  - emits_quiet.
Qed.

Lemma startPreSeekCountdown_emits r :
  Emits r (Room.startPreSeekCountdown r).1 (Room.startPreSeekCountdown r).2.
Proof.
  unfold Room.startPreSeekCountdown.
  destruct (Room.preSeekCountdownInterval r); emits_quiet.
Qed.

Lemma addPlayer_emits sid draws r :
  Emits r (Room.addPlayer sid draws r).1.2 (Room.addPlayer sid draws r).2.
Proof.
  unfold Room.addPlayer. case_decide; [emits_quiet|].
  case_bool_decide; [emits_quiet|].
  rewrite _assignUniqueSounds_eq. cbv zeta. cbn [fst snd].
  emits_quiet.
Qed.

Lemma updateSettings_emits settings r :
  Emits r (Room.updateSettings settings r).1.2 (Room.updateSettings settings r).2.
Proof.
  unfold Room.updateSettings.
  destruct (parseInt (settings_seekTimeLimit settings)),
           (parseInt (settings_soundPlaysPerPlayer settings));
    repeat first [case_bool_decide | case_decide]; cbn;
    emits_quiet.
Qed.

Lemma startHidingPhase_emits r :
  Emits r (Room.startHidingPhase r).1.2 (Room.startHidingPhase r).2.
Proof.
  unfold Room.startHidingPhase. repeat case_decide; try (emits_quiet).
  cbn. constructor; cbn; auto.
  - in_out. split; [by intros [|[]]|]. by intros (_ & ? & _).
  - intros x url. in_out. by intros [|[]].
  - intros x Hx Hnx. done.
Qed.

Lemma confirmPlayerHidden_emits sid r :
  Emits r (Room.confirmPlayerHidden sid r).1.2 (Room.confirmPlayerHidden sid r).2.
Proof.
  unfold Room.confirmPlayerHidden.
  destruct (Room.getPlayer sid r) as [p|]; [|emits_quiet].
  case_decide; [emits_quiet|].
  destruct (Player.isReady p); [emits_quiet|]. cbv zeta.
  destruct (Room._checkAllRemainingReady _); [|emits_quiet].
  unfold Room.startPreSeekCountdown. cbn.
  destruct (Room.preSeekCountdownInterval r); emits_quiet.
Qed.

Lemma resetForNewGame_emits draws r :
  Emits r (Room.resetForNewGame draws r).1 (Room.resetForNewGame draws r).2.
Proof.
  pose proof (resetForNewGame_state draws r) as Hgs.
  rewrite resetForNewGame_eq in *. cbv zeta in *. cbn [fst snd] in *.
  match goal with |- context [Room.reassignAll draws ?ps ?x] =>
    destruct (reassignAll_spec draws ps x) as [_ H2];
    destruct (Room.reassignAll draws ps x) as [ps' r'] end.
  cbn [fst snd] in *. subst r'. cbn in *.
  constructor; cbn; auto.
  - in_out. split; [by intros [|[]]|]. by intros (_ & ? & _).
  - intros x url. in_out. by intros [|[]].
  - intros x Hx Hnx. done.
Qed.

Lemma requestPlayAgain_emits sid draws r :
  Emits r (Room.requestPlayAgain sid draws r).1.2 (Room.requestPlayAgain sid draws r).2.
Proof.
  unfold Room.requestPlayAgain. case_decide; [emits_quiet|].
  destruct (Room.getPlayer sid r); [|emits_quiet].
  pose proof (resetForNewGame_emits draws r). by destruct (Room.resetForNewGame draws r).
Qed.

Lemma Emits_then_broadcast r r' :
  Emits r r' [] → Emits r r' ([] ++ Room.broadcastUpdateState r').
Proof.
  intros [H1 H2 H3 H4 H5]. constructor; cbn; auto.
  - rewrite <- H3. in_out. split; [by intros [|[]]|by intros []].
  - intros x url. in_out. by intros [|[]].
  - intros x Hx Hnx. destruct (H5 x Hx Hnx) as [url []%not_elem_of_nil].
Qed.

Lemma markPlayerFound_emits sid r :
  Emits r (Room.markPlayerFound sid r).1.2 (Room.markPlayerFound sid r).2.
Proof.
  unfold Room.markPlayerFound.
  destruct (Room.getPlayer sid r) as [p|]; [|emits_quiet].
  destruct (Player.isFound p); [emits_quiet|].
  case_bool_decide; [emits_quiet|].
  set (r1 := Room.set_players _ r).
  apply (Emits_pre r r1); [done..|].
  case_decide.
  - pose proof (checkSeekerWin_emits r1) as Hc. unfold Room.checkSeekerWin in *.
    case_decide; [done|]. destruct (forallb _ _).
    + by destruct (Room.endGame _ r1).
    + cbn in *. by apply Emits_then_broadcast.
  - case_decide; [|emits_quiet].
    case_decide.
    + pose proof (activateNextUnfoundPlayer_emits r1).
      by destruct (Room.activateNextUnfoundPlayer r1).
    + cbn. emits_quiet.
Qed.

Lemma removePlayer_emits sid r :
  Emits r (Room.removePlayer sid r).1.2 (Room.removePlayer sid r).2.
Proof.
  unfold Room.removePlayer.
  destruct (Room.getPlayer sid r) as [p|]; [|emits_quiet]. cbv zeta.
  set (r0 := Room.set_players _ _).
  apply (Emits_pre r r0); [done..|].
  destruct (Room.isEmpty r0); [emits_quiet|].
  case_decide as Hw.
  { cbn. case_bool_decide; [|emits_quiet].
    unfold Room._promoteNewHider. destruct (Room.sortByNumber _);
      emits_quiet. }
  case_bool_decide as Hh.
  { unfold Room.startPreSeekCountdown.
    destruct (_ && _); [|emits_quiet].
    destruct (Room.preSeekCountdownInterval r0); emits_quiet. }
  case_bool_decide as Hs.
  { case_bool_decide.
    - pose proof (endGame_emits WINNER_TYPE.SEEKERS r0). by destruct (Room.endGame _ r0).
    - pose proof (checkSeekerWin_emits r0) as Hc. unfold Room.checkSeekerWin in *.
      case_decide; [done|]. destruct (forallb _ _).
      + by destruct (Room.endGame _ r0).
      + cbn in *. by apply Emits_then_broadcast. }
  case_bool_decide; [|emits_quiet].
  set (r1 := Room.set_unfoundPlayerQueue _ r0).
  apply (Emits_pre r0 r1); [done..|].
  case_bool_decide; [|emits_quiet].
  pose proof (activateNextUnfoundPlayer_emits r1).
  by destruct (Room.activateNextUnfoundPlayer r1).
Qed.

(** What a handler sends: either what its room method sent, or one error. *)
Lemma reportTo_out {A} sid (res : Outcome A * Room.t * list Emit) r :
  (∀ message, res.1.1 = Throw message → res.1.2 = r ∧ res.2 = []) →
  Emits r res.1.2 res.2 →
  Emits r (reportTo sid res).1 (reportTo sid res).2 ∨
  ∃ message, reportTo sid res = (r, [errorMsg sid message]).
Proof.
  destruct res as [[[a|message] r'] out]; cbn; intros Hthrow Hem; [by left|].
  right. destruct (Hthrow message eq_refl) as [-> ->]. by exists message.
Qed.

Lemma addPlayer_throw sid draws r message :
  (Room.addPlayer sid draws r).1.1 = Throw message →
  (Room.addPlayer sid draws r).1.2 = r ∧ (Room.addPlayer sid draws r).2 = [].
Proof.
  unfold Room.addPlayer. case_decide; [done|]. case_bool_decide; [done|].
  by rewrite _assignUniqueSounds_eq.
Qed.

Lemma startHidingPhase_throw r message :
  (Room.startHidingPhase r).1.1 = Throw message →
  (Room.startHidingPhase r).1.2 = r ∧ (Room.startHidingPhase r).2 = [].
Proof. unfold Room.startHidingPhase. by repeat case_decide. Qed.

Lemma requestPlayAgain_throw sid draws r message :
  (Room.requestPlayAgain sid draws r).1.1 = Throw message →
  (Room.requestPlayAgain sid draws r).1.2 = r ∧ (Room.requestPlayAgain sid draws r).2 = [].
Proof.
  unfold Room.requestPlayAgain. case_decide; [done|].
  destruct (Room.getPlayer sid r); [|done]. by destruct (Room.resetForNewGame draws r).
Qed.

Lemma handle_out r e r' :
  (handle e r).1 = Some r' →
  Emits r r' (handle e r).2 ∨
  ∃ sid message,
    (handle e r).2 = [errorMsg sid message] ∧ requester e = Some sid ∧ reports e = true ∧
    (r' = r ∨
     ∃ settings n, e = updateSettings sid settings ∧
                   settings_seekTimeLimit settings = numeric n ∧
                   MIN_SEEK_TIME_LIMIT_S ≤ n ≤ MAX_SEEK_TIME_LIMIT_S ∧
                   r' = Room.set_seekTimeLimit n r).
Proof.
  destruct e; cbn.
  - intros [= <-]. unfold on_joinRoom.
    destruct (reportTo_out socketId (Room.addPlayer socketId draws r) r) as [?|[m Hm]];
      [apply addPlayer_throw|apply addPlayer_emits|by left|].
    right. exists socketId, m. rewrite Hm. auto.
  - unfold handleDisconnect, findRoomBySocketId.
    destruct (Room.getPlayer socketId r).
    + pose proof (removePlayer_emits socketId r) as Hem.
      destruct (Room.removePlayer socketId r) as [[[] r1] out]; [done|].
      intros [= <-]. by left.
    + intros [= <-]. left. emits_quiet.
  - intros [= <-]. unfold on_updateSettings, findRoomBySocketId.
    destruct (Room.getPlayer socketId r) as [p|] eqn:Hget; [rewrite Hget|].
    2: { right. exists socketId. eexists. cbn. auto. }
    case_decide. { right. exists socketId. eexists. cbn. auto. }
    case_decide. { right. exists socketId. eexists. cbn. auto. }
    pose proof (updateSettings_emits settings r) as Hem.
    pose proof (updateSettings_throw settings r) as Hthrow.
    destruct (Room.updateSettings settings r) as [[[a|m] r1] out]; cbn in *; [by left|].
    destruct (Hthrow m r1 out eq_refl) as (-> & _ & Hr1).
    right. exists socketId, m. repeat split; try done.
    destruct Hr1 as [->|(n & ? & ? & ->)]; [by left|]. right. by exists settings, n.
  - intros [= <-]. unfold on_startHiding, findRoomBySocketId.
    destruct (Room.getPlayer socketId r) as [p|] eqn:Hget; [rewrite Hget|].
    2: { right. exists socketId. eexists. cbn. auto. }
    case_decide. { right. exists socketId. eexists. cbn. auto. }
    destruct (reportTo_out socketId (Room.startHidingPhase r) r) as [?|[m Hm]];
      [apply startHidingPhase_throw|apply startHidingPhase_emits|by left|].
    right. exists socketId, m. rewrite Hm. auto.
  - intros [= <-]. unfold on_confirmHidden, findRoomBySocketId.
    destruct (Room.getPlayer socketId r); [|left; emits_quiet].
    pose proof (confirmPlayerHidden_emits socketId r) as Hem.
    destruct (Room.confirmPlayerHidden socketId r) as [[? ?] ?]. by left.
  - intros [= <-]. unfold on_markSelfFound, findRoomBySocketId.
    destruct (Room.getPlayer socketId r); [|left; emits_quiet].
    pose proof (markPlayerFound_emits socketId r) as Hem.
    destruct (Room.markPlayerFound socketId r) as [[? ?] ?]. by left.
  - intros [= <-]. unfold on_requestPlayAgain, findRoomBySocketId.
    destruct (Room.getPlayer socketId r).
    2: { right. exists socketId. eexists. cbn. auto. }
    destruct (reportTo_out socketId (Room.requestPlayAgain socketId draws r) r) as [?|[m Hm]];
      [apply requestPlayAgain_throw|apply requestPlayAgain_emits|by left|].
    right. exists socketId, m. rewrite Hm. auto.
  - intros [= <-]. left. apply preSeekCountdownTick_emits.
  - intros [= <-]. left. apply seekTimerTick_emits.
  - intros [= <-]. left. apply scheduleNextSound_emits.
Qed.

Lemma removePlayer_last sid r :
  (Room.removePlayer sid r).1.1 = true ↔
  is_Some (Room.getPlayer sid r) ∧ Room.deletePlayer sid (Room.players r) = [].
Proof.
  unfold Room.removePlayer.
  destruct (Room.getPlayer sid r) as [p|] eqn:Hget; [|split; [done|by intros [[] _]]].
  cbv zeta. set (r0 := Room.set_players _ _).
  unfold Room.isEmpty. change (Room.players r0) with (Room.deletePlayer sid (Room.players r)).
  destruct (Room.deletePlayer sid (Room.players r)) as [|q l] eqn:Hdel.
  { split; [by eauto|done]. }
  split; [|by intros [_ ?]]. intros Htrue. exfalso. revert Htrue.
  case_decide; [done|].
  case_bool_decide.
  { destruct (_ && _); [|done]. by destruct (Room.startPreSeekCountdown r0). }
  case_bool_decide.
  { case_bool_decide; [by destruct (Room.endGame _ r0)|].
    by destruct (Room.checkSeekerWin r0) as [[[] ?] ?]. }
  case_bool_decide; [|done]. case_bool_decide; [|done].
  by destruct (Room.activateNextUnfoundPlayer _).
Qed.

Lemma removePlayer_last_out sid r :
  (Room.removePlayer sid r).1.1 = true → (Room.removePlayer sid r).2 = [].
Proof.
  intros Htrue. pose proof (proj1 (removePlayer_last sid r) Htrue) as [[p Hget] Hdel].
  unfold Room.removePlayer. rewrite Hget. cbv zeta.
  unfold Room.isEmpty. cbn [Room.players Room.set_players Room.set_assignedAnimalSounds
    Room.set_assignedUnfoundSounds]. by rewrite Hdel.
Qed.

Lemma handle_deleted r e :
  (handle e r).1 = None →
  (handle e r).2 = [] ∧
  ∃ sid, e = leaveRoom sid ∧ is_Some (Room.getPlayer sid r) ∧
         Room.deletePlayer sid (Room.players r) = [].
Proof.
  destruct e; cbn; try done.
  unfold handleDisconnect, findRoomBySocketId.
  destruct (Room.getPlayer socketId r) as [p|] eqn:Hget; [|done].
  pose proof (removePlayer_last socketId r) as Hlast.
  pose proof (removePlayer_last_out socketId r) as Hout.
  destruct (Room.removePlayer socketId r) as [[[] r1] out]; [|done].
  intros _. cbn in *. split; [by apply Hout|].
  exists socketId. split; [done|]. by apply Hlast.
Qed.

(** ** The reveal line *)

Section Sorted.
Context {A : Type}.
Implicit Types (R : A → A → Prop) (l k : list A).

Lemma StronglySorted_sublist' R l k :
  k `sublist_of` l → StronglySorted R l → StronglySorted R k.
Proof.
  intros Hsub Hl. revert k Hsub. induction Hl as [|x l Hl IH Hx]; intros k Hsub.
  - apply sublist_nil_r in Hsub as ->. constructor.
  - apply sublist_cons_r in Hsub as [Hsub|(k' & -> & Hsub)]; [by apply IH|].
    constructor; [by apply IH|].
    apply Forall_forall. intros y Hy. eapply Forall_forall in Hx; [exact Hx|].
    by eapply elem_of_sublist.
Qed.

Lemma StronglySorted_impl' R R' l :
  (∀ x y, x ∈ l → y ∈ l → R x y → R' x y) → StronglySorted R l → StronglySorted R' l.
Proof.
  intros Himpl Hl. induction Hl as [|x l Hl IH Hx]; constructor.
  - apply IH. intros y z Hy Hz. apply Himpl; by right.
  - apply Forall_forall. intros y Hy. apply Himpl; [left|by right|].
    by eapply Forall_forall in Hx.
Qed.
End Sorted.

Lemma spliceFirst_keeps x y queue : y ∈ queue → y ≠ x → y ∈ Room.spliceFirst x queue.
Proof.
  unfold Room.spliceFirst. induction queue as [|z queue IH]; [done|].
  intros [->|Hin]%elem_of_cons Hne.
  - rewrite decide_False by done. left.
  - case_decide; [done|]. right. by apply IH.
Qed.

(** With its head present and equipped with a sound, the queue becomes the
    line: the head is activated, the rest waits. *)
Lemma activateNextFrom_line queue r :
  Room.unfoundPlayerQueue r = queue →
  (∀ x, head queue = Some x →
        ∃ p, Room.getPlayer x r = Some p ∧ is_Some (Player.uniqueUnfoundSoundURL p)) →
  revealLine (Room.activateNextFrom queue r).1 = queue.
Proof.
  destruct queue as [|x rest]; intros Hq Hhead.
  { unfold revealLine. cbn. by rewrite Hq. }
  destruct (Hhead x eq_refl) as (p & Hget & [url Hurl]).
  cbn [Room.activateNextFrom]. cbv zeta.
  change (Room.getPlayer x (Room.set_activeUnfoundPlayerId (Some x) _))
    with (Room.getPlayer x r).
  by rewrite Hget, Hurl.
Qed.

Lemma sorted_ids_numberOrder r (l : list Player.t) :
  NoDup (Player.id <$> Room.players r) → (∀ p, p ∈ l → p ∈ Room.players r) →
  StronglySorted byNumber l → StronglySorted (numberOrder r) (Player.id <$> l).
Proof.
  intros Hnd Hin Hl. induction Hl as [|x l Hl IH Hx]; [constructor|].
  rewrite fmap_cons. constructor.
  - apply IH. intros p Hp. apply Hin. by right.
  - apply Forall_fmap, Forall_forall. intros y Hy p q Hp Hq Hidp Hidq. cbn in *.
    rewrite (ids_inj _ p x Hnd Hp) by (done || apply Hin; left).
    rewrite (ids_inj _ q y Hnd Hq) by (done || apply Hin; by right).
    by eapply Forall_forall in Hx.
Qed.

Lemma endGame_hider_complete r :
  CoreInv r → Forall hasSounds (Room.players r) →
  Room.gameState r ≠ GAME_STATE.GAME_OVER →
  revealComplete (Room.endGame WINNER_TYPE.HIDER r).1.
Proof.
  intros Hcore Hso Hgs _. unfold Room.endGame. rewrite decide_False by done. cbv zeta.
  set (r1 := Room.set_winner _ _).
  unfold Room.startGameOverReveal. rewrite decide_False by (intros H; by apply H). cbv zeta.
  set (queue := Player.id <$> _). set (r2 := Room.set_unfoundPlayerQueue queue r1).
  unfold Room.activateNextUnfoundPlayer. rewrite decide_False by (intros H; by apply H).
  change (Room.unfoundPlayerQueue r2) with queue.
  destruct (revealFrame_fields _ _ (activateNextFrom_frame queue r2)) as (Hps & _).
  change (Room.players r2) with (Room.players r) in Hps.
  assert (revealLine (Room.activateNextFrom queue r2).1 = queue) as Hline.
  { apply activateNextFrom_line; [done|]. intros x Hx%head_Some_elem_of.
    apply list_elem_of_fmap in Hx as (p & -> & Hp).
    apply elem_of_sortByNumber, list_elem_of_filter in Hp as [_ Hp].
    exists p. split; [by apply lookupPlayer_elem; [apply Hcore|]|].
    rewrite Forall_forall in Hso. destruct (Hso p Hp) as (_ & u & _ & _ & -> & _). done. }
  rewrite Hline. split.
  - rewrite Hps. intros p Hp Hf. apply list_elem_of_fmap_2, elem_of_sortByNumber.
    by apply list_elem_of_filter.
  - eapply StronglySorted_impl'; [|apply (sorted_ids_numberOrder r)].
    + intros x y _ _ Hxy p q. rewrite Hps. apply Hxy.
    + apply Hcore.
    + intros p Hp. by apply elem_of_sortByNumber, list_elem_of_filter in Hp as [_ ?].
    + apply sortByNumber_sorted.
Qed.

(** A room whose line is part of the old line, whose players come from the
    old players, and that leaves out nobody who is not found. *)
Lemma revealComplete_sub r r' :
  revealComplete r → inReveal r →
  revealLine r' `sublist_of` revealLine r →
  (∀ p', p' ∈ Room.players r' →
         ∃ p, p ∈ Room.players r ∧ Player.id p = Player.id p' ∧
              Player.number p = Player.number p') →
  (∀ p', p' ∈ Room.players r' → Player.isFound p' = false → Player.id p' ∈ revealLine r') →
  revealComplete r'.
Proof.
  intros Hc Hin Hsub Hps Hall _. destruct (Hc Hin) as [_ Hsorted]. split; [done|].
  eapply StronglySorted_impl'; [|by eapply StronglySorted_sublist'].
  intros x y _ _ Hxy p' q' Hp' Hq' Hidp Hidq.
  destruct (Hps p' Hp') as (p & Hp & Hip & <-).
  destruct (Hps q' Hq') as (q & Hq & Hiq & <-).
  apply Hxy; congruence.
Qed.

Lemma revealComplete_off r : ¬ inReveal r → revealComplete r.
Proof. by intros Hno Hin. Qed.

Lemma queue_head_ready (ps : list Player.t) (queue : list string) :
  (∀ x, x ∈ queue → ∃ p, p ∈ ps ∧ Player.id p = x) →
  NoDup (Player.id <$> ps) → Forall hasSounds ps →
  ∀ x, head queue = Some x →
       ∃ p, Room.lookupPlayer x ps = Some p ∧ is_Some (Player.uniqueUnfoundSoundURL p).
Proof.
  intros Hpresent Hnd Hso x Hx%head_Some_elem_of.
  destruct (Hpresent x Hx) as (p & Hp & <-). exists p.
  split; [by apply lookupPlayer_elem|].
  rewrite Forall_forall in Hso. destruct (Hso p Hp) as (_ & u & _ & _ & -> & _). done.
Qed.

Lemma markPlayerFound_complete sid r :
  RoomInv r → PhaseInv r → revealComplete r →
  revealComplete (Room.markPlayerFound sid r).1.2.
Proof.
  intros [Hcore Hrev] Hph Hc. unfold Room.markPlayerFound.
  destruct (Room.getPlayer sid r) as [p0|] eqn:Hget; [|done].
  destruct (Player.isFound p0) eqn:Hfound; [done|].
  case_bool_decide as Hstate; [done|].
  pose proof Hget as [Hp0 Hid0]%lookupPlayer_Some.
  set (r1 := Room.set_players _ r).
  case_decide as Hseek.
  { apply revealComplete_off. intros [Hgo Hw]. revert Hgo Hw.
    unfold Room.checkSeekerWin. rewrite decide_False by (intros H; by apply H).
    destruct (forallb _ _); [|cbn in *; congruence].
    destruct (endGame_ends WINNER_TYPE.SEEKERS r1) as (_ & Hw' & _); [congruence|].
    destruct (Room.endGame _ r1). cbn in *. congruence. }
  cbn in Hseek.
  assert (inReveal r) as Hin.
  { unfold inReveal. apply dec_stable. intros Hno. apply Hstate. by split. }
  rewrite decide_True by apply Hin.
  reveal_destruct Hrev.
  assert (∀ p', p' ∈ Room.players r1 →
            ∃ p, p ∈ Room.players r ∧ Player.id p = Player.id p' ∧
                 Player.number p = Player.number p' ∧
                 (Player.id p ≠ sid → p' = p) ∧
                 (Player.id p = sid → Player.isFound p' = true)) as Hps.
  { intros p' (p & Hp & ->)%elem_of_updatePlayer. exists p. by case_decide. }
  destruct (Hc Hin) as [Hall _].
  case_decide as Hact0.
  - unfold Room.activateNextUnfoundPlayer. rewrite decide_False by (intros H; by apply H, Hin).
    match goal with |- revealComplete (let '(_, _) := ?x in _).1.2 =>
      assert (revealComplete x.1) as Hres; [|by destruct x] end.
    assert (revealLine (Room.activateNextFrom (Room.unfoundPlayerQueue r1) r1).1 =
            Room.unfoundPlayerQueue r) as Hline.
    { apply activateNextFrom_line; [done|].
      apply (queue_head_ready (Room.players r1)).
      - intros x (p & Hp & <-)%Hqp.
        exists (if decide (Player.id p = sid) then Player.set_isFound true p else p).
        split; [apply elem_of_updatePlayer; by exists p | by case_decide].
      - cbn. rewrite updatePlayer_ids; [apply Hcore|done].
      - apply Forall_updatePlayer; [apply Hph|done]. }
    destruct (revealFrame_fields _ _ (activateNextFrom_frame (Room.unfoundPlayerQueue r1) r1))
      as (Hps' & _).
    apply (revealComplete_sub r); try done.
    + rewrite Hline. unfold revealLine. cbn in Hact0. rewrite <- Hact0. cbn.
      by apply sublist_cons.
    + rewrite Hps'. intros p' Hp'. destruct (Hps p' Hp') as (p & ? & ? & ? & _). eauto.
    + rewrite Hps', Hline. intros p' Hp' Hf'.
      destruct (Hps p' Hp') as (p & Hp & Hidp & _ & Hsame & Hsid).
      destruct (decide (Player.id p = sid)) as [Heq|Hne]; [rewrite Hsid in Hf'; done|].
      rewrite (Hsame Hne) in *. specialize (Hall p Hp Hf').
      unfold revealLine in Hall. cbn in Hact0. rewrite <- Hact0 in Hall. cbn in Hall.
      apply elem_of_cons in Hall as [|]; done.
  - cbn. apply (revealComplete_sub r); try done.
    + unfold revealLine. cbn. apply sublist_app; [done|apply spliceFirst_sublist].
    + cbn. intros p' Hp'. destruct (Hps p' Hp') as (p & ? & ? & ? & _). eauto.
    + cbn. intros p' Hp' Hf'.
      destruct (Hps p' Hp') as (p & Hp & Hidp & _ & Hsame & Hsid).
      destruct (decide (Player.id p = sid)) as [Heq|Hne]; [rewrite Hsid in Hf'; done|].
      rewrite (Hsame Hne) in *. specialize (Hall p Hp Hf').
      unfold revealLine in *. cbn. apply elem_of_app in Hall as [Ha|Hq'];
        apply elem_of_app; [by left|right]. by apply spliceFirst_keeps.
Qed.

Lemma removePlayer_complete sid r r' out :
  RoomInv r → PhaseInv r → revealComplete r →
  Room.removePlayer sid r = (false, r', out) → revealComplete r'.
Proof.
  intros [Hcore Hrev] Hph Hc. unfold Room.removePlayer.
  destruct (Room.getPlayer sid r) as [p0|] eqn:Hget; [|by intros [= <- _]].
  pose proof Hget as [Hp0 Hid0]%lookupPlayer_Some. cbv zeta.
  set (r0 := Room.set_players _ _).
  destruct (Room.isEmpty r0) eqn:Hempty; [done|].
  case_decide as Hw.
  { intros [= <- _]. apply revealComplete_off. intros [Hgo _]. revert Hgo. cbn in Hw.
    case_bool_decide; [|cbn; congruence].
    unfold Room._promoteNewHider. destruct (Room.sortByNumber _); cbn; congruence. }
  case_bool_decide as Hh.
  { unfold Room.startPreSeekCountdown.
    destruct (_ && _); [destruct (Room.preSeekCountdownInterval r0)|];
      intros [= <- _]; apply revealComplete_off; intros [Hgo _]; cbn in Hgo; congruence. }
  case_bool_decide as Hs.
  { case_bool_decide as Hrole.
    - destruct (endGame_ends WINNER_TYPE.SEEKERS r0) as (_ & Hw' & _); [cbn; congruence|].
      destruct (Room.endGame _ r0). intros [= <- _].
      apply revealComplete_off. intros [_ ?]. cbn in *. congruence.
    - unfold Room.checkSeekerWin. rewrite decide_False by (intros Hx; by apply Hx).
      destruct (forallb _ _).
      + destruct (endGame_ends WINNER_TYPE.SEEKERS r0) as (_ & Hw' & _); [cbn; congruence|].
        destruct (Room.endGame _ r0). intros [= <- _].
        apply revealComplete_off. intros [_ ?]. cbn in *. congruence.
      + intros [= <- _]. apply revealComplete_off. intros [? _]. cbn in *. congruence. }
  case_bool_decide as Hin.
  2: { intros [= <- _]. apply revealComplete_off. intros [? ?]. by apply Hin. }
  reveal_destruct Hrev.
  set (r1 := Room.set_unfoundPlayerQueue _ r0).
  assert (∀ p', p' ∈ Room.players r1 →
            p' ∈ Room.players r ∧ Player.id p' ≠ sid) as Hps.
  { intros p'. cbn. apply elem_of_deletePlayer. }
  destruct (Hc Hin) as [Hall _].
  assert (∀ p', p' ∈ Room.players r1 → Player.isFound p' = false →
            Player.id p' ∈ Room.spliceFirst sid (Room.unfoundPlayerQueue r) ∨
            (Room.activeUnfoundPlayerId r = Some (Player.id p') ∧
             Room.activeUnfoundPlayerId r ≠ Some sid)) as Hall1.
  { intros p' [Hp' Hne]%Hps Hf'. specialize (Hall p' Hp' Hf').
    apply elem_of_app in Hall as [Ha|Hq'].
    - right. destruct (Room.activeUnfoundPlayerId r) as [a|]; [|by apply elem_of_nil in Ha].
      apply list_elem_of_singleton in Ha as <-. split; [done|congruence].
    - left. by apply spliceFirst_keeps. }
  case_bool_decide as Hact0.
  - unfold Room.activateNextUnfoundPlayer.
    rewrite decide_False by (intros H; by apply H, Hin).
    match goal with |- (let '(_, _) := ?x in _) = _ → _ =>
      assert (revealComplete x.1) as Hres; [|destruct x; by intros [= <- _]] end.
    assert (revealLine (Room.activateNextFrom (Room.unfoundPlayerQueue r1) r1).1 =
            Room.spliceFirst sid (Room.unfoundPlayerQueue r)) as Hline.
    { apply activateNextFrom_line; [done|].
      apply (queue_head_ready (Room.players r1)).
      - intros x Hx. destruct (Hqp x (spliceFirst_elem _ _ _ Hx)) as (q & Hq' & <-).
        exists q. split; [|done]. apply elem_of_deletePlayer. split; [done|].
        intros Heq. rewrite Heq in Hx.
        by apply (spliceFirst_gone sid (Room.unfoundPlayerQueue r)).
      - cbn. apply deletePlayer_ids_NoDup, Hcore.
      - apply Forall_deletePlayer, Hph. }
    destruct (revealFrame_fields _ _ (activateNextFrom_frame (Room.unfoundPlayerQueue r1) r1))
      as (Hps' & _).
    apply (revealComplete_sub r); try done.
    + rewrite Hline. unfold revealLine. apply sublist_inserts_l, spliceFirst_sublist.
    + rewrite Hps'. intros p' [Hp' _]%Hps. eauto.
    + rewrite Hps', Hline. intros p' Hp' Hf'.
      destruct (Hall1 p' Hp' Hf') as [|[_ Hne]]; [done|]. by rewrite Hact0 in Hne.
  - intros [= <- _]. apply (revealComplete_sub r); try done.
    + unfold revealLine. cbn. apply sublist_app; [done|apply spliceFirst_sublist].
    + intros p' [Hp' _]%Hps. eauto.
    + intros p' Hp' Hf'. unfold revealLine. cbn. apply elem_of_app.
      destruct (Hall1 p' Hp' Hf') as [|[-> _]]; [by right|left]. cbn. left.
Qed.

Lemma createRoom_complete roomCode sid draws : revealComplete (createRoom roomCode sid draws).
Proof. apply revealComplete_off. rewrite createRoom_eq. by intros []. Qed.

Lemma step_complete r e r' :
  RoomInv r → PhaseInv r → revealComplete r → step r e r' → revealComplete r'.
Proof.
  intros Hinv Hph Hc Hstep. pose proof Hinv as [Hcore Hrev].
  pose proof (step_phase_cycle r e r' Hcore Hstep) as Hcycle.
  destruct Hstep as [Harmed Hstep].
  destruct (decide (Room.gameState r = GAME_STATE.GAME_OVER)) as [Hgo|Hgo].
  - destruct e; cbn in Harmed, Hstep.
    + injection Hstep as <-. unfold on_joinRoom. rewrite reportTo_room.
      unfold Room.addPlayer. rewrite decide_True by congruence. done.
    + unfold handleDisconnect, findRoomBySocketId in Hstep.
      destruct (Room.getPlayer socketId r); [|by injection Hstep as <-].
      destruct (Room.removePlayer socketId r) as [[[] r1] out] eqn:Hrm; [done|].
      injection Hstep as <-. by eapply removePlayer_complete.
    + injection Hstep as <-. unfold on_updateSettings, findRoomBySocketId.
      rewrite reportTo_room.
      destruct (Room.getPlayer socketId r) as [p|] eqn:Hget; [|done].
      rewrite Hget. case_decide; [done|]. rewrite decide_True by congruence. done.
    + injection Hstep as <-. unfold on_startHiding, findRoomBySocketId.
      rewrite reportTo_room.
      destruct (Room.getPlayer socketId r) as [p|] eqn:Hget; [|done].
      rewrite Hget. case_decide; [done|].
      unfold Room.startHidingPhase. rewrite decide_True by congruence. done.
    + injection Hstep as <-. unfold on_confirmHidden, findRoomBySocketId.
      rewrite logOnly_room.
      destruct (Room.getPlayer socketId r) as [p|] eqn:Hget; [|done].
      unfold Room.confirmPlayerHidden. rewrite Hget, decide_True by congruence. done.
    + injection Hstep as <-. unfold on_markSelfFound, findRoomBySocketId.
      rewrite logOnly_room.
      destruct (Room.getPlayer socketId r); [|done]. by apply markPlayerFound_complete.
    + injection Hstep as <-. unfold on_requestPlayAgain, findRoomBySocketId.
      rewrite reportTo_room.
      destruct (Room.getPlayer socketId r) as [p|] eqn:Hget; [|done].
      unfold Room.requestPlayAgain. rewrite decide_False by (intros Hx; by apply Hx).
      rewrite Hget. pose proof (resetForNewGame_state draws r) as Hs.
      destruct (Room.resetForNewGame draws r). apply revealComplete_off.
      intros [? _]. cbn in *. congruence.
    + pose proof (inv_countdown r Hcore Harmed). congruence.
    + pose proof (inv_seekTimer r Hcore Harmed). congruence.
    + apply bool_decide_eq_true in Harmed.
      pose proof (inv_soundTimer r Hcore Harmed). congruence.
  - destruct e; cbn in Harmed, Hstep;
      try (apply revealComplete_off; intros [Hgo' _];
           destruct Hcycle as [Hsame|[Hnext Hadv]];
           [congruence|destruct (Room.gameState r); cbn in *; congruence]).
    + unfold handleDisconnect, findRoomBySocketId in Hstep.
      destruct (Room.getPlayer socketId r); [|by injection Hstep as <-].
      destruct (Room.removePlayer socketId r) as [[[] r1] out] eqn:Hrm; [done|].
      injection Hstep as <-. by eapply removePlayer_complete.
    + injection Hstep as <-. unfold on_markSelfFound, findRoomBySocketId.
      rewrite logOnly_room.
      destruct (Room.getPlayer socketId r); [|done]. by apply markPlayerFound_complete.
    + injection Hstep as <-. unfold Room.seekTimerTick.
      case_decide; [|by apply revealComplete_off; intros [? _]].
      case_decide; [|done]. apply endGame_hider_complete; [done|apply Hph|done].
Qed.

Theorem reachable_complete r : reachable r → revealComplete r.
Proof.
  induction 1 as [code sid draws | r e r' Hr IH Hstep].
  - apply createRoom_complete.
  - eapply step_complete; [by apply reachable_inv|by apply reachable_phase|exact IH|exact Hstep].
Qed.

(** ** Sounds in use *)

Lemma omap_fst_view (ps : list Player.t) :
  omap Player.uniqueAnimalSoundURL ps =
  omap fst ((λ p, (Player.uniqueAnimalSoundURL p, Player.uniqueUnfoundSoundURL p)) <$> ps).
Proof. induction ps as [|p ps IH]; [done|]. cbn. by rewrite IH. Qed.

Lemma omap_snd_view (ps : list Player.t) :
  omap Player.uniqueUnfoundSoundURL ps =
  omap snd ((λ p, (Player.uniqueAnimalSoundURL p, Player.uniqueUnfoundSoundURL p)) <$> ps).
Proof. induction ps as [|p ps IH]; [done|]. cbn. by rewrite IH. Qed.

Lemma distinctSounds_view r r' : soundView r' = soundView r → distinctSounds r → distinctSounds r'.
Proof.
  unfold soundView, distinctSounds. intros [= Hps HA HU].
  rewrite !omap_fst_view, !omap_snd_view, Hps, HA, HU. done.
Qed.

Lemma soundView_map (g : Player.t → Player.t) r r' :
  Room.players r' = g <$> Room.players r →
  (∀ p, Player.uniqueAnimalSoundURL (g p) = Player.uniqueAnimalSoundURL p ∧
        Player.uniqueUnfoundSoundURL (g p) = Player.uniqueUnfoundSoundURL p) →
  Room.assignedAnimalSounds r' = Room.assignedAnimalSounds r →
  Room.assignedUnfoundSounds r' = Room.assignedUnfoundSounds r →
  soundView r' = soundView r.
Proof.
  intros Hps Hg HA HU. unfold soundView. rewrite Hps, HA, HU, <- list_fmap_compose.
  do 2 f_equal. apply list_fmap_ext. intros _ p _. cbn. by destruct (Hg p) as [-> ->].
Qed.

Lemma soundView_update sid f r r' :
  Room.players r' = Room.updatePlayer sid f (Room.players r) →
  (∀ p, Player.uniqueAnimalSoundURL (f p) = Player.uniqueAnimalSoundURL p ∧
        Player.uniqueUnfoundSoundURL (f p) = Player.uniqueUnfoundSoundURL p) →
  Room.assignedAnimalSounds r' = Room.assignedAnimalSounds r →
  Room.assignedUnfoundSounds r' = Room.assignedUnfoundSounds r →
  soundView r' = soundView r.
Proof.
  intros Hps Hf. unfold Room.updatePlayer in Hps.
  eapply soundView_map; [exact Hps|]. intros p. cbn. case_decide; [apply Hf|done].
Qed.

Lemma soundView_revealFrame r r' : revealFrame r r' → soundView r' = soundView r.
Proof. intros ->. by destruct r. Qed.

Lemma endGame_soundView w r : soundView (Room.endGame w r).1 = soundView r.
Proof.
  unfold Room.endGame. case_decide; [done|]. destruct w; cbn; [|done].
  match goal with |- context [Room.startGameOverReveal ?x] =>
    by rewrite (soundView_revealFrame x _ (startGameOverReveal_frame x)) end.
Qed.

Lemma checkSeekerWin_soundView r : soundView (Room.checkSeekerWin r).1.2 = soundView r.
Proof.
  unfold Room.checkSeekerWin. case_decide; [done|]. destruct (forallb _ _); [|done].
  pose proof (endGame_soundView WINNER_TYPE.SEEKERS r). by destruct (Room.endGame _ _).
Qed.

Lemma startSeekingPhase_soundView now r : soundView (Room.startSeekingPhase now r).1 = soundView r.
Proof.
  unfold Room.startSeekingPhase. case_decide; [done|]. rewrite startSeekTimer_eq.
  by apply (soundView_map Player.resetForSeeking).
Qed.

Lemma preSeekCountdownTick_soundView now r :
  soundView (Room.preSeekCountdownTick now r).1 = soundView r.
Proof.
  unfold Room.preSeekCountdownTick. cbv zeta. case_decide; [|done].
  match goal with |- context [Room.startSeekingPhase now ?x] =>
    pose proof (startSeekingPhase_soundView now x) as Hs;
    destruct (Room.startSeekingPhase now x) as [r' out'] end.
  done.
Qed.

Lemma seekTimerTick_soundView now r : soundView (Room.seekTimerTick now r).1 = soundView r.
Proof.
  unfold Room.seekTimerTick. repeat case_decide; try done. apply endGame_soundView.
Qed.

Lemma scheduleNextSound_soundView now r : soundView (Room.scheduleNextSound now r).1 = soundView r.
Proof.
  unfold Room.scheduleNextSound. repeat case_decide; try done.
  destruct (js_index _ _) as [pt|]; cbn; [destruct (Player.uniqueAnimalSoundURL pt); cbn|];
    try done.
  by eapply soundView_update.
Qed.

Lemma updateSettings_soundView settings r :
  soundView (Room.updateSettings settings r).1.2 = soundView r.
Proof.
  unfold Room.updateSettings.
  destruct (parseInt (settings_seekTimeLimit settings)),
           (parseInt (settings_soundPlaysPerPlayer settings));
    repeat first [case_bool_decide | case_decide]; done.
Qed.

Lemma startHidingPhase_soundView r : soundView (Room.startHidingPhase r).1.2 = soundView r.
Proof.
  unfold Room.startHidingPhase. repeat case_decide; try done.
  by apply (soundView_map Player.resetForNewGame).
Qed.

Lemma confirmPlayerHidden_soundView sid r :
  soundView (Room.confirmPlayerHidden sid r).1.2 = soundView r.
Proof.
  unfold Room.confirmPlayerHidden.
  destruct (Room.getPlayer sid r) as [p|]; [|done].
  case_decide; [done|]. destruct (Player.isReady p); [done|].
  set (r1 := Room.set_players _ r).
  assert (soundView r1 = soundView r) as <- by by eapply soundView_update.
  destruct (Room._checkAllRemainingReady r1); [|done].
  unfold Room.startPreSeekCountdown. by destruct (Room.preSeekCountdownInterval r1).
Qed.

Lemma markPlayerFound_soundView sid r :
  soundView (Room.markPlayerFound sid r).1.2 = soundView r.
Proof.
  unfold Room.markPlayerFound.
  destruct (Room.getPlayer sid r) as [p|]; [|done].
  destruct (Player.isFound p); [done|]. case_bool_decide; [done|].
  set (r1 := Room.set_players _ r).
  assert (soundView r1 = soundView r) as <- by by eapply soundView_update.
  repeat case_decide; try done.
  - pose proof (checkSeekerWin_soundView r1).
    destruct (Room.checkSeekerWin r1) as [[[] ?] ?]; done.
  - pose proof (soundView_revealFrame _ _ (activateNextUnfoundPlayer_frame r1)).
    by destruct (Room.activateNextUnfoundPlayer r1).
Qed.

(** After a departure the sounds are those of the room right after the
    [delete]. *)
Lemma removePlayer_soundView sid r r' out p :
  Room.getPlayer sid r = Some p →
  Room.removePlayer sid r = (false, r', out) →
  soundView r' =
  soundView
    (Room.set_players (Room.deletePlayer sid (Room.players r))
       (Room.set_assignedUnfoundSounds
          (Room.deleteSound (Player.uniqueUnfoundSoundURL p) (Room.assignedUnfoundSounds r))
          (Room.set_assignedAnimalSounds
             (Room.deleteSound (Player.uniqueAnimalSoundURL p) (Room.assignedAnimalSounds r))
             r))).
Proof.
  intros Hget. unfold Room.removePlayer. rewrite Hget. cbv zeta.
  set (r0 := Room.set_players _ _).
  destruct (Room.isEmpty r0); [done|].
  case_decide as Hw.
  { intros [= <- _]. case_bool_decide; [|done].
    unfold Room._promoteNewHider. destruct (Room.sortByNumber _); [done|].
    by eapply soundView_update. }
  case_bool_decide.
  { unfold Room.startPreSeekCountdown.
    destruct (_ && _); [destruct (Room.preSeekCountdownInterval r0)|]; by intros [= <- _]. }
  case_bool_decide.
  { case_bool_decide.
    - pose proof (endGame_soundView WINNER_TYPE.SEEKERS r0).
      destruct (Room.endGame _ r0). by intros [= <- _].
    - pose proof (checkSeekerWin_soundView r0).
      destruct (Room.checkSeekerWin r0) as [[[] ?] ?]; by intros [= <- _]. }
  case_bool_decide; [|by intros [= <- _]].
  case_bool_decide; [|by intros [= <- _]].
  match goal with |- context [Room.activateNextUnfoundPlayer ?x] =>
    pose proof (soundView_revealFrame _ _ (activateNextUnfoundPlayer_frame x));
    destruct (Room.activateNextUnfoundPlayer x) end.
  by intros [= <- _].
Qed.

Section SoundSets.
Implicit Types (f : Player.t → option string) (ps : list Player.t).

Lemma elem_of_omap_players f ps x : x ∈ omap f ps ↔ ∃ q, q ∈ ps ∧ f q = Some x.
Proof. apply list_elem_of_omap. Qed.

Lemma omap_sublist_players f ps ps' : ps' `sublist_of` ps → omap f ps' `sublist_of` omap f ps.
Proof.
  induction 1 as [|q l k _ IH|q l k _ IH]; cbn; [done|..].
  - destruct (f q); [by apply sublist_skip|done].
  - destruct (f q); [by apply sublist_cons|done].
Qed.

Lemma omap_NoDup_inj f ps p q x :
  NoDup (omap f ps) → p ∈ ps → q ∈ ps → f p = Some x → f q = Some x → p = q.
Proof.
  induction ps as [|y ps IH]; intros Hnd Hp Hq Hfp Hfq; [by apply not_elem_of_nil in Hp|].
  cbn in Hnd. apply elem_of_cons in Hp as [->|Hp], Hq as [->|Hq]; try done.
  - rewrite Hfp in Hnd. apply NoDup_cons in Hnd as [Hx _]. exfalso. apply Hx.
    apply elem_of_omap_players. eauto.
  - rewrite Hfq in Hnd. apply NoDup_cons in Hnd as [Hx _]. exfalso. apply Hx.
    apply elem_of_omap_players. eauto.
  - apply IH; try done. destruct (f y); [by apply NoDup_cons in Hnd as [_ ?]|done].
Qed.

Lemma deleteSound_deletePlayer f ps p :
  NoDup (Player.id <$> ps) → NoDup (omap f ps) → p ∈ ps →
  Room.deleteSound (f p) (list_to_set (omap f ps)) =
  list_to_set (omap f (Room.deletePlayer (Player.id p) ps)).
Proof.
  intros Hids Hnd Hp. apply set_eq. intros x.
  rewrite elem_of_list_to_set, elem_of_omap_players.
  assert (x ∈ Room.deleteSound (f p) (list_to_set (omap f ps)) ↔
          (∃ q, q ∈ ps ∧ f q = Some x) ∧ f p ≠ Some x) as ->.
  { unfold Room.deleteSound. destruct (f p) as [a|].
    - rewrite elem_of_difference, elem_of_list_to_set, elem_of_omap_players, elem_of_singleton.
      split; intros [? Hne]; (split; [done|]); congruence.
    - rewrite elem_of_list_to_set, elem_of_omap_players. split; [by intros ?|by intros [? _]]. }
  split.
  - intros [(q & Hq & Hfq) Hne]. exists q. split; [|done].
    apply elem_of_deletePlayer. split; [done|]. intros Hid.
    apply Hne. by rewrite <- (ids_inj ps q p Hids Hq Hp Hid).
  - intros (q & [Hq Hid]%elem_of_deletePlayer & Hfq). split; [by exists q|].
    intros Hfp. apply Hid. by rewrite (omap_NoDup_inj f ps p q x Hnd Hp Hq Hfp Hfq).
Qed.
End SoundSets.

Lemma deleted_distinct sid r p :
  NoDup (Player.id <$> Room.players r) → distinctSounds r →
  Room.getPlayer sid r = Some p →
  distinctSounds
    (Room.set_players (Room.deletePlayer sid (Room.players r))
       (Room.set_assignedUnfoundSounds
          (Room.deleteSound (Player.uniqueUnfoundSoundURL p) (Room.assignedUnfoundSounds r))
          (Room.set_assignedAnimalSounds
             (Room.deleteSound (Player.uniqueAnimalSoundURL p) (Room.assignedAnimalSounds r))
             r))).
Proof.
  intros Hids (HA & HU & HsA & HsU) [Hp <-]%lookupPlayer_Some.
  unfold distinctSounds. cbn. rewrite HsA, HsU.
  rewrite !deleteSound_deletePlayer by done.
  repeat split; try done.
  - eapply sublist_NoDup; [exact HA|]. apply omap_sublist_players, sublist_filter.
  - eapply sublist_NoDup; [exact HU|]. apply omap_sublist_players, sublist_filter.
Qed.

Lemma size_assigned (f : Player.t → option string) (ps : list Player.t) :
  NoDup (omap f ps) → (size (list_to_set (C := gset string) (omap f ps)) ≤ length ps)%nat.
Proof.
  intros Hnd. rewrite size_list_to_set by done.
  clear Hnd. induction ps as [|p ps IH]; cbn; [done|]. destruct (f p); cbn; lia.
Qed.

Lemma addPlayer_distinct sid draws r :
  distinctSounds r →
  Z.of_nat (length (Room.players (Room.addPlayer sid draws r).1.2)) ≤ NUM_UNIQUE_SOUND_PAIRS →
  distinctSounds (Room.addPlayer sid draws r).1.2.
Proof.
  intros (HA & HU & HsA & HsU). unfold Room.addPlayer.
  case_decide as Hgs; [done|]. case_bool_decide as Hin; [done|].
  rewrite _assignUniqueSounds_eq. cbv zeta. cbn [fst snd].
  cbn [Room.players Room.set_players]. rewrite length_app, NUM_UNIQUE_SOUND_PAIRS_eq. cbn.
  intros Hlen.
  set (n := Z.of_nat (length (Room.players r)) + 1).
  destruct (pickSound_free BASE_ANIMAL_SOUNDS (Room.assignedAnimalSounds r) draws.1 n)
    as (a & Ha & _ & Hafree).
  { apply pool_has_free; [apply BASE_ANIMAL_SOUNDS_NoDup|].
    rewrite HsA. pose proof (size_assigned Player.uniqueAnimalSoundURL _ HA). cbn. lia. }
  destruct (pickSound_free BASE_UNFOUND_SOUNDS (Room.assignedUnfoundSounds r) draws.2 n)
    as (u & Hu & _ & Hufree).
  { apply pool_has_free; [apply BASE_UNFOUND_SOUNDS_NoDup|].
    rewrite HsU. pose proof (size_assigned Player.uniqueUnfoundSoundURL _ HU). cbn. lia. }
  unfold distinctSounds. cbn. fold n. rewrite Ha, Hu, !omap_app. cbn.
  rewrite HsA in Hafree. rewrite HsU in Hufree.
  rewrite elem_of_list_to_set in Hafree, Hufree.
  repeat split.
  - apply NoDup_app. split; [done|]. split; [|apply NoDup_singleton].
    by intros x Hx ->%list_elem_of_singleton.
  - apply NoDup_app. split; [done|]. split; [|apply NoDup_singleton].
    by intros x Hx ->%list_elem_of_singleton.
  - rewrite HsA, list_to_set_app_L. cbn. set_solver.
  - rewrite HsU, list_to_set_app_L. cbn. set_solver.
Qed.

Lemma resetForNewGame_distinct draws r :
  Z.of_nat (length (Room.players r)) ≤ NUM_UNIQUE_SOUND_PAIRS →
  distinctSounds (Room.resetForNewGame draws r).1.
Proof.
  intros Hfew. rewrite NUM_UNIQUE_SOUND_PAIRS_eq in Hfew.
  rewrite resetForNewGame_eq. cbv zeta. cbn [fst].
  match goal with |- context [Room.reassignAll draws ?ps ?x] =>
    destruct (reassignAll_spec draws ps x) as [_ H2];
    pose proof (reassignAll_fresh draws ps x) as Hfresh;
    destruct (Room.reassignAll draws ps x) as [ps' r1] end.
  cbn [fst snd] in *. subst r1.
  destruct Hfresh as (? & ? & _); cbn; rewrite ?size_empty; cbn; [lia..|].
  unfold distinctSounds. cbn. repeat split; try done; set_solver.
Qed.

Lemma createRoom_distinct roomCode sid draws : distinctSounds (createRoom roomCode sid draws).
Proof.
  unfold createRoom. apply addPlayer_distinct.
  - unfold distinctSounds. cbn. repeat split; try constructor; done.
  - fold (createRoom roomCode sid draws). by rewrite createRoom_eq.
Qed.

Lemma step_distinct r e r' :
  CoreInv r → distinctSounds r → step r e r' →
  Z.of_nat (length (Room.players r')) ≤ NUM_UNIQUE_SOUND_PAIRS →
  distinctSounds r'.
Proof.
  intros Hcore Hd [Harmed Hstep].
  destruct e; cbn in Harmed, Hstep.
  - injection Hstep as <-. unfold on_joinRoom. rewrite reportTo_room.
    by apply addPlayer_distinct.
  - unfold handleDisconnect, findRoomBySocketId in Hstep.
    destruct (Room.getPlayer socketId r) as [p|] eqn:Hget; [|by injection Hstep as <-].
    destruct (Room.removePlayer socketId r) as [[[] r1] out] eqn:Hrm; [done|].
    injection Hstep as <-. intros _.
    eapply distinctSounds_view; [by eapply removePlayer_soundView|].
    apply deleted_distinct; [apply Hcore|done..].
  - injection Hstep as <-. intros _. unfold on_updateSettings, findRoomBySocketId.
    rewrite reportTo_room.
    destruct (Room.getPlayer socketId r) as [p|] eqn:Hget; [|done].
    rewrite Hget. repeat case_decide; try done.
    eapply distinctSounds_view; [apply updateSettings_soundView|done].
  - injection Hstep as <-. intros _. unfold on_startHiding, findRoomBySocketId.
    rewrite reportTo_room.
    destruct (Room.getPlayer socketId r) as [p|] eqn:Hget; [|done].
    rewrite Hget. case_decide; [done|].
    eapply distinctSounds_view; [apply startHidingPhase_soundView|done].
  - injection Hstep as <-. intros _. unfold on_confirmHidden, findRoomBySocketId.
    rewrite logOnly_room.
    destruct (Room.getPlayer socketId r); [|done].
    eapply distinctSounds_view; [apply confirmPlayerHidden_soundView|done].
  - injection Hstep as <-. intros _. unfold on_markSelfFound, findRoomBySocketId.
    rewrite logOnly_room.
    destruct (Room.getPlayer socketId r); [|done].
    eapply distinctSounds_view; [apply markPlayerFound_soundView|done].
  - injection Hstep as <-. unfold on_requestPlayAgain, findRoomBySocketId.
    rewrite reportTo_room.
    destruct (Room.getPlayer socketId r) as [p|] eqn:Hget; [|done].
    unfold Room.requestPlayAgain. case_decide; [done|]. rewrite Hget.
    pose proof (resetForNewGame_distinct draws r) as Hres.
    pose proof (resetForNewGame_roster draws r) as Hros.
    destruct (Room.resetForNewGame draws r) as [r1 out]. cbn in *. intros Hlen.
    apply Hres. apply roster_ids in Hros.
    apply (f_equal length) in Hros. rewrite !length_fmap in Hros. by rewrite <- Hros.
  - injection Hstep as <-. intros _.
    eapply distinctSounds_view; [apply preSeekCountdownTick_soundView|done].
  - injection Hstep as <-. intros _.
    eapply distinctSounds_view; [apply seekTimerTick_soundView|done].
  - injection Hstep as <-. intros _.
    eapply distinctSounds_view; [apply scheduleNextSound_soundView|done].
Qed.

(** ** The countdown before Seeking *)

Lemma preSeekCountdownTick_continue now r :
  1 < Room.preSeekCountdownValue r →
  Room.preSeekCountdownTick now r =
    (Room.set_preSeekCountdownValue (Room.preSeekCountdownValue r - 1) r,
     [preSeekCountdown (Room.preSeekCountdownValue r - 1)]).
Proof.
  intros Hv. unfold Room.preSeekCountdownTick. cbv zeta.
  cbn [Room.preSeekCountdownValue Room.set_preSeekCountdownValue].
  by rewrite decide_False by lia.
Qed.

Lemma preSeekCountdownTick_last now r :
  Room.preSeekCountdownValue r ≤ 1 → Room.gameState r = GAME_STATE.HIDING →
  ∃ r',
    Room.preSeekCountdownTick now r =
      (r', [preSeekCountdown (Room.preSeekCountdownValue r - 1);
            updateState (Room.getClientState r')]) ∧
    Room.gameState r' = GAME_STATE.SEEKING ∧
    Room.seekStartTime r' = Some now ∧
    Room.preSeekCountdownInterval r' = false ∧
    Room.seekTimerInterval r' = true ∧
    Room.soundRotationTimeout r' = Some (inject_Z MIN_SOUND_DELAY_MS) ∧
    Room.nextPlayerIndexToPlay r' = 0 ∧
    Room.players r' = Player.resetForSeeking <$> Room.players r.
Proof.
  intros Hv Hgs. unfold Room.preSeekCountdownTick. cbv zeta.
  cbn [Room.preSeekCountdownValue Room.set_preSeekCountdownValue].
  rewrite decide_True by lia.
  unfold Room.startSeekingPhase. cbn [Room.gameState Room.set_preSeekCountdownInterval
    Room.set_preSeekCountdownValue].
  rewrite decide_False by congruence. rewrite startSeekTimer_eq. cbn.
  eexists. split; [reflexivity|]. done.
Qed.

(** From an armed countdown at [v] in Hiding: fewer than [v] ticks leave
    the room in Hiding with the countdown that much lower; [v] ticks take it
    to Seeking, which starts at the clock of the last tick. *)
Lemma countdown_run nows r :
  Room.gameState r = GAME_STATE.HIDING →
  Room.preSeekCountdownInterval r = true →
  1 ≤ Room.preSeekCountdownValue r →
  (Z.of_nat (length nows) < Room.preSeekCountdownValue r →
   ∃ rk, run (preSeekCountdownFires <$> nows) r = Some rk ∧
         rk = Room.set_preSeekCountdownValue
                (Room.preSeekCountdownValue r - Z.of_nat (length nows)) r) ∧
  (Z.of_nat (length nows) = Room.preSeekCountdownValue r →
   ∃ r', run (preSeekCountdownFires <$> nows) r = Some r' ∧
         Room.gameState r' = GAME_STATE.SEEKING ∧
         Room.seekStartTime r' = last nows ∧
         Room.preSeekCountdownInterval r' = false ∧
         Room.seekTimerInterval r' = true ∧
         Room.soundRotationTimeout r' = Some (inject_Z MIN_SOUND_DELAY_MS) ∧
         Room.players r' = Player.resetForSeeking <$> Room.players r).
Proof.
  revert r. induction nows as [|now nows IH]; intros r Hgs Harmed Hv.
  - split; [|cbn; lia]. intros _. exists r. split; [done|].
    cbn. rewrite Z.sub_0_r. by destruct r.
  - cbn [fmap list_fmap run armed handle length]. rewrite Harmed.
    cbn [some_room fst].
    destruct (decide (1 < Room.preSeekCountdownValue r)) as [Hmore|Hlast].
    + rewrite preSeekCountdownTick_continue by done. cbn [fst].
      set (r1 := Room.set_preSeekCountdownValue _ r).
      destruct (IH r1) as [IH1 IH2]; [done|done|cbn; lia|].
      cbn [Room.preSeekCountdownValue Room.set_preSeekCountdownValue r1] in IH1, IH2.
      split.
      * intros Hlen. destruct IH1 as (rk & Hrun & ->); [lia|].
        exists (Room.set_preSeekCountdownValue
                  (Room.preSeekCountdownValue r - Z.of_nat (S (length nows))) r).
        split; [|done]. rewrite Hrun.
        replace (Room.preSeekCountdownValue r - Z.of_nat (S (length nows)))
          with (Room.preSeekCountdownValue r - 1 - Z.of_nat (length nows)) by lia.
        unfold r1. by destruct r.
      * intros Hlen. destruct IH2 as (r' & Hrun & ? & Hst & ?); [lia|].
        exists r'. split; [done|]. split; [done|]. split; [|done].
        rewrite Hst. destruct nows as [|now' nows']; [cbn in Hlen; lia|done].
    + destruct (preSeekCountdownTick_last now r) as (r' & -> & Hs & Hst & Hrest); [lia|done|].
      cbn [fst]. split; [intros Hlen; lia|].
      intros Hlen. assert (nows = []) as -> by (destruct nows; [done|cbn in Hlen; lia]).
      exists r'. cbn. split; [done|]. split; [done|]. split; [done|].
      by destruct Hrest as (? & ? & ? & _ & ?).
Qed.

Lemma confirm_last_starts_countdown sid r p :
  CoreInv r → PhaseInv r →
  Room.gameState r = GAME_STATE.HIDING →
  Room.getPlayer sid r = Some p → Player.isReady p = false →
  (∀ q, q ∈ Room.players r → Player.id q ≠ sid → Player.isReady q = true) →
  let r1 :=
    Room.set_preSeekCountdownInterval true
      (Room.set_preSeekCountdownValue PRE_SEEK_COUNTDOWN_S
         (Room.set_players (Room.updatePlayer sid (Player.set_isReady true) (Room.players r)) r)) in
  on_confirmHidden sid r =
    (r1, [updateState (Room.getClientState r1); preSeekCountdown PRE_SEEK_COUNTDOWN_S]).
Proof.
  intros Hcore Hph Hgs Hget Hr0 Hothers.
  pose proof Hget as [Hp Hid]%lookupPlayer_Some.
  assert (Room.preSeekCountdownInterval r = false) as Hoff.
  { destruct (Room.preSeekCountdownInterval r) eqn:Hc; [|done].
    pose proof (proj1 (ph_allReady r Hph Hgs) Hc) as Hrd.
    rewrite Forall_forall in Hrd. specialize (Hrd p Hp). cbn in Hrd. congruence. }
  cbv zeta. unfold on_confirmHidden, findRoomBySocketId. rewrite Hget.
  unfold logOnly, Room.confirmPlayerHidden. rewrite Hget, Hr0.
  rewrite decide_False by (intros Hx; by apply Hx). cbv zeta.
  unfold Room._checkAllRemainingReady.
  rewrite isEmpty_false by (cbn; rewrite updatePlayer_nil; apply Hcore).
  cbn [Room.players Room.set_players].
  assert (forallb Player.isReady
            (Room.updatePlayer sid (Player.set_isReady true) (Room.players r)) = true) as ->.
  { apply forallb_elem. intros q (q0 & Hq0 & ->)%elem_of_updatePlayer.
    case_decide; [done|]. by apply Hothers. }
  unfold Room.startPreSeekCountdown. cbn [Room.preSeekCountdownInterval Room.set_players].
  rewrite Hoff. done.
Qed.

(** ** Starting a game, joining and leaving, settings *)

Lemma resetForNewGame_fresh (p : Player.t) :
  Player.isReady p = false → Player.isFound p = false → Player.soundsPlayed p = 0 →
  Player.resetForNewGame p = p.
Proof. destruct p. cbn. by intros -> -> ->. Qed.

(** In Waiting, a registered room has nothing for [startHidingPhase] to
    reset. *)
Lemma waiting_is_clean r :
  CoreInv r → PhaseInv r → Room.gameState r = GAME_STATE.WAITING →
  Room.set_seekStartTime None (Room.set_winner None (Room.clearGameIntervals
    (Room.set_players (Player.resetForNewGame <$> Room.players r) r))) = r.
Proof.
  intros Hcore Hph Hgs.
  assert (Player.resetForNewGame <$> Room.players r = Room.players r) as ->.
  { rewrite <- (list_fmap_id (Room.players r)) at 2. apply list_fmap_ext.
    intros _ p Hp%list_elem_of_lookup_2. cbn. apply resetForNewGame_fresh.
    - pose proof (ph_ready r Hph ltac:(congruence)) as H. rewrite Forall_forall in H. by apply H.
    - pose proof (ph_fresh r Hph (or_introl Hgs)) as H. rewrite Forall_forall in H.
      by apply H.
    - pose proof (ph_fresh r Hph (or_introl Hgs)) as H. rewrite Forall_forall in H.
      by apply H. }
  assert (Room.preSeekCountdownInterval r = false) as Hc.
  { destruct (Room.preSeekCountdownInterval r) eqn:Hx; [|done].
    pose proof (inv_countdown r Hcore Hx). congruence. }
  assert (Room.seekTimerInterval r = false) as Ht.
  { destruct (Room.seekTimerInterval r) eqn:Hx; [|done].
    pose proof (inv_seekTimer r Hcore Hx). congruence. }
  assert (Room.soundRotationTimeout r = None) as Hs.
  { destruct (Room.soundRotationTimeout r) eqn:Hx; [|done].
    pose proof (inv_soundTimer r Hcore ltac:(by rewrite Hx)). congruence. }
  pose proof (ph_idle r Hph ltac:(congruence)) as Hi.
  pose proof (ph_noStart r Hph (or_introl Hgs)) as Hn.
  pose proof (proj2 (ph_winner r Hph) ltac:(congruence)) as Hw.
  destruct r. cbn in *. by subst.
Qed.

Lemma on_startHiding_starts sid r p :
  CoreInv r → PhaseInv r →
  Room.getPlayer sid r = Some p → Player.role p = PLAYER_ROLE.HIDER →
  Room.gameState r = GAME_STATE.WAITING → MIN_PLAYERS_TO_START ≤ Room.getPlayerCount r →
  on_startHiding sid r =
    (Room.set_gameState GAME_STATE.HIDING r,
     [updateState (Room.getClientState (Room.set_gameState GAME_STATE.HIDING r))]).
Proof.
  intros Hcore Hph Hget Hrole Hgs Hcount.
  unfold on_startHiding, findRoomBySocketId. rewrite Hget, Hget.
  rewrite decide_False by (intros Hx; by apply Hx).
  unfold Room.startHidingPhase.
  rewrite decide_False by (intros Hx; by apply Hx).
  rewrite decide_False by lia. cbv zeta.
  pose proof (waiting_is_clean r Hcore Hph Hgs) as Hclean.
  assert (Room.set_seekStartTime None (Room.set_winner None (Room.clearGameIntervals
            (Room.set_players (Player.resetForNewGame <$>
               Room.players (Room.set_gameState GAME_STATE.HIDING r))
               (Room.set_gameState GAME_STATE.HIDING r)))) =
          Room.set_gameState GAME_STATE.HIDING r) as ->; [|done].
  rewrite <- Hclean at 3. by destruct r.
Qed.

Lemma on_startHiding_rejects sid r :
  (Room.getPlayer sid r = None ∨
   (∃ p, Room.getPlayer sid r = Some p ∧ Player.role p ≠ PLAYER_ROLE.HIDER) ∨
   Room.gameState r ≠ GAME_STATE.WAITING ∨
   Room.getPlayerCount r < MIN_PLAYERS_TO_START) →
  ∃ message, on_startHiding sid r = (r, [errorMsg sid message]).
Proof.
  intros Hbad. unfold on_startHiding, findRoomBySocketId.
  destruct (Room.getPlayer sid r) as [p|] eqn:Hget; [rewrite Hget|by eexists].
  case_decide as Hrole; [by eexists|].
  unfold Room.startHidingPhase.
  case_decide; [by eexists|]. case_decide; [by eexists|].
  exfalso. destruct Hbad as [|[(q & [= <-] & ?)|[|]]]; done.
Qed.

Lemma updateSettings_twice settings r r1 out1 :
  Room.updateSettings settings r = (Return (), r1, out1) →
  (∀ n, settings_seekTimeLimit settings = numeric n →
        Room.seekTimeLimit r1 = n ∧ MIN_SEEK_TIME_LIMIT_S ≤ n ≤ MAX_SEEK_TIME_LIMIT_S) ∧
  (settings_seekTimeLimit settings = undefined → Room.seekTimeLimit r1 = Room.seekTimeLimit r) ∧
  settings_seekTimeLimit settings ≠ notNumeric ∧
  (∀ n, settings_soundPlaysPerPlayer settings = numeric n →
        Room.soundPlaysPerPlayer r1 = n ∧ MIN_SOUND_PLAYS ≤ n ≤ MAX_SOUND_PLAYS) ∧
  (settings_soundPlaysPerPlayer settings = undefined →
   Room.soundPlaysPerPlayer r1 = Room.soundPlaysPerPlayer r) ∧
  settings_soundPlaysPerPlayer settings ≠ notNumeric ∧
  r1 = Room.set_soundPlaysPerPlayer (Room.soundPlaysPerPlayer r1)
         (Room.set_seekTimeLimit (Room.seekTimeLimit r1) r) ∧
  ((r1 = r ∧ out1 = []) ∨ (r1 ≠ r ∧ out1 = [updateState (Room.getClientState r1)])) ∧
  Room.updateSettings settings r1 = (Return (), r1, []).
Proof.
  unfold Room.updateSettings.
  destruct (settings_seekTimeLimit settings) as [| |n] eqn:Ht;
    destruct (settings_soundPlaysPerPlayer settings) as [| |m] eqn:Hs; cbn;
    repeat first [case_bool_decide | case_decide]; cbn; intros [= <- <-];
    cbn; rewrite ?decide_False by (intros Hx; by apply Hx);
    repeat split; try done; try (intros ? [= <-]; done); try (by destruct r);
    try (left; split; [by destruct r|done]);
    try (right; split; [|done]; intros Heq; apply (f_equal Room.seekTimeLimit) in Heq; done);
    try (right; split; [|done]; intros Heq;
         apply (f_equal Room.soundPlaysPerPlayer) in Heq; done).
  all: simplify_eq; try done; cbn in *; lia.
Qed.

Lemma lookupPlayer_app sid (ps : list Player.t) p :
  Room.lookupPlayer sid (ps ++ [p]) =
  match Room.lookupPlayer sid ps with
  | Some q => Some q
  | None => if decide (Player.id p = sid) then Some p else None
  end.
Proof.
  induction ps as [|q ps IH]; [reflexivity|]. cbn.
  destruct (decide (Player.id q = sid)); [done|apply IH].
Qed.

Lemma on_joinRoom_rejects sid draws r :
  Room.gameState r ≠ GAME_STATE.WAITING ∨ is_Some (Room.getPlayer sid r) →
  ∃ message, on_joinRoom sid draws r = (r, [errorMsg sid message]).
Proof.
  intros Hbad. unfold on_joinRoom, Room.addPlayer.
  case_decide; [by eexists|]. case_bool_decide; [by eexists|]. by destruct Hbad.
Qed.

Lemma on_joinRoom_appends sid draws r :
  Room.gameState r = GAME_STATE.WAITING → Room.getPlayer sid r = None →
  ∃ p a u,
    let r1 :=
      Room.set_players (Room.players r ++ [p])%list
        (Room.set_assignedUnfoundSounds (Room.addSound u (Room.assignedUnfoundSounds r))
           (Room.set_assignedAnimalSounds (Room.addSound a (Room.assignedAnimalSounds r)) r)) in
    on_joinRoom sid draws r = (r1, [updateState (Room.getClientState r1)]) ∧
    p = Player.set_sounds a u
          (Player.new sid (Room.getPlayerCount r + 1)
             (if decide (Room.getPlayerCount r = 0) then PLAYER_ROLE.HIDER
              else PLAYER_ROLE.SEEKER)) ∧
    a = Room.pickSound BASE_ANIMAL_SOUNDS (Room.assignedAnimalSounds r) draws.1
          (Room.getPlayerCount r + 1) ∧
    u = Room.pickSound BASE_UNFOUND_SOUNDS (Room.assignedUnfoundSounds r) draws.2
          (Room.getPlayerCount r + 1) ∧
    Room.getPlayer sid r1 = Some p ∧
    (∀ other, other ≠ sid → Room.getPlayer other r1 = Room.getPlayer other r) ∧
    Room.getPlayerCount r1 = Room.getPlayerCount r + 1.
Proof.
  intros Hgs Hget. unfold on_joinRoom, Room.addPlayer.
  rewrite decide_False by (intros Hx; by apply Hx).
  rewrite bool_decide_eq_false_2 by (rewrite Hget; by intros []).
  rewrite _assignUniqueSounds_eq. cbv zeta. cbn [fst snd reportTo].
  eexists _, _, _. split; [reflexivity|]. unfold Room.getPlayerCount.
  split.
  { f_equal. f_equal. destruct (Room.players r); cbn; repeat case_decide; try done; lia. }
  split; [done|]. split; [done|].
  unfold Room.getPlayer in *. cbn. rewrite !lookupPlayer_app, Hget. cbn.
  rewrite decide_True by done. split; [done|]. split.
  - intros other Hne. rewrite lookupPlayer_app.
    destruct (Room.lookupPlayer other (Room.players r)); [done|]. by rewrite decide_False.
  - rewrite length_app. cbn. lia.
Qed.

Lemma deletePlayer_app_new sid (ps : list Player.t) p :
  Room.lookupPlayer sid ps = None → Player.id p = sid →
  Room.deletePlayer sid (ps ++ [p]) = ps.
Proof.
  intros Hnone Hid. unfold Room.deletePlayer. rewrite filter_app.
  rewrite (filter_cons _ p), decide_False by (intros Hx; by apply Hx). cbn.
  rewrite app_nil_r. rewrite lookupPlayer_None in Hnone.
  induction ps as [|q ps IH]; [done|].
  rewrite filter_cons, decide_True by (apply Hnone; left).
  f_equal. apply IH. intros x Hx. apply Hnone. by right.
Qed.

Lemma join_then_leave sid draws r :
  Room.gameState r = GAME_STATE.WAITING → Room.getPlayer sid r = None →
  Room.players r ≠ [] →
  (size (Room.assignedAnimalSounds r) < length BASE_ANIMAL_SOUNDS)%nat →
  (size (Room.assignedUnfoundSounds r) < length BASE_UNFOUND_SOUNDS)%nat →
  handleDisconnect sid (on_joinRoom sid draws r).1 =
    (Some r, [updateState (Room.getClientState r)]).
Proof.
  intros Hgs Hget Hne HA HU.
  destruct (on_joinRoom_appends sid draws r Hgs Hget)
    as (p & a & u & Hjoin & Hp & Ha & Hu & Hget1 & _ & _).
  cbv zeta in *. rewrite Hjoin. cbn [fst].
  set (n := Room.getPlayerCount r + 1) in *.
  destruct (pickSound_free BASE_ANIMAL_SOUNDS (Room.assignedAnimalSounds r) draws.1 n)
    as (a0 & Ha0 & _ & Hafree); [apply pool_has_free; [apply BASE_ANIMAL_SOUNDS_NoDup|done]|].
  destruct (pickSound_free BASE_UNFOUND_SOUNDS (Room.assignedUnfoundSounds r) draws.2 n)
    as (u0 & Hu0 & _ & Hufree); [apply pool_has_free; [apply BASE_UNFOUND_SOUNDS_NoDup|done]|].
  rewrite Ha0 in Ha. rewrite Hu0 in Hu. subst a u.
  assert (Room.getPlayerCount r ≠ 0) as Hcount.
  { unfold Room.getPlayerCount. destruct (Room.players r); [done|cbn; lia]. }
  rewrite decide_False in Hp by done.
  unfold handleDisconnect, findRoomBySocketId. rewrite Hget1.
  unfold Room.removePlayer. rewrite Hget1. cbv zeta.
  cbn [Room.players Room.set_players Room.set_assignedAnimalSounds
       Room.set_assignedUnfoundSounds Room.assignedAnimalSounds Room.assignedUnfoundSounds
       Room.gameState Room.isEmpty].
  rewrite deletePlayer_app_new by (done || by rewrite Hp).
  destruct (Room.players r) as [|q ps] eqn:Hps; [done|].
  rewrite decide_True by done.
  rewrite Hp. cbn [Player.role Player.set_sounds Player.new Player.uniqueAnimalSoundURL
    Player.uniqueUnfoundSoundURL Room.deleteSound Room.addSound].
  rewrite bool_decide_eq_false_2 by done.
  assert (∀ (X : gset string) x, x ∉ X → (X ∪ {[x]}) ∖ {[x]} = X) as Hback by set_solver.
  rewrite !Hback by done. cbn [Room.isEmpty Room.players Room.set_players].
  match goal with |- (Some ?x, _) = _ => assert (x = r) as -> end.
  { rewrite <- Hps. by destruct r. }
  done.
Qed.

(** ** The registry of rooms *)

Section RegistryFacts.
Implicit Types (activeRooms : Registry.t) (room : Room.t) (key roomCode : string).

Lemma lookup_elem key room activeRooms :
  Registry.lookup key activeRooms = Some room → (key, room) ∈ activeRooms.
Proof.
  induction activeRooms as [|[k r] rest IH]; cbn; [done|].
  case_decide as Hk; [intros [= <-]; subst; left | intros Hx; right; by apply IH].
Qed.

Lemma lookup_None key activeRooms :
  Registry.lookup key activeRooms = None ↔ key ∉ activeRooms.*1.
Proof.
  induction activeRooms as [|[k r] rest IH]; cbn.
  - split; [intros _; apply not_elem_of_nil | done].
  - case_decide as Hk.
    + split; [done|]. intros Hno. exfalso. apply Hno. subst. left.
    + rewrite IH. rewrite not_elem_of_cons. naive_solver.
Qed.

Lemma elem_lookup key room activeRooms :
  NoDup activeRooms.*1 → (key, room) ∈ activeRooms →
  Registry.lookup key activeRooms = Some room.
Proof.
  induction activeRooms as [|[k r] rest IH]; cbn; intros Hnd Hin.
  - by apply not_elem_of_nil in Hin.
  - apply NoDup_cons in Hnd as [Hk Hnd]. apply elem_of_cons in Hin as [[= -> ->]|Hin].
    + by rewrite decide_True.
    + rewrite decide_False; [by apply IH|]. intros ->. apply Hk.
      apply list_elem_of_fmap. by exists (key, room).
Qed.

Lemma lookup_store key room activeRooms :
  Registry.lookup key (Registry.store key room activeRooms) = Some room.
Proof.
  induction activeRooms as [|[k r] rest IH]; cbn; [by rewrite decide_True|].
  destruct (decide (k = key)) as [->|Hk]; cbn; [by rewrite decide_True|].
  by rewrite decide_False.
Qed.

Lemma lookup_store_ne key key' room activeRooms :
  key' ≠ key →
  Registry.lookup key' (Registry.store key room activeRooms) = Registry.lookup key' activeRooms.
Proof.
  intros Hne. induction activeRooms as [|[k r] rest IH]; cbn; [by rewrite decide_False|].
  destruct (decide (k = key)) as [->|Hk]; cbn.
  - by rewrite !decide_False.
  - by rewrite IH.
Qed.

Lemma store_fresh key room activeRooms :
  Registry.lookup key activeRooms = None →
  Registry.store key room activeRooms = (activeRooms ++ [(key, room)])%list.
Proof.
  induction activeRooms as [|[k r] rest IH]; cbn; [done|].
  case_decide; [done|]. intros Hx. by rewrite IH.
Qed.

Lemma store_store key room room' activeRooms :
  Registry.store key room' (Registry.store key room activeRooms) =
  Registry.store key room' activeRooms.
Proof.
  induction activeRooms as [|[k r] rest IH]; cbn; [by rewrite decide_True|].
  destruct (decide (k = key)) as [->|Hk]; cbn; [by rewrite decide_True|].
  by rewrite decide_False, IH.
Qed.

Lemma store_same key room activeRooms :
  Registry.lookup key activeRooms = Some room →
  Registry.store key room activeRooms = activeRooms.
Proof.
  induction activeRooms as [|[k r] rest IH]; cbn; [done|].
  case_decide as Hk; [by intros [= ->]; subst|]. intros Hx. by rewrite IH.
Qed.

Lemma store_keys key room activeRooms :
  is_Some (Registry.lookup key activeRooms) →
  (Registry.store key room activeRooms).*1 = activeRooms.*1.
Proof.
  induction activeRooms as [|[k r] rest IH]; cbn; [by intros []|].
  case_decide as Hk; [by subst|]. intros Hx. cbn. by rewrite IH.
Qed.

Lemma Forall_store (P : string * Room.t → Prop) key room activeRooms :
  Forall P activeRooms → P (key, room) → Forall P (Registry.store key room activeRooms).
Proof.
  intros Hall Hnew. induction Hall as [|[k r] rest Hkr Hrest IH]; cbn; [by repeat constructor|].
  case_decide; subst; constructor; done.
Qed.

Lemma remove_keys_NoDup key activeRooms :
  NoDup activeRooms.*1 → NoDup (Registry.remove key activeRooms).*1.
Proof.
  intros H. eapply sublist_NoDup; [exact H|]. apply fmap_sublist, sublist_filter.
Qed.

Lemma lookup_remove key activeRooms :
  Registry.lookup key (Registry.remove key activeRooms) = None.
Proof.
  apply lookup_None. intros (entry & -> & Hin)%list_elem_of_fmap.
  apply list_elem_of_filter in Hin as [Hne _]. by apply Hne.
Qed.

Lemma lookup_remove_ne key key' activeRooms :
  key' ≠ key →
  Registry.lookup key' (Registry.remove key activeRooms) = Registry.lookup key' activeRooms.
Proof.
  intros Hne. unfold Registry.remove.
  induction activeRooms as [|[k r] rest IH]; [done|].
  rewrite (filter_cons (λ entry : string * Room.t, entry.1 ≠ key) (k, r) rest). cbn.
  destruct (decide (k ≠ key)) as [Hk|Hk]; cbn.
  - destruct (decide (k = key')); [done|apply IH].
  - apply dec_stable in Hk. subst. rewrite decide_False by done. apply IH.
Qed.

End RegistryFacts.

(** *** Room codes *)

Lemma charAt_letter (d : nat) :
  (d < String.length ROOM_CODE_CHARS)%nat →
  ∃ c, charAt ROOM_CODE_CHARS d = String c EmptyString ∧
       c ∈ String.list_ascii_of_string ROOM_CODE_CHARS.
Proof.
  change (String.length ROOM_CODE_CHARS) with 26%nat. intros Hd.
  do 26 (destruct d as [|d];
         [eexists; split; [reflexivity|apply (bool_decide_unpack _); by vm_compute]|]).
  lia.
Qed.

Lemma candidateCode_valid draw : validCode (Registry.candidateCode draw).
Proof.
  unfold Registry.candidateCode, ROOM_CODE_LENGTH. cbn [seq foldl].
  assert (∀ i, (draw i mod String.length ROOM_CODE_CHARS <
                String.length ROOM_CODE_CHARS)%nat) as Hlt.
  { intros i. apply Nat.mod_upper_bound. by vm_compute. }
  destruct (charAt_letter _ (Hlt 0%nat)) as (c0 & -> & H0).
  destruct (charAt_letter _ (Hlt 1%nat)) as (c1 & -> & H1).
  destruct (charAt_letter _ (Hlt 2%nat)) as (c2 & -> & H2).
  destruct (charAt_letter _ (Hlt 3%nat)) as (c3 & -> & H3).
  destruct (charAt_letter _ (Hlt 4%nat)) as (c4 & -> & H4).
  split; [reflexivity|]. cbn -[ROOM_CODE_CHARS].
  repeat (apply Forall_cons_2; [assumption|]). apply Forall_nil_2.
Qed.

Lemma validCode_not_inherited code : validCode code → code ∉ OBJECT_PROTOTYPE_KEYS.
Proof.
  intros [Hlen _] Hin. unfold OBJECT_PROTOTYPE_KEYS in Hin.
  repeat (apply elem_of_cons in Hin as [->|Hin]; [by vm_compute in Hlen|]).
  by apply not_elem_of_nil in Hin.
Qed.

Lemma generateLoop_spec fuel attempts draws activeRooms :
  Registry.maxAttempts + 2 ≤ attempts + Z.of_nat fuel →
  match Registry.generateLoop fuel attempts draws activeRooms with
  | Return code =>
      ∃ last, attempts ≤ last ≤ Registry.maxAttempts ∧
              code = Registry.candidateCode (draws last) ∧
              Registry.lookup code activeRooms = None ∧
              ∀ a, attempts ≤ a < last →
                   is_Some (Registry.lookup (Registry.candidateCode (draws a)) activeRooms)
  | Throw message =>
      message = "Failed to generate a unique room code after multiple attempts." ∧
      ∀ a, attempts ≤ a ≤ Registry.maxAttempts →
           is_Some (Registry.lookup (Registry.candidateCode (draws a)) activeRooms)
  end.
Proof.
  revert attempts. induction fuel as [|fuel IH]; intros attempts Hfuel; cbn.
  - split; [done|]. intros a Ha. lia.
  - case_decide as Hmax. { split; [done|]. intros a Ha. lia. }
    cbv zeta. case_bool_decide as Htaken.
    + specialize (IH (attempts + 1) ltac:(lia)).
      destruct (Registry.generateLoop fuel (attempts + 1) draws activeRooms) as [code|message].
      * destruct IH as (last & Hlast & Hcode & Hfree & Hbefore).
        exists last. repeat split; try done; try lia.
        intros a Ha. destruct (decide (a = attempts)) as [->|]; [done|]. apply Hbefore. lia.
      * destruct IH as [-> Hall]. split; [done|].
        intros a Ha. destruct (decide (a = attempts)) as [->|]; [done|]. apply Hall. lia.
    + exists attempts. repeat split; try done; try lia.
      by apply eq_None_not_Some.
Qed.

Lemma generateLoop_fuel fuel attempts draws activeRooms :
  Registry.maxAttempts + 2 ≤ attempts + Z.of_nat fuel →
  Registry.generateLoop (S fuel) attempts draws activeRooms =
  Registry.generateLoop fuel attempts draws activeRooms.
Proof.
  revert attempts. induction fuel as [|fuel IH]; intros attempts Hfuel.
  - cbn. rewrite decide_True; [done|]. unfold Registry.maxAttempts in *. lia.
  - cbn [Registry.generateLoop]. case_decide; [done|]. cbv zeta.
    case_bool_decide; [|done]. apply IH. lia.
Qed.

(** *** No method renames a room *)

Lemma roomCode_revealFrame r r' : revealFrame r r' → Room.roomCode r' = Room.roomCode r.
Proof. intros ->. done. Qed.

Lemma endGame_roomCode w r : Room.roomCode (Room.endGame w r).1 = Room.roomCode r.
Proof.
  unfold Room.endGame. case_decide; [done|]. destruct w; cbn; [|done].
  match goal with |- context [Room.startGameOverReveal ?x] =>
    by rewrite (roomCode_revealFrame x _ (startGameOverReveal_frame x)) end.
Qed.

Lemma checkSeekerWin_roomCode r : Room.roomCode (Room.checkSeekerWin r).1.2 = Room.roomCode r.
Proof.
  unfold Room.checkSeekerWin. case_decide; [done|]. destruct (forallb _ _); [|done].
  pose proof (endGame_roomCode WINNER_TYPE.SEEKERS r). by destruct (Room.endGame _ _).
Qed.

Lemma startSeekingPhase_roomCode now r :
  Room.roomCode (Room.startSeekingPhase now r).1 = Room.roomCode r.
Proof. unfold Room.startSeekingPhase. case_decide; [done|]. by rewrite startSeekTimer_eq. Qed.

Lemma preSeekCountdownTick_roomCode now r :
  Room.roomCode (Room.preSeekCountdownTick now r).1 = Room.roomCode r.
Proof.
  unfold Room.preSeekCountdownTick. cbv zeta. case_decide; [|done].
  match goal with |- context [Room.startSeekingPhase now ?x] =>
    pose proof (startSeekingPhase_roomCode now x) as Hs;
    destruct (Room.startSeekingPhase now x) as [r' out'] end.
  done.
Qed.

Lemma seekTimerTick_roomCode now r :
  Room.roomCode (Room.seekTimerTick now r).1 = Room.roomCode r.
Proof. unfold Room.seekTimerTick. repeat case_decide; try done. apply endGame_roomCode. Qed.

Lemma scheduleNextSound_roomCode now r :
  Room.roomCode (Room.scheduleNextSound now r).1 = Room.roomCode r.
Proof.
  unfold Room.scheduleNextSound. repeat case_decide; try done.
  destruct (js_index _ _) as [pt|]; cbn; [destruct (Player.uniqueAnimalSoundURL pt); cbn|];
    done.
Qed.

Lemma updateSettings_roomCode settings r :
  Room.roomCode (Room.updateSettings settings r).1.2 = Room.roomCode r.
Proof.
  unfold Room.updateSettings.
  destruct (parseInt (settings_seekTimeLimit settings)),
           (parseInt (settings_soundPlaysPerPlayer settings));
    repeat first [case_bool_decide | case_decide]; done.
Qed.

Lemma startHidingPhase_roomCode r :
  Room.roomCode (Room.startHidingPhase r).1.2 = Room.roomCode r.
Proof. unfold Room.startHidingPhase. repeat case_decide; done. Qed.

Lemma confirmPlayerHidden_roomCode sid r :
  Room.roomCode (Room.confirmPlayerHidden sid r).1.2 = Room.roomCode r.
Proof.
  unfold Room.confirmPlayerHidden.
  destruct (Room.getPlayer sid r) as [p|]; [|done].
  case_decide; [done|]. destruct (Player.isReady p); [done|].
  set (r1 := Room.set_players _ r).
  destruct (Room._checkAllRemainingReady r1); [|done].
  unfold Room.startPreSeekCountdown. by destruct (Room.preSeekCountdownInterval r1).
Qed.

Lemma markPlayerFound_roomCode sid r :
  Room.roomCode (Room.markPlayerFound sid r).1.2 = Room.roomCode r.
Proof.
  unfold Room.markPlayerFound.
  destruct (Room.getPlayer sid r) as [p|]; [|done].
  destruct (Player.isFound p); [done|]. case_bool_decide; [done|].
  set (r1 := Room.set_players _ r).
  change (Room.roomCode r) with (Room.roomCode r1).
  repeat case_decide; try done.
  - pose proof (checkSeekerWin_roomCode r1).
    destruct (Room.checkSeekerWin r1) as [[[] ?] ?]; done.
  - pose proof (roomCode_revealFrame _ _ (activateNextUnfoundPlayer_frame r1)).
    by destruct (Room.activateNextUnfoundPlayer r1).
Qed.

Lemma addPlayer_roomCode sid draws r :
  Room.roomCode (Room.addPlayer sid draws r).1.2 = Room.roomCode r.
Proof.
  unfold Room.addPlayer. case_decide; [done|]. case_bool_decide; [done|].
  cbv zeta. by rewrite _assignUniqueSounds_eq.
Qed.

Lemma reassignAll_roomCode draws ps r :
  Room.roomCode (Room.reassignAll draws ps r).2 = Room.roomCode r.
Proof. by rewrite (proj2 (reassignAll_spec draws ps r)). Qed.

Lemma resetForNewGame_roomCode draws r :
  Room.roomCode (Room.resetForNewGame draws r).1 = Room.roomCode r.
Proof.
  rewrite resetForNewGame_eq. cbv zeta. cbn [fst Room.roomCode Room.set_players].
  by rewrite reassignAll_roomCode.
Qed.

Lemma requestPlayAgain_roomCode sid draws r :
  Room.roomCode (Room.requestPlayAgain sid draws r).1.2 = Room.roomCode r.
Proof.
  unfold Room.requestPlayAgain. case_decide; [done|].
  destruct (Room.getPlayer sid r); [|done].
  pose proof (resetForNewGame_roomCode draws r).
  by destruct (Room.resetForNewGame draws r).
Qed.

Lemma removePlayer_roomCode sid r :
  Room.roomCode (Room.removePlayer sid r).1.2 = Room.roomCode r.
Proof.
  unfold Room.removePlayer.
  destruct (Room.getPlayer sid r) as [p|]; [|done]. cbv zeta.
  set (r0 := Room.set_players _ _).
  change (Room.roomCode r) with (Room.roomCode r0).
  destruct (Room.isEmpty r0); [done|].
  repeat first [case_bool_decide | case_decide]; try done.
  all: repeat match goal with
       | |- context [Room.endGame ?w ?x] =>
           pose proof (endGame_roomCode w x); destruct (Room.endGame w x)
       | |- context [Room.checkSeekerWin ?x] =>
           pose proof (checkSeekerWin_roomCode x);
           destruct (Room.checkSeekerWin x) as [[[] ?] ?]
       | |- context [Room.activateNextUnfoundPlayer ?x] =>
           pose proof (roomCode_revealFrame _ _ (activateNextUnfoundPlayer_frame x));
           destruct (Room.activateNextUnfoundPlayer x)
       end; try done.
  all: unfold Room._promoteNewHider, Room.startPreSeekCountdown;
    repeat case_match; simplify_eq; done.
Qed.

(** *** Finding the room of a socket *)

Lemma find_Some sid activeRooms key room :
  Registry.findRoomBySocketId sid activeRooms = Some (key, room) →
  (key, room) ∈ activeRooms ∧ is_Some (Room.getPlayer sid room).
Proof.
  induction activeRooms as [|[k r] rest IH]; cbn; [done|].
  case_bool_decide as Hin.
  - intros [= -> ->]. split; [left|done].
  - intros Hx. destruct (IH Hx). split; [by right|done].
Qed.

Lemma find_None sid activeRooms :
  Registry.findRoomBySocketId sid activeRooms = None ↔
  Forall (λ entry, Room.getPlayer sid entry.2 = None) activeRooms.
Proof.
  induction activeRooms as [|[k r] rest IH]; cbn; [by split; [constructor|]|].
  case_bool_decide as Hin.
  - split; [done|]. intros [Hno _]%Forall_cons. cbn in Hno. rewrite Hno in Hin.
    by destruct Hin.
  - rewrite IH, Forall_cons. cbn. apply eq_None_not_Some in Hin. naive_solver.
Qed.

Lemma find_first sid activeRooms key room :
  Registry.findRoomBySocketId sid activeRooms = Some (key, room) →
  ∃ before after,
    activeRooms = (before ++ (key, room) :: after)%list ∧
    Forall (λ entry, Room.getPlayer sid entry.2 = None) before.
Proof.
  induction activeRooms as [|[k r] rest IH]; cbn; [done|].
  case_bool_decide as Hin.
  - intros [= -> ->]. by exists [], rest.
  - intros Hx. destruct (IH Hx) as (before & after & -> & Hbefore).
    exists ((k, r) :: before), after. split; [done|].
    constructor; [by apply eq_None_not_Some|done].
Qed.

Lemma find_lookup sid activeRooms key room :
  NoDup activeRooms.*1 →
  Registry.findRoomBySocketId sid activeRooms = Some (key, room) →
  Registry.lookup key activeRooms = Some room ∧ is_Some (Room.getPlayer sid room).
Proof.
  intros Hnd [Hin Hget]%find_Some. split; [by apply elem_lookup|done].
Qed.

Lemma remove_store key room activeRooms :
  Registry.remove key (Registry.store key room activeRooms) = Registry.remove key activeRooms.
Proof.
  unfold Registry.remove.
  induction activeRooms as [|[k r] rest IH]; cbn [Registry.store].
  - rewrite (filter_cons (λ entry : string * Room.t, entry.1 ≠ key) (key, room) []).
    by rewrite decide_False by (cbn; tauto).
  - destruct (decide (k = key)) as [->|Hk].
    + rewrite !(filter_cons (λ entry : string * Room.t, entry.1 ≠ key) (key, _) rest).
      by rewrite !decide_False by (cbn; tauto).
    + rewrite !(filter_cons (λ entry : string * Room.t, entry.1 ≠ key) (k, r) _).
      rewrite !decide_True by done. f_equal. apply IH.
Qed.

Lemma remove_absent key activeRooms :
  Registry.lookup key activeRooms = None → Registry.remove key activeRooms = activeRooms.
Proof.
  unfold Registry.remove.
  induction activeRooms as [|[k r] rest IH]; cbn [Registry.lookup]; [done|].
  case_decide as Hk; [done|]. intros Hx.
  rewrite (filter_cons (λ entry : string * Room.t, entry.1 ≠ key) (k, r) rest).
  rewrite decide_True by done. f_equal. by apply IH.
Qed.

Lemma Forall_remove (P : string * Room.t → Prop) key activeRooms :
  Forall P activeRooms → Forall P (Registry.remove key activeRooms).
Proof.
  rewrite !Forall_forall. intros Hall entry [_ Hin]%list_elem_of_filter. by apply Hall.
Qed.

Lemma handle_roomCode e r r' : (handle e r).1 = Some r' → Room.roomCode r' = Room.roomCode r.
Proof.
  destruct e; cbn.
  - intros [= <-]. unfold on_joinRoom. rewrite reportTo_room. apply addPlayer_roomCode.
  - unfold handleDisconnect, findRoomBySocketId.
    destruct (Room.getPlayer socketId r); [|by intros [= <-]].
    pose proof (removePlayer_roomCode socketId r) as Hrc.
    destruct (Room.removePlayer socketId r) as [[[] r1] out]; [done|]. by intros [= <-].
  - intros [= <-]. unfold on_updateSettings, findRoomBySocketId. rewrite reportTo_room.
    destruct (Room.getPlayer socketId r) as [p|] eqn:Hget; [|done].
    rewrite Hget. repeat case_decide; try done. apply updateSettings_roomCode.
  - intros [= <-]. unfold on_startHiding, findRoomBySocketId. rewrite reportTo_room.
    destruct (Room.getPlayer socketId r) as [p|] eqn:Hget; [|done].
    rewrite Hget. case_decide; [done|]. apply startHidingPhase_roomCode.
  - intros [= <-]. unfold on_confirmHidden, findRoomBySocketId. rewrite logOnly_room.
    destruct (Room.getPlayer socketId r); [|done]. apply confirmPlayerHidden_roomCode.
  - intros [= <-]. unfold on_markSelfFound, findRoomBySocketId. rewrite logOnly_room.
    destruct (Room.getPlayer socketId r); [|done]. apply markPlayerFound_roomCode.
  - intros [= <-]. unfold on_requestPlayAgain, findRoomBySocketId. rewrite reportTo_room.
    destruct (Room.getPlayer socketId r); [|done]. apply requestPlayAgain_roomCode.
  - intros [= <-]. apply preSeekCountdownTick_roomCode.
  - intros [= <-]. apply seekTimerTick_roomCode.
  - intros [= <-]. apply scheduleNextSound_roomCode.
Qed.

(** *** The server and the one-room view *)

Lemma find_here sid r : is_Some (Room.getPlayer sid r) → findRoomBySocketId sid r = Some r.
Proof. unfold findRoomBySocketId. by intros [p ->]. Qed.

Lemma handleDisconnect_target sid key room activeRooms :
  NoDup activeRooms.*1 →
  Forall (λ entry, Room.roomCode entry.2 = entry.1) activeRooms →
  Registry.findRoomBySocketId sid activeRooms = Some (key, room) →
  Registry.handleDisconnect sid activeRooms =
  (match (handleDisconnect sid room).1 with
   | Some room' => Registry.store key room' activeRooms
   | None => Registry.remove key activeRooms
   end, (handleDisconnect sid room).2).
Proof.
  intros Hnd Hcodes Hfind. unfold Registry.handleDisconnect. rewrite Hfind.
  pose proof (find_Some _ _ _ _ Hfind) as [Hin Hget].
  unfold handleDisconnect. rewrite (find_here _ _ Hget).
  pose proof (removePlayer_roomCode sid room) as Hrc.
  destruct (Room.removePlayer sid room) as [[[] room'] out]; cbn in *; [|done].
  rewrite Forall_forall in Hcodes. specialize (Hcodes _ Hin). cbn in Hcodes.
  by rewrite Hrc, Hcodes, remove_store.
Qed.

Lemma handle_target e key activeRooms :
  NoDup activeRooms.*1 →
  Forall (λ entry, Room.roomCode entry.2 = entry.1) activeRooms →
  target e activeRooms = Some key →
  ∃ room e1,
    Registry.lookup key activeRooms = Some room ∧ roomEvent e = Some e1 ∧
    armed e1 room = Registry.armed e activeRooms ∧
    Registry.handle e activeRooms =
    (match (handle e1 room).1 with
     | Some room' => Registry.store key room' activeRooms
     | None => Registry.remove key activeRooms
     end, (handle e1 room).2).
Proof.
  intros Hnd Hcodes.
  assert (∀ sid, fst <$> Registry.findRoomBySocketId sid activeRooms = Some key →
            ∃ room, Registry.findRoomBySocketId sid activeRooms = Some (key, room) ∧
                    Registry.lookup key activeRooms = Some room ∧
                    findRoomBySocketId sid room = Some room) as Hfound.
  { intros sid. destruct (Registry.findRoomBySocketId sid activeRooms) as [[k room]|] eqn:Hfind;
      [|done].
    intros [= ->]. exists room. destruct (find_lookup _ _ _ _ Hnd Hfind) as [Hlk Hget].
    by rewrite (find_here _ _ Hget). }
  assert (∀ code, (if bool_decide (is_Some (Registry.lookup code activeRooms))
                   then Some code else None) = Some key →
            ∃ room, code = key ∧ Registry.lookup key activeRooms = Some room) as Hcode.
  { intros code. case_bool_decide as Hlk; [|done]. intros [= ->]. destruct Hlk as [room Hlk].
    by exists room. }
  destruct e; cbn [target]; try done.
  - intros (room & -> & Hlk)%Hcode. exists room, (joinRoom socketId draws).
    repeat split; try done. cbn. unfold Registry.on_joinRoom. by rewrite Hlk.
  - intros (room & Hfind & Hlk & Hhere)%Hfound. exists room, (leaveRoom socketId).
    repeat split; try done. cbn. unfold Registry.on_leaveRoom. rewrite Hfind.
    by apply handleDisconnect_target.
  - intros (room & Hfind & Hlk & Hhere)%Hfound. exists room, (leaveRoom socketId).
    repeat split; try done. cbn. by apply handleDisconnect_target.
  - intros (room & Hfind & Hlk & Hhere)%Hfound. exists room, (updateSettings socketId settings).
    repeat split; try done. cbn. unfold Registry.on_updateSettings, on_updateSettings.
    by rewrite Hfind, Hhere.
  - intros (room & Hfind & Hlk & Hhere)%Hfound. exists room, (startHiding socketId).
    repeat split; try done. cbn. unfold Registry.on_startHiding, on_startHiding.
    by rewrite Hfind, Hhere.
  - intros (room & Hfind & Hlk & Hhere)%Hfound. exists room, (confirmHidden socketId).
    repeat split; try done. cbn. unfold Registry.on_confirmHidden, on_confirmHidden.
    by rewrite Hfind, Hhere.
  - intros (room & Hfind & Hlk & Hhere)%Hfound. exists room, (markSelfFound socketId).
    repeat split; try done. cbn. unfold Registry.on_markSelfFound, on_markSelfFound.
    by rewrite Hfind, Hhere.
  - intros (room & Hfind & Hlk & Hhere)%Hfound. exists room, (requestPlayAgain socketId draws).
    repeat split; try done. cbn. unfold Registry.on_requestPlayAgain, on_requestPlayAgain.
    by rewrite Hfind, Hhere.
  - intros (room & -> & Hlk)%Hcode. exists room, (preSeekCountdownFires now).
    repeat split; try done.
    + unfold Registry.armed. cbn. by rewrite Hlk.
    + cbn. unfold Registry.onTimer. by rewrite Hlk.
  - intros (room & -> & Hlk)%Hcode. exists room, (seekTimerFires now).
    repeat split; try done.
    + unfold Registry.armed. cbn. by rewrite Hlk.
    + cbn. unfold Registry.onTimer. by rewrite Hlk.
  - intros (room & -> & Hlk)%Hcode. exists room, (soundRotationFires now).
    repeat split; try done.
    + unfold Registry.armed. cbn. by rewrite Hlk.
    + cbn. unfold Registry.onTimer. by rewrite Hlk.
Qed.

(** An event that finds no room: the registry stays, and what is sent is
    at most one error to the socket. *)
Lemma handle_no_target e activeRooms :
  target e activeRooms = None → roomEvent e ≠ None →
  (Registry.handle e activeRooms).1 = activeRooms ∧
  match e with
  | Registry.joinRoom socketId roomCode _ =>
      (Registry.handle e activeRooms).2 =
      [errorMsg socketId (if decide (roomCode ∈ OBJECT_PROTOTYPE_KEYS)
                          then "room.addPlayer is not a function" else "Room not found.")]
  | Registry.updateSettings socketId _ | Registry.startHiding socketId
  | Registry.requestPlayAgain socketId _ =>
      (Registry.handle e activeRooms).2 = [errorMsg socketId "Not currently in a room."]
  | _ => (Registry.handle e activeRooms).2 = []
  end.
Proof.
  assert (∀ sid, fst <$> Registry.findRoomBySocketId sid activeRooms = None →
            Registry.findRoomBySocketId sid activeRooms = None) as Hfound.
  { intros sid. by destruct (Registry.findRoomBySocketId sid activeRooms). }
  assert (∀ code, (if bool_decide (is_Some (Registry.lookup code activeRooms))
                   then Some code else None) = None →
            Registry.lookup code activeRooms = None) as Hcode.
  { intros code. case_bool_decide as Hlk; [done|]. intros _. by apply eq_None_not_Some. }
  destruct e; cbn [target roomEvent]; try done.
  - intros Hlk%Hcode _. cbn. unfold Registry.on_joinRoom. rewrite Hlk. by case_decide.
  - intros Hfind%Hfound _. cbn. unfold Registry.on_leaveRoom. by rewrite Hfind.
  - intros Hfind%Hfound _. cbn. unfold Registry.on_disconnect, Registry.handleDisconnect.
    by rewrite Hfind.
  - intros Hfind%Hfound _. cbn. unfold Registry.on_updateSettings. by rewrite Hfind.
  - intros Hfind%Hfound _. cbn. unfold Registry.on_startHiding. by rewrite Hfind.
  - intros Hfind%Hfound _. cbn. unfold Registry.on_confirmHidden. by rewrite Hfind.
  - intros Hfind%Hfound _. cbn. unfold Registry.on_markSelfFound. by rewrite Hfind.
  - intros Hfind%Hfound _. cbn. unfold Registry.on_requestPlayAgain. by rewrite Hfind.
  - intros Hlk%Hcode _. cbn. unfold Registry.onTimer. by rewrite Hlk.
  - intros Hlk%Hcode _. cbn. unfold Registry.onTimer. by rewrite Hlk.
  - intros Hlk%Hcode _. cbn. unfold Registry.onTimer. by rewrite Hlk.
Qed.

Lemma generateUniqueRoomCode_spec draws activeRooms :
  match Registry.generateUniqueRoomCode draws activeRooms with
  | Return code =>
      ∃ last, 0 ≤ last ≤ Registry.maxAttempts ∧
              code = Registry.candidateCode (draws last) ∧
              Registry.lookup code activeRooms = None ∧
              ∀ a, 0 ≤ a < last →
                   is_Some (Registry.lookup (Registry.candidateCode (draws a)) activeRooms)
  | Throw message =>
      message = "Failed to generate a unique room code after multiple attempts." ∧
      ∀ a, 0 ≤ a ≤ Registry.maxAttempts →
           is_Some (Registry.lookup (Registry.candidateCode (draws a)) activeRooms)
  end.
Proof. apply generateLoop_spec. unfold Registry.maxAttempts. lia. Qed.

Lemma on_createRoom_spec sid codeDraws soundDraws activeRooms :
  match Registry.generateUniqueRoomCode codeDraws activeRooms with
  | Return code =>
      Registry.on_createRoom sid codeDraws soundDraws activeRooms =
      ((activeRooms ++ [(code, createRoom code sid soundDraws)])%list,
       [updateState (Room.getClientState (createRoom code sid soundDraws))])
  | Throw message =>
      Registry.on_createRoom sid codeDraws soundDraws activeRooms =
      (activeRooms, [errorMsg sid message])
  end.
Proof.
  unfold Registry.on_createRoom.
  pose proof (generateUniqueRoomCode_spec codeDraws activeRooms) as Hgen.
  destruct (Registry.generateUniqueRoomCode codeDraws activeRooms) as [code|message]; [|done].
  destruct Hgen as (last & _ & _ & Hfree & _). cbv zeta. unfold Registry.commit.
  rewrite store_store, store_fresh by done.
  assert (∃ p, Room.addPlayer sid soundDraws (Room.new code) =
          (Return p, createRoom code sid soundDraws,
           [updateState (Room.getClientState (createRoom code sid soundDraws))]))
    as [p ->]; [|done].
  unfold createRoom, Room.addPlayer. cbn. eexists. reflexivity.
Qed.

Lemma roomEvent_None e : roomEvent e = None → ∃ sid codeDraws soundDraws, e = Registry.createRoom sid codeDraws soundDraws.
Proof. destruct e; try done. by eauto. Qed.

Lemma createRoom_roomCode code sid draws : Room.roomCode (createRoom code sid draws) = code.
Proof. unfold createRoom. by rewrite addPlayer_roomCode. Qed.

Lemma step_registry activeRooms e activeRooms' :
  RegistryInv activeRooms → Registry.step activeRooms e activeRooms' →
  RegistryInv activeRooms'.
Proof.
  intros [Hnd Hall] [Harmed <-].
  assert (Forall (λ entry : string * Room.t, Room.roomCode entry.2 = entry.1) activeRooms)
    as Hcodes.
  { eapply Forall_impl; [exact Hall|]. by intros entry [? _]. }
  destruct (roomEvent e) as [e1|] eqn:Hev.
  - destruct (target e activeRooms) as [key|] eqn:Htarget.
    + destruct (handle_target _ _ _ Hnd Hcodes Htarget)
        as (room & e1' & Hlk & Hev' & Harmed' & ->).
      assert (e1' = e1) as -> by congruence.
      pose proof (lookup_elem _ _ _ Hlk) as Hin.
      rewrite Forall_forall in Hall. destruct (Hall _ Hin) as (Hrc & Hvalid & Hreach).
      cbn in Hrc, Hvalid, Hreach. cbn [fst].
      destruct (handle e1 room).1 as [room'|] eqn:Hstep.
      * split; [by rewrite store_keys by by rewrite Hlk|].
        apply Forall_store; [by apply Forall_forall|]. cbn.
        split; [by rewrite (handle_roomCode _ _ _ Hstep)|]. split; [done|].
        eapply reachable_step; [exact Hreach|]. split; [by rewrite Harmed'|done].
      * split; [by apply remove_keys_NoDup|]. apply Forall_remove. by apply Forall_forall.
    + destruct (handle_no_target e activeRooms Htarget) as [-> _]; [by rewrite Hev|].
      by split.
  - apply roomEvent_None in Hev as (sid & codeDraws & soundDraws & ->). cbn.
    pose proof (on_createRoom_spec sid codeDraws soundDraws activeRooms) as Hcreate.
    pose proof (generateUniqueRoomCode_spec codeDraws activeRooms) as Hgen.
    destruct (Registry.generateUniqueRoomCode codeDraws activeRooms) as [code|message];
      rewrite Hcreate; [|by split].
    destruct Hgen as (last & _ & -> & Hfree & _). cbn [fst]. split.
    * rewrite fmap_app. apply NoDup_app. split; [done|]. split.
      -- intros k Hk [->|[]%not_elem_of_nil]%elem_of_cons. by apply lookup_None in Hfree.
      -- cbn. apply NoDup_singleton.
    * apply Forall_app. split; [done|]. constructor; [|constructor]. cbn.
      split; [apply createRoom_roomCode|]. split; [apply candidateCode_valid|].
      apply reachable_created.
Qed.

Lemma reachable_registry activeRooms : Registry.reachable activeRooms → RegistryInv activeRooms.
Proof.
  induction 1 as [|activeRooms e activeRooms' _ IH Hstep].
  - split; [apply NoDup_nil_2|constructor].
  - by eapply step_registry.
Qed.

Lemma run_registry es activeRooms activeRooms' :
  Registry.reachable activeRooms → Registry.run es activeRooms = Some activeRooms' →
  Registry.reachable activeRooms'.
Proof.
  revert activeRooms. induction es as [|e es IH]; intros activeRooms Hr; cbn.
  - by intros [= <-].
  - destruct (Registry.armed e activeRooms) eqn:Harmed; [|done].
    apply IH. by eapply Registry.reachable_step.
Qed.

(** *** Departures and the registry *)

Lemma after_registry es :
  is_Some (Registry.run es []) → Registry.reachable (RegistrySamples.after es).
Proof.
  intros [rooms Hrun]. unfold RegistrySamples.after. rewrite Hrun. cbn.
  eapply run_registry; [|exact Hrun]. constructor.
Defined.

Lemma deletePlayer_none sid (ps : list Player.t) :
  (∀ p, p ∈ ps → Player.id p ≠ sid) → Room.deletePlayer sid ps = ps.
Proof.
  unfold Room.deletePlayer. induction ps as [|q ps IH]; intros Hno; [done|].
  rewrite filter_cons, decide_True by (apply Hno; left).
  f_equal. apply IH. intros p Hp. apply Hno. by right.
Qed.

Lemma deletePlayer_length sid (ps : list Player.t) p :
  NoDup (Player.id <$> ps) → Room.lookupPlayer sid ps = Some p →
  length ps = S (length (Room.deletePlayer sid ps)).
Proof.
  induction ps as [|q ps IH]; cbn [Room.lookupPlayer]; [done|].
  rewrite fmap_cons. intros [Hq Hnd]%NoDup_cons. unfold Room.deletePlayer.
  rewrite filter_cons. case_decide as Hid.
  - intros _. rewrite decide_False by (intros Hne; by apply Hne).
    fold (Room.deletePlayer sid ps). rewrite deletePlayer_none; [done|].
    intros p' Hp' Heq. apply Hq. rewrite Hid, <- Heq. by apply list_elem_of_fmap_2.
  - intros Hfind. rewrite decide_True by done. cbn. f_equal. by apply IH.
Qed.

Lemma removePlayer_ids sid r r' out :
  is_Some (Room.getPlayer sid r) →
  Room.removePlayer sid r = (false, r', out) →
  Player.id <$> Room.players r' = Player.id <$> Room.deletePlayer sid (Room.players r).
Proof.
  intros [p0 Hget] Hrm.
  destruct (removePlayer_roster _ _ _ _ _ Hget Hrm) as [_ Hroster].
  apply roster_ids in Hroster. rewrite Hroster.
  case_decide; [|done]. unfold Room._promoteNewHider.
  destruct (Room.sortByNumber _); [done|]. cbn. by rewrite updatePlayer_ids.
Qed.

Lemma handleDisconnect_departure sid r :
  CoreInv r → is_Some (Room.getPlayer sid r) →
  if decide (Room.getPlayerCount r = 1)
  then handleDisconnect sid r = (None, [])
  else ∃ r', (handleDisconnect sid r).1 = Some r' ∧
             Room.getPlayer sid r' = None ∧
             Room.getPlayerCount r' = Room.getPlayerCount r - 1.
Proof.
  intros Hcore [p Hget].
  pose proof (deletePlayer_length sid (Room.players r) p (inv_ids r Hcore) Hget) as Hlen.
  pose proof (removePlayer_last sid r) as Hlast.
  pose proof (removePlayer_last_out sid r) as Hout.
  unfold handleDisconnect. rewrite find_here by by rewrite Hget.
  destruct (Room.removePlayer sid r) as [[del r'] out] eqn:Hrm. cbn in Hlast, Hout.
  unfold Room.getPlayerCount in *. case_decide as Hone.
  - assert (Room.deletePlayer sid (Room.players r) = []) as Hnil.
    { apply length_zero_iff_nil. lia. }
    assert (del = true) as -> by (apply Hlast; split; [by rewrite Hget|done]).
    by rewrite Hout.
  - destruct del.
    { destruct (proj1 Hlast eq_refl) as [_ Hnil]. rewrite Hnil in Hlen. cbn in Hlen. lia. }
    exists r'. split; [done|]. split.
    + apply lookupPlayer_None. eapply removePlayer_gone; [|exact Hrm]. by rewrite Hget.
    + pose proof (removePlayer_ids sid r r' out) as Hids.
      rewrite Hget in Hids. specialize (Hids ltac:(done) Hrm).
      apply (f_equal length) in Hids. rewrite !length_fmap in Hids. lia.
Qed.

(** ** Further properties of a registered room *)

(** X1.  In every registered room the timers go with the phase.  The seek
    timer runs exactly while the room is Seeking, and then the seek start
    time is set; while Waiting or Hiding no start time is set.  The pre-seek
    countdown runs only while Hiding, and then shows a value from 1 to
    [PRE_SEEK_COUNTDOWN_S].  A sound check is pending only while Seeking.
    The room has a winner exactly when the game is over. *)
Theorem timers_follow_phase r :
  reachable r →
  (Room.seekTimerInterval r = true ↔ Room.gameState r = GAME_STATE.SEEKING) ∧
  (Room.gameState r = GAME_STATE.SEEKING → is_Some (Room.seekStartTime r)) ∧
  (Room.gameState r = GAME_STATE.WAITING ∨ Room.gameState r = GAME_STATE.HIDING →
   Room.seekStartTime r = None) ∧
  (Room.preSeekCountdownInterval r = true →
   Room.gameState r = GAME_STATE.HIDING ∧
   1 ≤ Room.preSeekCountdownValue r ≤ PRE_SEEK_COUNTDOWN_S) ∧
  (is_Some (Room.soundRotationTimeout r) → Room.gameState r = GAME_STATE.SEEKING) ∧
  (Room.winner r = None ↔ Room.gameState r ≠ GAME_STATE.GAME_OVER).
Proof.
  intros Hr. destruct (reachable_inv r Hr) as [Hcore _].
  pose proof (reachable_phase r Hr) as Hphase.
  core_destruct Hcore. phase_destruct Hphase.
  split; [split; [done|by intros []%Hseek]|].
  split; [by intros []%Hseek|]. split; [done|]. split; [by split; auto|]. by split.
Qed.

Lemma timers_follow_phase_witness :
  Room.gameState Samples.seeking2 = GAME_STATE.SEEKING ∧
  Room.seekTimerInterval Samples.seeking2 = true ∧
  is_Some (Room.seekStartTime Samples.seeking2) ∧
  Room.winner Samples.seeking2 = None.
Proof.
  assert (Room.gameState Samples.seeking2 = GAME_STATE.SEEKING) as Hgs by by vm_compute.
  destruct (timers_follow_phase Samples.seeking2) as (Htimer & Hstart & _ & _ & _ & Hwin).
  { apply after_reachable. vm_compute. eauto. }
  split; [exact Hgs|]. split; [exact (proj2 Htimer Hgs)|]. split; [exact (Hstart Hgs)|].
  apply Hwin. by vm_compute.
Defined.

(** X2.  In a registered room in the Hiding phase the pre-seek countdown
    runs if and only if every player of the room is ready. *)
Theorem countdown_iff_all_ready r :
  reachable r → Room.gameState r = GAME_STATE.HIDING →
  (Room.preSeekCountdownInterval r = true ↔
   Forall (λ p, Player.isReady p = true) (Room.players r)).
Proof. intros Hr. apply (ph_allReady r), reachable_phase, Hr. Qed.

Lemma countdown_iff_all_ready_witness :
  Room.gameState Samples.hiding2 = GAME_STATE.HIDING ∧
  (Room.preSeekCountdownInterval
     (Samples.after (Samples.toHiding2 ++ [confirmHidden "s1"; confirmHidden "s2"])%list) = true ↔
   Forall (λ p, Player.isReady p = true)
     (Room.players
        (Samples.after (Samples.toHiding2 ++ [confirmHidden "s1"; confirmHidden "s2"])%list))).
Proof.
  split; [by vm_compute|].
  apply (countdown_iff_all_ready
           (Samples.after (Samples.toHiding2 ++ [confirmHidden "s1"; confirmHidden "s2"])%list)).
  - apply after_reachable. vm_compute. eauto.
  - by vm_compute.
Defined.

(** X3.  What the flags and counters of the players of a registered room
    are in each phase: while Waiting or Hiding nobody is found and nobody
    has had a sound played; outside the Hiding phase nobody is ready; and in
    every phase each player's [soundsPlayed] lies between 0 and the room's
    [soundPlaysPerPlayer]. *)
Theorem player_flags_by_phase r :
  reachable r →
  (Room.gameState r = GAME_STATE.WAITING ∨ Room.gameState r = GAME_STATE.HIDING →
   Forall (λ p, Player.isFound p = false ∧ Player.soundsPlayed p = 0) (Room.players r)) ∧
  (Room.gameState r ≠ GAME_STATE.HIDING →
   Forall (λ p, Player.isReady p = false) (Room.players r)) ∧
  Forall (λ p, 0 ≤ Player.soundsPlayed p ≤ Room.soundPlaysPerPlayer r) (Room.players r).
Proof.
  intros Hr. pose proof (reachable_phase r Hr) as Hphase. phase_destruct Hphase. done.
Qed.

Lemma player_flags_by_phase_witness :
  Room.gameState Samples.reveal3 = GAME_STATE.GAME_OVER ∧
  Forall (λ p, Player.isReady p = false) (Room.players Samples.reveal3) ∧
  Forall (λ p, 0 ≤ Player.soundsPlayed p ≤ Room.soundPlaysPerPlayer Samples.reveal3)
    (Room.players Samples.reveal3).
Proof.
  destruct (player_flags_by_phase Samples.reveal3) as (_ & Hready & Hplayed).
  { apply after_reachable. vm_compute. eauto. }
  split; [by vm_compute|]. split; [|exact Hplayed]. apply Hready. by vm_compute.
Defined.

(** X4.  A registered room in the Seeking phase has a player who is not
    found: the game is over as soon as the last one is. *)
Theorem seeking_has_unfound_player r :
  reachable r → Room.gameState r = GAME_STATE.SEEKING →
  ∃ p, p ∈ Room.players r ∧ Player.isFound p = false.
Proof.
  intros Hr Hgs. apply Exists_exists. by apply (ph_unfound r (reachable_phase r Hr)).
Qed.

Lemma seeking_has_unfound_player_witness :
  ∃ p, p ∈ Room.players Samples.seeking3 ∧ Player.isFound p = false.
Proof.
  apply (seeking_has_unfound_player Samples.seeking3).
  - apply after_reachable. vm_compute. eauto.
  - by vm_compute.
Defined.

(** X5.  The sound check pending in a registered room is never scheduled
    sooner than [MIN_SOUND_DELAY_MS] after the one before. *)
Theorem pending_sound_delay_floor r d :
  reachable r → Room.soundRotationTimeout r = Some d → (inject_Z MIN_SOUND_DELAY_MS <= d)%Q.
Proof. intros Hr. apply (ph_delay r), reachable_phase, Hr. Qed.

Lemma pending_sound_delay_floor_witness :
  ∃ d, Room.soundRotationTimeout Samples.seeking2_after_two_cues = Some d ∧
       (inject_Z MIN_SOUND_DELAY_MS <= d)%Q.
Proof.
  eexists. split; [by vm_compute|].
  apply (pending_sound_delay_floor Samples.seeking2_after_two_cues).
  - apply after_reachable. vm_compute. eauto.
  - by vm_compute.
Defined.

(** X6.  Every player of a registered room has an animal sound and an
    unfound sound, each taken from its pool of base sounds. *)
Theorem every_player_has_sounds r : reachable r → Forall hasSounds (Room.players r).
Proof. intros Hr. apply (ph_sounds r), reachable_phase, Hr. Qed.

Lemma every_player_has_sounds_witness :
  length (Room.players Samples.waiting3) = 3%nat ∧
  Forall hasSounds (Room.players Samples.waiting3).
Proof.
  split; [by vm_compute|].
  apply (every_player_has_sounds Samples.waiting3).
  apply after_reachable. vm_compute. eauto.
Defined.

(** X7.  The settings of a registered room stay within their bounds: the
    seek time limit between [MIN_SEEK_TIME_LIMIT_S] and
    [MAX_SEEK_TIME_LIMIT_S], the sound plays per player between
    [MIN_SOUND_PLAYS] and [MAX_SOUND_PLAYS]. *)
Theorem settings_stay_in_range r :
  reachable r →
  MIN_SEEK_TIME_LIMIT_S ≤ Room.seekTimeLimit r ≤ MAX_SEEK_TIME_LIMIT_S ∧
  MIN_SOUND_PLAYS ≤ Room.soundPlaysPerPlayer r ≤ MAX_SOUND_PLAYS.
Proof.
  intros Hr. destruct (reachable_inv r Hr) as [Hcore _].
  split; [apply (inv_limit r Hcore)|apply (inv_plays r Hcore)].
Qed.

Lemma settings_stay_in_range_witness :
  Room.seekTimeLimit
    (Samples.after [updateSettings "s1" (mkSettings (numeric 600) (numeric 1))]) = 600 ∧
  MIN_SEEK_TIME_LIMIT_S ≤
    Room.seekTimeLimit
      (Samples.after [updateSettings "s1" (mkSettings (numeric 600) (numeric 1))]) ≤
    MAX_SEEK_TIME_LIMIT_S ∧
  MIN_SOUND_PLAYS ≤
    Room.soundPlaysPerPlayer
      (Samples.after [updateSettings "s1" (mkSettings (numeric 600) (numeric 1))]) ≤
    MAX_SOUND_PLAYS.
Proof.
  split; [by vm_compute|].
  apply (settings_stay_in_range
           (Samples.after [updateSettings "s1" (mkSettings (numeric 600) (numeric 1))])).
  apply after_reachable. vm_compute. eauto.
Defined.

(** X8.  A registered room goes through the phases in one order only:
    Waiting, Hiding, Seeking, GameOver and back to Waiting.  An event either
    leaves the phase or moves it one place on, and only these events move
    it: [startHiding] out of Waiting, the countdown tick out of Hiding, the
    seek timer tick, [markSelfFound] or a departure out of Seeking, and
    [requestPlayAgain] out of GameOver. *)
Theorem phases_advance_in_order r e r' :
  reachable r → step r e r' →
  Room.gameState r' = Room.gameState r ∨
  (Room.gameState r' = nextPhase (Room.gameState r) ∧ advances e (Room.gameState r) = true).
Proof.
  intros Hr. apply step_phase_cycle. by destruct (reachable_inv r Hr).
Qed.

Lemma phases_advance_in_order_witness :
  Room.gameState Samples.waiting2 = GAME_STATE.WAITING ∧
  (Room.gameState Samples.hiding2 = Room.gameState Samples.waiting2 ∨
   (Room.gameState Samples.hiding2 = nextPhase (Room.gameState Samples.waiting2) ∧
    advances (startHiding "s1") (Room.gameState Samples.waiting2) = true)).
Proof.
  split; [by vm_compute|].
  apply (phases_advance_in_order Samples.waiting2 (startHiding "s1") Samples.hiding2).
  - apply after_reachable. vm_compute. eauto.
  - split; by vm_compute.
Defined.

(** ** What an event sends *)

Lemma errorsOf_elem to message out : errorMsg to message ∈ out → (to, message) ∈ errorsOf out.
Proof. intros Hin. apply list_elem_of_omap. by exists (errorMsg to message). Qed.

Lemma handle_out_cases r e r' :
  (handle e r).1 = Some r' →
  Emits r r' (handle e r).2 ∨
  ∃ sid message,
    (handle e r).2 = [errorMsg sid message] ∧ requester e = Some sid ∧ reports e = true ∧
    Room.gameState r' = Room.gameState r ∧
    Room.activeUnfoundPlayerId r' = Room.activeUnfoundPlayerId r.
Proof.
  intros Hstep. destruct (handle_out r e r' Hstep) as [?|(sid & m & Hout & Hreq & Hrep & Hr')];
    [by left|].
  right. exists sid, m. repeat split; try done.
  all: by destruct Hr' as [->|(? & ? & _ & _ & _ & ->)].
Qed.

(** X9.  What the room members are told is the room as the event left it:
    an event sends at most one [updateState], and it carries the client
    state of the resulting room.  When the event deleted the room, nothing
    is sent at all. *)
Theorem broadcast_is_current e r :
  match (handle e r).1 with
  | Some r' =>
      snapshots (handle e r).2 = [] ∨ snapshots (handle e r).2 = [Room.getClientState r']
  | None => (handle e r).2 = []
  end.
Proof.
  destruct (handle e r).1 as [r'|] eqn:Hstep.
  - destruct (handle_out_cases r e r' Hstep) as [Hem|(sid & m & -> & _)].
    + apply (em_current _ _ _ Hem).
    + by left.
  - by destruct (handle_deleted r e Hstep).
Qed.

(** X10.  An error message goes to the socket that made the request and to
    nobody else; it is then all the event sends, and it comes only from
    [joinRoom], [updateSettings], [startHiding] and [requestPlayAgain].
    The room is left as it was, except that a rejected [updateSettings] may
    have written a valid time limit before it threw. *)
Theorem errors_go_to_the_requester e r r' to message :
  (handle e r).1 = Some r' → errorMsg to message ∈ (handle e r).2 →
  (handle e r).2 = [errorMsg to message] ∧
  requester e = Some to ∧ reports e = true ∧
  (r' = r ∨
   ∃ settings n, e = updateSettings to settings ∧
                 settings_seekTimeLimit settings = numeric n ∧
                 MIN_SEEK_TIME_LIMIT_S ≤ n ≤ MAX_SEEK_TIME_LIMIT_S ∧
                 r' = Room.set_seekTimeLimit n r).
Proof.
  intros Hstep Hin.
  destruct (handle_out r e r' Hstep) as [Hem|(sid & m & Hout & Hreq & Hrep & Hr')].
  - apply errorsOf_elem in Hin. rewrite (em_noError _ _ _ Hem) in Hin.
    by apply not_elem_of_nil in Hin.
  - rewrite Hout in Hin. apply list_elem_of_singleton in Hin. injection Hin as -> ->.
    done.
Qed.

Lemma errors_go_to_the_requester_witness :
  (handle (startHiding "s2") Samples.waiting2).2 =
    [errorMsg "s2" "Only the Hider can start the game."] ∧
  requester (startHiding "s2") = Some "s2" ∧ reports (startHiding "s2") = true ∧
  (Samples.waiting2 = Samples.waiting2 ∨
   ∃ settings n, startHiding "s2" = updateSettings "s2" settings ∧
                 settings_seekTimeLimit settings = numeric n ∧
                 MIN_SEEK_TIME_LIMIT_S ≤ n ≤ MAX_SEEK_TIME_LIMIT_S ∧
                 Samples.waiting2 = Room.set_seekTimeLimit n Samples.waiting2).
Proof.
  apply (errors_go_to_the_requester (startHiding "s2") Samples.waiting2 Samples.waiting2
           "s2" "Only the Hider can start the game.").
  - by vm_compute.
  - assert ((handle (startHiding "s2") Samples.waiting2).2 =
            [errorMsg "s2" "Only the Hider can start the game."]) as -> by by vm_compute.
    constructor.
Defined.

(** X11.  The victory melody is played exactly when the event ends the
    game with the Seekers as winners. *)
Theorem victory_melody_iff_seekers_win e r r' :
  (handle e r).1 = Some r' →
  (playVictoryMelody ∈ (handle e r).2 ↔
   Room.gameState r ≠ GAME_STATE.GAME_OVER ∧ Room.gameState r' = GAME_STATE.GAME_OVER ∧
   Room.winner r' = Some WINNER_TYPE.SEEKERS).
Proof.
  intros Hstep.
  destruct (handle_out_cases r e r' Hstep) as [Hem|(sid & m & -> & _ & _ & Hgs & _)].
  - apply (em_melody _ _ _ Hem).
  - rewrite Hgs. split; [by intros [=]%list_elem_of_singleton|by intros (? & ? & _)].
Qed.

Lemma victory_melody_iff_seekers_win_witness :
  ∃ r', (handle (leaveRoom "s1") Samples.seeking3).1 = Some r' ∧
        (playVictoryMelody ∈ (handle (leaveRoom "s1") Samples.seeking3).2 ↔
         Room.gameState Samples.seeking3 ≠ GAME_STATE.GAME_OVER ∧
         Room.gameState r' = GAME_STATE.GAME_OVER ∧
         Room.winner r' = Some WINNER_TYPE.SEEKERS).
Proof.
  eexists. split; [by vm_compute|].
  apply (victory_melody_iff_seekers_win (leaveRoom "s1") Samples.seeking3). by vm_compute.
Defined.

(** X12.  The reveal and its notifications agree.  A [becomeActiveUnfound]
    goes only to the player who is the active reveal player after the event,
    with that player's own unfound sound; and whenever an event makes a
    player the active reveal player, that player is sent one. *)
Theorem active_reveal_player_is_notified e r r' :
  (handle e r).1 = Some r' →
  (∀ x url, becomeActiveUnfound x url ∈ (handle e r).2 →
     Room.activeUnfoundPlayerId r' = Some x ∧
     ∃ p, Room.getPlayer x r' = Some p ∧ Player.uniqueUnfoundSoundURL p = Some url) ∧
  (∀ x, Room.activeUnfoundPlayerId r' = Some x → Room.activeUnfoundPlayerId r ≠ Some x →
     ∃ url, becomeActiveUnfound x url ∈ (handle e r).2).
Proof.
  intros Hstep.
  destruct (handle_out_cases r e r' Hstep) as [Hem|(sid & m & -> & _ & _ & _ & Hact)].
  - split; [apply (em_activation _ _ _ Hem)|apply (em_activated _ _ _ Hem)].
  - rewrite Hact. split; [by intros x url [=]%list_elem_of_singleton|done].
Qed.

Lemma active_reveal_player_is_notified_witness :
  Room.activeUnfoundPlayerId Samples.reveal3 = Some "s1" ∧
  ∃ r', (handle (markSelfFound "s1") Samples.reveal3).1 = Some r' ∧
        Room.activeUnfoundPlayerId r' = Some "s2" ∧
        ∃ url, becomeActiveUnfound "s2" url ∈ (handle (markSelfFound "s1") Samples.reveal3).2.
Proof.
  split; [by vm_compute|]. eexists. split; [by vm_compute|]. split; [by vm_compute|].
  eapply (active_reveal_player_is_notified (markSelfFound "s1") Samples.reveal3).
  - by vm_compute.
  - by vm_compute.
  - by vm_compute.
Defined.

(** ** The reveal line and the sounds *)

(** X13.  While the reveal runs in a registered room, the reveal line (the
    active reveal player, then the queue) holds exactly the players who are
    not found, each once, in the order of their join numbers. *)
Theorem reveal_line_is_the_unfound_in_order r :
  reachable r → inReveal r →
  (∀ p, p ∈ Room.players r → (Player.isFound p = false ↔ Player.id p ∈ revealLine r)) ∧
  NoDup (revealLine r) ∧
  StronglySorted (numberOrder r) (revealLine r).
Proof.
  intros Hr Hin. destruct (reachable_inv r Hr) as [Hcore Hrev].
  destruct (reachable_complete r Hr Hin) as [Hall Hsorted].
  core_destruct Hcore. reveal_destruct Hrev.
  split; [|split; [|done]].
  - intros p Hp. split; [by apply Hall|]. unfold revealLine.
    rewrite elem_of_app. intros [Hactive|Hqueue]; [|by apply Hq].
    destruct (Room.activeUnfoundPlayerId r) as [x|] eqn:Hx; cbn in Hactive;
      [|by apply not_elem_of_nil in Hactive].
    apply list_elem_of_singleton in Hactive.
    destruct (Hact x eq_refl) as (_ & q & Hq' & Hid & Hfound).
    assert (p = q) as -> by (apply (ids_inj (Room.players r)); congruence). done.
  - unfold revealLine. apply NoDup_app. split; [|split; [|done]].
    + destruct (Room.activeUnfoundPlayerId r); cbn; [apply NoDup_singleton|apply NoDup_nil_2].
    + intros x Hactive. destruct (Room.activeUnfoundPlayerId r) as [y|] eqn:Hy; cbn in Hactive;
        [|by apply not_elem_of_nil in Hactive].
      apply list_elem_of_singleton in Hactive as ->. by destruct (Hact y eq_refl).
Qed.

Lemma reveal_line_is_the_unfound_in_order_witness :
  revealLine Samples.reveal3 = ["s1"; "s2"; "s3"] ∧
  (∀ p, p ∈ Room.players Samples.reveal3 →
        (Player.isFound p = false ↔ Player.id p ∈ revealLine Samples.reveal3)) ∧
  NoDup (revealLine Samples.reveal3) ∧
  StronglySorted (numberOrder Samples.reveal3) (revealLine Samples.reveal3).
Proof.
  split; [by vm_compute|].
  apply (reveal_line_is_the_unfound_in_order Samples.reveal3).
  - apply after_reachable. vm_compute. eauto.
  - split; by vm_compute.
Defined.

Lemma runWithin_distinct n es r r' :
  n ≤ NUM_UNIQUE_SOUND_PAIRS → reachable r → distinctSounds r →
  runWithin n es r = Some r' → reachable r' ∧ distinctSounds r'.
Proof.
  intros Hn. revert r. induction es as [|e es IH]; intros r Hr Hd; cbn [runWithin].
  - case_decide; [|done]. by intros [= <-].
  - case_decide; [|done]. destruct (armed e r) eqn:Harmed; [|done].
    destruct (handle e r).1 as [r1|] eqn:Hstep; [|done]. intros Hrun.
    assert (step r e r1) as Hs by done.
    apply (IH r1); [by eapply reachable_step| |done].
    eapply step_distinct; [by destruct (reachable_inv r Hr)|done..|].
    destruct es; cbn [runWithin] in Hrun; case_decide; try done.
    all: unfold Room.getPlayerCount in *; lia.
Qed.

(** X14.  As long as a room has never had more players than there are
    sound pairs, no two of its players share an animal sound or an unfound
    sound, and the two sets of assigned sounds hold exactly the sounds of
    the players. *)
Theorem sounds_distinct_within_the_pool es roomCode socketId draws r :
  runWithin NUM_UNIQUE_SOUND_PAIRS es (createRoom roomCode socketId draws) = Some r →
  distinctSounds r.
Proof.
  intros Hrun. eapply runWithin_distinct; [|apply reachable_created| |exact Hrun].
  - done.
  - apply createRoom_distinct.
Qed.

Lemma sounds_distinct_within_the_pool_witness :
  runWithin NUM_UNIQUE_SOUND_PAIRS Samples.toReveal3 Samples.start = Some Samples.reveal3 ∧
  distinctSounds Samples.reveal3.
Proof.
  assert (runWithin NUM_UNIQUE_SOUND_PAIRS Samples.toReveal3 Samples.start =
          Some Samples.reveal3) as Hrun by by vm_compute.
  split; [exact Hrun|].
  exact (sounds_distinct_within_the_pool Samples.toReveal3 "ABCDE" "s1" (0%nat, 0%nat)
           Samples.reveal3 Hrun).
Defined.

(** ** Requests and their outcomes *)

(** X15.  When the last player who was not ready confirms, the room and the
    countdown value [PRE_SEEK_COUNTDOWN_S] are sent and the countdown runs.
    Fewer than [PRE_SEEK_COUNTDOWN_S] ticks only lower the countdown value;
    the tick that makes [PRE_SEEK_COUNTDOWN_S] starts the Seeking phase: the
    seek start time is the clock reading of that tick, the countdown is
    off, the seek timer runs, the first sound check is due after
    [MIN_SOUND_DELAY_MS], and every player is reset for seeking. *)
Theorem last_confirmation_starts_the_countdown sid r p nows :
  reachable r → Room.gameState r = GAME_STATE.HIDING →
  Room.getPlayer sid r = Some p → Player.isReady p = false →
  (∀ q, q ∈ Room.players r → Player.id q ≠ sid → Player.isReady q = true) →
  ∃ r1,
    on_confirmHidden sid r =
      (r1, [updateState (Room.getClientState r1); preSeekCountdown PRE_SEEK_COUNTDOWN_S]) ∧
    (Z.of_nat (length nows) < PRE_SEEK_COUNTDOWN_S →
     run (preSeekCountdownFires <$> nows) r1 =
       Some (Room.set_preSeekCountdownValue (PRE_SEEK_COUNTDOWN_S - Z.of_nat (length nows)) r1)) ∧
    (Z.of_nat (length nows) = PRE_SEEK_COUNTDOWN_S →
     ∃ r', run (preSeekCountdownFires <$> nows) r1 = Some r' ∧
           Room.gameState r' = GAME_STATE.SEEKING ∧
           Room.seekStartTime r' = last nows ∧
           Room.preSeekCountdownInterval r' = false ∧
           Room.seekTimerInterval r' = true ∧
           Room.soundRotationTimeout r' = Some (inject_Z MIN_SOUND_DELAY_MS) ∧
           Room.players r' = Player.resetForSeeking <$> Room.players r1).
Proof.
  intros Hr Hgs Hget Hready Hothers. destruct (reachable_inv r Hr) as [Hcore _].
  pose proof (confirm_last_starts_countdown sid r p Hcore (reachable_phase r Hr)
                Hgs Hget Hready Hothers) as Hconfirm.
  cbv zeta in Hconfirm. eexists. split; [exact Hconfirm|].
  match type of Hconfirm with _ = (?x, _) => set (r1 := x) end.
  destruct (countdown_run nows r1) as [Hfew Hall]; [done|done|done|].
  split; [|exact Hall].
  intros Hlen. by destruct (Hfew Hlen) as (rk & -> & ->).
Qed.

Lemma last_confirmation_starts_the_countdown_witness :
  ∃ r1 r',
    on_confirmHidden "s2" (Samples.after (Samples.toHiding2 ++ [confirmHidden "s1"])%list) =
      (r1, [updateState (Room.getClientState r1); preSeekCountdown PRE_SEEK_COUNTDOWN_S]) ∧
    run Samples.countdown r1 = Some r' ∧
    Room.gameState r' = GAME_STATE.SEEKING ∧
    Room.seekStartTime r' = Some 5000.
Proof.
  destruct (last_confirmation_starts_the_countdown "s2"
              (Samples.after (Samples.toHiding2 ++ [confirmHidden "s1"])%list)
              (default (Player.new "" 0 PLAYER_ROLE.SEEKER)
                 (Room.getPlayer "s2"
                    (Samples.after (Samples.toHiding2 ++ [confirmHidden "s1"])%list)))
              (replicate 9 0 ++ [5000])%list)
    as (r1 & Hconfirm & _ & Hall).
  - apply after_reachable. vm_compute. eauto.
  - by vm_compute.
  - by vm_compute.
  - by vm_compute.
  - apply (proj1 (Forall_forall (λ q, Player.id q ≠ "s2" → Player.isReady q = true) _)).
    apply (bool_decide_unpack _). by vm_compute.
  - destruct Hall as (r' & Hrun & Hgs & Hstart & _); [by vm_compute|].
    exists r1, r'. exact (conj Hconfirm (conj Hrun (conj Hgs Hstart))).
Defined.

(** X16.  [startHiding] in a registered room.  When the requester is the
    Hider, the room is Waiting and has at least [MIN_PLAYERS_TO_START]
    players, the request changes the phase to Hiding and nothing else, and
    the room is sent once.  In every other case the requester gets one
    error and the room stays as it was. *)
Theorem startHiding_outcomes sid r :
  reachable r →
  match Room.getPlayer sid r with
  | Some p =>
      if decide (Player.role p = PLAYER_ROLE.HIDER ∧
                 Room.gameState r = GAME_STATE.WAITING ∧
                 MIN_PLAYERS_TO_START ≤ Room.getPlayerCount r)
      then on_startHiding sid r =
             (Room.set_gameState GAME_STATE.HIDING r,
              [updateState (Room.getClientState (Room.set_gameState GAME_STATE.HIDING r))])
      else ∃ message, on_startHiding sid r = (r, [errorMsg sid message])
  | None => ∃ message, on_startHiding sid r = (r, [errorMsg sid message])
  end.
Proof.
  intros Hr. destruct (reachable_inv r Hr) as [Hcore _].
  destruct (Room.getPlayer sid r) as [p|] eqn:Hget;
    [|apply on_startHiding_rejects; by left].
  case_decide as Hok.
  - destruct Hok as (Hrole & Hgs & Hcount).
    by apply (on_startHiding_starts sid r p Hcore (reachable_phase r Hr)).
  - apply on_startHiding_rejects. right.
    destruct (decide (Player.role p = PLAYER_ROLE.HIDER)) as [Hrole|Hrole]; [|by left; eauto].
    right. destruct (decide (Room.gameState r = GAME_STATE.WAITING)) as [Hgs|Hgs];
      [|by left].
    right. apply Z.lt_nge. intros Hcount. by apply Hok.
Qed.

Lemma startHiding_outcomes_witness :
  on_startHiding "s1" Samples.waiting2 =
    (Room.set_gameState GAME_STATE.HIDING Samples.waiting2,
     [updateState (Room.getClientState (Room.set_gameState GAME_STATE.HIDING Samples.waiting2))]) ∧
  ∃ message, on_startHiding "s1" Samples.start = (Samples.start, [errorMsg "s1" message]).
Proof.
  split.
  - assert (reachable Samples.waiting2) as Hr by (apply after_reachable; vm_compute; eauto).
    pose proof (startHiding_outcomes "s1" Samples.waiting2 Hr) as H.
    assert (∃ p, Room.getPlayer "s1" Samples.waiting2 = Some p ∧
                 Player.role p = PLAYER_ROLE.HIDER) as (p & Hget & Hrole)
      by (eexists; split; by vm_compute).
    rewrite Hget in H. rewrite decide_True in H; [exact H|].
    split; [exact Hrole|]. split; by vm_compute.
  - assert (reachable Samples.start) as Hr by constructor.
    pose proof (startHiding_outcomes "s1" Samples.start Hr) as H.
    assert (∃ p, Room.getPlayer "s1" Samples.start = Some p) as (p & Hget)
      by (eexists; by vm_compute).
    rewrite Hget in H. rewrite decide_False in H; [exact H|].
    intros (_ & _ & Hcount). by vm_compute in Hcount.
Defined.

(** X17.  A settings update that succeeds.  Each field that was given is a
    number within its bounds and is now the room's value; a field that was
    not given keeps its value; nothing else in the room changes.  The room
    is sent exactly when a value changed.  Sending the same settings again
    changes nothing and sends nothing. *)
Theorem updateSettings_applies_and_is_idempotent settings r r1 out1 :
  Room.updateSettings settings r = (Return (), r1, out1) →
  (∀ n, settings_seekTimeLimit settings = numeric n →
        Room.seekTimeLimit r1 = n ∧ MIN_SEEK_TIME_LIMIT_S ≤ n ≤ MAX_SEEK_TIME_LIMIT_S) ∧
  (settings_seekTimeLimit settings = undefined → Room.seekTimeLimit r1 = Room.seekTimeLimit r) ∧
  settings_seekTimeLimit settings ≠ notNumeric ∧
  (∀ n, settings_soundPlaysPerPlayer settings = numeric n →
        Room.soundPlaysPerPlayer r1 = n ∧ MIN_SOUND_PLAYS ≤ n ≤ MAX_SOUND_PLAYS) ∧
  (settings_soundPlaysPerPlayer settings = undefined →
   Room.soundPlaysPerPlayer r1 = Room.soundPlaysPerPlayer r) ∧
  settings_soundPlaysPerPlayer settings ≠ notNumeric ∧
  r1 = Room.set_soundPlaysPerPlayer (Room.soundPlaysPerPlayer r1)
         (Room.set_seekTimeLimit (Room.seekTimeLimit r1) r) ∧
  ((r1 = r ∧ out1 = []) ∨ (r1 ≠ r ∧ out1 = [updateState (Room.getClientState r1)])) ∧
  Room.updateSettings settings r1 = (Return (), r1, []).
Proof. apply updateSettings_twice. Qed.

Lemma updateSettings_applies_and_is_idempotent_witness :
  ∃ r1,
    Room.updateSettings (mkSettings (numeric 60) undefined) Samples.waiting2 =
      (Return (), r1, [updateState (Room.getClientState r1)]) ∧
    Room.seekTimeLimit r1 = 60 ∧
    Room.soundPlaysPerPlayer r1 = Room.soundPlaysPerPlayer Samples.waiting2 ∧
    Room.updateSettings (mkSettings (numeric 60) undefined) r1 = (Return (), r1, []).
Proof.
  exists (Room.set_seekTimeLimit 60 Samples.waiting2).
  assert (Room.updateSettings (mkSettings (numeric 60) undefined) Samples.waiting2 =
          (Return (), Room.set_seekTimeLimit 60 Samples.waiting2,
           [updateState (Room.getClientState (Room.set_seekTimeLimit 60 Samples.waiting2))]))
    as H by by vm_compute.
  destruct (updateSettings_applies_and_is_idempotent _ _ _ _ H)
    as (Htime & _ & _ & _ & Hplays & _ & _ & _ & Hagain).
  exact (conj H (conj (proj1 (Htime 60 eq_refl)) (conj (Hplays eq_refl) Hagain))).
Defined.

(** X18.  [joinRoom] for a room.  When the room is Waiting and the socket
    is not yet a player of it, the socket is added as the last player, with
    the next number, as a Seeker (as the Hider if the room had no player),
    with sounds picked for that number; it can then be looked up, the other
    players are as before, and the room is sent once.  In every other case
    the requester gets one error and the room stays as it was. *)
Theorem joinRoom_outcomes sid draws r :
  if decide (Room.gameState r = GAME_STATE.WAITING ∧ ¬ is_Some (Room.getPlayer sid r))
  then
    ∃ p a u,
      let r1 :=
        Room.set_players (Room.players r ++ [p])%list
          (Room.set_assignedUnfoundSounds (Room.addSound u (Room.assignedUnfoundSounds r))
             (Room.set_assignedAnimalSounds (Room.addSound a (Room.assignedAnimalSounds r)) r)) in
      on_joinRoom sid draws r = (r1, [updateState (Room.getClientState r1)]) ∧
      p = Player.set_sounds a u
            (Player.new sid (Room.getPlayerCount r + 1)
               (if decide (Room.getPlayerCount r = 0) then PLAYER_ROLE.HIDER
                else PLAYER_ROLE.SEEKER)) ∧
      a = Room.pickSound BASE_ANIMAL_SOUNDS (Room.assignedAnimalSounds r) draws.1
            (Room.getPlayerCount r + 1) ∧
      u = Room.pickSound BASE_UNFOUND_SOUNDS (Room.assignedUnfoundSounds r) draws.2
            (Room.getPlayerCount r + 1) ∧
      Room.getPlayer sid r1 = Some p ∧
      (∀ other, other ≠ sid → Room.getPlayer other r1 = Room.getPlayer other r) ∧
      Room.getPlayerCount r1 = Room.getPlayerCount r + 1
  else ∃ message, on_joinRoom sid draws r = (r, [errorMsg sid message]).
Proof.
  case_decide as Hok.
  - destruct Hok as [Hgs Hnew]. apply on_joinRoom_appends; [done|].
    by apply eq_None_not_Some.
  - apply on_joinRoom_rejects.
    destruct (decide (Room.gameState r = GAME_STATE.WAITING)) as [Hgs|Hgs]; [|by left].
    right. destruct (Room.getPlayer sid r) as [p|] eqn:Hget; [done|].
    exfalso. apply Hok. split; [done|]. by intros [].
Qed.

(** X19.  A player who joins a Waiting room and leaves it again leaves the
    room exactly as it was before, provided the room was not empty and
    fewer sounds were assigned in it than each pool holds; the room is sent
    to those who stay. *)
Theorem join_then_leave_restores_the_room sid draws r :
  Room.gameState r = GAME_STATE.WAITING → Room.getPlayer sid r = None →
  Room.players r ≠ [] →
  (size (Room.assignedAnimalSounds r) < length BASE_ANIMAL_SOUNDS)%nat →
  (size (Room.assignedUnfoundSounds r) < length BASE_UNFOUND_SOUNDS)%nat →
  handleDisconnect sid (on_joinRoom sid draws r).1 =
    (Some r, [updateState (Room.getClientState r)]).
Proof. apply join_then_leave. Qed.

Lemma join_then_leave_restores_the_room_witness :
  Room.getPlayerCount (on_joinRoom "s9" (3%nat, 4%nat) Samples.waiting2).1 = 3 ∧
  handleDisconnect "s9" (on_joinRoom "s9" (3%nat, 4%nat) Samples.waiting2).1 =
    (Some Samples.waiting2, [updateState (Room.getClientState Samples.waiting2)]).
Proof.
  split; [by vm_compute|].
  apply (join_then_leave_restores_the_room "s9" (3%nat, 4%nat) Samples.waiting2).
  - by vm_compute.
  - by vm_compute.
  - by vm_compute.
  - vm_compute. lia.
  - vm_compute. lia.
Defined.

(** ** The registry of rooms *)

Lemma generateLoop_enough fuel draws activeRooms :
  (Z.to_nat (Registry.maxAttempts + 2) ≤ fuel)%nat →
  Registry.generateLoop fuel 0 draws activeRooms =
  Registry.generateUniqueRoomCode draws activeRooms.
Proof.
  unfold Registry.generateUniqueRoomCode. induction 1 as [|fuel Hle IH]; [done|].
  rewrite generateLoop_fuel; [done|]. unfold Registry.maxAttempts in *. lia.
Qed.

(** X20.  [generateUniqueRoomCode] tries the candidates of at most
    [maxAttempts + 1] passes, in order.  It returns the first one that is
    not a key of the registry: a code of [ROOM_CODE_LENGTH] letters of
    [ROOM_CODE_CHARS], which names no member of [Object.prototype].  It
    throws only when all these candidates are keys of the registry.  The
    loop needs no more than [maxAttempts + 2] passes. *)
Theorem generateUniqueRoomCode_first_free_candidate draws activeRooms :
  match Registry.generateUniqueRoomCode draws activeRooms with
  | Return code =>
      validCode code ∧ (code ∉ OBJECT_PROTOTYPE_KEYS) ∧
      Registry.lookup code activeRooms = None ∧
      ∃ last, 0 ≤ last ≤ Registry.maxAttempts ∧
              code = Registry.candidateCode (draws last) ∧
              ∀ a, 0 ≤ a < last →
                   is_Some (Registry.lookup (Registry.candidateCode (draws a)) activeRooms)
  | Throw message =>
      message = "Failed to generate a unique room code after multiple attempts." ∧
      ∀ a, 0 ≤ a ≤ Registry.maxAttempts →
           is_Some (Registry.lookup (Registry.candidateCode (draws a)) activeRooms)
  end ∧
  ∀ fuel, (Z.to_nat (Registry.maxAttempts + 2) ≤ fuel)%nat →
          Registry.generateLoop fuel 0 draws activeRooms =
          Registry.generateUniqueRoomCode draws activeRooms.
Proof.
  split; [|intros fuel; apply generateLoop_enough].
  pose proof (generateUniqueRoomCode_spec draws activeRooms) as Hgen.
  destruct (Registry.generateUniqueRoomCode draws activeRooms) as [code|message]; [|done].
  destruct Hgen as (last & Hlast & -> & Hfree & Hbefore).
  split; [apply candidateCode_valid|].
  split; [apply validCode_not_inherited, candidateCode_valid|]. split; [done|].
  by exists last.
Qed.

(** X21.  [createRoom].  When a code is generated, a new room is
    registered under it, after the rooms that were there, and these stay as
    they were.  The new room carries the code, is Waiting, and has the
    requester as its only player, number 1 and Hider; it is sent once.
    When no code is generated, the registry stays as it was and the
    requester gets the error. *)
Theorem createRoom_registers_a_new_room sid codeDraws soundDraws activeRooms :
  match Registry.generateUniqueRoomCode codeDraws activeRooms with
  | Return code =>
      ∃ room p,
        Registry.on_createRoom sid codeDraws soundDraws activeRooms =
          ((activeRooms ++ [(code, room)])%list, [updateState (Room.getClientState room)]) ∧
        room = createRoom code sid soundDraws ∧
        Room.roomCode room = code ∧ Room.gameState room = GAME_STATE.WAITING ∧
        Room.players room = [p] ∧ Player.id p = sid ∧ Player.number p = 1 ∧
        Player.role p = PLAYER_ROLE.HIDER
  | Throw message =>
      Registry.on_createRoom sid codeDraws soundDraws activeRooms =
        (activeRooms, [errorMsg sid message])
  end.
Proof.
  pose proof (on_createRoom_spec sid codeDraws soundDraws activeRooms) as Hcreate.
  destruct (Registry.generateUniqueRoomCode codeDraws activeRooms) as [code|message]; [|done].
  eexists _, _. split; [exact Hcreate|]. split; [done|].
  rewrite createRoom_eq. cbv zeta. cbn. done.
Qed.

(** X22.  In every state of the server, no two rooms are registered under
    one code; each room is registered under its own [roomCode], which is a
    code of [ROOM_CODE_LENGTH] letters of [ROOM_CODE_CHARS]; and each room
    is in a state of the one-room view, so that what holds of every
    registered room there holds of every room of the server. *)
Theorem registry_is_well_formed activeRooms :
  Registry.reachable activeRooms →
  NoDup activeRooms.*1 ∧
  ∀ key room, Registry.lookup key activeRooms = Some room →
    Room.roomCode room = key ∧ validCode key ∧ reachable room ∧
    RoomInv room ∧ PhaseInv room.
Proof.
  intros [Hnd Hall]%reachable_registry. split; [done|].
  intros key room Hin%lookup_elem. rewrite Forall_forall in Hall.
  destruct (Hall _ Hin) as (Hcode & Hvalid & Hr). cbn in *.
  split; [done|]. split; [done|]. split; [done|].
  split; [by apply reachable_inv|by apply reachable_phase].
Qed.

Lemma registry_is_well_formed_witness :
  RegistrySamples.twoRooms.*1 = ["AAAAA"; "BBBBB"] ∧
  NoDup RegistrySamples.twoRooms.*1 ∧
  ∀ key room, Registry.lookup key RegistrySamples.twoRooms = Some room →
    Room.roomCode room = key ∧ validCode key ∧ reachable room ∧
    RoomInv room ∧ PhaseInv room.
Proof.
  split; [by vm_compute|].
  apply (registry_is_well_formed RegistrySamples.twoRooms).
  apply after_registry. vm_compute. eauto.
Defined.

Lemma handle_local e activeRooms key :
  RegistryInv activeRooms → target e activeRooms = Some key →
  ∃ room e1,
    Registry.lookup key activeRooms = Some room ∧ roomEvent e = Some e1 ∧
    armed e1 room = Registry.armed e activeRooms ∧
    Registry.handle e activeRooms =
      (match (handle e1 room).1 with
       | Some room' => Registry.store key room' activeRooms
       | None => Registry.remove key activeRooms
       end, (handle e1 room).2) ∧
    ∀ other, other ≠ key →
      Registry.lookup other (Registry.handle e activeRooms).1 =
      Registry.lookup other activeRooms.
Proof.
  intros [Hnd Hall] Htarget.
  assert (Forall (λ entry : string * Room.t, Room.roomCode entry.2 = entry.1) activeRooms)
    as Hcodes.
  { eapply Forall_impl; [exact Hall|]. by intros entry [? _]. }
  destruct (handle_target _ _ _ Hnd Hcodes Htarget) as (room & e1 & Hlk & Hev & Harmed & Heq).
  exists room, e1. repeat split; try done.
  intros other Hne. rewrite Heq. cbn [fst].
  destruct (handle e1 room).1; [by apply lookup_store_ne|by apply lookup_remove_ne].
Qed.

(** X23.  An event that finds its room (by the code it names, or as the
    first room the socket is a player of) does to that room what the
    one-room view says, with the same emissions: the resulting room is
    stored under the same code, or the code is deleted when the room became
    empty.  Every other room of the server stays registered as it was. *)
Theorem event_acts_on_its_room_only e activeRooms key :
  Registry.reachable activeRooms → target e activeRooms = Some key →
  ∃ room e1,
    Registry.lookup key activeRooms = Some room ∧ roomEvent e = Some e1 ∧
    armed e1 room = Registry.armed e activeRooms ∧
    Registry.handle e activeRooms =
      (match (handle e1 room).1 with
       | Some room' => Registry.store key room' activeRooms
       | None => Registry.remove key activeRooms
       end, (handle e1 room).2) ∧
    ∀ other, other ≠ key →
      Registry.lookup other (Registry.handle e activeRooms).1 =
      Registry.lookup other activeRooms.
Proof. intros Hr. apply handle_local. by apply reachable_registry. Qed.

Lemma event_acts_on_its_room_only_witness :
  target (Registry.startHiding "s2") RegistrySamples.twoRooms = Some "BBBBB" ∧
  ∃ room e1,
    Registry.lookup "BBBBB" RegistrySamples.twoRooms = Some room ∧
    roomEvent (Registry.startHiding "s2") = Some e1 ∧
    armed e1 room = Registry.armed (Registry.startHiding "s2") RegistrySamples.twoRooms ∧
    Registry.handle (Registry.startHiding "s2") RegistrySamples.twoRooms =
      (match (handle e1 room).1 with
       | Some room' => Registry.store "BBBBB" room' RegistrySamples.twoRooms
       | None => Registry.remove "BBBBB" RegistrySamples.twoRooms
       end, (handle e1 room).2) ∧
    ∀ other, other ≠ "BBBBB" →
      Registry.lookup other
        (Registry.handle (Registry.startHiding "s2") RegistrySamples.twoRooms).1 =
      Registry.lookup other RegistrySamples.twoRooms.
Proof.
  split; [by vm_compute|].
  apply (event_acts_on_its_room_only (Registry.startHiding "s2") RegistrySamples.twoRooms).
  - apply after_registry. vm_compute. eauto.
  - by vm_compute.
Defined.

(** X24.  A request that finds no room changes nothing in the registry.
    [updateSettings], [startHiding] and [requestPlayAgain] answer the
    requester with "Not currently in a room."; [joinRoom] answers with
    "Room not found.", or, when the code names a member of
    [Object.prototype], with the message of the [TypeError] that the call of
    [addPlayer] on that member throws; [leaveRoom], [disconnect],
    [confirmHidden] and [markSelfFound] send nothing. *)
Theorem request_without_room_changes_nothing e activeRooms :
  target e activeRooms = None → roomEvent e ≠ None →
  (Registry.handle e activeRooms).1 = activeRooms ∧
  match e with
  | Registry.joinRoom socketId roomCode _ =>
      (Registry.handle e activeRooms).2 =
      [errorMsg socketId (if decide (roomCode ∈ OBJECT_PROTOTYPE_KEYS)
                          then "room.addPlayer is not a function" else "Room not found.")]
  | Registry.updateSettings socketId _ | Registry.startHiding socketId
  | Registry.requestPlayAgain socketId _ =>
      (Registry.handle e activeRooms).2 = [errorMsg socketId "Not currently in a room."]
  | _ => (Registry.handle e activeRooms).2 = []
  end.
Proof. apply handle_no_target. Qed.

Lemma request_without_room_changes_nothing_witness :
  (Registry.handle (Registry.joinRoom "s9" "toString" (0%nat, 0%nat))
     RegistrySamples.twoRooms).1 = RegistrySamples.twoRooms ∧
  (Registry.handle (Registry.joinRoom "s9" "toString" (0%nat, 0%nat))
     RegistrySamples.twoRooms).2 = [errorMsg "s9" "room.addPlayer is not a function"].
Proof.
  apply (request_without_room_changes_nothing
           (Registry.joinRoom "s9" "toString" (0%nat, 0%nat)) RegistrySamples.twoRooms).
  - by vm_compute.
  - done.
Defined.

(** X25.  When a socket disconnects or leaves, the first room it is a
    player of loses it.  If it was the only player there, the room's code
    is deleted from the registry and nothing is sent; the code is then free
    again.  Otherwise the room stays registered under its code with one
    player fewer, and the socket is no player of it any more. *)
Theorem room_is_deleted_with_its_last_player e sid activeRooms key room :
  Registry.reachable activeRooms →
  e = Registry.disconnect sid ∨ e = Registry.leaveRoom sid →
  Registry.findRoomBySocketId sid activeRooms = Some (key, room) →
  if decide (Room.getPlayerCount room = 1)
  then Registry.handle e activeRooms = (Registry.remove key activeRooms, []) ∧
       Registry.lookup key (Registry.handle e activeRooms).1 = None
  else ∃ room',
         Registry.lookup key (Registry.handle e activeRooms).1 = Some room' ∧
         Room.getPlayer sid room' = None ∧
         Room.getPlayerCount room' = Room.getPlayerCount room - 1 ∧
         (Registry.handle e activeRooms).1.*1 = activeRooms.*1.
Proof.
  intros Hr He Hfind. pose proof (reachable_registry _ Hr) as [Hnd Hall].
  assert (Forall (λ entry : string * Room.t, Room.roomCode entry.2 = entry.1) activeRooms)
    as Hcodes.
  { eapply Forall_impl; [exact Hall|]. by intros entry [? _]. }
  destruct (find_lookup _ _ _ _ Hnd Hfind) as [Hlk Hget].
  assert (Registry.handle e activeRooms = Registry.handleDisconnect sid activeRooms) as ->.
  { destruct He as [->| ->]; cbn; [done|]. unfold Registry.on_leaveRoom. by rewrite Hfind. }
  rewrite (handleDisconnect_target _ _ _ _ Hnd Hcodes Hfind).
  rewrite Forall_forall in Hall. destruct (Hall _ (lookup_elem _ _ _ Hlk)) as (_ & _ & Hroom).
  cbn in Hroom. destruct (reachable_inv _ Hroom) as [Hcore _].
  pose proof (handleDisconnect_departure sid room Hcore Hget) as Hdep.
  case_decide as Hone.
  - rewrite Hdep. cbn. split; [done|]. apply lookup_remove.
  - destruct Hdep as (room' & Hstep & Hgone & Hcount). rewrite Hstep. cbn [fst].
    exists room'. split; [apply lookup_store|]. split; [done|]. split; [done|].
    apply store_keys. by rewrite Hlk.
Qed.

Lemma room_is_deleted_with_its_last_player_witness :
  Registry.handle (Registry.disconnect "s1") RegistrySamples.twoRooms =
    (Registry.remove "AAAAA" RegistrySamples.twoRooms, []) ∧
  Registry.lookup "AAAAA"
    (Registry.handle (Registry.disconnect "s1") RegistrySamples.twoRooms).1 = None.
Proof.
  assert (∃ room, Registry.findRoomBySocketId "s1" RegistrySamples.twoRooms =
                    Some ("AAAAA", room) ∧ Room.getPlayerCount room = 1)
    as (room & Hfind & Hone) by (eexists; split; by vm_compute).
  pose proof (room_is_deleted_with_its_last_player (Registry.disconnect "s1") "s1"
                RegistrySamples.twoRooms "AAAAA" room) as H.
  rewrite decide_True in H by exact Hone. apply H.
  - apply after_registry. vm_compute. eauto.
  - by left.
  - exact Hfind.
Defined.

(** X26.  A disconnect takes the socket out of the first room it is a
    player of, and out of no other: a room registered under another code
    that has the socket among its players keeps it, and the socket is still
    found in a room afterwards. *)
Theorem disconnect_leaves_the_other_rooms_of_a_socket sid activeRooms key room other room2 :
  Registry.reachable activeRooms →
  Registry.findRoomBySocketId sid activeRooms = Some (key, room) →
  other ≠ key → Registry.lookup other activeRooms = Some room2 →
  is_Some (Room.getPlayer sid room2) →
  Registry.lookup other (Registry.handle (Registry.disconnect sid) activeRooms).1 =
    Some room2 ∧
  is_Some (Registry.findRoomBySocketId sid
             (Registry.handle (Registry.disconnect sid) activeRooms).1).
Proof.
  intros Hr Hfind Hne Hlk Hget.
  destruct (handle_local (Registry.disconnect sid) activeRooms key)
    as (_ & _ & _ & _ & _ & _ & Hlocal).
  { by apply reachable_registry. }
  { cbn. by rewrite Hfind. }
  rewrite Hlocal by done. split; [done|].
  destruct (Registry.findRoomBySocketId sid
              (Registry.handle (Registry.disconnect sid) activeRooms).1)
    as [found|] eqn:Hafter; [by eexists|].
  exfalso. rewrite find_None, Forall_forall in Hafter.
  rewrite <- (Hlocal other Hne) in Hlk. apply lookup_elem in Hlk.
  specialize (Hafter _ Hlk). cbn in Hafter. rewrite Hafter in Hget. by destruct Hget.
Qed.

Lemma disconnect_leaves_the_other_rooms_of_a_socket_witness :
  ∃ room2,
    Registry.lookup "BBBBB" RegistrySamples.sameSocketTwice = Some room2 ∧
    Registry.lookup "BBBBB"
      (Registry.handle (Registry.disconnect "s1") RegistrySamples.sameSocketTwice).1 =
      Some room2 ∧
    is_Some (Registry.findRoomBySocketId "s1"
               (Registry.handle (Registry.disconnect "s1") RegistrySamples.sameSocketTwice).1).
Proof.
  assert (∃ room room2,
            Registry.findRoomBySocketId "s1" RegistrySamples.sameSocketTwice =
              Some ("AAAAA", room) ∧
            Registry.lookup "BBBBB" RegistrySamples.sameSocketTwice = Some room2 ∧
            is_Some (Room.getPlayer "s1" room2))
    as (room & room2 & Hfind & Hlk & Hget).
  { eexists _, _. split; [by vm_compute|]. split; [by vm_compute|]. vm_compute. eauto. }
  exists room2. split; [exact Hlk|].
  apply (disconnect_leaves_the_other_rooms_of_a_socket "s1" RegistrySamples.sameSocketTwice
           "AAAAA" room "BBBBB" room2).
  - apply after_registry. vm_compute. eauto.
  - exact Hfind.
  - done.
  - exact Hlk.
  - exact Hget.
Defined.
